(** * chatmymusic-be: a shallow embedding of the relay server

    The server (an Express app, [server/index.ts] with its [chat.ts] router)
    signs and verifies stateless OAuth state tokens, proxies a handful of
    Spotify calls with one refresh-and-retry, and forwards a compacted
    snapshot to a chat endpoint.  This file embeds those functions as Rocq
    functions and proves the properties the specification states of them,
    and then further properties of the same code, of the endpoint that
    [chat.ts] builds from the environment, and of the earlier server
    ([src/index.ts]) that the repository still holds.

    Conventions of the embedding.
    - A JavaScript string is carried as the Rocq [string] of its UTF-8
      bytes; [Buffer.from(s)] and [buf.toString("utf8")] are then the
      passage between [string] and [list ascii].
    - A JavaScript number is carried exactly: integers as [Z], other finite
      decimals as a mantissa and a count of fraction digits, and the three
      non-finite values by name.  The functions do not round; the decimals
      that stand for an IEEE double are those [Double.is_double] holds of,
      and a statement that shows a number in print is made of values all
      of whose numbers are such ([doubles]).  Every number the program
      itself makes (millisecond clocks, lengths) is an integer far below
      2^53.
    - A function that can throw returns a [result]; a handler runs in a
      state monad over the log of upstream requests and the Express
      response under construction.
    - Calls that [Promise.all] runs together are written await by await
      ([Task]) and take turns in the order the answers arrive, which the
      environment gives ([arrival]). *)

From Stdlib Require Import String Ascii.
From Stdlib Require Import ZArith List Bool Lia Arith PeanoNat.
Import ListNotations.
Local Open Scope string_scope.
Local Open Scope list_scope.
Local Open Scope Z_scope.

(** String concatenation, as in a template literal. *)
Infix "+++" := String.append (right associativity, at level 60).

Set Implicit Arguments.

(** ** Exceptions and results *)

Inductive exn : Type :=
| TypeError (msg : string)
| RangeError (msg : string)
| SyntaxError (msg : string)
| Error (msg : string).

(** [e.message] *)
Definition message (e : exn) : string :=
  match e with
  | TypeError m | RangeError m | SyntaxError m | Error m => m
  end.

Inductive result (A : Type) : Type :=
| Ok (a : A)
| Throw (e : exn).
Arguments Ok {A} a.
Arguments Throw {A} e.

Definition rbind {A B} (r : result A) (k : A -> result B) : result B :=
  match r with
  | Ok a => k a
  | Throw e => Throw e
  end.

Declare Scope result_scope.
Delimit Scope result_scope with result.
Notation "x <-! r ; k" := (rbind r (fun x => k))
  (at level 61, r at next level, right associativity) : result_scope.

(** ** Bytes *)

Definition byte_val (c : ascii) : Z := Z.of_N (N_of_ascii c).
Definition byte_of (z : Z) : ascii := ascii_of_N (Z.to_N (z mod 256)).

Definition bytes_of_string (s : string) : list ascii := list_ascii_of_string s.
Definition string_of_bytes (l : list ascii) : string := string_of_list_ascii l.

(** ** SHA-256 and HMAC (FIPS 180-4, RFC 2104), the primitive behind
    [crypto.createHmac("sha256", key).update(msg).digest()] *)

Module SHA256.

Definition mask32 : Z := 0xFFFFFFFF.
Definition add32 (x y : Z) : Z := Z.land (x + y) mask32.
Definition rotr (n x : Z) : Z :=
  Z.lor (Z.shiftr x n) (Z.land (Z.shiftl x (32 - n)) mask32).
Definition shr (n x : Z) : Z := Z.shiftr x n.
Definition not32 (x : Z) : Z := Z.lxor x mask32.

Definition Ch (x y z : Z) : Z := Z.lxor (Z.land x y) (Z.land (not32 x) z).
Definition Maj (x y z : Z) : Z :=
  Z.lxor (Z.lxor (Z.land x y) (Z.land x z)) (Z.land y z).
Definition Sigma0 (x : Z) : Z := Z.lxor (Z.lxor (rotr 2 x) (rotr 13 x)) (rotr 22 x).
Definition Sigma1 (x : Z) : Z := Z.lxor (Z.lxor (rotr 6 x) (rotr 11 x)) (rotr 25 x).
Definition sigma0 (x : Z) : Z := Z.lxor (Z.lxor (rotr 7 x) (rotr 18 x)) (shr 3 x).
Definition sigma1 (x : Z) : Z := Z.lxor (Z.lxor (rotr 17 x) (rotr 19 x)) (shr 10 x).

(** The constants are fractional parts of roots of the first primes: the
    first 32 bits of the square roots of the first 8 for the initial hash,
    of the cube roots of the first 64 for the rounds. *)
Definition is_prime (n : nat) : bool :=
  forallb (fun d => negb (n mod d =? 0)%nat) (seq 2 (n - 2)).

Definition primes (count : nat) : list Z :=
  map Z.of_nat (firstn count (filter is_prime (seq 2 400))).

(** The largest [r' >= r], equal to [r] above bit [bits], with [r' ^ k <= n]. *)
Fixpoint root_bits (k : Z) (bits : nat) (n r : Z) : Z :=
  match bits with
  | O => r
  | S b =>
      let r' := r + 2 ^ Z.of_nat b in
      if r' ^ k <=? n then root_bits k b n r' else root_bits k b n r
  end.

Definition root_fraction (k p : Z) : Z :=
  Z.land (root_bits k 40 (p * 2 ^ (32 * k)) 0) mask32.

Definition K : list Z := Eval vm_compute in map (root_fraction 3) (primes 64).

Record state : Type := mkState { ha : Z; hb : Z; hc : Z; hd : Z; he : Z; hf : Z; hg : Z; hh : Z }.

Definition H0 : state :=
  Eval vm_compute in
    match map (root_fraction 2) (primes 8) with
    | [a; b; c; d; e; f; g; h] => mkState a b c d e f g h
    | _ => mkState 0 0 0 0 0 0 0 0
    end.

(** Big-endian words of a block of bytes. *)
Fixpoint words (bs : list Z) : list Z :=
  match bs with
  | b0 :: b1 :: b2 :: b3 :: rest =>
      (Z.lor (Z.shiftl b0 24) (Z.lor (Z.shiftl b1 16) (Z.lor (Z.shiftl b2 8) b3))) :: words rest
  | _ => []
  end.

(** The message schedule: [w] holds the words so far, newest first. *)
Fixpoint extend (n : nat) (w : list Z) : list Z :=
  match n with
  | O => w
  | S n' =>
      let wt := add32 (add32 (sigma1 (nth 1 w 0)) (nth 6 w 0))
                      (add32 (sigma0 (nth 14 w 0)) (nth 15 w 0)) in
      extend n' (wt :: w)
  end.

Definition schedule (block : list Z) : list Z := rev (extend 48 (rev (words block))).

Definition round (s : state) (kw : Z * Z) : state :=
  let (k, w) := kw in
  let t1 := add32 (add32 (add32 (hh s) (Sigma1 (he s))) (add32 (Ch (he s) (hf s) (hg s)) k)) w in
  let t2 := add32 (Sigma0 (ha s)) (Maj (ha s) (hb s) (hc s)) in
  mkState (add32 t1 t2) (ha s) (hb s) (hc s) (add32 (hd s) t1) (he s) (hf s) (hg s).

Definition compress (h : state) (block : list Z) : state :=
  let s := fold_left round (combine K (schedule block)) h in
  mkState (add32 (ha h) (ha s)) (add32 (hb h) (hb s)) (add32 (hc h) (hc s)) (add32 (hd h) (hd s))
          (add32 (he h) (he s)) (add32 (hf h) (hf s)) (add32 (hg h) (hg s)) (add32 (hh h) (hh s)).

(** Padding: one 0x80, zeros up to 56 mod 64, the bit length on 8 bytes. *)
Definition be_bytes (n : nat) (x : Z) : list Z :=
  map (fun i => Z.land (Z.shiftr x (8 * Z.of_nat i)) 0xFF) (rev (seq 0 n)).

Definition pad (msg : list Z) : list Z :=
  let len := Z.of_nat (length msg) in
  let zeros := Z.to_nat ((55 - len) mod 64) in
  msg ++ 0x80 :: repeat 0 zeros ++ be_bytes 8 (8 * len).

Fixpoint blocks (fuel : nat) (h : state) (bs : list Z) : state :=
  match fuel, bs with
  | S fuel', _ :: _ => blocks fuel' (compress h (firstn 64 bs)) (skipn 64 bs)
  | _, _ => h
  end.

Definition word_bytes (w : Z) : list ascii :=
  [ byte_of (Z.shiftr w 24); byte_of (Z.shiftr w 16); byte_of (Z.shiftr w 8); byte_of w ].

Definition state_bytes (s : state) : list ascii :=
  word_bytes (ha s) ++ word_bytes (hb s) ++ word_bytes (hc s) ++ word_bytes (hd s) ++
  word_bytes (he s) ++ word_bytes (hf s) ++ word_bytes (hg s) ++ word_bytes (hh s).

Definition sha256 (msg : list ascii) : list ascii :=
  let p := pad (map byte_val msg) in
  state_bytes (blocks (length p) H0 p).

Definition xor_pad (c : Z) (key : list ascii) : list ascii :=
  map (fun b => byte_of (Z.lxor (byte_val b) c)) key.

Definition hmac (key msg : list ascii) : list ascii :=
  let k0 := if (64 <? length key)%nat then sha256 key else key in
  let k := k0 ++ repeat zero (64 - length k0) in
  sha256 (xor_pad 0x5c k ++ sha256 (xor_pad 0x36 k ++ msg)).

End SHA256.

Definition hex_digit (n : Z) : ascii :=
  if n <? 10 then byte_of (48 + n) else byte_of (87 + n).

Definition hex_of_bytes (bs : list ascii) : string :=
  string_of_bytes
    (flat_map (fun b => [hex_digit (Z.shiftr (byte_val b) 4); hex_digit (Z.land (byte_val b) 15)]) bs).

(** ** base64url ([buf.toString("base64url")], [Buffer.from(s, "base64url")]) *)

Module Base64url.

(** Six bits, most significant first. *)
Definition sextet : Type := (bool * bool * bool * bool * bool * bool)%type.

Definition bit (b : bool) (w : nat) : nat := if b then w else 0%nat.

Definition sextet_value (s : sextet) : nat :=
  let '(b5, b4, b3, b2, b1, b0) := s in
  (bit b5 32 + bit b4 16 + bit b3 8 + bit b2 4 + bit b1 2 + bit b0 1)%nat.

Definition sextet_of_value (n : nat) : sextet :=
  (Nat.testbit n 5, Nat.testbit n 4, Nat.testbit n 3,
   Nat.testbit n 2, Nat.testbit n 1, Nat.testbit n 0).

Definition alphabet : string :=
  "ABCDEFGHIJKLMNOPQRSTUVWXYZabcdefghijklmnopqrstuvwxyz0123456789-_".

Definition encode_sextet (s : sextet) : ascii :=
  nth (sextet_value s) (bytes_of_string alphabet) "A"%char.

(** The decoder's table: it reads the URL-safe alphabet and, as Node does
    for both of its base64 encodings, the standard one too. *)
Definition decode_char (c : ascii) : option sextet :=
  let n := nat_of_ascii c in
  if ((65 <=? n) && (n <=? 90))%nat then Some (sextet_of_value (n - 65))
  else if ((97 <=? n) && (n <=? 122))%nat then Some (sextet_of_value (n - 71))
  else if ((48 <=? n) && (n <=? 57))%nat then Some (sextet_of_value (n + 4))
  else if ((n =? 45) || (n =? 43))%nat then Some (sextet_of_value 62)
  else if ((n =? 95) || (n =? 47))%nat then Some (sextet_of_value 63)
  else None.

(** Three bytes make four sextets; a tail of one or two bytes makes two
    or three, zero filled, and no [=] padding is written. *)
Fixpoint sextets_of_bytes (bs : list ascii) : list sextet :=
  match bs with
  | [] => []
  | [Ascii a0 a1 a2 a3 a4 a5 a6 a7] =>
      [ (a7, a6, a5, a4, a3, a2); (a1, a0, false, false, false, false) ]
  | [Ascii a0 a1 a2 a3 a4 a5 a6 a7; Ascii b0 b1 b2 b3 b4 b5 b6 b7] =>
      [ (a7, a6, a5, a4, a3, a2); (a1, a0, b7, b6, b5, b4); (b3, b2, b1, b0, false, false) ]
  | Ascii a0 a1 a2 a3 a4 a5 a6 a7 :: Ascii b0 b1 b2 b3 b4 b5 b6 b7
      :: Ascii c0 c1 c2 c3 c4 c5 c6 c7 :: rest =>
      (a7, a6, a5, a4, a3, a2) :: (a1, a0, b7, b6, b5, b4)
        :: (b3, b2, b1, b0, c7, c6) :: (c5, c4, c3, c2, c1, c0) :: sextets_of_bytes rest
  end.

Definition encode (bs : list ascii) : string :=
  string_of_bytes (map encode_sextet (sextets_of_bytes bs)).

(** Four sextets make three bytes; a tail of two or three makes one or
    two; a single left-over sextet carries no whole byte. *)
Fixpoint bytes_of_sextets (ss : list sextet) : list ascii :=
  match ss with
  | (a7, a6, a5, a4, a3, a2) :: (a1, a0, b7, b6, b5, b4)
      :: (b3, b2, b1, b0, c7, c6) :: (c5, c4, c3, c2, c1, c0) :: rest =>
      Ascii a0 a1 a2 a3 a4 a5 a6 a7 :: Ascii b0 b1 b2 b3 b4 b5 b6 b7
        :: Ascii c0 c1 c2 c3 c4 c5 c6 c7 :: bytes_of_sextets rest
  | [ (a7, a6, a5, a4, a3, a2); (a1, a0, b7, b6, b5, b4); (b3, b2, b1, b0, _, _) ] =>
      [ Ascii a0 a1 a2 a3 a4 a5 a6 a7; Ascii b0 b1 b2 b3 b4 b5 b6 b7 ]
  | [ (a7, a6, a5, a4, a3, a2); (a1, a0, _, _, _, _) ] =>
      [ Ascii a0 a1 a2 a3 a4 a5 a6 a7 ]
  | _ => []
  end.

(** Characters outside the table are passed over, but for [=], which
    ends the reading. *)
Fixpoint read_sextets (cs : list ascii) : list sextet :=
  match cs with
  | [] => []
  | c :: rest =>
      match decode_char c with
      | Some s => s :: read_sextets rest
      | None => if (c =? "=")%char then [] else read_sextets rest
      end
  end.

Definition decode (s : string) : list ascii :=
  bytes_of_sextets (read_sextets (bytes_of_string s)).

End Base64url.

(** ** Text helpers *)

Definition is_digit (c : ascii) : bool := (48 <=? byte_val c) && (byte_val c <=? 57).

Definition digit_char (d : Z) : ascii := byte_of (48 + d).
Definition digit_val (c : ascii) : Z := byte_val c - 48.

(** ** Decimal digits of integers *)

Fixpoint digits_fuel (fuel : nat) (n : Z) : list Z :=
  match fuel with
  | O => [n mod 10]
  | S fuel' => if n <? 10 then [n] else digits_fuel fuel' (n / 10) ++ [n mod 10]
  end.

(** Digits of [n >= 0], most significant first; the binary logarithm bounds
    the number of divisions by ten. *)
Definition digits (n : Z) : list Z := digits_fuel (Z.to_nat (Z.log2 n)) n.

Definition of_digits (ds : list Z) : Z := fold_left (fun acc d => 10 * acc + d) ds 0.

(** ** JavaScript values *)

Inductive number : Type :=
| Int (z : Z)                  (* an integer *)
| Dec (m : Z) (k : positive)   (* m / 10^k, a finite decimal that is not an integer *)
| NaN
| PosInf
| NegInf.

#[local] Set Warnings "-register-all".
Inductive JSValue : Type :=
| JUndefined
| JNull
| JBool (b : bool)
| JNum (n : number)
| JStr (s : string)
| JArr (items : list JSValue)
| JObj (props : list (string * JSValue)).

Definition is_finite (n : number) : bool :=
  match n with
  | Int _ | Dec _ _ => true
  | _ => false
  end.

(** *** Number::toString *)

Fixpoint drop_zeros (ds : list Z) : list Z :=
  match ds with
  | d :: rest => if d =? 0 then drop_zeros rest else ds
  | [] => []
  end.

Definition strip_trailing_zeros (ds : list Z) : list Z := rev (drop_zeros (rev ds)).

(** The significant digits [s] and the position [n] of the decimal point
    of a non-zero finite number: its magnitude is 0.s * 10^n. *)
Definition scientific (x : number) : option (bool * list Z * Z) :=
  match x with
  | Int z =>
      if z =? 0 then None
      else let ds := digits (Z.abs z) in
           Some (z <? 0, strip_trailing_zeros ds, Z.of_nat (length ds))
  | Dec m k =>
      if m =? 0 then None
      else let ds := digits (Z.abs m) in
           Some (m <? 0, strip_trailing_zeros ds, Z.of_nat (length ds) - Z.pos k)
  | _ => None
  end.

Definition format_scientific (s : list Z) (n : Z) : list ascii :=
  let k := Z.of_nat (length s) in
  let cs := map digit_char s in
  if (k <=? n) && (n <=? 21) then
    cs ++ repeat "0"%char (Z.to_nat (n - k))
  else if (0 <? n) && (n <=? 21) then
    firstn (Z.to_nat n) cs ++ "."%char :: skipn (Z.to_nat n) cs
  else if (-6 <? n) && (n <=? 0) then
    "0"%char :: "."%char :: repeat "0"%char (Z.to_nat (- n)) ++ cs
  else
    let e := n - 1 in
    let mantissa := match cs with
                    | c :: (_ :: _) as rest => c :: "."%char :: rest
                    | _ => cs
                    end in
    mantissa ++ "e"%char :: (if e <? 0 then "-"%char else "+"%char)
             :: map digit_char (digits (Z.abs e)).

Definition number_text (x : number) : list ascii :=
  match x with
  | NaN => bytes_of_string "NaN"
  | PosInf => bytes_of_string "Infinity"
  | NegInf => bytes_of_string "-Infinity"
  | _ => match scientific x with
         | None => ["0"%char]
         | Some (neg, s, n) => (if neg then ["-"%char] else []) ++ format_scientific s n
         end
  end.

Definition Number_toString (x : number) : string := string_of_bytes (number_text x).

(** *** Truthiness, [||], [??] *)

Definition truthy (v : JSValue) : bool :=
  match v with
  | JUndefined | JNull => false
  | JBool b => b
  | JNum (Int z) => negb (z =? 0)
  | JNum (Dec m _) => negb (m =? 0)
  | JNum NaN => false
  | JNum _ => true
  | JStr s => negb (s =? "")%string
  | JArr _ | JObj _ => true
  end.

Definition nullish (v : JSValue) : bool :=
  match v with
  | JUndefined | JNull => true
  | _ => false
  end.

(** [a || b] *)
Definition js_or (a b : JSValue) : JSValue := if truthy a then a else b.
(** [a && b] *)
Definition js_and (a b : JSValue) : JSValue := if truthy a then b else a.
(** [a ?? b] *)
Definition js_coalesce (a b : JSValue) : JSValue := if nullish a then b else a.

(** *** Property reads *)

Fixpoint assoc {A} (key : string) (props : list (string * A)) : option A :=
  match props with
  | [] => None
  | (k, v) :: rest => if (k =? key)%string then Some v else assoc key rest
  end.

(** *** ToString, as a template literal, [URLSearchParams] and
    [Array.prototype.join] apply it

    An object goes through OrdinaryToPrimitive: an object read from JSON
    or from a [j:] cookie inherits [Object.prototype.toString], unless it
    has a property [toString] of its own, which is then no function, and
    no [valueOf] gives a primitive either: the conversion throws. *)

Definition not_primitive : exn :=
  TypeError "Cannot convert object to primitive value".

Fixpoint ToString (v : JSValue) : result string :=
  match v with
  | JUndefined => Ok "undefined"
  | JNull => Ok "null"
  | JBool true => Ok "true"
  | JBool false => Ok "false"
  | JNum n => Ok (Number_toString n)
  | JStr s => Ok s
  | JArr items =>
      (fix join (l : list JSValue) : result string :=
         match l with
         | [] => Ok ""
         | x :: rest =>
             match match x with JUndefined | JNull => Ok "" | _ => ToString x end with
             | Throw e => Throw e
             | Ok e =>
                 match rest with
                 | [] => Ok e
                 | _ :: _ =>
                     match join rest with
                     | Throw e' => Throw e'
                     | Ok t => Ok (e +++ "," +++ t)
                     end
                 end
             end
         end) items
  | JObj props =>
      match assoc "toString" props with
      | Some _ => Throw not_primitive
      | None => Ok "[object Object]"
      end
  end.

(** [items.join(sep)] *)
Fixpoint array_join (sep : string) (items : list JSValue) : result string :=
  match items with
  | [] => Ok ""
  | x :: rest =>
      match match x with JUndefined | JNull => Ok "" | _ => ToString x end with
      | Throw e => Throw e
      | Ok e =>
          match rest with
          | [] => Ok e
          | _ :: _ =>
              match array_join sep rest with
              | Throw e' => Throw e'
              | Ok t => Ok (e +++ sep +++ t)
              end
          end
      end
  end.


Definition replacement : string := String "239" (String "191" (String "189" "")).

(** The UTF-16 code units of a string, each as the text it stands for: a
    code point of one to three UTF-8 bytes is one unit, a code point of
    four bytes is two surrogates, which alone have no text of their own
    and read as U+FFFD. *)
Fixpoint utf16_units (bs : list ascii) : list string :=
  match bs with
  | [] => []
  | b :: r =>
      let n := nat_of_ascii b in
      if (n <? 192)%nat then String b "" :: utf16_units r
      else if (n <? 224)%nat then
        match r with
        | c1 :: r1 => String b (String c1 "") :: utf16_units r1
        | [] => [String b ""]
        end
      else if (n <? 240)%nat then
        match r with
        | c1 :: c2 :: r2 => String b (String c1 (String c2 "")) :: utf16_units r2
        | _ => [string_of_bytes (b :: r)]
        end
      else
        match r with
        | _ :: _ :: _ :: r3 => replacement :: replacement :: utf16_units r3
        | _ => [replacement]
        end
  end.

Definition undefined_of (o : option JSValue) : JSValue :=
  match o with
  | Some v => v
  | None => JUndefined
  end.

(** [v.key] for an identifier [key] that no built-in prototype defines
    (every name the program reads is such, but for [length]). *)
Definition get (v : JSValue) (key : string) : result JSValue :=
  match v with
  | JUndefined =>
      Throw (TypeError ("Cannot read properties of undefined (reading '" +++ key +++ "')"))
  | JNull =>
      Throw (TypeError ("Cannot read properties of null (reading '" +++ key +++ "')"))
  | JObj props => Ok (undefined_of (assoc key props))
  | JArr items =>
      Ok (if (key =? "length")%string then JNum (Int (Z.of_nat (length items))) else JUndefined)
  | JStr s =>
      Ok (if (key =? "length")%string
          then JNum (Int (Z.of_nat (length (utf16_units (bytes_of_string s)))))
          else JUndefined)
  | JBool _ | JNum _ => Ok JUndefined
  end.

(** [v?.key] *)
Definition get_opt (v : JSValue) (key : string) : JSValue :=
  match get v key with
  | Ok x => x
  | Throw _ => JUndefined
  end.

(** [v?.[i]] *)
Definition get_index_opt (v : JSValue) (i : nat) : JSValue :=
  match v with
  | JArr items => nth i items JUndefined
  | JStr s => match nth_error (utf16_units (bytes_of_string s)) i with
              | Some u => JStr u
              | None => JUndefined
              end
  | JObj props => undefined_of (assoc (string_of_bytes (map digit_char (digits (Z.of_nat i)))) props)
  | _ => JUndefined
  end.

(** ** JSON.stringify *)

Module JSON.

Definition hex_char (n : Z) : ascii :=
  if n <? 10 then byte_of (48 + n) else byte_of (87 + n).

(** QuoteJSONString, one character at a time. *)
Definition escape_char (c : ascii) : list ascii :=
  let n := byte_val c in
  if n =? 34 then ["\"%char; "034"%char]
  else if n =? 92 then ["\"%char; "\"%char]
  else if n =? 8 then ["\"%char; "b"%char]
  else if n =? 12 then ["\"%char; "f"%char]
  else if n =? 10 then ["\"%char; "n"%char]
  else if n =? 13 then ["\"%char; "r"%char]
  else if n =? 9 then ["\"%char; "t"%char]
  else if n <? 32 then
    ["\"%char; "u"%char; "0"%char; "0"%char; hex_char (n / 16); hex_char (n mod 16)]
  else [c].

Definition quote (s : string) : list ascii :=
  "034"%char :: flat_map escape_char (bytes_of_string s) ++ ["034"%char].

(** SerializeJSONProperty: [None] stands for [undefined]. *)
Fixpoint serialize (v : JSValue) : option (list ascii) :=
  match v with
  | JUndefined => None
  | JNull => Some (bytes_of_string "null")
  | JBool true => Some (bytes_of_string "true")
  | JBool false => Some (bytes_of_string "false")
  | JNum n => Some (if is_finite n then number_text n else bytes_of_string "null")
  | JStr s => Some (quote s)
  | JArr items =>
      Some ("["%char ::
            (fix elements (l : list JSValue) : list ascii :=
               match l with
               | [] => []
               | x :: rest =>
                   match serialize x with
                   | Some t => t
                   | None => bytes_of_string "null"
                   end ++ match rest with
                          | [] => []
                          | _ :: _ => ","%char :: elements rest
                          end
               end) items ++ ["]"%char])
  | JObj props =>
      Some ("{"%char ::
            (fix members (l : list (string * JSValue)) (first : bool) : list ascii :=
               match l with
               | [] => []
               | (k, x) :: rest =>
                   match serialize x with
                   | Some t =>
                       (if first then [] else [","%char]) ++ quote k ++ ":"%char :: t
                         ++ members rest false
                   | None => members rest first
                   end
               end) props true ++ ["}"%char])
  end.

(** [JSON.stringify(v)]: a string, or [undefined]. *)
Definition stringify (v : JSValue) : option string :=
  option_map string_of_bytes (serialize v).

(** ** JSON.parse *)

(** V8 words its SyntaxError messages by position and token; the
    embedding carries one fixed text. *)
Definition syntax_error {A} : result A := Throw (SyntaxError "Unexpected token in JSON").

Definition is_ws (c : ascii) : bool :=
  let n := byte_val c in (n =? 32) || (n =? 9) || (n =? 10) || (n =? 13).

Fixpoint skip_ws (l : list ascii) : list ascii :=
  match l with
  | c :: rest => if is_ws c then skip_ws rest else l
  | [] => []
  end.

Definition hex_val (c : ascii) : option Z :=
  let n := byte_val c in
  if (48 <=? n) && (n <=? 57) then Some (n - 48)
  else if (97 <=? n) && (n <=? 102) then Some (n - 87)
  else if (65 <=? n) && (n <=? 70) then Some (n - 55)
  else None.

Definition hex4 (a b c d : ascii) : option Z :=
  match hex_val a, hex_val b, hex_val c, hex_val d with
  | Some x, Some y, Some z, Some w => Some (((x * 16 + y) * 16 + z) * 16 + w)
  | _, _, _, _ => None
  end.

(** The UTF-8 bytes of a code point. *)
Definition utf8 (cp : Z) : list ascii :=
  if cp <? 128 then [byte_of cp]
  else if cp <? 2048 then [byte_of (192 + cp / 64); byte_of (128 + cp mod 64)]
  else if cp <? 65536 then
    [byte_of (224 + cp / 4096); byte_of (128 + (cp / 64) mod 64); byte_of (128 + cp mod 64)]
  else
    [byte_of (240 + cp / 262144); byte_of (128 + (cp / 4096) mod 64);
     byte_of (128 + (cp / 64) mod 64); byte_of (128 + cp mod 64)].

Definition is_high (u : Z) : bool := (55296 <=? u) && (u <=? 56319).
Definition is_low (u : Z) : bool := (56320 <=? u) && (u <=? 57343).

Definition cons_char (cs : list ascii) (r : result (list ascii * list ascii))
  : result (list ascii * list ascii) :=
  match r with
  | Ok (s, rest) => Ok (cs ++ s, rest)
  | Throw e => Throw e
  end.

(** The characters of a string literal after its opening quote, and the
    input after its closing quote. *)
Fixpoint read_string (l : list ascii) : result (list ascii * list ascii) :=
  match l with
  | [] => syntax_error
  | c :: rest =>
      if byte_val c =? 34 then Ok ([], rest)
      else if byte_val c =? 92 then
        match rest with
        | [] => syntax_error
        | e :: rest1 =>
            let n := byte_val e in
            if n =? 34 then cons_char ["034"%char] (read_string rest1)
            else if n =? 92 then cons_char ["\"%char] (read_string rest1)
            else if n =? 47 then cons_char ["/"%char] (read_string rest1)
            else if n =? 98 then cons_char [byte_of 8] (read_string rest1)
            else if n =? 102 then cons_char [byte_of 12] (read_string rest1)
            else if n =? 110 then cons_char [byte_of 10] (read_string rest1)
            else if n =? 114 then cons_char [byte_of 13] (read_string rest1)
            else if n =? 116 then cons_char [byte_of 9] (read_string rest1)
            else if n =? 117 then
              match rest1 with
              | h1 :: h2 :: h3 :: h4 :: rest2 =>
                  match hex4 h1 h2 h3 h4 with
                  | None => syntax_error
                  | Some u =>
                      if is_high u then
                        match rest2 with
                        | b :: v :: l1 :: l2 :: l3 :: l4 :: rest3 =>
                            match (if (byte_val b =? 92) && (byte_val v =? 117)
                                   then hex4 l1 l2 l3 l4 else None) with
                            | Some w =>
                                if is_low w
                                then cons_char (utf8 (65536 + (u - 55296) * 1024 + (w - 56320)))
                                               (read_string rest3)
                                else cons_char (bytes_of_string replacement) (read_string rest2)
                            | None => cons_char (bytes_of_string replacement) (read_string rest2)
                            end
                        | _ => cons_char (bytes_of_string replacement) (read_string rest2)
                        end
                      else if is_low u
                      then cons_char (bytes_of_string replacement) (read_string rest2)
                      else cons_char (utf8 u) (read_string rest2)
                  end
              | _ => syntax_error
              end
            else syntax_error
        end
      else if byte_val c <? 32 then syntax_error
      else cons_char [c] (read_string rest)
  end.

Fixpoint span_digits (l : list ascii) : list ascii * list ascii :=
  match l with
  | c :: rest =>
      if is_digit c then let (ds, r) := span_digits rest in (c :: ds, r) else ([], l)
  | [] => ([], [])
  end.

(** An integer [m] scaled down by [k] decimal places, in lowest terms. *)
Fixpoint reduce (k : nat) (m : Z) : number :=
  match k with
  | O => Int m
  | S k' => if m mod 10 =? 0 then reduce k' (m / 10) else Dec m (Pos.of_succ_nat k')
  end.

(** The number m * 10^e; the sign of zero is not kept. *)
Definition make_number (m e : Z) : number :=
  if m =? 0 then Int 0
  else if 0 <=? e then Int (m * 10 ^ e)
  else reduce (Z.to_nat (- e)) m.

Definition digits_value (cs : list ascii) : Z := of_digits (map digit_val cs).

Definition read_sign (l : list ascii) : bool * list ascii :=
  match l with
  | c :: r => if byte_val c =? 45 then (true, r) else (false, l)
  | [] => (false, l)
  end.

(** [. digits], when there is a dot. *)
Definition read_fraction (l : list ascii) : option (list ascii * list ascii) :=
  match l with
  | c :: r =>
      if byte_val c =? 46
      then let (fp, l') := span_digits r in
           match fp with
           | [] => None
           | _ :: _ => Some (fp, l')
           end
      else Some ([], l)
  | [] => Some ([], l)
  end.

(** [e] or [E], a sign, digits, when there is an exponent. *)
Definition read_exponent (l : list ascii) : option (Z * list ascii) :=
  match l with
  | c :: r =>
      if (byte_val c =? 101) || (byte_val c =? 69) then
        let (eneg, r1) := match r with
                          | s :: r' =>
                              if byte_val s =? 45 then (true, r')
                              else if byte_val s =? 43 then (false, r')
                              else (false, r)
                          | [] => (false, r)
                          end in
        let (ep, l') := span_digits r1 in
        match ep with
        | [] => None
        | _ :: _ => Some (if eneg then - digits_value ep else digits_value ep, l')
        end
      else Some (0, l)
  | [] => Some (0, l)
  end.

(** A JSON number: [-]? int frac? exp?, with no leading zero in [int]. *)
Definition read_number (l : list ascii) : option (number * list ascii) :=
  let (neg, l1) := read_sign l in
  let (ip, l2) := span_digits l1 in
  match ip with
  | [] => None
  | d :: more =>
      if (byte_val d =? 48) && negb (length more =? 0)%nat then None
      else
        match read_fraction l2 with
        | None => None
        | Some (fp, l3) =>
            match read_exponent l3 with
            | None => None
            | Some (e, l4) =>
                let m := digits_value (ip ++ fp) in
                Some (make_number (if neg then - m else m) (e - Z.of_nat (length fp)), l4)
            end
        end
  end.

(** Own property keys keep the order of ECMAScript objects: array
    indices ascending first, then the other keys as first written. *)
Definition array_index (key : string) : option Z :=
  let cs := bytes_of_string key in
  match cs with
  | [] => None
  | d :: more =>
      if forallb is_digit cs && negb ((byte_val d =? 48) && negb (length more =? 0)%nat)
         && (digits_value cs <? 4294967295)
      then Some (digits_value cs) else None
  end.

Fixpoint replace_prop (key : string) (v : JSValue) (props : list (string * JSValue))
  : option (list (string * JSValue)) :=
  match props with
  | [] => None
  | (k, x) :: rest =>
      if (k =? key)%string then Some ((k, v) :: rest)
      else option_map (cons (k, x)) (replace_prop key v rest)
  end.

Fixpoint insert_index (i : Z) (key : string) (v : JSValue) (props : list (string * JSValue))
  : list (string * JSValue) :=
  match props with
  | [] => [(key, v)]
  | (k, x) :: rest =>
      match array_index k with
      | Some j => if i <? j then (key, v) :: props else (k, x) :: insert_index i key v rest
      | None => (key, v) :: props
      end
  end.

Definition set_prop (props : list (string * JSValue)) (key : string) (v : JSValue)
  : list (string * JSValue) :=
  match replace_prop key v props with
  | Some props' => props'
  | None =>
      match array_index key with
      | Some i => insert_index i key v props
      | None => props ++ [(key, v)]
      end
  end.

(** The input after the word [w], when the input starts with it. *)
Fixpoint starts_with (w l : list ascii) : option (list ascii) :=
  match w, l with
  | [], _ => Some l
  | a :: w', c :: l' => if byte_val a =? byte_val c then starts_with w' l' else None
  | _ :: _, [] => None
  end.

Definition word_true : list ascii := bytes_of_string "true".
Definition word_false : list ascii := bytes_of_string "false".
Definition word_null : list ascii := bytes_of_string "null".

Definition stack_overflow {A} : result A :=
  Throw (RangeError "Maximum call stack size exceeded").

Fixpoint parse_value (fuel : nat) (l : list ascii) : result (JSValue * list ascii) :=
  match fuel with
  | O => stack_overflow
  | S fuel' =>
      match skip_ws l with
      | [] => syntax_error
      | c :: r =>
          if byte_val c =? 123 then
            match skip_ws r with
            | c' :: r' => if byte_val c' =? 125 then Ok (JObj [], r')
                          else parse_members fuel' r []
            | [] => syntax_error
            end
          else if byte_val c =? 91 then
            match skip_ws r with
            | c' :: r' => if byte_val c' =? 93 then Ok (JArr [], r')
                          else parse_elements fuel' r []
            | [] => syntax_error
            end
          else if byte_val c =? 34 then
            match read_string r with
            | Ok (s, r') => Ok (JStr (string_of_bytes s), r')
            | Throw e => Throw e
            end
          else
            match starts_with word_true (c :: r), starts_with word_false (c :: r),
                  starts_with word_null (c :: r) with
            | Some r', _, _ => Ok (JBool true, r')
            | _, Some r', _ => Ok (JBool false, r')
            | _, _, Some r' => Ok (JNull, r')
            | None, None, None =>
                match read_number (c :: r) with
                | Some (n, r') => Ok (JNum n, r')
                | None => syntax_error
                end
            end
      end
  end
with parse_elements (fuel : nat) (l : list ascii) (acc : list JSValue)
  : result (JSValue * list ascii) :=
  match fuel with
  | O => stack_overflow
  | S fuel' =>
      match parse_value fuel' l with
      | Throw e => Throw e
      | Ok (x, r) =>
          match skip_ws r with
          | c :: r' =>
              if byte_val c =? 44 then parse_elements fuel' r' (x :: acc)
              else if byte_val c =? 93 then Ok (JArr (rev (x :: acc)), r')
              else syntax_error
          | [] => syntax_error
          end
      end
  end
with parse_members (fuel : nat) (l : list ascii) (acc : list (string * JSValue))
  : result (JSValue * list ascii) :=
  match fuel with
  | O => stack_overflow
  | S fuel' =>
      match skip_ws l with
      | c :: r =>
          if byte_val c =? 34 then
            match read_string r with
            | Throw e => Throw e
            | Ok (k, r1) =>
                match skip_ws r1 with
                | c1 :: r2 =>
                    if byte_val c1 =? 58 then
                      match parse_value fuel' r2 with
                      | Throw e => Throw e
                      | Ok (x, r3) =>
                          let props := set_prop acc (string_of_bytes k) x in
                          match skip_ws r3 with
                          | c3 :: r4 =>
                              if byte_val c3 =? 44 then parse_members fuel' r4 props
                              else if byte_val c3 =? 125 then Ok (JObj props, r4)
                              else syntax_error
                          | [] => syntax_error
                          end
                      end
                    else syntax_error
                | [] => syntax_error
                end
            end
          else syntax_error
      | [] => syntax_error
      end
  end.

(** [JSON.parse(text)] *)
Definition parse (text : string) : result JSValue :=
  let l := bytes_of_string text in
  match parse_value (2 * length l + 2) l with
  | Throw e => Throw e
  | Ok (v, r) => match skip_ws r with
                 | [] => Ok v
                 | _ :: _ => syntax_error
                 end
  end.

End JSON.

(** Examples write a double quote inside a JSON text as an apostrophe. *)
Definition dq (s : string) : string :=
  string_of_bytes (map (fun c => if byte_val c =? 39 then "034"%char else c) (bytes_of_string s)).

(** ** ToNumber and the relational comparison [now > v] *)

Module Coerce.

(** The code points of a text, each as its UTF-8 bytes. *)
Fixpoint utf8_chars (bs : list ascii) : list (list ascii) :=
  match bs with
  | [] => []
  | b :: r =>
      let n := nat_of_ascii b in
      if (n <? 192)%nat then [b] :: utf8_chars r
      else if (n <? 224)%nat then
        match r with
        | c1 :: r1 => [b; c1] :: utf8_chars r1
        | [] => [[b]]
        end
      else if (n <? 240)%nat then
        match r with
        | c1 :: c2 :: r2 => [b; c1; c2] :: utf8_chars r2
        | _ => [b :: r]
        end
      else
        match r with
        | c1 :: c2 :: c3 :: r3 => [b; c1; c2; c3] :: utf8_chars r3
        | _ => [b :: r]
        end
  end.

(** StrWhiteSpaceChar: WhiteSpace and LineTerminator. *)
Definition is_space (ch : list ascii) : bool :=
  match map byte_val ch with
  | [n] => (n =? 9) || (n =? 10) || (n =? 11) || (n =? 12) || (n =? 13) || (n =? 32)
  | [194; 160] => true                       (* U+00A0 *)
  | [225; 154; 128] => true                  (* U+1680 *)
  | [226; 128; n] => ((128 <=? n) && (n <=? 138)) || (n =? 168) || (n =? 169) || (n =? 175)
                                             (* U+2000..U+200A, U+2028, U+2029, U+202F *)
  | [226; 129; 159] => true                  (* U+205F *)
  | [227; 128; 128] => true                  (* U+3000 *)
  | [239; 187; 191] => true                  (* U+FEFF *)
  | _ => false
  end.

Fixpoint drop_while {A} (f : A -> bool) (l : list A) : list A :=
  match l with
  | x :: r => if f x then drop_while f r else l
  | [] => []
  end.

Definition trim (s : list ascii) : list ascii :=
  concat (rev (drop_while is_space (rev (drop_while is_space (utf8_chars s))))).

Definition radix_digit (radix : Z) (c : ascii) : option Z :=
  match JSON.hex_val c with
  | Some d => if d <? radix then Some d else None
  | None => None
  end.

Fixpoint radix_value (radix : Z) (acc : Z) (l : list ascii) : option Z :=
  match l with
  | [] => Some acc
  | c :: r => match radix_digit radix c with
              | Some d => radix_value radix (radix * acc + d) r
              | None => None
              end
  end.

(** StrUnsignedDecimalLiteral, read to the end of the text. *)
Definition unsigned_decimal (l : list ascii) : option number :=
  if list_eq_dec ascii_dec l (bytes_of_string "Infinity") then Some PosInf
  else
    let (ip, l1) := JSON.span_digits l in
    let (fp, l2) := match l1 with
                    | c :: r => if byte_val c =? 46 then JSON.span_digits r else ([], l1)
                    | [] => ([], l1)
                    end in
    if ((length ip =? 0) && (length fp =? 0))%nat then None
    else
      let expo := match l2 with
                  | [] => Some 0
                  | c :: r =>
                      if (byte_val c =? 101) || (byte_val c =? 69) then
                        let (eneg, r1) := match r with
                                          | s :: r' =>
                                              if byte_val s =? 45 then (true, r')
                                              else if byte_val s =? 43 then (false, r')
                                              else (false, r)
                                          | [] => (false, r)
                                          end in
                        let (ep, l3) := JSON.span_digits r1 in
                        match ep, l3 with
                        | _ :: _, [] =>
                            Some (if eneg then - JSON.digits_value ep else JSON.digits_value ep)
                        | _, _ => None
                        end
                      else None
                  end in
      match expo with
      | Some e => Some (JSON.make_number (JSON.digits_value (ip ++ fp)) (e - Z.of_nat (length fp)))
      | None => None
      end.

Definition negate (x : number) : number :=
  match x with
  | Int z => Int (- z)
  | Dec m k => Dec (- m) k
  | NaN => NaN
  | PosInf => NegInf
  | NegInf => PosInf
  end.

(** StringToNumber *)
Definition StringToNumber (s : string) : number :=
  match trim (bytes_of_string s) with
  | [] => Int 0
  | c :: r =>
      let prefixed (radix : Z) :=
        match r with
        | _ :: (_ :: _) as ds => match radix_value radix 0 ds with
                                 | Some v => Int v
                                 | None => NaN
                                 end
        | _ => NaN
        end in
      let second := match r with x :: _ => byte_val x | [] => 0 end in
      if (byte_val c =? 48) && ((second =? 120) || (second =? 88)) then prefixed 16
      else if (byte_val c =? 48) && ((second =? 111) || (second =? 79)) then prefixed 8
      else if (byte_val c =? 48) && ((second =? 98) || (second =? 66)) then prefixed 2
      else if byte_val c =? 45 then
        match unsigned_decimal r with Some x => negate x | None => NaN end
      else if byte_val c =? 43 then
        match unsigned_decimal r with Some x => x | None => NaN end
      else
        match unsigned_decimal (c :: r) with Some x => x | None => NaN end
  end.

(** ToNumber; an array or object goes through ToPrimitive: its [valueOf]
    gives the object back, so its [toString] decides, and throws where
    that does. *)
Definition ToNumber (v : JSValue) : result number :=
  match v with
  | JUndefined => Ok NaN
  | JNull => Ok (Int 0)
  | JBool b => Ok (Int (if b then 1 else 0))
  | JNum n => Ok n
  | JStr s => Ok (StringToNumber s)
  | JArr _ | JObj _ =>
      match ToString v with
      | Throw e => Throw e
      | Ok s => Ok (StringToNumber s)
      end
  end.

(** [a > x] for an integer [a]. *)
Definition int_gt (a : Z) (x : number) : bool :=
  match x with
  | Int z => z <? a
  | Dec m k => m <? a * 10 ^ Z.pos k
  | NaN => false
  | PosInf => false
  | NegInf => true
  end.

End Coerce.

(** ** Stateless signed state ([signState], [verifyState]) *)

(** [type StatePayload = { n: string; rt?: string; exp: number }] *)
Record StatePayload : Type := mkPayload {
  n : string;
  rt : option string;
  exp : number
}.

(** The payload as the object it is; an absent [rt] is no property. *)
Definition payload_props (p : StatePayload) : list (string * JSValue) :=
  ("n", JStr (n p))
    :: match rt p with
       | Some r => [("rt", JStr r)]
       | None => []
       end
    ++ [("exp", JNum (exp p))].

Definition payload_value (p : StatePayload) : JSValue := JObj (payload_props p).

(** [JSON.stringify] of an object is always a string. *)
Definition stringify_object (props : list (string * JSValue)) : string :=
  match JSON.stringify (JObj props) with
  | Some t => t
  | None => ""
  end.

(** [s.split(sep)] for a one-character separator. *)
Fixpoint split_on (sep : ascii) (l : list ascii) : list (list ascii) :=
  match l with
  | [] => [[]]
  | c :: r =>
      if ascii_dec c sep then [] :: split_on sep r
      else match split_on sep r with
           | h :: t => (c :: h) :: t
           | [] => [[c]]
           end
  end.

Definition split (s : string) (sep : ascii) : list string :=
  map string_of_bytes (split_on sep (bytes_of_string s)).

Definition timingSafeEqual (a b : list ascii) : result bool :=
  if (length a =? length b)%nat
  then Ok (if list_eq_dec ascii_dec a b then true else false)
  else Throw (RangeError "Input buffers must have the same byte length").

Section SignedState.

(** The environment's [SESSION_SECRET]; the server refuses to start
    without one. *)
Variable SESSION_SECRET : string.

(** [crypto.createHmac("sha256", SESSION_SECRET).update(body).digest("base64url")] *)
Definition hmac_base64url (body : string) : string :=
  Base64url.encode (SHA256.hmac (bytes_of_string SESSION_SECRET) (bytes_of_string body)).

Definition signState (p : StatePayload) : string :=
  let body := Base64url.encode (bytes_of_string (stringify_object (payload_props p))) in
  let sig := hmac_base64url body in
  body +++ "." +++ sig.

(** [now] is the reading of [Date.now()]; [null] is [JNull]. *)
Definition verifyState (now : Z) (state : option string) : result JSValue :=
  match state with
  | None => Ok JNull
  | Some st =>
      if (st =? "")%string then Ok JNull
      else
        let parts := split st "." in
        let body := nth 0 parts "" in
        let sig := nth 1 parts "" in
        if (body =? "")%string || (sig =? "")%string then Ok JNull
        else
          let expected := hmac_base64url body in
          match timingSafeEqual (bytes_of_string sig) (bytes_of_string expected) with
          | Throw e => Throw e
          | Ok false => Ok JNull
          | Ok true =>
              match JSON.parse (string_of_bytes (Base64url.decode body)) with
              | Throw e => Throw e
              | Ok payload =>
                  match get payload "exp" with
                  | Throw e => Throw e
                  | Ok e =>
                      match Coerce.ToNumber e with
                      | Throw x => Throw x
                      | Ok exp => if Coerce.int_gt now exp then Ok JNull else Ok payload
                      end
                  end
              end
          end
  end.

End SignedState.

(** ** The upstream world and the Express response *)

Inductive Method : Type := GET | POST.

(** A request [fetch] sends. *)
Record Request : Type := mkRequest {
  rq_method : Method;
  rq_url : string;
  rq_headers : list (string * string);
  rq_body : option string
}.

(** A response [fetch] resolves to. *)
Record Response : Type := mkResponse {
  status : Z;
  text : string
}.

(** [r.ok] *)
Definition ok (r : Response) : bool := (200 <=? status r) && (status r <=? 299).

(** [await r.json()] *)
Definition json (r : Response) : result JSValue := JSON.parse (text r).

(** The request Express hands to a handler.  Query values have the type
    the handlers cast them to, [string | undefined]; [cookie-parser] gives a
    value per cookie, [undefined] where there is none. *)
Record Req : Type := mkReq {
  cookies : string -> JSValue;
  query : string -> option string;
  body : JSValue;
  protocol : string
}.

Record Cookie : Type := mkCookie {
  c_name : string;
  c_value : JSValue;
  c_httpOnly : bool;
  c_sameSite : string;
  c_secure : bool;
  c_path : string;
  c_maxAge : Z
}.

Inductive Body : Type :=
| SendText (s : string)        (* res.send(s) *)
| SendJson (v : JSValue)       (* res.json(v) *)
| Redirect (location : JSValue). (* res.redirect(location) *)

(** The response under construction: the status and the content type set
    so far, the cookies set so far, and what was sent, if anything was. *)
Record Res : Type := mkRes {
  res_status : Z;
  res_type : option string;
  res_cookies : list Cookie;
  res_sent : option Body
}.

(** The state a handler runs in: the requests sent upstream so far, in
    order, and the response. *)
Record World : Type := mkWorld {
  log : list Request;
  res : Res
}.

Definition fresh : World := mkWorld [] (mkRes 200 None [] None).

(** What is not the program's to decide: the clock, the random nonce, and
    the order in which answers from upstream arrive when several calls
    wait at once: [arrival i] numbers the call that hears at the [i]-th
    arrival, and the first one waiting hears when that one is not. *)
Record Env : Type := mkEnv {
  clock : Z;             (* Date.now() *)
  nonce_hex : string;    (* crypto.randomBytes(16).toString("hex") *)
  arrival : nat -> nat
}.

(** A computation that reads and writes the world and may throw; what it
    did before throwing stays done. *)
Definition M (A : Type) : Type := World -> result A * World.

Definition ret {A} (a : A) : M A := fun w => (Ok a, w).
Definition throw {A} (e : exn) : M A := fun w => (Throw e, w).
Definition lift {A} (r : result A) : M A := fun w => (r, w).

Definition bind {A B} (m : M A) (k : A -> M B) : M B :=
  fun w => match m w with
           | (Ok a, w') => k a w'
           | (Throw e, w') => (Throw e, w')
           end.

(** [try { m } catch (e) { h(e) }] *)
Definition try_catch {A} (m : M A) (h : exn -> M A) : M A :=
  fun w => match m w with
           | (Ok a, w') => (Ok a, w')
           | (Throw e, w') => h e w'
           end.

Declare Scope monad_scope.
Delimit Scope monad_scope with monad.
Notation "x <- m ;; k" := (bind m (fun x => k))
  (at level 61, m at next level, right associativity) : monad_scope.
Notation "m ;; k" := (bind m (fun _ => k))
  (at level 61, right associativity) : monad_scope.
Local Open Scope monad_scope.

Definition set_res (f : Res -> Res) : M unit :=
  fun w => (Ok tt, mkWorld (log w) (f (res w))).

(** [res.status(code)] *)
Definition res_status_set (code : Z) : M unit :=
  set_res (fun r => mkRes code (res_type r) (res_cookies r) (res_sent r)).

(** [res.send(s)] *)
Definition res_send (s : string) : M unit :=
  set_res (fun r => mkRes (res_status r) (res_type r) (res_cookies r) (Some (SendText s))).

(** [res.json(v)] *)
Definition res_json (v : JSValue) : M unit :=
  set_res (fun r => mkRes (res_status r) (res_type r) (res_cookies r) (Some (SendJson v))).

(** [res.redirect(url)]: status 302 and a [Location]. *)
Definition res_redirect (url : JSValue) : M unit :=
  set_res (fun r => mkRes 302 (res_type r) (res_cookies r) (Some (Redirect url))).

(** [res.cookie(name, value, opts)] *)
Definition res_cookie (c : Cookie) : M unit :=
  set_res (fun r => mkRes (res_status r) (res_type r) (res_cookies r ++ [c]) (res_sent r)).

(** [res.type(t)] *)
Definition res_type_set (t : string) : M unit :=
  set_res (fun r => mkRes (res_status r) (Some t) (res_cookies r) (res_sent r)).

(** [if (c) m] *)
Definition when (c : bool) (m : M unit) : M unit := if c then m else ret tt.

(** application/x-www-form-urlencoded, as [URLSearchParams] serializes. *)
Definition form_byte (c : ascii) : list ascii :=
  let n := byte_val c in
  if ((48 <=? n) && (n <=? 57)) || ((65 <=? n) && (n <=? 90)) || ((97 <=? n) && (n <=? 122))
     || (n =? 42) || (n =? 45) || (n =? 46) || (n =? 95)
  then [c]
  else if n =? 32 then ["+"%char]
  else ["%"%char; byte_of (if n / 16 <? 10 then 48 + n / 16 else 55 + n / 16);
        byte_of (if n mod 16 <? 10 then 48 + n mod 16 else 55 + n mod 16)].

Definition form_encode (s : string) : string :=
  string_of_bytes (flat_map form_byte (bytes_of_string s)).

Fixpoint URLSearchParams (params : list (string * string)) : string :=
  match params with
  | [] => ""
  | (k, v) :: rest =>
      form_encode k +++ "=" +++ form_encode v +++
      match rest with
      | [] => ""
      | _ :: _ => "&" +++ URLSearchParams rest
      end
  end.

Definition SPOTIFY_AUTH : string := "https://accounts.spotify.com/authorize".
Definition SPOTIFY_TOKEN : string := "https://accounts.spotify.com/api/token".
Definition SPOTIFY_API : string := "https://api.spotify.com/v1".

Definition SCOPES : string :=
  "user-read-email user-top-read user-read-recently-played playlist-modify-private".

Definition ACCESS_MS : Z := 60 * 60 * 1000.
Definition REFRESH_MS : Z := 30 * 24 * 60 * 60 * 1000.

(** [{ ...baseCookieOpts(req), maxAge }] *)
Definition cookie_for (req : Req) (name : string) (value : JSValue) (maxAge : Z) : Cookie :=
  mkCookie name value true "lax" (protocol req =? "https")%string "/" maxAge.

Definition option_truthy (o : option string) : bool :=
  match o with
  | Some s => negb (s =? "")%string
  | None => false
  end.

(** [(q as string) || dflt] *)
Definition or_default (o : option string) (dflt : string) : string :=
  match o with
  | Some s => if (s =? "")%string then dflt else s
  | None => dflt
  end.

(** [e.message || dflt] *)
Definition message_or (e : exn) (dflt : string) : string :=
  if (message e =? "")%string then dflt else message e.

(** ** Arrays, sets and maps of values *)

(** The texts of V8's TypeError messages name the expression at fault;
    the embedding carries the ones below. *)
Definition not_a_function (what : string) : exn := TypeError (what +++ " is not a function").
Definition not_iterable : exn := TypeError "Spread syntax requires ...iterable[Symbol.iterator] to be a function".

Fixpoint mapM {A B} (f : A -> result B) (l : list A) : result (list B) :=
  match l with
  | [] => Ok []
  | x :: rest =>
      match f x with
      | Throw e => Throw e
      | Ok y => match mapM f rest with
                | Throw e => Throw e
                | Ok ys => Ok (y :: ys)
                end
      end
  end.

(** [v.map(f)] *)
Definition js_map (v : JSValue) (f : JSValue -> result JSValue) : result (list JSValue) :=
  match v with
  | JArr items => mapM f items
  | JUndefined => Throw (TypeError "Cannot read properties of undefined (reading 'map')")
  | JNull => Throw (TypeError "Cannot read properties of null (reading 'map')")
  | _ => Throw (not_a_function "map")
  end.

(** [v.flatMap(f)], for an [f] that returns arrays. *)
Definition js_flatMap (v : JSValue) (f : JSValue -> result (list JSValue))
  : result (list JSValue) :=
  match v with
  | JArr items => match mapM f items with
                  | Ok ls => Ok (concat ls)
                  | Throw e => Throw e
                  end
  | JUndefined => Throw (TypeError "Cannot read properties of undefined (reading 'flatMap')")
  | JNull => Throw (TypeError "Cannot read properties of null (reading 'flatMap')")
  | _ => Throw (not_a_function "flatMap")
  end.

(** [...v]: an array gives its elements, a string its code points. *)
Definition spread (v : JSValue) : result (list JSValue) :=
  match v with
  | JArr items => Ok items
  | JStr s => Ok (map (fun ch => JStr (string_of_bytes ch)) (Coerce.utf8_chars (bytes_of_string s)))
  | _ => Throw not_iterable
  end.

Definition number_eqb (x y : number) : bool :=
  match x, y with
  | Int a, Int b => a =? b
  | Dec m k, Dec m' k' => (m =? m') && (Z.pos k =? Z.pos k')
  | NaN, NaN => true
  | PosInf, PosInf => true
  | NegInf, NegInf => true
  | _, _ => false
  end.

(** SameValueZero, the equality of [Set] and [Map], between two values
    that sit at different places of parsed JSON: primitives compare by
    value, and two objects or arrays are never the same one. *)
Definition same_value_zero (a b : JSValue) : bool :=
  match a, b with
  | JUndefined, JUndefined => true
  | JNull, JNull => true
  | JBool x, JBool y => Bool.eqb x y
  | JNum x, JNum y => number_eqb x y
  | JStr x, JStr y => (x =? y)%string
  | _, _ => false
  end.

(** [Array.from(new Set(l))]: the first occurrence of each value, in
    order.  [seen] holds what the set has so far. *)
Fixpoint set_from (seen l : list JSValue) : list JSValue :=
  match l with
  | [] => []
  | x :: rest =>
      if existsb (same_value_zero x) seen then set_from seen rest
      else x :: set_from (seen ++ [x]) rest
  end.

Definition array_from_set (l : list JSValue) : list JSValue := set_from [] l.

(** [new Map(entries).get(key)]: the last entry under the key wins. *)
Fixpoint map_get (entries : list (JSValue * JSValue)) (key : JSValue) : JSValue :=
  match entries with
  | [] => JUndefined
  | (k, v) :: rest =>
      if existsb (fun kv => same_value_zero (fst kv) key) rest then map_get rest key
      else if same_value_zero k key then v else JUndefined
  end.

(** [l.slice(a, b)] *)
Definition slice (l : list JSValue) (a b : nat) : list JSValue := firstn (b - a) (skipn a l).

(** ** Async functions, one await at a time

    [Promise.all] starts its calls together; each then runs from one
    [await] to the next as the answers from upstream arrive.  For this an
    async function is also written as the tree of its awaits: it has
    settled, or it has sent a request and goes on with what [fetch]
    resolves or rejects to, or it sets a cookie on the response and goes
    on. *)
Inductive Task (A : Type) : Type :=
| Done (r : result A)
| Await (rq : Request) (k : result Response -> Task A)
| SetCookie (c : Cookie) (k : Task A).

Fixpoint and_then {A B} (t : Task A) (f : A -> Task B) : Task B :=
  match t with
  | Done (Ok a) => f a
  | Done (Throw e) => Done (Throw e)
  | Await rq k => Await rq (fun r => and_then (k r) f)
  | SetCookie c k => SetCookie c (and_then k f)
  end.

Declare Scope task_scope.
Delimit Scope task_scope with task.
Notation "x <- t ;; k" := (and_then t (fun x => k))
  (at level 61, t at next level, right associativity) : task_scope.
Notation "t ;; k" := (and_then t (fun _ => k))
  (at level 61, right associativity) : task_scope.

(** [await fetch(rq)] *)
Definition await (rq : Request) : Task Response :=
  Await rq (fun r => Done r).

Definition set_cookie (c : Cookie) : Task unit := SetCookie c (Done (Ok tt)).

Definition task_when (c : bool) (t : Task unit) : Task unit :=
  if c then t else Done (Ok tt).

(** One of the calls of a [Promise.all]: waiting for the answer to the
    request it sent, which stands at [sent_at] in the log, or settled. *)
Inductive Call (A : Type) : Type :=
| Waiting (rq : Request) (sent_at : nat) (k : result Response -> Task A)
| Settled (r : result A).

(** [res.cookie] once the response has gone out. *)
Definition headers_sent : exn :=
  Error "Cannot set headers after they are sent to the client".

(** A task runs up to its next await.  [answered] tells that the handler
    has sent its response: [res.cookie] throws from then on. *)
Fixpoint advance {A} (answered : bool) (t : Task A) (w : World) : Call A * World :=
  match t with
  | Done r => (Settled r, w)
  | Await rq k => (Waiting rq (length (log w)) k, mkWorld (log w ++ [rq]) (res w))
  | SetCookie c k =>
      if answered then (Settled (Throw headers_sent), w)
      else advance answered k (snd (res_cookie c w))
  end.

(** The calls of the array start in order, each up to its first await. *)
Fixpoint start {A} (ts : list (Task A)) (w : World) : list (Call A) * World :=
  match ts with
  | [] => ([], w)
  | t :: rest =>
      let (c, w1) := advance false t w in
      let (cs, w2) := start rest w1 in
      (c :: cs, w2)
  end.

(** The numbers of the calls that wait, counted from [i]. *)
Fixpoint waiting {A} (i : nat) (cs : list (Call A)) : list nat :=
  match cs with
  | [] => []
  | Waiting _ _ _ :: rest => i :: waiting (S i) rest
  | Settled _ :: rest => waiting (S i) rest
  end.

(** The call that hears next. *)
Definition hears (choice : nat) (ws : list nat) : option nat :=
  match ws with
  | [] => None
  | i :: _ => Some (if existsb (Nat.eqb choice) ws then choice else i)
  end.

Fixpoint put {A} (i : nat) (x : A) (l : list A) : list A :=
  match l, i with
  | [], _ => []
  | _ :: rest, O => x :: rest
  | y :: rest, S j => y :: put j x rest
  end.

(** The log without the request at [n]. *)
Definition others (n : nat) (l : list Request) : list Request :=
  firstn n l ++ skipn (S n) l.

(** The rejection [Promise.all] takes up: at the start that of the first
    call in order that threw before its first await, later that of the
    call that has just heard. *)
Fixpoint rejection {A} (cs : list (Call A)) : option exn :=
  match cs with
  | [] => None
  | Settled (Throw e) :: _ => Some e
  | _ :: rest => rejection rest
  end.

(** The values of the calls, when all have returned. *)
Fixpoint values {A} (cs : list (Call A)) : option (list A) :=
  match cs with
  | [] => Some []
  | Settled (Ok v) :: rest => option_map (cons v) (values rest)
  | _ :: _ => None
  end.

Section Server.

(** The environment the server starts with. *)
Variable SESSION_SECRET : string.
Variable SPOTIFY_CLIENT_ID : string.
Variable SPOTIFY_CLIENT_SECRET : string.
Variable SPOTIFY_REDIRECT_URI : string.

(** What [chat.ts] computes from the environment when it loads: the chat
    endpoint, the key (there may be none) and the model name. *)
Variable URL_CHAT : string.
Variable API_KEY : option string.
Variable MODEL : string.

(** The world beyond: what [fetch] resolves or rejects to, given the
    requests already sent and the one being sent. *)
Variable upstream : list Request -> Request -> result Response.

Definition fetch (rq : Request) : M Response :=
  fun w => (upstream (log w) rq, mkWorld (log w ++ [rq]) (res w)).

(** A task run on its own, each await answered before anything else
    happens. *)
Fixpoint run {A} (t : Task A) : M A :=
  match t with
  | Done r => lift r
  | Await rq k => fun w => run (k (upstream (log w) rq)) (mkWorld (log w ++ [rq]) (res w))
  | SetCookie c k => fun w => run k (snd (res_cookie c w))
  end.

(** The answer to its request reaches call [i]: upstream has seen the
    other requests of the log by then, and the call runs on to its next
    await. *)
Definition deliver {A} (answered : bool) (i : nat) (cs : list (Call A)) (w : World)
  : list (Call A) * World :=
  match nth_error cs i with
  | Some (Waiting rq n k) =>
      let (c, w') := advance answered (k (upstream (others n (log w)) rq)) w in
      (put i c cs, w')
  | _ => (cs, w)
  end.

(** [await Promise.all(...)], from the calls under way: it rejects as soon
    as one call has thrown, and resolves when all have returned; until
    then the next answer arrives.  [fuel] bounds the arrivals; [None]
    stands for a promise that has not settled when it runs out. *)
Fixpoint settle {A} (env : Env) (fuel step : nat) (cs : list (Call A)) (w : World)
  : option (result (list A)) * (nat * list (Call A)) * World :=
  match rejection cs with
  | Some e => (Some (Throw e), (step, cs), w)
  | None =>
      match values cs with
      | Some vs => (Some (Ok vs), (step, cs), w)
      | None =>
          match fuel, hears (arrival env step) (waiting 0 cs) with
          | S fuel', Some i =>
              let (cs', w') := deliver false i cs w in
              settle env fuel' (S step) cs' w'
          | _, _ => (None, (step, cs), w)
          end
      end
  end.

(** [Promise.all(ts)]: what it settles to, and the calls as they stand
    then. *)
Definition promise_all {A} (env : Env) (fuel : nat) (ts : list (Task A)) (w : World)
  : option (result (list A)) * (nat * list (Call A)) * World :=
  let (cs, w1) := start ts w in
  settle env fuel 0 cs w1.

(** After the handler has answered, the calls still under way go on as
    their answers arrive; nobody awaits them any more. *)
Fixpoint go_on {A} (env : Env) (fuel step : nat) (cs : list (Call A)) (w : World) : World :=
  match fuel, hears (arrival env step) (waiting 0 cs) with
  | S fuel', Some i =>
      let (cs', w') := deliver true i cs w in
      go_on env fuel' (S step) cs' w'
  | _, _ => w
  end.

Definition token_request (params : list (string * string)) : Request :=
  mkRequest POST SPOTIFY_TOKEN
            [("Content-Type", "application/x-www-form-urlencoded")]
            (Some (URLSearchParams params)).

(** *** GET /auth/login *)
Definition auth_login (env : Env) (req : Req) : M unit :=
  let returnTo := or_default (query req "return_to") "http://127.0.0.1:4200" in
  let payload := mkPayload (nonce_hex env) (Some returnTo) (Int (clock env + 10 * 60 * 1000)) in
  let state := signState SESSION_SECRET payload in
  res_redirect
    (JStr (SPOTIFY_AUTH +++ "?" +++
           URLSearchParams [("response_type", "code"); ("client_id", SPOTIFY_CLIENT_ID);
                            ("scope", SCOPES); ("redirect_uri", SPOTIFY_REDIRECT_URI);
                            ("state", state)])).

(** [if (tokens.access_token) res.cookie(...); if (tokens.refresh_token)
    res.cookie(...)] *)
Definition set_token_cookies (req : Req) (tokens : JSValue) : M unit :=
  at_ <- lift (get tokens "access_token") ;;
  when (truthy at_) (res_cookie (cookie_for req "spotify_access_token" at_ ACCESS_MS)) ;;
  rt_ <- lift (get tokens "refresh_token") ;;
  when (truthy rt_) (res_cookie (cookie_for req "spotify_refresh_token" rt_ REFRESH_MS)).

(** *** GET /auth/callback *)
Definition auth_callback (env : Env) (req : Req) : M unit :=
  let code := query req "code" in
  let state := query req "state" in
  verified <- lift (verifyState SESSION_SECRET (clock env) state) ;;
  if negb (option_truthy code) || negb (truthy verified) then
    res_status_set 400 ;; res_send "State mismatch or missing code."
  else
    r <- fetch (token_request
                  [("grant_type", "authorization_code");
                   ("code", or_default code "");
                   ("redirect_uri", SPOTIFY_REDIRECT_URI);
                   ("client_id", SPOTIFY_CLIENT_ID);
                   ("client_secret", SPOTIFY_CLIENT_SECRET)]) ;;
    if negb (ok r) then
      res_status_set 500 ;; res_send ("Token exchange failed: " +++ text r)
    else
      tokens <- lift (json r) ;;
      _ <- lift (get tokens "scope") ;;          (* console.log(..., tokens.scope) *)
      set_token_cookies req tokens ;;
      rt_ <- lift (get verified "rt") ;;
      res_redirect (js_or rt_ (JStr "/connected")).

(** *** refreshAccessToken *)
Definition refresh_request (token : string) : Request :=
  token_request [("grant_type", "refresh_token");
                 ("refresh_token", token);
                 ("client_id", SPOTIFY_CLIENT_ID);
                 ("client_secret", SPOTIFY_CLIENT_SECRET)].

Definition refreshAccessToken (req : Req) : M JSValue :=
  let refresh_token := cookies req "spotify_refresh_token" in
  if negb (truthy refresh_token) then ret JNull
  else
    token <- lift (ToString refresh_token) ;;
    r <- fetch (refresh_request token) ;;
    if negb (ok r) then ret JNull
    else
      json_ <- lift (json r) ;;
      set_token_cookies req json_ ;;
      lift (get json_ "access_token").

(** The request [doFetch] sends when the access token reads [token]. *)
Definition bearer_request (path token : string) : Request :=
  mkRequest GET (SPOTIFY_API +++ path) [("Authorization", "Bearer " +++ token)] None.

(** [doFetch()]: the template literal reads [access] at each call. *)
Definition doFetch (path : string) (access : JSValue) : M Response :=
  token <- lift (ToString access) ;;
  fetch (bearer_request path token).

(** *** sfetch *)
Definition sfetch (req : Req) (path : string) : M JSValue :=
  let access := cookies req "spotify_access_token" in
  resp <- doFetch path access ;;
  resp <- (if status resp =? 401 then
             t <- refreshAccessToken req ;;
             let access := js_or t JUndefined in
             if negb (truthy access) then throw (Error "Unauthorized and refresh failed")
             else doFetch path access
           else ret resp) ;;
  if negb (ok resp) then throw (Error (text resp))
  else lift (json resp).

(** The same three functions, await by await. *)
Definition set_token_cookies_task (req : Req) (tokens : JSValue) : Task unit :=
  (at_ <- Done (get tokens "access_token") ;;
   task_when (truthy at_) (set_cookie (cookie_for req "spotify_access_token" at_ ACCESS_MS)) ;;
   rt_ <- Done (get tokens "refresh_token") ;;
   task_when (truthy rt_) (set_cookie (cookie_for req "spotify_refresh_token" rt_ REFRESH_MS)))%task.

Definition refreshAccessToken_task (req : Req) : Task JSValue :=
  let refresh_token := cookies req "spotify_refresh_token" in
  if negb (truthy refresh_token) then Done (Ok JNull)
  else
    (token <- Done (ToString refresh_token) ;;
     r <- await (refresh_request token) ;;
     if negb (ok r) then Done (Ok JNull)
     else
       json_ <- Done (json r) ;;
       set_token_cookies_task req json_ ;;
       Done (get json_ "access_token"))%task.

Definition doFetch_task (path : string) (access : JSValue) : Task Response :=
  (token <- Done (ToString access) ;;
   await (bearer_request path token))%task.

Definition sfetch_task (req : Req) (path : string) : Task JSValue :=
  let access := cookies req "spotify_access_token" in
  (resp <- doFetch_task path access ;;
   resp <- (if status resp =? 401 then
              t <- refreshAccessToken_task req ;;
              let access := js_or t JUndefined in
              if negb (truthy access) then Done (Throw (Error "Unauthorized and refresh failed"))
              else doFetch_task path access
            else Done (Ok resp)) ;;
   if negb (ok resp) then Done (Throw (Error (text resp)))
   else Done (json resp))%task.

(** The response [sfetch] ends with: the first one, or the retried one
    after a 401 and a refresh that gave a token; none when a request
    could not be made or got no response. *)
Definition final_response (req : Req) (path : string) (w : World) : option Response :=
  match doFetch path (cookies req "spotify_access_token") w with
  | (Throw _, _) => None
  | (Ok r1, w1) =>
      if status r1 =? 401 then
        match refreshAccessToken req w1 with
        | (Ok tok, w2) =>
            if truthy tok then
              match doFetch path tok w2 with
              | (Ok r2, _) => Some r2
              | (Throw _, _) => None
              end
            else None
        | (Throw _, _) => None
        end
      else Some r1
  end.

(** *** GET /debug/tokens *)
Definition debug_tokens (env : Env) (req : Req) : M unit :=
  res_json (JObj [("hasAccess", JBool (truthy (cookies req "spotify_access_token")));
                  ("hasRefresh", JBool (truthy (cookies req "spotify_refresh_token")))]).

(** [catch (e) { res.status(500).send(e.message || "Error") }] *)
Definition send_error (e : exn) : M unit :=
  res_status_set 500 ;; res_send (message_or e "Error").

(** [catch (e) { res.status(500).json({ error: e.message || "failed" }) }] *)
Definition json_error (e : exn) : M unit :=
  res_status_set 500 ;; res_json (JObj [("error", JStr (message_or e "failed"))]).

(** *** GET /spotify/me *)
Definition me_path : string := "/me".

Definition spotify_me (env : Env) (req : Req) : M unit :=
  try_catch (v <- sfetch req me_path ;; res_json v) send_error.

(** *** GET /spotify/top-tracks *)
Definition top_tracks_path (req : Req) : string :=
  let time_range := or_default (query req "time_range") "medium_term" in
  let limit := or_default (query req "limit") "50" in
  "/me/top/tracks?time_range=" +++ time_range +++ "&limit=" +++ limit.

Definition spotify_top_tracks (env : Env) (req : Req) : M unit :=
  try_catch (v <- sfetch req (top_tracks_path req) ;; res_json v) send_error.

(** *** GET /spotify/top-artists *)
Definition top_artists_path (req : Req) : string :=
  let time_range := or_default (query req "time_range") "medium_term" in
  let limit := or_default (query req "limit") "50" in
  "/me/top/artists?time_range=" +++ time_range +++ "&limit=" +++ limit.

Definition spotify_top_artists (env : Env) (req : Req) : M unit :=
  try_catch (v <- sfetch req (top_artists_path req) ;; res_json v) send_error.

(** *** GET /spotify/recent *)
Definition recent_path (req : Req) : string :=
  let limit := or_default (query req "limit") "50" in
  let before := or_default (query req "before") "" in
  let after := or_default (query req "after") "" in
  let q := [("limit", limit)]
             ++ (if (before =? "")%string then [] else [("before", before)])
             ++ (if (after =? "")%string then [] else [("after", after)]) in
  "/me/player/recently-played?" +++ URLSearchParams q.

Definition spotify_recent (env : Env) (req : Req) : M unit :=
  try_catch (v <- sfetch req (recent_path req) ;; res_json v) send_error.

(** [(top.items as any[]).flatMap((t) => (t.artists ?? []).map((a) => a.id))] *)
Definition gather_artist_ids (items : JSValue) : result (list JSValue) :=
  js_flatMap items
    (fun t => match get t "artists" with
              | Throw e => Throw e
              | Ok artists => js_map (js_coalesce artists (JArr [])) (fun a => get a "id")
              end).

(** [`/artists?ids=${ids.join(",")}`] *)
Definition artists_path (ids : list JSValue) : result string :=
  match array_join "," ids with
  | Throw e => Throw e
  | Ok joined => Ok ("/artists?ids=" +++ joined)
  end.

(** The [for (let i = 0; i < artistIds.length; i += 50)] loop; it runs at
    most once per identifier, which [fuel] counts. *)
Fixpoint batch_loop (fuel : nat) (req : Req) (artistIds : list JSValue) (i : nat)
         (batched : list JSValue) : M (list JSValue) :=
  match fuel with
  | O => ret batched
  | S fuel' =>
      if (i <? length artistIds)%nat then
        path <- lift (artists_path (slice artistIds i (i + 50))) ;;
        resp <- sfetch req path ;;
        artists <- lift (get resp "artists") ;;
        more <- lift (spread (js_or artists (JArr []))) ;;
        batch_loop fuel' req artistIds (i + 50) (batched ++ more)
      else ret batched
  end.

(** [batched.map((a) => [a.id, a.genres || []])] *)
Definition genre_entries (batched : list JSValue) : result (list (JSValue * JSValue)) :=
  mapM (fun a => match get a "id" with
                 | Throw e => Throw e
                 | Ok id => match get a "genres" with
                            | Throw e => Throw e
                            | Ok genres => Ok (id, js_or genres (JArr []))
                            end
                 end) batched.

(** [{ id: a.id, name: a.name, genres: genresByArtist.get(a.id) || [] }] *)
Definition enriched_artist (genres : list (JSValue * JSValue)) (a : JSValue) : result JSValue :=
  match get a "id" with
  | Throw e => Throw e
  | Ok id =>
      match get a "name" with
      | Throw e => Throw e
      | Ok name =>
          Ok (JObj [("id", id); ("name", name);
                    ("genres", js_or (map_get genres id) (JArr []))])
      end
  end.

Definition enriched_track (genres : list (JSValue * JSValue)) (t : JSValue) : result JSValue :=
  match get t "id", get t "name", get t "uri", get t "popularity",
        get t "duration_ms", get t "explicit", get t "album", get t "artists" with
  | Ok id, Ok name, Ok uri, Ok popularity, Ok duration_ms, Ok explicit, Ok album, Ok artists =>
      match js_map (js_or artists (JArr [])) (enriched_artist genres) with
      | Throw e => Throw e
      | Ok arts =>
          Ok (JObj [("id", id); ("name", name); ("uri", uri); ("popularity", popularity);
                    ("duration_ms", duration_ms); ("explicit", explicit);
                    ("album", JObj [("id", get_opt album "id"); ("name", get_opt album "name");
                                    ("release_date", get_opt album "release_date")]);
                    ("artists", JArr arts)])
      end
  | Throw e, _, _, _, _, _, _, _ => Throw e
  | _, Throw e, _, _, _, _, _, _ => Throw e
  | _, _, Throw e, _, _, _, _, _ => Throw e
  | _, _, _, Throw e, _, _, _, _ => Throw e
  | _, _, _, _, Throw e, _, _, _ => Throw e
  | _, _, _, _, _, Throw e, _, _ => Throw e
  | _, _, _, _, _, _, Throw e, _ => Throw e
  | _, _, _, _, _, _, _, Throw e => Throw e
  end.

(** The body of the [try] of GET /enriched/top-tracks. *)
Definition enriched_block (req : Req) : M unit :=
  top <- sfetch req (top_tracks_path req) ;;
  items <- lift (get top "items") ;;
  gathered <- lift (gather_artist_ids items) ;;
  let artistIds := array_from_set gathered in
  batched <- batch_loop (length artistIds) req artistIds 0 [] ;;
  genres <- lift (genre_entries batched) ;;
  out <- lift (js_map items (enriched_track genres)) ;;
  res_json (JObj [("items", JArr out)]).

(** *** GET /enriched/top-tracks *)
Definition enriched_top_tracks (env : Env) (req : Req) : M unit :=
  try_catch (enriched_block req) json_error.

(** [v.items?.length || 0] *)
Definition items_count (v : JSValue) : result JSValue :=
  match get v "items" with
  | Throw e => Throw e
  | Ok items => Ok (js_or (get_opt items "length") (JNum (Int 0)))
  end.

(** The three calls of GET /debug/topcounts. *)
Definition topcounts_calls (req : Req) : list (Task JSValue) :=
  [ sfetch_task req "/me/top/tracks?time_range=short_term&limit=50";
    sfetch_task req "/me/top/tracks?time_range=medium_term&limit=50";
    sfetch_task req "/me/top/tracks?time_range=long_term&limit=50" ].

(** The body of its [try], from what [Promise.all] settled to. *)
Definition topcounts_block (settled : result (list JSValue)) : M unit :=
  tops <- lift settled ;;
  let shortT := nth 0%nat tops JUndefined in
  let medT := nth 1%nat tops JUndefined in
  let longT := nth 2%nat tops JUndefined in
  s <- lift (items_count shortT) ;;
  m <- lift (items_count medT) ;;
  l <- lift (items_count longT) ;;
  res_json (JObj [("short", s); ("medium", m); ("long", l)]).

(** *** GET /debug/topcounts

    Each call awaits three answers at most, nine in all. *)
Definition debug_topcounts (env : Env) (req : Req) : M unit :=
  fun w =>
    let '(settled, (step, calls), w1) := promise_all env 9 (topcounts_calls req) w in
    match settled with
    | None => (Ok tt, w1)
    | Some tops =>
        let (r, w2) := try_catch (topcounts_block tops) json_error w1 in
        (r, go_on env 9 step calls w2)
    end.

(** ** chat.ts *)

(** [Array.isArray(a) ? a.slice(0, n) : []] *)
Definition topN (a : JSValue) (n : nat) : list JSValue :=
  match a with
  | JArr items => firstn n items
  | _ => []
  end.

(** [{ k1: v.k1, k2: v.k2, ... }] *)
Definition pick (keys : list string) (v : JSValue) : result JSValue :=
  match mapM (fun k => match get v k with
                       | Ok x => Ok (k, x)
                       | Throw e => Throw e
                       end) keys with
  | Ok props => Ok (JObj props)
  | Throw e => Throw e
  end.

Definition track_fields : list string := ["id"; "name"; "uri"; "artists"].
Definition artist_fields : list string := ["id"; "name"; "genres"; "popularity"].
Definition recent_fields : list string := ["played_at"; "id"; "name"; "artists"].
Definition profile_fields : list string := ["id"; "displayName"; "country"].

(** *** compactSnapshot *)
Definition compactSnapshot (s : JSValue) : result JSValue :=
  let generatedAt := get_opt s "generatedAt" in
  let profile := get_opt s "profile" in
  match (if truthy profile then pick profile_fields profile else Ok profile) with
  | Throw e => Throw e
  | Ok profile' =>
      match mapM (pick track_fields) (topN (js_or (get_opt s "topTracks") (JArr [])) 25) with
      | Throw e => Throw e
      | Ok topTracks =>
          match mapM (pick artist_fields) (topN (js_or (get_opt s "topArtists") (JArr [])) 20) with
          | Throw e => Throw e
          | Ok topArtists =>
              match mapM (pick recent_fields) (topN (js_or (get_opt s "recent") (JArr [])) 20) with
              | Throw e => Throw e
              | Ok recent =>
                  Ok (JObj [("generatedAt", generatedAt); ("profile", profile');
                            ("topTracks", JArr topTracks); ("topArtists", JArr topArtists);
                            ("recent", JArr recent)])
              end
          end
      end
  end.

Definition newline : string := String "010" "".

Definition api_key_text : string :=
  match API_KEY with
  | Some k => k
  | None => "undefined"
  end.

Definition chat_request (payload : JSValue) : Request :=
  mkRequest POST URL_CHAT
            [("Authorization", "Bearer " +++ api_key_text); ("Content-Type", "application/json")]
            (JSON.stringify payload).

Definition message_of (role content : string) : JSValue :=
  JObj [("role", JStr role); ("content", JStr content)].

(** *** GET /chat/test *)
Definition chat_test (env : Env) (req : Req) : M unit :=
  try_catch
    (r <- fetch (chat_request
                   (JObj [("messages", JArr [message_of "user" "Say 'pong' only."]);
                          ("temperature", JNum (Int 0))])) ;;
     res_status_set (status r) ;; res_type_set "application/json" ;; res_send (text r))
    (fun e => res_status_set 500 ;; res_json (JObj [("error", JStr (message_or e "test failed"))])).

Definition json_text (v : JSValue) : string :=
  match JSON.stringify v with
  | Some t => t
  | None => "undefined"
  end.

(** The text of the user's message: the snapshot in a fenced block, then
    the question. *)
Definition user_content (slim question : JSValue) : result string :=
  match ToString question with
  | Throw e => Throw e
  | Ok asked =>
      Ok ("SNAPSHOT:" +++ newline +++ "```json" +++ newline +++ json_text slim +++ newline
          +++ "```" +++ newline +++ "QUESTION: " +++ asked)
  end.

Definition chat_payload (content : string) : JSValue :=
  JObj [("model", JStr MODEL);
        ("temperature", JNum (Dec 2 1));
        ("messages",
         JArr [message_of "system"
                 "You are a friendly music analyst. Use ONLY the JSON snapshot provided.";
               message_of "user" content])].

(** [json.choices?.[0]?.message?.content ?? ""] *)
Definition answer_of (json_ : JSValue) : result JSValue :=
  match get json_ "choices" with
  | Throw e => Throw e
  | Ok choices =>
      Ok (js_coalesce (get_opt (get_opt (get_index_opt choices 0) "message") "content")
                      (JStr ""))
  end.

Definition chat_block (req : Req) : M unit :=
  let b := js_or (body req) (JObj []) in
  question <- lift (get b "question") ;;
  snapshot <- lift (get b "snapshot") ;;
  if negb (truthy question) || negb (truthy snapshot) then
    res_status_set 400 ;; res_json (JObj [("error", JStr "Missing question or snapshot")])
  else if negb (option_truthy API_KEY) then
    res_status_set 500 ;;
    res_json (JObj [("error", JStr "Missing DIGITALOCEAN_AGENT_KEY (or INFERENCE_KEY)")])
  else
    slim <- lift (compactSnapshot snapshot) ;;
    content <- lift (user_content slim question) ;;
    r <- fetch (chat_request (chat_payload content)) ;;
    if negb (ok r) then
      res_status_set (status r) ;; res_json (JObj [("error", JStr (text r))])
    else
      json_ <- lift (JSON.parse (text r)) ;;
      answer <- lift (answer_of json_) ;;
      res_json (JObj [("answer", answer)]).

(** *** POST /chat *)
Definition chat_post (env : Env) (req : Req) : M unit :=
  try_catch (chat_block req)
            (fun e => res_status_set 500 ;; res_json (JObj [("error", JStr (message_or e "chat failed"))])).

(** ** The routes *)

Definition Handler : Type := Env -> Req -> M unit.

Record Route : Type := mkRoute {
  r_method : Method;
  r_path : string;
  r_handler : Handler
}.

(** [chatRouter()] *)
Definition chatRouter : list Route :=
  [ mkRoute GET "/test" chat_test;
    mkRoute POST "/" chat_post ].

(** [app.use(prefix, router)]: each route of the router, under the prefix. *)
Definition mount (prefix : string) (router : list Route) : list Route :=
  map (fun r => mkRoute (r_method r)
                        (if (r_path r =? "/")%string then prefix else prefix +++ r_path r)
                        (r_handler r)) router.

(** The [app] of server/index.ts, in the order it registers its routes. *)
Definition app : list Route :=
  [ mkRoute GET "/auth/login" auth_login;
    mkRoute GET "/auth/callback" auth_callback;
    mkRoute GET "/debug/tokens" debug_tokens;
    mkRoute GET "/spotify/me" spotify_me;
    mkRoute GET "/spotify/top-tracks" spotify_top_tracks;
    mkRoute GET "/spotify/top-artists" spotify_top_artists;
    mkRoute GET "/spotify/recent" spotify_recent;
    mkRoute GET "/enriched/top-tracks" enriched_top_tracks;
    mkRoute GET "/debug/topcounts" debug_topcounts ]
  ++ mount "/chat" chatRouter.

End Server.

(** The method and path of each route. *)
Definition surface (routes : list Route) : list (Method * string) :=
  map (fun r => (r_method r, r_path r)) routes.

(** The routes the two other Express apps of the repository register:
    src/index.ts, an earlier server, and src/Server.ts. *)
Definition src_index_surface : list (Method * string) :=
  [ (GET, "/"); (GET, "/auth/login"); (GET, "/auth/callback"); (GET, "/auth/refresh");
    (GET, "/spotify/me"); (GET, "/spotify/top-tracks"); (GET, "/spotify/top-artists");
    (GET, "/spotify/recent"); (GET, "/spotify/features") ].

Definition src_Server_surface : list (Method * string) := [ (GET, "/hi") ].

(** The routes of these two other apps. *)
Definition registered_elsewhere : list (Method * string) :=
  src_index_surface ++ src_Server_surface.

(** The eleven routes the specification lists. *)
Definition listed_surface : list (Method * string) :=
  [ (GET, "/auth/login"); (GET, "/auth/callback"); (GET, "/spotify/me");
    (GET, "/spotify/top-tracks"); (GET, "/spotify/top-artists"); (GET, "/spotify/recent");
    (GET, "/enriched/top-tracks"); (GET, "/debug/topcounts"); (GET, "/debug/tokens");
    (POST, "/chat"); (GET, "/chat/test") ].

(** ** The vocabulary of the statements *)

Definition all_digits (cs : list ascii) : Prop := Forall (fun c => is_digit c = true) cs.

(** The input goes on with something that is no digit. *)
Definition no_digit_next (l : list ascii) : Prop :=
  match l with
  | [] => True
  | c :: _ => is_digit c = false
  end.

(** The input goes on with something that continues no number. *)
Definition token_end (l : list ascii) : Prop :=
  match l with
  | [] => True
  | c :: _ => is_digit c = false /\ byte_val c <> 46 /\ byte_val c <> 101 /\ byte_val c <> 69
  end.

Definition fraction_text (fp : list ascii) : list ascii :=
  match fp with
  | [] => []
  | _ :: _ => "."%char :: fp
  end.

Definition exponent_text (expo : option (bool * list ascii)) : list ascii :=
  match expo with
  | None => []
  | Some (eneg, ep) => "e"%char :: (if eneg then "-"%char else "+"%char) :: ep
  end.

Definition exponent_value (expo : option (bool * list ascii)) : Z :=
  match expo with
  | None => 0
  | Some (eneg, ep) => if eneg then - JSON.digits_value ep else JSON.digits_value ep
  end.

Definition exponent_ok (expo : option (bool * list ascii)) : Prop :=
  match expo with
  | None => True
  | Some (_, ep) => all_digits ep /\ ep <> []
  end.

Definition numeral (neg : bool) (ip fp : list ascii) (expo : option (bool * list ascii))
  : list ascii :=
  (if neg then ["-"%char] else []) ++ ip ++ fraction_text fp ++ exponent_text expo.

(** A decimal that is not an integer is kept in lowest terms. *)
Definition canonical (x : number) : Prop :=
  match x with
  | Dec m _ => m mod 10 <> 0
  | _ => True
  end.

Definition payload_text (p : StatePayload) : list ascii :=
  "{"%char :: JSON.quote "n" ++ ":"%char :: JSON.quote (n p)
    ++ match rt p with
       | Some r => ","%char :: JSON.quote "rt" ++ ":"%char :: JSON.quote r
       | None => []
       end
    ++ ","%char :: JSON.quote "exp" ++ ":"%char :: number_text (exp p) ++ ["}"%char].

Definition after_member (fuel : nat) (props : list (string * JSValue)) (r : list ascii)
  : result (JSValue * list ascii) :=
  match JSON.skip_ws r with
  | c :: r' =>
      if byte_val c =? 44 then JSON.parse_members fuel r' props
      else if byte_val c =? 125 then Ok (JObj props, r')
      else JSON.syntax_error
  | [] => JSON.syntax_error
  end.

Definition header (name : string) (rq : Request) : string :=
  match assoc name (rq_headers rq) with
  | Some v => v
  | None => ""
  end.

(** The token endpoint grants the access token [fresh-token]; the API
    accepts that token alone and answers 401 to any other. *)
Definition demo_upstream (history : list Request) (rq : Request) : result Response :=
  if (rq_url rq =? SPOTIFY_TOKEN)%string
  then Ok (mkResponse 200 (dq "{'access_token':'fresh-token','scope':'user-top-read'}"))
  else if (header "Authorization" rq =? "Bearer fresh-token")%string
       then Ok (mkResponse 200 (dq "{'id':'u1'}"))
       else Ok (mkResponse 401 "The access token expired").

(** An API that is down: every answer is a 503 with an empty body. *)
Definition down_upstream (history : list Request) (rq : Request) : result Response :=
  Ok (mkResponse 503 "").

Definition demo_env : Env :=
  mkEnv 1700000000000 "00112233445566778899aabbccddeeff" (fun _ => 0%nat).

Definition demo_cookies (access refresh : JSValue) (name : string) : JSValue :=
  if (name =? "spotify_access_token")%string then access
  else if (name =? "spotify_refresh_token")%string then refresh
  else JUndefined.

Definition demo_req (access refresh : JSValue) : Req :=
  mkReq (demo_cookies access refresh) (fun _ => None) JUndefined "http".

(** The requests among [l] that go to [url]. *)
Definition count_url (url : string) (l : list Request) : nat :=
  length (filter (fun rq => (rq_url rq =? url)%string) l).

(** What a computation adds to the log. *)
Definition sent {A} (m : M A) (w : World) : list Request :=
  skipn (length (log w)) (log (snd (m w))).

(** [sfetch], case by case. *)
Definition finish (r : Response) : result JSValue :=
  if ok r then json r else Throw (Error (text r)).

(** What the two [catch] clauses leave behind. *)
Definition failed_with (body : Body) (w : World) : World :=
  mkWorld (log w) (mkRes 500 (res_type (res w)) (res_cookies (res w)) (Some body)).

(** The text a 500 carries for the upstream text [t]: [t] itself, or the
    route's fallback when [t] is empty. *)
Definition text_or (t dflt : string) : string := if (t =? "")%string then dflt else t.

(** A handler answers 500 with the body [b]. *)
Definition answers_500 (out : result unit * World) (b : Body) : Prop :=
  fst out = Ok tt /\ res_status (res (snd out)) = 500 /\ res_sent (res (snd out)) = Some b.

(** [{ k1: v.k1, ... }] for a [v] that is neither null nor undefined. *)
Definition project (keys : list string) (v : JSValue) : JSValue :=
  JObj (map (fun k => (k, get_opt v k)) keys).

(** The entries of the field [key] that [compactSnapshot] keeps: the
    first [n] of an array, none of anything else. *)
Definition kept (s : JSValue) (key : string) (n : nat) : list JSValue :=
  topN (js_or (get_opt s key) (JArr [])) n.

Definition defined (v : JSValue) : Prop := nullish v = false.

(** [s?.profile && { id, displayName, country }] *)
Definition compact_profile (s : JSValue) : JSValue :=
  if truthy (get_opt s "profile") then project profile_fields (get_opt s "profile")
  else get_opt s "profile".

(** The snapshot [compactSnapshot] returns when it returns. *)
Definition compacted (s : JSValue) : JSValue :=
  JObj [("generatedAt", get_opt s "generatedAt");
        ("profile", compact_profile s);
        ("topTracks", JArr (map (project track_fields) (kept s "topTracks" 25)));
        ("topArtists", JArr (map (project artist_fields) (kept s "topArtists" 20)));
        ("recent", JArr (map (project recent_fields) (kept s "recent" 20)))].

(** The names of the properties of an object. *)
Definition keys_of (v : JSValue) : list string :=
  match v with
  | JObj props => map fst props
  | _ => []
  end.

(** An upstream for the chat endpoint: it answers with one choice. *)
Definition chat_upstream (history : list Request) (rq : Request) : result Response :=
  Ok (mkResponse 200 (dq "{'choices':[{'message':{'role':'assistant','content':'Mostly indie.'}}]}")).

(** No two places of [l] hold the same value. *)
Definition distinct_values (l : list JSValue) : Prop :=
  ForallOrdPairs (fun a b => same_value_zero b a = false) l.

(** The values of [i] the loop runs with. *)
Fixpoint loop_starts (fuel len i : nat) : list nat :=
  match fuel with
  | O => []
  | S fuel' => if (i <? len)%nat then i :: loop_starts fuel' len (i + 50) else []
  end.

(** The batches the loop asks for. *)
Definition batches_of (ids : list JSValue) : list (list JSValue) :=
  map (fun i => slice ids i (i + 50)) (loop_starts (length ids) (length ids) 0).

(** The URL that asks for the artists whose identifiers join to [joined]. *)
Definition batch_url (joined : string) : string :=
  SPOTIFY_API +++ "/artists?ids=" +++ joined.

(** A run of GET /enriched/top-tracks: two tracks that share an artist. *)
Definition enriched_upstream (history : list Request) (rq : Request) : result Response :=
  if (rq_url rq =? SPOTIFY_API +++ "/me/top/tracks?time_range=medium_term&limit=50")%string
  then Ok (mkResponse 200 (dq ("{'items':[{'id':'t1','name':'One','artists':[{'id':'a1','name':'Ann'},{'id':'a2','name':'Bob'}]},"
                               +++ "{'id':'t2','name':'Two','album':{'id':'al','name':'LP'},'artists':[{'id':'a1','name':'Ann'}]}]}")))
  else if (rq_url rq =? SPOTIFY_API +++ "/artists?ids=a1,a2")%string
       then Ok (mkResponse 200 (dq "{'artists':[{'id':'a1','genres':['folk']},{'id':'a2'}]}"))
       else Ok (mkResponse 404 "not found").

(** GET /auth/callback answered 400. *)
Definition responds_400 (out : result unit * World) : Prop :=
  res_status (res (snd out)) = 400
  /\ res_sent (res (snd out)) = Some (SendText "State mismatch or missing code.").

(** The request that exchanges [code] for tokens. *)
Definition exchange_request (client_id client_secret redirect_uri code : string) : Request :=
  token_request [("grant_type", "authorization_code");
                 ("code", code);
                 ("redirect_uri", redirect_uri);
                 ("client_id", client_id);
                 ("client_secret", client_secret)].

(** An upstream that lets nobody in: every answer is a 401 with an error
    in JSON. *)
Definition closed_upstream (history : list Request) (rq : Request) : result Response :=
  Ok (mkResponse 401 (dq "{'error':'invalid_grant'}")).

(** The request of GET /chat/test. *)
Definition chat_test_request (URL_CHAT : string) (API_KEY : option string) : Request :=
  chat_request URL_CHAT API_KEY
               (JObj [("messages", JArr [message_of "user" "Say 'pong' only."]);
                      ("temperature", JNum (Int 0))]).

(** An upstream whose every answer is a list of two items. *)
Definition two_items_upstream (history : list Request) (rq : Request) : result Response :=
  Ok (mkResponse 200 (dq "{'items':[{'id':'t1'},{'id':'t2'}]}")).

(** An upstream whose token endpoint answers 200 with the JSON [null],
    and whose API answers 401. *)
Definition null_token_upstream (history : list Request) (rq : Request) : result Response :=
  if (rq_url rq =? SPOTIFY_TOKEN)%string
  then Ok (mkResponse 200 "null")
  else Ok (mkResponse 401 "The access token expired").


(** ** The numbers JavaScript has

    A [number] of the embedding is an exact decimal.  JavaScript has the
    IEEE 754 doubles only, and prints each by the shortest decimal that
    reads back as it; a number of the embedding stands for a double when
    it is that decimal. *)
Module Double.

(** The quotient [num / den] scaled by [2^(- e)], as a fraction. *)
Definition scaled (num den e : Z) : Z * Z :=
  if 0 <=? e then (num, den * 2 ^ e) else (num * 2 ^ (- e), den).

(** The exponent [e] of the double next to a positive [num / den]: the
    one with [2^52 <= num / den / 2^e < 2^53], and -1074 for what lies
    below the normal range. *)
Definition exponent (num den : Z) : Z :=
  let e := Z.log2 num - Z.log2 den - 53 in
  let (n, d) := scaled num den e in
  Z.max (if n <? 2 ^ 53 * d then e else e + 1) (-1074).

(** Round to nearest, ties to even: the double [mant * 2^e] next to a
    positive [num / den], [None] where it is past the largest double. *)
Definition nearest (num den : Z) : option (Z * Z) :=
  let e := exponent num den in
  let (n, d) := scaled num den e in
  let q := n / d in
  let r := n mod d in
  let q' := if (d <? 2 * r) || ((2 * r =? d) && Z.odd q) then q + 1 else q in
  let (m, e') := if q' =? 2 ^ 53 then (2 ^ 52, e + 1) else (q', e) in
  if 971 <? e' then None else Some (m, e').

(** The fraction [s * 10^t]. *)
Definition decimal (s t : Z) : Z * Z :=
  if 0 <=? t then (s * 10 ^ t, 1) else (s, 10 ^ (- t)).

(** The double a decimal numeral reads as. *)
Definition read (s t : Z) : option (Z * Z) :=
  if s =? 0 then Some (0, -1074)
  else let (n, d) := decimal s t in nearest n d.

Definition same (a b : option (Z * Z)) : bool :=
  match a, b with
  | Some (m, e), Some (m', e') => (m =? m') && (e =? e')
  | _, _ => false
  end.

(** [mant * 2^e] in units of [10^t], as a fraction. *)
Definition in_units (m e t : Z) : Z * Z :=
  let (n, d) := if 0 <=? e then (m * 2 ^ e, 1) else (m, 2 ^ (- e)) in
  if 0 <=? t then (n, d * 10 ^ t) else (n * 10 ^ (- t), d).

Fixpoint count_digits (fuel : nat) (s : Z) : Z :=
  match fuel with
  | O => 0
  | S f => if s =? 0 then 0 else 1 + count_digits f (s / 10)
  end.

(** Number::toString prints a double by the digits [s] and the exponent
    [t] such that [s * 10^t] reads as the double, with as few digits as
    can be, and of those the nearest to it, the even one of two as near. *)
Definition is_shortest (s t : Z) : bool :=
  match read s t with
  | None => false
  | Some (m, e) =>
      let d := Some (m, e) in
      negb (m =? 0)
      && negb (s mod 10 =? 0)
      && (let (n, u) := in_units m e (t + 1) in
          let lo := n / u in
          (count_digits (Z.to_nat (Z.log2 s) + 1) s =? 1)
          || (negb (same (read lo (t + 1)) d) && negb (same (read (lo + 1) (t + 1)) d)))
      && (let (n, u) := in_units m e t in
          let a := n / u in
          let other := if s =? a then a + 1 else a in
          ((s =? a) || (s =? a + 1))
          && (negb (same (read other t) d)
              || (let mine := Z.abs (s * u - n) in
                  let theirs := Z.abs (other * u - n) in
                  (mine <? theirs) || ((mine =? theirs) && Z.even s))))
  end.

Fixpoint normal (fuel : nat) (s t : Z) : Z * Z :=
  match fuel with
  | O => (s, t)
  | S f => if s mod 10 =? 0 then normal f (s / 10) (t + 1) else (s, t)
  end.

(** The numbers that are the print of a double. *)
Definition is_double (x : number) : bool :=
  match x with
  | Int z =>
      (z =? 0)
      || (let (s, t) := normal (Z.to_nat (Z.log2 (Z.abs z)) + 1) (Z.abs z) 0 in is_shortest s t)
  | Dec m k => is_shortest (Z.abs m) (- Z.pos k)
  | NaN | PosInf | NegInf => true
  end.

End Double.

(** A value all of whose numbers are doubles: a value JavaScript has. *)
Fixpoint doubles (v : JSValue) : bool :=
  match v with
  | JNum n => Double.is_double n
  | JArr items => forallb doubles items
  | JObj props => forallb (fun kv => doubles (snd kv)) props
  | _ => true
  end.

(** The entries of an array; anything else has none. *)
Definition array_entries (v : JSValue) : list JSValue :=
  match v with
  | JArr items => items
  | _ => []
  end.

(** ** GET /enriched/top-tracks, said from outside *)

(** The artists a track lists. *)
Definition listed_artists (t : JSValue) : list JSValue :=
  array_entries (get_opt t "artists").

(** The artist identifiers of the tracks: track by track, artist by
    artist, repeated as often as they occur. *)
Definition track_artist_ids (tracks : list JSValue) : list JSValue :=
  flat_map (fun t => map (fun a => get_opt a "id") (listed_artists t)) tracks.

(** The artists an answer of GET /artists holds. *)
Definition artists_in (answer : JSValue) : list JSValue :=
  match spread (js_or (get_opt answer "artists") (JArr [])) with
  | Ok l => l
  | Throw _ => []
  end.

(** The last of [found] whose identifier is [id]. *)
Fixpoint last_with_id (id : JSValue) (found : list JSValue) : option JSValue :=
  match found with
  | [] => None
  | a :: rest =>
      match last_with_id id rest with
      | Some b => Some b
      | None => if same_value_zero (get_opt a "id") id then Some a else None
      end
  end.

(** The genres found for [id]: those of the last artist upstream gave
    under that identifier, [] when it gave none or the artist has none. *)
Definition genres_for (found : list JSValue) (id : JSValue) : JSValue :=
  match last_with_id id found with
  | Some a => js_or (get_opt a "genres") (JArr [])
  | None => JArr []
  end.

(** A track of the answer: the track's own fields, its album cut down,
    and its artists, each with the genres found for it. *)
Definition enriched_item (found : list JSValue) (t : JSValue) : JSValue :=
  JObj [("id", get_opt t "id"); ("name", get_opt t "name"); ("uri", get_opt t "uri");
        ("popularity", get_opt t "popularity"); ("duration_ms", get_opt t "duration_ms");
        ("explicit", get_opt t "explicit");
        ("album", JObj [("id", get_opt (get_opt t "album") "id");
                        ("name", get_opt (get_opt t "album") "name");
                        ("release_date", get_opt (get_opt t "album") "release_date")]);
        ("artists",
         JArr (map (fun a => JObj [("id", get_opt a "id"); ("name", get_opt a "name");
                                   ("genres", genres_for found (get_opt a "id"))])
                   (listed_artists t)))].

(** The answers [sfetch] returns for the batches, asked one after the
    other; none when a batch cannot be asked for or is not answered. *)
Fixpoint batch_answers (client_id client_secret : string)
         (upstream : list Request -> Request -> result Response)
         (req : Req) (batches : list (list JSValue)) (w : World)
  : option (list JSValue * World) :=
  match batches with
  | [] => Some ([], w)
  | b :: rest =>
      match array_join "," b with
      | Throw _ => None
      | Ok joined =>
          match sfetch client_id client_secret upstream req ("/artists?ids=" +++ joined) w with
          | (Throw _, _) => None
          | (Ok answer, w1) =>
              match batch_answers client_id client_secret upstream req rest w1 with
              | Some (answers, w2) => Some (answer :: answers, w2)
              | None => None
              end
          end
      end
  end.

(** ** What every route keeps *)

(** A computation moves every world to one that [R] relates it to. *)
Definition preserves (R : World -> World -> Prop) {A} (m : M A) : Prop :=
  forall w, R w (snd (m w)).

(** A cookie as the server sets them on the answer to [req]: one of the
    two tokens, never empty, out of reach of scripts, with the age that
    goes with its name, and secure when the request came over https. *)
Definition token_cookie (req : Req) (c : Cookie) : Prop :=
  c_httpOnly c = true /\ c_sameSite c = "lax" /\ c_path c = "/"
  /\ c_secure c = (protocol req =? "https")%string
  /\ truthy (c_value c) = true
  /\ ((c_name c = "spotify_access_token" /\ c_maxAge c = 3600000)
      \/ (c_name c = "spotify_refresh_token" /\ c_maxAge c = 2592000000)).

(** The three kinds of request the server sends: a POST to the token
    endpoint, a GET below the API root with an [Authorization] header and
    no body, and a POST to the chat endpoint. *)
Definition known_request (URL_CHAT : string) (rq : Request) : Prop :=
  (rq_method rq = POST /\ rq_url rq = SPOTIFY_TOKEN)
  \/ (rq_method rq = GET /\ rq_body rq = None
      /\ map fst (rq_headers rq) = ["Authorization"]
      /\ exists path, rq_url rq = SPOTIFY_API +++ path)
  \/ (rq_method rq = POST /\ rq_url rq = URL_CHAT).

(** From [w] to [w'] the log has grown by known requests and the cookies
    by token cookies; nothing that was there has gone. *)
Definition extends (URL_CHAT : string) (req : Req) (w w' : World) : Prop :=
  (exists l, log w' = log w ++ l /\ Forall (known_request URL_CHAT) l)
  /\ (exists cs, res_cookies (res w') = res_cookies (res w) ++ cs
                 /\ Forall (token_cookie req) cs).

(** A handler has returned and an answer has been sent. *)
Definition answers (out : result unit * World) : Prop :=
  fst out = Ok tt /\ res_sent (res (snd out)) <> None.

(** A computation that, when it returns, has sent an answer. *)
Definition sends_on_return (m : M unit) : Prop :=
  forall w w', m w = (Ok tt, w') -> res_sent (res w') <> None.

(** The answer under construction is as it was: status, type and body. *)
Definition same_answer (w w' : World) : Prop :=
  res_status (res w') = res_status (res w)
  /\ res_type (res w') = res_type (res w)
  /\ res_sent (res w') = res_sent (res w).

(** The four routes that hand on one upstream resource, each with the
    path it asks for. *)
Definition proxied (client_id client_secret : string)
           (upstream : list Request -> Request -> result Response) (req : Req)
  : list (string * Handler) :=
  [ (me_path, spotify_me client_id client_secret upstream);
    (top_tracks_path req, spotify_top_tracks client_id client_secret upstream);
    (top_artists_path req, spotify_top_artists client_id client_secret upstream);
    (recent_path req, spotify_recent client_id client_secret upstream) ].

(** ** Calls that run together *)

(** From [w] to [w'] the log has grown by requests of [P] and the cookies
    by cookies of [Q], and the answer is as it was. *)
Definition grows (P : Request -> Prop) (Q : Cookie -> Prop) (w w' : World) : Prop :=
  (exists l, log w' = log w ++ l /\ Forall P l)
  /\ (exists cs, res_cookies (res w') = res_cookies (res w) ++ cs /\ Forall Q cs)
  /\ same_answer w w'.

(** A task sends requests of [P] only and sets cookies of [Q] only, and
    awaits [n] answers at most. *)
Fixpoint task_ok {A} (P : Request -> Prop) (Q : Cookie -> Prop) (t : Task A) (n : nat)
  : Prop :=
  match t with
  | Done _ => True
  | Await rq k => P rq /\ match n with
                         | O => False
                         | S m => forall r, task_ok P Q (k r) m
                         end
  | SetCookie c k => Q c /\ task_ok P Q k n
  end.

(** The same of a call under way. *)
Definition call_ok {A} (P : Request -> Prop) (Q : Cookie -> Prop) (c : Call A) (n : nat)
  : Prop :=
  match c with
  | Waiting _ _ k => match n with
                     | O => False
                     | S m => forall r, task_ok P Q (k r) m
                     end
  | Settled _ => True
  end.

(** The last response a call of [sfetch] got to its resource request,
    whether or not it went on to ask again. *)
Definition last_response (client_id client_secret : string)
           (upstream : list Request -> Request -> result Response)
           (req : Req) (path : string) (w : World) : option Response :=
  match doFetch upstream path (cookies req "spotify_access_token") w with
  | (Throw _, _) => None
  | (Ok r1, w1) =>
      if status r1 =? 401 then
        match refreshAccessToken client_id client_secret upstream req w1 with
        | (Ok tok, w2) =>
            if truthy tok then
              match doFetch upstream path tok w2 with
              | (Ok r2, _) => Some r2
              | (Throw _, _) => Some r1
              end
            else Some r1
        | (Throw _, _) => Some r1
        end
      else Some r1
  end.

(** The paths of the three calls of GET /debug/topcounts. *)
Definition topcounts_paths : list string :=
  [ "/me/top/tracks?time_range=short_term&limit=50";
    "/me/top/tracks?time_range=medium_term&limit=50";
    "/me/top/tracks?time_range=long_term&limit=50" ].

(** The call of three that hears first. *)
Definition first_heard (env : Env) : nat :=
  if (arrival env 0 <? 3)%nat then arrival env 0%nat else 0%nat.


(** ** chat.ts: the chat endpoint, from the environment *)

Module ChatConfig.

Definition is_slash (c : ascii) : bool := byte_val c =? 47.

(** [s.replace(/\/+$/, "")]: the slashes that end [s] go. *)
Definition strip_trailing_slashes (s : string) : string :=
  string_of_bytes (rev (Coerce.drop_while is_slash (rev (bytes_of_string s)))).

(** [s] without the [suffix] it ends with, if it ends with it. *)
Definition without_suffix (suffix s : string) : option string :=
  match JSON.starts_with (rev (bytes_of_string suffix)) (rev (bytes_of_string s)) with
  | Some r => Some (string_of_bytes (rev r))
  | None => None
  end.

(** [s.replace(/\/(api|v1)$/, "")]: one last segment goes, if it is [api]
    or [v1]. *)
Definition drop_segment (s : string) : string :=
  match without_suffix "/api" s with
  | Some b => b
  | None => match without_suffix "/v1" s with
            | Some b => b
            | None => s
            end
  end.

(** [/\.agents\.do-ai\.run$/.test(host)] *)
Definition is_agent_host (host : string) : bool :=
  match without_suffix ".agents.do-ai.run" host with
  | Some _ => true
  | None => false
  end.

Section Environment.

(** [process.env]: each variable is a string or is not set. *)
Variable GRADIENT_API_URL : option string.
Variable DIGITALOCEAN_AGENT_KEY : option string.
Variable DIGITALOCEAN_INFERENCE_KEY : option string.
Variable GRADIENT_MODEL : option string.

(** [new URL(s).host]: the platform's URL parser, which throws a TypeError
    for what is no URL. *)
Variable url_host : string -> result string.

Definition RAW_BASE : string := or_default GRADIENT_API_URL "https://inference.do-ai.run".

Definition BASE : string := drop_segment (strip_trailing_slashes RAW_BASE).

Definition IS_AGENT : result bool :=
  match url_host BASE with
  | Ok host => Ok (is_agent_host host)
  | Throw e => Throw e
  end.

Definition CHAT_PATH (is_agent : bool) : string :=
  if is_agent then "/api/v1/chat/completions" else "/v1/chat/completions".

(** The module loads, with this endpoint, or fails to. *)
Definition URL_CHAT : result string :=
  match IS_AGENT with
  | Ok a => Ok (BASE +++ CHAT_PATH a)
  | Throw e => Throw e
  end.

(** [DIGITALOCEAN_AGENT_KEY || DIGITALOCEAN_INFERENCE_KEY] *)
Definition API_KEY : option string :=
  if option_truthy DIGITALOCEAN_AGENT_KEY then DIGITALOCEAN_AGENT_KEY
  else DIGITALOCEAN_INFERENCE_KEY.

Definition MODEL : string := or_default GRADIENT_MODEL "meta-llama/llama-3.1-70b-instruct".

End Environment.

End ChatConfig.

(** [n] slashes. *)
Definition slashes (n : nat) : string := string_of_bytes (repeat "/"%char n).


(** ** src/index.ts: the earlier server

    It keeps the state of the login in a cookie, sets its cookies without
    an age, and has no [try] around its calls. *)

Module SrcIndex.

(** The request: [host] is [req.get("host")]. *)
Record Req : Type := mkReq {
  cookies : string -> JSValue;
  query : string -> option string;
  protocol : string;
  host : option string
}.

(** [res.cookie(name, value, { httpOnly, sameSite, secure })] *)
Record Cookie : Type := mkCookie {
  c_name : string;
  c_value : JSValue;
  c_httpOnly : bool;
  c_sameSite : string;
  c_secure : bool
}.

Record Res : Type := mkRes {
  res_status : Z;
  res_cookies : list Cookie;
  res_sent : option Body
}.

Record World : Type := mkWorld {
  log : list Request;
  res : Res
}.

Definition fresh : World := mkWorld [] (mkRes 200 [] None).

Definition M (A : Type) : Type := World -> result A * World.

Definition ret {A} (a : A) : M A := fun w => (Ok a, w).
Definition throw {A} (e : exn) : M A := fun w => (Throw e, w).
Definition lift {A} (r : result A) : M A := fun w => (r, w).

Definition bind {A B} (m : M A) (k : A -> M B) : M B :=
  fun w => match m w with
           | (Ok a, w') => k a w'
           | (Throw e, w') => (Throw e, w')
           end.

Declare Scope earlier_scope.
Delimit Scope earlier_scope with earlier.
Notation "x <- m ;; k" := (bind m (fun x => k))
  (at level 61, m at next level, right associativity) : earlier_scope.
Notation "m ;; k" := (bind m (fun _ => k))
  (at level 61, right associativity) : earlier_scope.
Local Open Scope earlier_scope.

Definition set_res (f : Res -> Res) : M unit :=
  fun w => (Ok tt, mkWorld (log w) (f (res w))).

Definition res_status_set (code : Z) : M unit :=
  set_res (fun r => mkRes code (res_cookies r) (res_sent r)).

Definition res_send (s : string) : M unit :=
  set_res (fun r => mkRes (res_status r) (res_cookies r) (Some (SendText s))).

Definition res_json (v : JSValue) : M unit :=
  set_res (fun r => mkRes (res_status r) (res_cookies r) (Some (SendJson v))).

Definition res_redirect (url : JSValue) : M unit :=
  set_res (fun r => mkRes 302 (res_cookies r) (Some (Redirect url))).

Definition res_cookie (c : Cookie) : M unit :=
  set_res (fun r => mkRes (res_status r) (res_cookies r ++ [c]) (res_sent r)).

(** [{ httpOnly: true, sameSite: "lax", secure: true }] *)
Definition cookie_of (name : string) (value : JSValue) : Cookie :=
  mkCookie name value true "lax" true.

(** A value that may be undefined, as a template literal or
    [URLSearchParams] writes it. *)
Definition text_of (o : option string) : string :=
  match o with
  | Some s => s
  | None => "undefined"
  end.

(** [s === v] for a string [s]. *)
Definition is_string (s : string) (v : JSValue) : bool :=
  match v with
  | JStr t => (t =? s)%string
  | _ => false
  end.

Section Server.

Variable SPOTIFY_CLIENT_ID : string.
Variable SPOTIFY_CLIENT_SECRET : string.
Variable SPOTIFY_REDIRECT_URI : string.
Variable upstream : list Request -> Request -> result Response.

Definition fetch (rq : Request) : M Response :=
  fun w => (upstream (log w) rq, mkWorld (log w ++ [rq]) (res w)).

(** *** GET / *)
Definition hello (env : Env) (req : Req) : M unit := res_send "Hello World".

(** *** GET /auth/login *)
Definition auth_login (env : Env) (req : Req) : M unit :=
  let state := nonce_hex env in
  res_cookie (cookie_of "spotify_auth_state" (JStr state)) ;;
  res_redirect
    (JStr (SPOTIFY_AUTH +++ "?" +++
           URLSearchParams [("response_type", "code"); ("client_id", SPOTIFY_CLIENT_ID);
                            ("scope", SCOPES); ("redirect_uri", SPOTIFY_REDIRECT_URI);
                            ("state", state)])).

(** *** GET /auth/callback *)
Definition auth_callback (env : Env) (req : Req) : M unit :=
  let code := query req "code" in
  let state := query req "state" in
  let cookieState := cookies req "spotify_auth_state" in
  if negb (option_truthy state) || negb (is_string (text_of state) cookieState) then
    res_status_set 400 ;; res_send "State mismatch"
  else
    r <- fetch (token_request
                  [("grant_type", "authorization_code");
                   ("code", text_of code);
                   ("redirect_uri", SPOTIFY_REDIRECT_URI);
                   ("client_id", SPOTIFY_CLIENT_ID);
                   ("client_secret", SPOTIFY_CLIENT_SECRET)]) ;;
    tokens <- lift (json r) ;;
    at_ <- lift (get tokens "access_token") ;;
    res_cookie (cookie_of "spotify_access_token" at_) ;;
    rt_ <- lift (get tokens "refresh_token") ;;
    res_cookie (cookie_of "spotify_refresh_token" rt_) ;;
    res_redirect (JStr "/app").

(** *** GET /auth/refresh *)
Definition auth_refresh (env : Env) (req : Req) : M unit :=
  let refresh_token := cookies req "spotify_refresh_token" in
  if negb (truthy refresh_token) then
    res_status_set 401 ;; res_send "No refresh token"
  else
    token <- lift (ToString refresh_token) ;;
    r <- fetch (refresh_request SPOTIFY_CLIENT_ID SPOTIFY_CLIENT_SECRET token) ;;
    json_ <- lift (json r) ;;
    at_ <- lift (get json_ "access_token") ;;
    res_cookie (cookie_of "spotify_access_token" at_) ;;
    res_json (JObj [("ok", JBool true)]).

(** The request to the server's own GET /auth/refresh. *)
Definition own_refresh_request (req : Req) : Request :=
  mkRequest GET (protocol req +++ "://" +++ text_of (host req) +++ "/auth/refresh") [] None.

(** *** sfetch *)
Definition doFetch (path : string) (access : JSValue) : M Response :=
  token <- lift (ToString access) ;;
  fetch (bearer_request path token).

Definition sfetch (req : Req) (path : string) : M JSValue :=
  let access := cookies req "spotify_access_token" in
  resp <- doFetch path access ;;
  resp <- (if status resp =? 401 then
             fetch (own_refresh_request req) ;;
             let access := cookies req "spotify_access_token" in
             doFetch path access
           else ret resp) ;;
  if negb (ok resp) then throw (Error (text resp))
  else lift (json resp).

(** *** The data routes *)
Definition spotify_me (env : Env) (req : Req) : M unit :=
  v <- sfetch req "/me" ;; res_json v.

Definition spotify_top_tracks (env : Env) (req : Req) : M unit :=
  v <- sfetch req "/me/top/tracks?time_range=medium_term&limit=50" ;; res_json v.

Definition spotify_top_artists (env : Env) (req : Req) : M unit :=
  v <- sfetch req "/me/top/artists?time_range=medium_term&limit=50" ;; res_json v.

Definition spotify_recent (env : Env) (req : Req) : M unit :=
  v <- sfetch req "/me/player/recently-played?limit=50" ;; res_json v.

(** [(req.query.ids as string) ?? ""] *)
Definition features_path (req : Req) : string :=
  "/audio-features?ids=" +++ match query req "ids" with
                             | Some ids => ids
                             | None => ""
                             end.

Definition spotify_features (env : Env) (req : Req) : M unit :=
  v <- sfetch req (features_path req) ;; res_json v.

Definition Handler : Type := Env -> Req -> M unit.

(** The [app] of src/index.ts, in the order it registers its routes. *)
Definition app : list (Method * string * Handler) :=
  [ (GET, "/", hello);
    (GET, "/auth/login", auth_login);
    (GET, "/auth/callback", auth_callback);
    (GET, "/auth/refresh", auth_refresh);
    (GET, "/spotify/me", spotify_me);
    (GET, "/spotify/top-tracks", spotify_top_tracks);
    (GET, "/spotify/top-artists", spotify_top_artists);
    (GET, "/spotify/recent", spotify_recent);
    (GET, "/spotify/features", spotify_features) ].

(** The data routes, each with the path it asks upstream for. *)
Definition data_routes (req : Req) : list (string * Handler) :=
  [ ("/me", spotify_me);
    ("/me/top/tracks?time_range=medium_term&limit=50", spotify_top_tracks);
    ("/me/top/artists?time_range=medium_term&limit=50", spotify_top_artists);
    ("/me/player/recently-played?limit=50", spotify_recent);
    (features_path req, spotify_features) ].

End Server.

End SrcIndex.

(** * Proofs *)

Section SHA256Facts.
Import SHA256.

Lemma sha256_length msg : length (sha256 msg) = 32%nat.
Proof. reflexivity. Qed.

Lemma hmac_length key msg : length (hmac key msg) = 32%nat.
Proof. apply sha256_length. Qed.

End SHA256Facts.

Example sha256_abc :
  hex_of_bytes (SHA256.sha256 (bytes_of_string "abc"))
  = "ba7816bf8f01cfea414140de5dae2223b00361a396177a9cb410ff61f20015ad".
Proof. vm_compute. reflexivity. Qed.

Example sha256_empty :
  hex_of_bytes (SHA256.sha256 [])
  = "e3b0c44298fc1c149afbf4c8996fb92427ae41e4649b934ca495991b7852b855".
Proof. vm_compute. reflexivity. Qed.

Example hmac_rfc4231_case2 :
  hex_of_bytes (SHA256.hmac (bytes_of_string "Jefe") (bytes_of_string "what do ya want for nothing?"))
  = "5bdcc146bf60754e6a042426089575c75a003f089d2739839dec58b964ec3843".
Proof. vm_compute. reflexivity. Qed.

Example base64url_decode_examples :
  map (fun s => string_of_bytes (Base64url.decode s))
      ["aGk"; "aGk="; "aG k"; "aG=k"; "a.Gk"; "=aGk"; "aGVsbG8"; "aGVsbG8=d29ybGQ"; "_-8"; "/+8"]
  = ["hi"; "hi"; "hi"; "h"; "hi"; ""; "hello"; "hello";
     String "255" (String "239" ""); String "255" (String "239" "")].
Proof. vm_compute. reflexivity. Qed.

Section Base64urlFacts.
Import Base64url.

Lemma decode_encode_sextet (s : sextet) : decode_char (encode_sextet s) = Some s.
Proof.
  destruct s as [[[[[b5 b4] b3] b2] b1] b0].
  destruct b5, b4, b3, b2, b1, b0; reflexivity.
Qed.

Lemma encode_sextet_not_dot (s : sextet) : encode_sextet s <> "."%char.
Proof.
  destruct s as [[[[[b5 b4] b3] b2] b1] b0].
  destruct b5, b4, b3, b2, b1, b0; discriminate.
Qed.

Lemma read_sextets_encoded (ss : list sextet) :
  read_sextets (map encode_sextet ss) = ss.
Proof.
  induction ss as [|s ss IH]; [reflexivity|].
  cbn [map read_sextets]. rewrite decode_encode_sextet, IH. reflexivity.
Qed.

(** Induction three bytes at a time, as the encoder consumes them. *)
Lemma bytes_ind3 (P : list ascii -> Prop) :
  P [] -> (forall a, P [a]) -> (forall a b, P [a; b]) ->
  (forall a b c rest, P rest -> P (a :: b :: c :: rest)) ->
  forall bs, P bs.
Proof.
  intros H0 H1 H2 H3.
  assert (H : forall bs, P bs /\ (forall a, P (a :: bs)) /\ (forall a b, P (a :: b :: bs))).
  { induction bs as [|x bs [IH0 [IH1 IH2]]].
    - repeat split; auto.
    - repeat split; auto. }
  intro bs. apply H.
Qed.

Lemma bytes_of_sextets_of_bytes (bs : list ascii) :
  bytes_of_sextets (sextets_of_bytes bs) = bs.
Proof.
  induction bs as [|a|a b|a b c rest IH] using bytes_ind3.
  - reflexivity.
  - destruct a. reflexivity.
  - destruct a, b. reflexivity.
  - destruct a, b, c. cbn [sextets_of_bytes bytes_of_sextets]. rewrite IH. reflexivity.
Qed.

Lemma string_of_bytes_of_string (l : list ascii) :
  bytes_of_string (string_of_bytes l) = l.
Proof. apply list_ascii_of_string_of_list_ascii. Qed.

(** Decoding what the encoder wrote gives the bytes back. *)
Lemma base64url_decode_encode (bs : list ascii) : decode (encode bs) = bs.
Proof.
  unfold decode, encode.
  rewrite string_of_bytes_of_string, read_sextets_encoded.
  apply bytes_of_sextets_of_bytes.
Qed.

Lemma sextets_length (bs : list ascii) :
  length (sextets_of_bytes bs) = ((4 * length bs + 2) / 3)%nat.
Proof.
  induction bs as [|a|a b|a b c rest IH] using bytes_ind3.
  - reflexivity.
  - destruct a. reflexivity.
  - destruct a, b. reflexivity.
  - destruct a, b, c. cbn [sextets_of_bytes length]. rewrite IH.
    replace (4 * S (S (S (length rest))) + 2)%nat
      with ((4 * length rest + 2) + 4 * 3)%nat by lia.
    rewrite Nat.div_add by discriminate. lia.
Qed.

Lemma base64url_bytes (bs : list ascii) :
  bytes_of_string (encode bs) = map encode_sextet (sextets_of_bytes bs).
Proof. apply string_of_bytes_of_string. Qed.

(** The encoder writes no dot: a dot can separate two encoded parts. *)
Lemma base64url_no_dot (bs : list ascii) : ~ In "."%char (bytes_of_string (encode bs)).
Proof.
  rewrite base64url_bytes, in_map_iff. intros [s [Hs _]].
  exact (encode_sextet_not_dot s Hs).
Qed.

Lemma base64url_length (bs : list ascii) :
  length (bytes_of_string (encode bs)) = ((4 * length bs + 2) / 3)%nat.
Proof. rewrite base64url_bytes, length_map. apply sextets_length. Qed.

Lemma base64url_nonempty (bs : list ascii) : bs <> [] -> encode bs <> "".
Proof.
  intros Hbs He. apply Hbs.
  assert (H : length (bytes_of_string (encode bs)) = 0%nat) by (rewrite He; reflexivity).
  rewrite base64url_length in H.
  destruct bs as [|a bs]; [reflexivity|]. exfalso.
  cbn [length] in H.
  assert (1 <= (4 * S (length bs) + 2) / 3)%nat.
  { apply Nat.div_le_lower_bound; lia. }
  lia.
Qed.

End Base64urlFacts.

Lemma string_bytes_inv (s : string) : string_of_bytes (bytes_of_string s) = s.
Proof. apply string_of_list_ascii_of_string. Qed.

Lemma bytes_of_string_app (a b : string) :
  bytes_of_string (a +++ b) = bytes_of_string a ++ bytes_of_string b.
Proof.
  unfold bytes_of_string. induction a as [|c a IH]; cbn; [reflexivity | now rewrite IH].
Qed.

Lemma string_of_bytes_app (a b : list ascii) :
  string_of_bytes (a ++ b) = string_of_bytes a +++ string_of_bytes b.
Proof.
  unfold string_of_bytes. induction a as [|c a IH]; cbn; [reflexivity | now rewrite IH].
Qed.

Lemma string_length_bytes (s : string) : String.length s = length (bytes_of_string s).
Proof.
  unfold bytes_of_string. induction s as [|c s IH]; cbn; [reflexivity | now rewrite IH].
Qed.

Lemma of_digits_snoc ds d : of_digits (ds ++ [d]) = 10 * of_digits ds + d.
Proof. unfold of_digits. rewrite fold_left_app. reflexivity. Qed.

Lemma log2_div10 n : 10 <= n -> Z.log2 (n / 10) < Z.log2 n.
Proof.
  intro H.
  assert (Hle : n / 10 <= n / 2).
  { apply Z.div_le_lower_bound; [lia|].
    pose proof (Z.mul_div_le n 10 ltac:(lia)).
    pose proof (Z.div_pos n 10 ltac:(lia) ltac:(lia)). lia. }
  apply Z.le_lt_trans with (Z.log2 (n / 2)); [apply Z.log2_le_mono; exact Hle|].
  replace (n / 2) with (Z.shiftr n 1) by (rewrite Z.shiftr_div_pow2 by lia; reflexivity).
  rewrite Z.log2_shiftr by lia.
  assert (3 <= Z.log2 n) by (apply Z.log2_le_pow2; lia). lia.
Qed.

Lemma digits_fuel_spec fuel n :
  0 <= n -> (Z.to_nat (Z.log2 n) <= fuel)%nat ->
  of_digits (digits_fuel fuel n) = n /\ Forall (fun d => 0 <= d < 10) (digits_fuel fuel n).
Proof.
  revert n. induction fuel as [|fuel IH]; intros n Hn Hf.
  - assert (Z.log2 n = 0) by (pose proof (Z.log2_nonneg n); lia).
    assert (n < 2).
    { destruct (Z.lt_ge_cases n 2) as [|Hge]; [assumption|].
      assert (1 <= Z.log2 n) by (apply Z.log2_le_pow2; lia). lia. }
    cbn [digits_fuel]. rewrite Z.mod_small by lia. split.
    + unfold of_digits. cbn. lia.
    + constructor; [lia | constructor].
  - cbn [digits_fuel]. destruct (Z.ltb_spec n 10) as [Hlt|Hge].
    + split; [unfold of_digits; cbn; lia | constructor; [lia | constructor]].
    + destruct (IH (n / 10)) as [Hv Hd].
      * apply Z.div_pos; lia.
      * pose proof (log2_div10 Hge). pose proof (Z.log2_nonneg (n / 10)). lia.
      * split.
        -- rewrite of_digits_snoc, Hv. pose proof (Z.div_mod n 10 ltac:(lia)). lia.
        -- apply Forall_app. split; [exact Hd|].
           constructor; [apply Z.mod_pos_bound; lia | constructor].
Qed.

Lemma of_digits_digits n : 0 <= n -> of_digits (digits n) = n.
Proof. intro H. apply digits_fuel_spec; [exact H | lia]. Qed.

Lemma digits_range n : 0 <= n -> Forall (fun d => 0 <= d < 10) (digits n).
Proof. intro H. apply digits_fuel_spec; [exact H | lia]. Qed.

Lemma digits_fuel_nonempty fuel n : digits_fuel fuel n <> [].
Proof.
  destruct fuel; cbn [digits_fuel]; [discriminate|].
  destruct (n <? 10); [discriminate|]. intro H. apply app_eq_nil in H. destruct H; discriminate.
Qed.

(** No leading zero, except for the single digit of zero itself. *)
Lemma digits_fuel_head fuel n :
  0 < n -> (Z.to_nat (Z.log2 n) <= fuel)%nat -> exists d ds, digits_fuel fuel n = d :: ds /\ 0 < d.
Proof.
  revert n. induction fuel as [|fuel IH]; intros n Hn Hf.
  - assert (n < 2).
    { destruct (Z.lt_ge_cases n 2) as [|Hge]; [assumption|].
      assert (1 <= Z.log2 n) by (apply Z.log2_le_pow2; lia). lia. }
    exists n, []. cbn [digits_fuel]. rewrite Z.mod_small by lia. split; [reflexivity | lia].
  - cbn [digits_fuel]. destruct (Z.ltb_spec n 10) as [Hlt|Hge].
    + exists n, []. split; [reflexivity | lia].
    + destruct (IH (n / 10)) as [d [ds [Hds Hd]]].
      * apply Z.div_str_pos; lia.
      * pose proof (log2_div10 Hge). pose proof (Z.log2_nonneg (n / 10)). lia.
      * rewrite Hds. exists d, (ds ++ [n mod 10]). split; [reflexivity | exact Hd].
Qed.

Example digits_clock : digits 1700000000000 = [1;7;0;0;0;0;0;0;0;0;0;0;0].
Proof. reflexivity. Qed.

Example number_text_examples :
  map Number_toString
      [Int 0; Int (-42); Int 1700000000000; Dec 2 1; Dec (-15) 1; Dec 1 7; Dec 123 8;
       Int (10 ^ 21); Int (12 * 10 ^ 21); Int (10 ^ 20); Dec 1 6]
  = ["0"; "-42"; "1700000000000"; "0.2"; "-1.5"; "1e-7"; "0.00000123";
     "1e+21"; "1.2e+22"; "100000000000000000000"; "0.000001"].
Proof. vm_compute. reflexivity. Qed.

Lemma get_opt_get v key x : get v key = Ok x -> get_opt v key = x.
Proof. unfold get_opt. now intros ->. Qed.

Lemma get_nullish v key : nullish v = false -> get v key = Ok (get_opt v key).
Proof. destruct v; cbn; try discriminate; reflexivity. Qed.

Example json_parse_examples :
  map (fun t => JSON.parse (dq t))
      ["{'a': [1, 2.50, -3e2, true, null], 'b': 'x\nAé'}";
       "{'b':1,'10':2,'9':3,'b':4}"; "[1,]"; "01"; " 'a' "; "1.5e-3"; "-0"; "{}x"]
  = [ Ok (JObj [("a", JArr [JNum (Int 1); JNum (Dec 25 1); JNum (Int (-300)); JBool true; JNull]);
                ("b", JStr (String "x" (String "010" (String "A" (String "195" (String "169" ""))))))]);
      Ok (JObj [("9", JNum (Int 3)); ("10", JNum (Int 2)); ("b", JNum (Int 4))]);
      JSON.syntax_error; JSON.syntax_error; Ok (JStr "a"); Ok (JNum (Dec 15 4)); Ok (JNum (Int 0));
      JSON.syntax_error ].
Proof. vm_compute. reflexivity. Qed.

Example json_stringify_examples :
  map JSON.stringify
      [ JObj [("a", JUndefined); ("b", JArr [JUndefined; JNum NaN; JNum (Dec 2 1)]);
              ("c", JStr (String "034" (String "010" (String "001" "\"))))];
        JUndefined; JNum PosInf ]
  = [ Some (dq "{'b':[null,null,0.2],'c':'\'\n\u0001\\'}"); None; Some "null" ].
Proof. vm_compute. reflexivity. Qed.

Example to_number_examples :
  map Coerce.ToNumber
      [ JStr " 12 "; JStr ""; JStr "0x1F"; JStr "-1.50"; JStr "1e3"; JStr ".5"; JStr "5.";
        JStr "abc"; JStr "-Infinity"; JStr "0x"; JStr "1 2"; JArr []; JArr [JNum (Int 7)];
        JObj []; JNull; JUndefined; JBool true; JStr "007"; JStr "+0b101"; JStr ".";
        JObj [("toString", JNum (Int 1))] ]
  = map Ok [ Int 12; Int 0; Int 31; Dec (-15) 1; Int 1000; Dec 5 1; Int 5;
             NaN; NegInf; NaN; NaN; Int 0; Int 7;
             NaN; Int 0; NaN; Int 1; Int 7; NaN; NaN ]
    ++ [ Throw not_primitive ].
Proof. vm_compute. reflexivity. Qed.

Example to_string_examples :
  map ToString
      [ JStr "abc"; JUndefined; JNull; JBool false; JNum (Dec 15 1); JNum (Int (10 ^ 21));
        JArr [JNum (Int 1); JNull; JArr [JStr "a"; JUndefined; JStr "b"]; JObj []];
        JObj [("valueOf", JNum (Int 1))];
        JObj [("a", JNull); ("toString", JStr "x")];
        JArr [JStr "a"; JObj [("toString", JNull)]; JObj [("toString", JBool true)]] ]
  = [ Ok "abc"; Ok "undefined"; Ok "null"; Ok "false"; Ok "1.5"; Ok "1e+21";
      Ok "1,,a,,b,[object Object]"; Ok "[object Object]";
      Throw not_primitive; Throw not_primitive ].
Proof. vm_compute. reflexivity. Qed.

Example signState_example :
  signState "secret" (mkPayload "abc" (Some "http://127.0.0.1:4200") (Int 1700000600000))
  = "eyJuIjoiYWJjIiwicnQiOiJodHRwOi8vMTI3LjAuMC4xOjQyMDAiLCJleHAiOjE3MDAwMDA2MDAwMDB9" +++ "." +++
    hmac_base64url "secret"
      "eyJuIjoiYWJjIiwicnQiOiJodHRwOi8vMTI3LjAuMC4xOjQyMDAiLCJleHAiOjE3MDAwMDA2MDAwMDB9".
Proof. vm_compute. reflexivity. Qed.

Example verifyState_examples :
  let p := mkPayload "abc" (Some "http://127.0.0.1:4200") (Int 1700000600000) in
  let t := signState "secret" p in
  [ verifyState "secret" 1700000000000 (Some t);
    verifyState "secret" 1700000600001 (Some t);
    verifyState "other" 1700000000000 (Some t);
    verifyState "secret" 1700000000000 None;
    verifyState "secret" 1700000000000 (Some "");
    verifyState "secret" 1700000000000 (Some "abc");
    verifyState "secret" 1700000000000 (Some ".abc");
    verifyState "secret" 1700000000000 (Some "abc.");
    verifyState "secret" 1700000000000 (Some "abc.def") ]
  = [ Ok (payload_value p); Ok JNull; Ok JNull; Ok JNull; Ok JNull; Ok JNull; Ok JNull; Ok JNull;
      Throw (RangeError "Input buffers must have the same byte length") ].
Proof. vm_compute. reflexivity. Qed.


(** ** The reader of numbers reads what Number::toString writes *)

Lemma byte_val_byte_of z : 0 <= z < 256 -> byte_val (byte_of z) = z.
Proof.
  intro H. unfold byte_val, byte_of. rewrite Z.mod_small by lia.
  rewrite N_ascii_embedding by lia. lia.
Qed.

Lemma byte_val_digit d : 0 <= d < 10 -> byte_val (digit_char d) = 48 + d.
Proof. intro H. apply byte_val_byte_of. lia. Qed.

Lemma span_digits_app ds r :
  all_digits ds -> no_digit_next r -> JSON.span_digits (ds ++ r) = (ds, r).
Proof.
  intros Hd Hr. induction Hd as [|c ds Hc _ IH]; cbn [List.app].
  - destruct r as [|c r]; [reflexivity|]. cbn [JSON.span_digits no_digit_next] in *. now rewrite Hr.
  - cbn [JSON.span_digits]. now rewrite Hc, IH.
Qed.

Lemma digit_chars_digits ds :
  Forall (fun d => 0 <= d < 10) ds -> all_digits (map digit_char ds).
Proof.
  intro H. induction H as [|d ds Hd _ IH]; constructor; [|exact IH].
  unfold is_digit. rewrite byte_val_digit by lia.
  apply andb_true_intro. split; apply Z.leb_le; lia.
Qed.

Lemma digits_value_chars ds :
  Forall (fun d => 0 <= d < 10) ds -> JSON.digits_value (map digit_char ds) = of_digits ds.
Proof.
  intro H. unfold JSON.digits_value. f_equal.
  induction H as [|d ds Hd _ IH]; [reflexivity|].
  cbn [map]. rewrite IH. f_equal. unfold digit_val. rewrite byte_val_digit by lia. lia.
Qed.

Lemma of_digits_app a b :
  of_digits (a ++ b) = of_digits a * 10 ^ Z.of_nat (length b) + of_digits b.
Proof.
  revert a. induction b as [|d b IH] using rev_ind; intro a.
  - rewrite app_nil_r. cbn. lia.
  - rewrite app_assoc, !of_digits_snoc, IH, length_app. cbn [length].
    replace (Z.of_nat (length b + 1)) with (Z.succ (Z.of_nat (length b))) by lia.
    rewrite Z.pow_succ_r by lia. lia.
Qed.

Lemma of_digits_zeros k : of_digits (repeat 0 k) = 0.
Proof.
  induction k as [|k IH]; [reflexivity|].
  replace (S k) with (k + 1)%nat by lia. rewrite repeat_app. cbn [repeat].
  rewrite of_digits_snoc, IH. reflexivity.
Qed.

Lemma drop_zeros_spec l :
  exists k, l = repeat 0 k ++ drop_zeros l /\
            match drop_zeros l with [] => True | d :: _ => d <> 0 end.
Proof.
  induction l as [|d l [k [Hk Hd]]]; [exists 0%nat; split; [reflexivity | exact I]|].
  cbn [drop_zeros]. destruct (Z.eqb_spec d 0) as [->|Hne].
  - exists (S k). cbn [repeat List.app]. split; [now rewrite <- Hk | exact Hd].
  - exists 0%nat. split; [reflexivity | exact Hne].
Qed.

Lemma rev_repeat_zeros k : rev (repeat 0 k) = repeat 0 k.
Proof.
  induction k as [|k IH]; [reflexivity|].
  cbn [repeat rev]. rewrite IH. clear.
  induction k as [|k IH]; [reflexivity|]. cbn [repeat List.app]. now rewrite IH.
Qed.

Lemma strip_spec ds :
  exists k, ds = strip_trailing_zeros ds ++ repeat 0 k /\
            (strip_trailing_zeros ds = [] \/ forall d, last (strip_trailing_zeros ds) d <> 0).
Proof.
  unfold strip_trailing_zeros. destruct (drop_zeros_spec (rev ds)) as [k [Hk Hd]].
  remember (drop_zeros (rev ds)) as X eqn:HX. clear HX.
  apply (f_equal (@rev Z)) in Hk. rewrite rev_involutive, rev_app_distr, rev_repeat_zeros in Hk.
  exists k. split; [exact Hk|].
  destruct X as [|x xs]; [left; reflexivity|].
  right. intro d. cbn [rev]. rewrite last_last. exact Hd.
Qed.

Lemma token_end_no_digit l : token_end l -> no_digit_next l.
Proof. destruct l; cbn; tauto. Qed.

Lemma read_exponent_text expo rest :
  exponent_ok expo -> token_end rest ->
  JSON.read_exponent (exponent_text expo ++ rest) = Some (exponent_value expo, rest).
Proof.
  intros Hok Hend. destruct expo as [[eneg ep]|]; cbn [exponent_text exponent_value List.app].
  - destruct Hok as [Hd Hne]. unfold JSON.read_exponent.
    change (byte_val "e" =? 101) with true. cbn [orb].
    assert (Hs : JSON.span_digits (ep ++ rest) = (ep, rest))
      by (apply span_digits_app; [exact Hd | now apply token_end_no_digit]).
    destruct eneg; cbn [byte_val]; 
      [change (byte_val "-" =? 45) with true | change (byte_val "+" =? 45) with false;
                                                change (byte_val "+" =? 43) with true];
      cbv iota; rewrite Hs; destruct ep; congruence.
  - unfold JSON.read_exponent. destruct rest as [|c r]; [reflexivity|].
    cbn in Hend. destruct Hend as (_ & _ & H1 & H2).
    apply Z.eqb_neq in H1, H2. now rewrite H1, H2.
Qed.

Lemma read_fraction_text fp tail :
  all_digits fp -> no_digit_next tail ->
  match tail with [] => True | c :: _ => byte_val c <> 46 end ->
  JSON.read_fraction (fraction_text fp ++ tail) = Some (fp, tail).
Proof.
  intros Hd Hn Hdot. destruct fp as [|f fp]; cbn [fraction_text List.app].
  - unfold JSON.read_fraction. destruct tail as [|c r]; [reflexivity|].
    apply Z.eqb_neq in Hdot. now rewrite Hdot.
  - unfold JSON.read_fraction. change (byte_val "." =? 46) with true. cbv iota.
    change (f :: fp ++ tail) with ((f :: fp) ++ tail).
    rewrite span_digits_app by assumption. reflexivity.
Qed.

Lemma exponent_text_head expo rest :
  token_end rest ->
  no_digit_next (exponent_text expo ++ rest) /\
  match exponent_text expo ++ rest with [] => True | c :: _ => byte_val c <> 46 end.
Proof.
  intro H. destruct expo as [[eneg ep]|]; cbn [exponent_text List.app].
  - split; [reflexivity | discriminate].
  - destruct rest; cbn in *; tauto.
Qed.

Lemma read_numeral neg ip fp expo rest :
  all_digits ip -> ip <> [] ->
  (forall d more, ip = d :: more -> byte_val d = 48 -> more = []) ->
  all_digits fp -> exponent_ok expo -> token_end rest ->
  JSON.read_number (numeral neg ip fp expo ++ rest)
  = Some (JSON.make_number
            (if neg then - JSON.digits_value (ip ++ fp) else JSON.digits_value (ip ++ fp))
            (exponent_value expo - Z.of_nat (length fp)), rest).
Proof.
  intros Hip Hne Hlead Hfp Hexp Hend.
  destruct (@exponent_text_head expo rest Hend) as [Hn Hdot].
  assert (Htail : no_digit_next (fraction_text fp ++ exponent_text expo ++ rest)).
  { destruct fp; cbn [fraction_text List.app]; [exact Hn | reflexivity]. }
  assert (Hsign : JSON.read_sign (numeral neg ip fp expo ++ rest)
                  = (neg, ip ++ fraction_text fp ++ exponent_text expo ++ rest)).
  { unfold numeral. destruct neg; cbn [List.app].
    - rewrite <- !app_assoc. reflexivity.
    - rewrite <- !app_assoc. destruct ip as [|d more]; [congruence|].
      cbn [List.app]. unfold JSON.read_sign.
      inversion Hip as [|? ? Hd _]; subst. unfold is_digit in Hd.
      apply andb_prop in Hd. destruct Hd as [Hd _]. apply Z.leb_le in Hd.
      destruct (Z.eqb_spec (byte_val d) 45); [lia | reflexivity]. }
  unfold JSON.read_number. rewrite Hsign, span_digits_app by assumption.
  destruct ip as [|d more]; [congruence|].
  assert (Hz : (byte_val d =? 48) && negb (length more =? 0)%nat = false).
  { destruct (Z.eqb_spec (byte_val d) 48) as [E|]; [|reflexivity].
    rewrite (Hlead d more eq_refl E). reflexivity. }
  rewrite Hz, read_fraction_text by assumption. rewrite read_exponent_text by assumption.
  reflexivity.
Qed.

Lemma map_digit_char_zeros j : map digit_char (repeat 0 j) = repeat "0"%char j.
Proof. induction j as [|j IH]; [reflexivity|]. cbn [repeat map]. now rewrite IH. Qed.

Lemma all_digits_zeros j : all_digits (repeat "0"%char j).
Proof. apply Forall_forall. intros c Hc. apply repeat_spec in Hc. now subst. Qed.

Lemma lead_free d0 cs (more : list ascii) :
  0 < d0 < 10 ->
  forall d more', digit_char d0 :: cs = d :: more' -> byte_val d = 48 -> more' = more.
Proof.
  intros Hd d more' E Hb. injection E as <- _. rewrite byte_val_digit in Hb by lia. lia.
Qed.

(** What [format_scientific] writes is a numeral whose value is that of the
    digits [s] with the decimal point [n] places in. *)
Lemma format_numeral (s : list Z) (n : Z) :
  Forall (fun d => 0 <= d < 10) s -> (exists d0 s', s = d0 :: s' /\ 0 < d0) ->
  exists ip fp expo,
    format_scientific s n = ip ++ fraction_text fp ++ exponent_text expo
    /\ all_digits ip /\ ip <> []
    /\ (forall d more, ip = d :: more -> byte_val d = 48 -> more = [])
    /\ all_digits fp /\ exponent_ok expo
    /\ ((JSON.digits_value (ip ++ fp) = of_digits s
         /\ exponent_value expo - Z.of_nat (length fp) = n - Z.of_nat (length s))
        \/ (JSON.digits_value (ip ++ fp) = of_digits s * 10 ^ (n - Z.of_nat (length s))
            /\ exponent_value expo - Z.of_nat (length fp) = 0
            /\ Z.of_nat (length s) <= n)).
Proof.
  intros Hs [d0 [s' [-> Hd0]]].
  assert (Hr0 : 0 < d0 < 10) by (inversion Hs; subst; lia).
  pose proof (digit_chars_digits Hs) as Hcs.
  pose proof (digits_value_chars Hs) as Hval.
  set (s := d0 :: s') in *. set (cs := map digit_char s) in *.
  set (k := Z.of_nat (length s)).
  assert (Hk : 1 <= k) by (unfold k, s; cbn [length]; lia).
  assert (Hlen : length cs = length s) by apply length_map.
  unfold format_scientific. fold cs. fold k.
  destruct ((k <=? n) && (n <=? 21)) eqn:C1.
  { apply andb_prop in C1. destruct C1 as [C1 _]. apply Z.leb_le in C1.
    exists (cs ++ repeat "0"%char (Z.to_nat (n - k))), [], None.
    cbn [fraction_text exponent_text exponent_value length]. rewrite !app_nil_r.
    repeat split.
    - apply Forall_app. split; [exact Hcs | apply all_digits_zeros].
    - unfold cs, s. discriminate.
    - unfold cs, s. cbn [map List.app]. now apply lead_free.
    - constructor.
    - right. repeat split; [|assumption].
      unfold cs. rewrite <- map_digit_char_zeros, <- map_app.
      rewrite digits_value_chars.
      + rewrite of_digits_app, of_digits_zeros, repeat_length.
        rewrite Z2Nat.id by lia. lia.
      + apply Forall_app. split; [exact Hs|].
        apply Forall_forall. intros x Hx. apply repeat_spec in Hx. lia. }
  destruct ((0 <? n) && (n <=? 21)) eqn:C2.
  { apply andb_prop in C2. destruct C2 as [C2 C2']. apply Z.ltb_lt in C2. apply Z.leb_le in C2'.
    assert (Hnk : n < k).
    { destruct (Z.leb_spec k n) as [Hle|]; [|assumption].
      cbn [andb] in C1. apply Z.leb_gt in C1. lia. }
    exists (firstn (Z.to_nat n) cs), (skipn (Z.to_nat n) cs), None.
    assert (Hsk : skipn (Z.to_nat n) cs <> []).
    { intro E. apply (f_equal (@length ascii)) in E. rewrite length_skipn, Hlen in E.
      cbn [length] in E. unfold k in Hnk. lia. }
    assert (Hparts : all_digits (firstn (Z.to_nat n) cs) /\ all_digits (skipn (Z.to_nat n) cs)).
    { apply Forall_app. rewrite firstn_skipn. exact Hcs. }
    cbn [exponent_text exponent_value]. rewrite app_nil_r.
    repeat split.
    - destruct (skipn (Z.to_nat n) cs); [congruence | reflexivity].
    - apply Hparts.
    - destruct (Z.to_nat n) eqn:En; [lia|]. unfold cs, s. discriminate.
    - destruct (Z.to_nat n) eqn:En; [lia|]. unfold cs, s. cbn [map firstn]. now apply lead_free.
    - apply Hparts.
    - left. rewrite firstn_skipn. split; [exact Hval|].
      rewrite length_skipn, Hlen. unfold k in *. lia. }
  destruct ((-6 <? n) && (n <=? 0)) eqn:C3.
  { apply andb_prop in C3. destruct C3 as [_ C3]. apply Z.leb_le in C3.
    exists ["0"%char], (repeat "0"%char (Z.to_nat (- n)) ++ cs), None.
    cbn [exponent_text exponent_value]. rewrite app_nil_r.
    repeat split.
    - destruct (repeat "0"%char (Z.to_nat (- n)) ++ cs) eqn:E; [|reflexivity].
      apply app_eq_nil in E. destruct E as [_ E]. unfold cs, s in E. discriminate.
    - constructor; [reflexivity | constructor].
    - discriminate.
    - intros d more E _. now injection E.
    - apply Forall_app. split; [apply all_digits_zeros | exact Hcs].
    - left. split.
      + change ["0"%char] with (repeat "0"%char 1). rewrite app_assoc, <- repeat_app.
        rewrite <- map_digit_char_zeros. unfold cs. rewrite <- map_app.
        rewrite digits_value_chars.
        * rewrite of_digits_app, of_digits_zeros. lia.
        * apply Forall_app. split; [|exact Hs].
          apply Forall_forall. intros x Hx. apply repeat_spec in Hx. lia.
      + rewrite length_app, repeat_length, Hlen. unfold k in *. lia. }
  set (e := n - 1).
  set (ep := map digit_char (digits (Z.abs e))).
  assert (Hep : all_digits ep) by (apply digit_chars_digits, digits_range; lia).
  assert (Hepv : JSON.digits_value ep = Z.abs e).
  { unfold ep. rewrite digits_value_chars by (apply digits_range; lia).
    apply of_digits_digits. lia. }
  exists [digit_char d0], (map digit_char s'), (Some (e <? 0, ep)).
  repeat split.
  - unfold cs, s. cbn [map exponent_text]. destruct (map digit_char s') eqn:E.
    + cbn [fraction_text List.app]. reflexivity.
    + cbn [fraction_text List.app]. reflexivity.
  - inversion Hcs; subst. constructor; [assumption | constructor].
  - discriminate.
  - intros d more E _. now injection E.
  - now inversion Hcs.
  - exact Hep.
  - unfold ep. intro E. apply map_eq_nil in E. revert E. apply digits_fuel_nonempty.
  - left. split; [exact Hval|].
    cbn [exponent_value]. rewrite Hepv, length_map. unfold k, s in *. cbn [length] in *.
    destruct (Z.ltb_spec e 0); unfold e in *; lia.
Qed.

Lemma of_digits_cons d ds : of_digits (d :: ds) = d * 10 ^ Z.of_nat (length ds) + of_digits ds.
Proof. change (d :: ds) with ([d] ++ ds). rewrite of_digits_app. cbn. lia. Qed.

Lemma of_digits_nonneg ds : Forall (fun d => 0 <= d < 10) ds -> 0 <= of_digits ds.
Proof.
  intro H. induction H as [|d ds Hd _ IH]; [cbn; lia|].
  rewrite of_digits_cons. pose proof (Z.pow_nonneg 10 (Z.of_nat (length ds)) ltac:(lia)). nia.
Qed.

(** The significant digits of a positive integer. *)
Lemma significant_digits (a : Z) :
  0 < a ->
  exists j : nat,
    digits a = strip_trailing_zeros (digits a) ++ repeat 0 j
    /\ Forall (fun d => 0 <= d < 10) (strip_trailing_zeros (digits a))
    /\ (exists d0 s', strip_trailing_zeros (digits a) = d0 :: s' /\ 0 < d0)
    /\ of_digits (strip_trailing_zeros (digits a)) * 10 ^ Z.of_nat j = a
    /\ Z.of_nat (length (digits a))
       = Z.of_nat (length (strip_trailing_zeros (digits a))) + Z.of_nat j.
Proof.
  intros Ha. set (ds := digits a). set (s := strip_trailing_zeros ds).
  destruct (strip_spec ds) as [j [Hj _]]. fold s in Hj.
  pose proof (digits_range (n := a) ltac:(lia)) as Hr. fold ds in Hr.
  destruct (@digits_fuel_head (Z.to_nat (Z.log2 a)) a Ha ltac:(lia)) as [d [ds' [Hds Hd]]].
  fold (digits a) in Hds. fold ds in Hds.
  exists j. rewrite Hj in Hr. apply Forall_app in Hr. destruct Hr as [Hrs _].
  repeat split.
  - exact Hj.
  - exact Hrs.
  - destruct s as [|d0 s'].
    + cbn [List.app] in Hj. rewrite Hds in Hj. destruct j; [discriminate|].
      cbn [repeat] in Hj. injection Hj as -> _. lia.
    + exists d0, s'. split; [reflexivity|]. rewrite Hds in Hj. cbn [List.app] in Hj.
      injection Hj as <- _. exact Hd.
  - pose proof (of_digits_digits (n := a) ltac:(lia)) as Hv. fold ds in Hv.
    rewrite Hj, of_digits_app, of_digits_zeros, repeat_length in Hv. lia.
  - rewrite Hj at 1. rewrite length_app, repeat_length. lia.
Qed.

Lemma reduce_canonical k m : m mod 10 <> 0 -> JSON.reduce (Pos.to_nat k) m = Dec m k.
Proof.
  intro H. destruct (Pos2Nat.is_succ k) as [i Hi]. rewrite Hi. cbn [JSON.reduce].
  apply Z.eqb_neq in H. rewrite H. f_equal.
  apply Pos2Nat.inj. rewrite SuccNat2Pos.id_succ. now rewrite Hi.
Qed.

Lemma signed_abs (z : Z) : (if z <? 0 then - Z.abs z else Z.abs z) = z.
Proof. destruct (Z.ltb_spec z 0); lia. Qed.

(** The reader of JSON numbers reads back every finite number from the
    text [Number::toString] gives it. *)
Lemma read_number_text (x : number) (rest : list ascii) :
  is_finite x = true -> canonical x -> token_end rest ->
  JSON.read_number (number_text x ++ rest) = Some (x, rest).
Proof.
  intros Hfin Hcan Hend.
  assert (Hzero : JSON.read_number ("0"%char :: rest) = Some (Int 0, rest)).
  { change ("0"%char :: rest) with (numeral false ["0"%char] [] None ++ rest).
    rewrite read_numeral; try assumption; try reflexivity.
    - repeat constructor.
    - discriminate.
    - intros d more E _. now injection E.
    - constructor. }
  assert (Hgen : forall (neg : bool) (a : Z) (shift : Z),
             0 < a ->
             forall ds s, ds = digits a -> s = strip_trailing_zeros ds ->
             JSON.read_number ((if neg then ["-"%char] else [])
                                 ++ format_scientific s (Z.of_nat (length ds) - shift) ++ rest)
             = Some (JSON.make_number (if neg then - of_digits s else of_digits s)
                       (Z.of_nat (length ds) - shift - Z.of_nat (length s)), rest)
               \/ (Z.of_nat (length s) <= Z.of_nat (length ds) - shift /\
                   JSON.read_number ((if neg then ["-"%char] else [])
                                 ++ format_scientific s (Z.of_nat (length ds) - shift) ++ rest)
                   = Some (Int ((if neg then -1 else 1) * (of_digits s
                                  * 10 ^ (Z.of_nat (length ds) - shift - Z.of_nat (length s)))),
                           rest))).
  { intros neg a shift Ha ds s Eds Es.
    destruct (significant_digits Ha) as [j (Hj & Hrs & Hhead & Hv & Hlen)].
    rewrite <- Eds in Hj, Hrs, Hhead, Hv, Hlen. rewrite <- Es in Hj, Hrs, Hhead, Hv, Hlen.
    clear Eds Es.
    destruct (format_numeral (Z.of_nat (length ds) - shift) Hrs Hhead)
      as (ip & fp & expo & Hfmt & Hip & Hne & Hlead & Hfp & Hexp & Hval).
    rewrite Hfmt.
    replace ((if neg then ["-"%char] else []) ++ (ip ++ fraction_text fp ++ exponent_text expo) ++ rest)
      with (numeral neg ip fp expo ++ rest)
      by (unfold numeral; now rewrite <- !app_assoc).
    rewrite read_numeral by assumption.
    destruct Hval as [[Hm He] | (Hm & He & Hle)].
    - left. rewrite Hm, He. reflexivity.
    - right. split; [lia|]. rewrite Hm, He.
      assert (Hpos : 0 < of_digits s * 10 ^ (Z.of_nat (length ds) - shift - Z.of_nat (length s))).
      { destruct Hhead as [d0 [s' [Es Hd0]]].
        apply Z.mul_pos_pos; [|apply Z.pow_pos_nonneg; lia].
        rewrite Es, of_digits_cons. rewrite Es in Hrs.
        apply Forall_inv_tail in Hrs.
        pose proof (of_digits_nonneg Hrs).
        pose proof (Z.pow_pos_nonneg 10 (Z.of_nat (length s')) ltac:(lia) ltac:(lia)). nia. }
      unfold JSON.make_number.
      destruct neg.
      + destruct (Z.eqb_spec (- (of_digits s * 10 ^ (Z.of_nat (length ds) - shift - Z.of_nat (length s)))) 0);
          [lia|]. change (0 <=? 0) with true. cbv iota. rewrite Z.pow_0_r. do 3 f_equal. ring.
      + destruct (Z.eqb_spec (of_digits s * 10 ^ (Z.of_nat (length ds) - shift - Z.of_nat (length s))) 0);
          [lia|]. change (0 <=? 0) with true. cbv iota. rewrite Z.pow_0_r. do 3 f_equal. ring. }
  destruct x as [z | m k | | |]; try discriminate.
  - (* an integer *)
    unfold number_text, scientific. destruct (Z.eqb_spec z 0) as [->|Hz]; [exact Hzero|].
    assert (Ha : 0 < Z.abs z) by lia.
    destruct (significant_digits Ha) as [j (Hj & Hrs & Hhead & Hv & Hlen)].
    rewrite <- app_assoc.
    destruct (Hgen (z <? 0) (Z.abs z) 0 Ha _ _ eq_refl eq_refl) as [H | [_ H]];
      rewrite Z.sub_0_r in H; rewrite H; clear H.
    + f_equal. f_equal.
      assert (Hpos : 0 < of_digits (strip_trailing_zeros (digits (Z.abs z)))).
      { pose proof (Z.pow_pos_nonneg 10 (Z.of_nat j) ltac:(lia) ltac:(lia)). nia. }
      unfold JSON.make_number.
      replace (Z.of_nat (length (digits (Z.abs z)))
               - Z.of_nat (length (strip_trailing_zeros (digits (Z.abs z)))))
        with (Z.of_nat j) by lia.
      destruct (Z.leb_spec 0 (Z.of_nat j)); [|lia].
      destruct (z <? 0) eqn:Es.
      * destruct (Z.eqb_spec (- of_digits (strip_trailing_zeros (digits (Z.abs z)))) 0); [lia|].
        f_equal. apply Z.ltb_lt in Es. lia.
      * destruct (Z.eqb_spec (of_digits (strip_trailing_zeros (digits (Z.abs z)))) 0); [lia|].
        f_equal. apply Z.ltb_ge in Es. lia.
    + f_equal. f_equal. f_equal.
      replace (Z.of_nat (length (digits (Z.abs z)))
               - Z.of_nat (length (strip_trailing_zeros (digits (Z.abs z)))))
        with (Z.of_nat j) by lia.
      rewrite Hv. destruct (Z.ltb_spec z 0); lia.
  - (* a decimal in lowest terms *)
    cbn in Hcan. unfold number_text, scientific.
    destruct (Z.eqb_spec m 0) as [->|Hm]; [now rewrite Z.mod_0_l in Hcan by lia|].
    assert (Ha : 0 < Z.abs m) by lia.
    destruct (significant_digits Ha) as [j (Hj & Hrs & Hhead & Hv & Hlen)].
    assert (j = 0)%nat as ->.
    { destruct j as [|j]; [reflexivity|]. exfalso. apply Hcan.
      assert (E : Z.abs m = 10 * (of_digits (strip_trailing_zeros (digits (Z.abs m))) * 10 ^ Z.of_nat j)).
      { rewrite Nat2Z.inj_succ, Z.pow_succ_r in Hv by lia. lia. }
      set (A := of_digits (strip_trailing_zeros (digits (Z.abs m))) * 10 ^ Z.of_nat j) in *.
      destruct (Z.abs_eq_or_opp m) as [E'|E'].
      - replace m with (A * 10) by lia. apply Z.mod_mul. lia.
      - replace m with ((- A) * 10) by lia. apply Z.mod_mul. lia. }
    rewrite Z.pow_0_r, Z.mul_1_r in Hv.
    rewrite <- app_assoc.
    destruct (Hgen (m <? 0) (Z.abs m) (Z.pos k) Ha _ _ eq_refl eq_refl) as [H | [H _]]; [|lia].
    rewrite H. f_equal. f_equal. rewrite Hv, signed_abs.
    unfold JSON.make_number. destruct (Z.eqb_spec m 0); [lia|].
    replace (Z.of_nat (length (digits (Z.abs m))) - Z.pos k
             - Z.of_nat (length (strip_trailing_zeros (digits (Z.abs m))))) with (- Z.pos k) by lia.
    cbn [Z.leb Z.compare Z.opp]. 
    change (Z.to_nat (- Z.neg k)) with (Pos.to_nat k).
    now apply reduce_canonical.
Qed.

(** ** The reader of strings reads what QuoteJSONString writes *)

Lemma read_escaped_char c l :
  JSON.read_string (JSON.escape_char c ++ l) = JSON.cons_char [c] (JSON.read_string l).
Proof.
  destruct c as [b0 b1 b2 b3 b4 b5 b6 b7].
  destruct b0, b1, b2, b3, b4, b5, b6, b7; reflexivity.
Qed.

Lemma read_string_quoted (s rest : list ascii) :
  JSON.read_string (flat_map JSON.escape_char s ++ "034"%char :: rest) = Ok (s, rest).
Proof.
  induction s as [|c s IH]; [reflexivity|].
  cbn [flat_map]. rewrite <- app_assoc, read_escaped_char, IH. reflexivity.
Qed.

Lemma quote_cons (s : string) :
  JSON.quote s = "034"%char :: flat_map JSON.escape_char (bytes_of_string s) ++ ["034"%char].
Proof. reflexivity. Qed.

Lemma parse_value_string fuel (s : string) rest :
  JSON.parse_value (S fuel) (JSON.quote s ++ rest) = Ok (JStr s, rest).
Proof.
  rewrite quote_cons. cbn [List.app]. rewrite <- app_assoc. cbn [List.app].
  change (JSON.parse_value (S fuel) ("034"%char :: ?l))
    with (match JSON.read_string l with
          | Ok (s, r') => Ok (JStr (string_of_bytes s), r')
          | Throw e => Throw e
          end).
  rewrite read_string_quoted, string_bytes_inv. reflexivity.
Qed.

Lemma read_number_head l x rest :
  JSON.read_number l = Some (x, rest) ->
  exists c r, l = c :: r /\ (byte_val c = 45 \/ is_digit c = true).
Proof.
  unfold JSON.read_number, JSON.read_sign. destruct l as [|c r]; [discriminate|].
  intro H. exists c, r. split; [reflexivity|].
  destruct (Z.eqb_spec (byte_val c) 45); [now left | right].
  cbn [JSON.span_digits] in H. destruct (is_digit c); [reflexivity|]. discriminate.
Qed.

Lemma parse_value_numeric fuel c r :
  byte_val c = 45 \/ is_digit c = true ->
  JSON.parse_value (S fuel) (c :: r)
  = match JSON.read_number (c :: r) with
    | Some (x, r') => Ok (JNum x, r')
    | None => JSON.syntax_error
    end.
Proof.
  intro H.
  assert (Hb : byte_val c = 45 \/ 48 <= byte_val c <= 57).
  { destruct H as [H|H]; [now left | right]. unfold is_digit in H.
    apply andb_prop in H. destruct H as [H1 H2]. apply Z.leb_le in H1, H2. lia. }
  assert (Hne : forall z, z <> 45 -> ~ 48 <= z <= 57 -> (z =? byte_val c) = false /\ (byte_val c =? z) = false).
  { intros z H1 H2. split; apply Z.eqb_neq; lia. }
  cbn [JSON.parse_value JSON.skip_ws]. unfold JSON.is_ws.
  rewrite (proj2 (Hne 32 ltac:(lia) ltac:(lia))), (proj2 (Hne 9 ltac:(lia) ltac:(lia))),
    (proj2 (Hne 10 ltac:(lia) ltac:(lia))), (proj2 (Hne 13 ltac:(lia) ltac:(lia))).
  cbn [orb].
  rewrite (proj2 (Hne 123 ltac:(lia) ltac:(lia))), (proj2 (Hne 91 ltac:(lia) ltac:(lia))),
    (proj2 (Hne 34 ltac:(lia) ltac:(lia))).
  unfold JSON.word_true, JSON.word_false, JSON.word_null. cbn [bytes_of_string list_ascii_of_string JSON.starts_with].
  change (byte_val "t") with 116. change (byte_val "f") with 102. change (byte_val "n") with 110.
  rewrite (proj1 (Hne 116 ltac:(lia) ltac:(lia))), (proj1 (Hne 102 ltac:(lia) ltac:(lia))),
    (proj1 (Hne 110 ltac:(lia) ltac:(lia))).
  reflexivity.
Qed.

Lemma parse_value_number fuel (x : number) rest :
  is_finite x = true -> canonical x -> token_end rest ->
  JSON.parse_value (S fuel) (number_text x ++ rest) = Ok (JNum x, rest).
Proof.
  intros Hf Hc He. pose proof (@read_number_text x rest Hf Hc He) as Hr.
  destruct (read_number_head _ Hr) as [c [r [E Hh]]].
  rewrite E in *. rewrite parse_value_numeric by exact Hh. now rewrite Hr.
Qed.

(** ** Reading back a serialized payload *)

Lemma serialize_payload (p : StatePayload) :
  is_finite (exp p) = true -> JSON.serialize (payload_value p) = Some (payload_text p).
Proof.
  intro Hfin. destruct p as [pn prt pexp]. cbn [exp n rt] in *.
  unfold payload_value, payload_props, payload_text. cbn [n rt exp].
  destruct prt as [r|]; cbn [JSON.serialize List.app]; rewrite Hfin;
    repeat (rewrite <- ?app_assoc; cbn [List.app]); reflexivity.
Qed.

Lemma parse_value_object fuel (key : string) l :
  JSON.parse_value (S fuel) ("{"%char :: JSON.quote key ++ l)
  = JSON.parse_members fuel (JSON.quote key ++ l) [].
Proof. reflexivity. Qed.

Lemma parse_members_step fuel (key : string) l acc :
  JSON.parse_members (S fuel) (JSON.quote key ++ ":"%char :: l) acc
  = match JSON.parse_value fuel l with
    | Throw e => Throw e
    | Ok (x, r) => after_member fuel (JSON.set_prop acc key x) r
    end.
Proof.
  rewrite quote_cons. cbn [List.app]. rewrite <- app_assoc. cbn [List.app].
  change (JSON.parse_members (S fuel) ("034"%char :: ?r) acc)
    with (match JSON.read_string r with
          | Throw e => Throw e
          | Ok (k, r1) =>
              match JSON.skip_ws r1 with
              | c1 :: r2 =>
                  if byte_val c1 =? 58 then
                    match JSON.parse_value fuel r2 with
                    | Throw e => Throw e
                    | Ok (x, r3) => after_member fuel (JSON.set_prop acc (string_of_bytes k) x) r3
                    end
                  else JSON.syntax_error
              | [] => JSON.syntax_error
              end
          end).
  rewrite read_string_quoted, string_bytes_inv. reflexivity.
Qed.

Lemma token_end_brace rest : token_end ("}"%char :: rest).
Proof. cbn. repeat split; discriminate. Qed.

Lemma parse_payload fuel (p : StatePayload) :
  is_finite (exp p) = true -> canonical (exp p) ->
  JSON.parse_value (S (S (S (S (S fuel))))) (payload_text p) = Ok (payload_value p, []).
Proof.
  intros Hfin Hcan. destruct p as [pn prt pexp]. cbn [exp] in *.
  unfold payload_text, payload_value, payload_props. cbn [n rt exp].
  rewrite parse_value_object, parse_members_step, parse_value_string.
  destruct prt as [r|]; cbn [List.app]; unfold after_member at 1;
    change (JSON.skip_ws (","%char :: ?l)) with (","%char :: l);
    change (byte_val "," =? 44) with true; cbv iota.
  - rewrite <- app_assoc. cbn [List.app].
    rewrite parse_members_step, parse_value_string.
    unfold after_member at 1.
    change (JSON.skip_ws (","%char :: ?l)) with (","%char :: l).
    change (byte_val "," =? 44) with true. cbv iota.
    rewrite parse_members_step, parse_value_number by (try apply token_end_brace; assumption).
    reflexivity.
  - rewrite parse_members_step, parse_value_number by (try apply token_end_brace; assumption).
    reflexivity.
Qed.

Lemma payload_text_length (p : StatePayload) : (2 <= length (payload_text p))%nat.
Proof.
  unfold payload_text. cbn [length]. rewrite quote_cons. cbn [List.app length]. lia.
Qed.

(** [JSON.parse(JSON.stringify(p))] is [p], for a payload with a finite
    expiry. *)
Lemma parse_stringify_payload (p : StatePayload) :
  is_finite (exp p) = true -> canonical (exp p) ->
  JSON.parse (stringify_object (payload_props p)) = Ok (payload_value p).
Proof.
  intros Hfin Hcan. unfold stringify_object, JSON.stringify.
  fold (payload_value p). rewrite serialize_payload by exact Hfin. cbn [option_map].
  unfold JSON.parse. rewrite string_of_bytes_of_string.
  pose proof (payload_text_length p) as Hlen.
  destruct (length (payload_text p)) as [|[|k]] eqn:E; try lia.
  replace (2 * S (S k) + 2)%nat with (S (S (S (S (S (S (2 * k))))))) by lia.
  rewrite parse_payload by assumption. reflexivity.
Qed.

(** ** [split] on a separator that occurs once *)

Lemma split_on_none sep l : ~ In sep l -> split_on sep l = [l].
Proof.
  induction l as [|c l IH]; intro H; [reflexivity|].
  cbn [split_on]. destruct (ascii_dec c sep) as [->|_].
  - exfalso. apply H. now left.
  - rewrite IH; [reflexivity|]. intro Hin. apply H. now right.
Qed.

Lemma split_on_once sep a b :
  ~ In sep a -> ~ In sep b -> split_on sep (a ++ sep :: b) = [a; b].
Proof.
  intros Ha Hb. induction a as [|c a IH]; cbn [List.app split_on].
  - destruct (ascii_dec sep sep); [|congruence]. now rewrite split_on_none.
  - destruct (ascii_dec c sep) as [->|_].
    + exfalso. apply Ha. now left.
    + rewrite IH; [reflexivity|]. intro Hin. apply Ha. now right.
Qed.

Lemma timingSafeEqual_same a : timingSafeEqual a a = Ok true.
Proof.
  unfold timingSafeEqual. rewrite Nat.eqb_refl.
  destruct (list_eq_dec ascii_dec a a); [reflexivity | congruence].
Qed.

Lemma get_payload_exp p : get (payload_value p) "exp" = Ok (JNum (exp p)).
Proof. destruct p as [pn [r|] pexp]; reflexivity. Qed.

Lemma get_payload_n p : get (payload_value p) "n" = Ok (JStr (n p)).
Proof. destruct p as [pn [r|] pexp]; reflexivity. Qed.

Lemma get_payload_rt p :
  get (payload_value p) "rt" = Ok (match rt p with Some r => JStr r | None => JUndefined end).
Proof. destruct p as [pn [r|] pexp]; reflexivity. Qed.

Section RoundTrip.

Variable SESSION_SECRET : string.

Lemma signState_parts (p : StatePayload) :
  let body := Base64url.encode (bytes_of_string (stringify_object (payload_props p))) in
  split (signState SESSION_SECRET p) "." = [body; hmac_base64url SESSION_SECRET body].
Proof.
  intro body. unfold split, signState. fold body.
  rewrite !bytes_of_string_app. cbn [bytes_of_string list_ascii_of_string List.app].
  fold (bytes_of_string (hmac_base64url SESSION_SECRET body)).
  rewrite split_on_once.
  - cbn [map]. now rewrite !string_bytes_inv.
  - apply base64url_no_dot.
  - apply base64url_no_dot.
Qed.

Lemma stringify_object_nonempty props : stringify_object props <> "".
Proof. unfold stringify_object, JSON.stringify. cbn. discriminate. Qed.

Lemma bytes_nonempty (s : string) : s <> "" -> bytes_of_string s <> [].
Proof. destruct s; [congruence | discriminate]. Qed.

Lemma signState_body_nonempty (p : StatePayload) :
  Base64url.encode (bytes_of_string (stringify_object (payload_props p))) <> "".
Proof. apply base64url_nonempty, bytes_nonempty, stringify_object_nonempty. Qed.

Lemma hmac_base64url_nonempty body : hmac_base64url SESSION_SECRET body <> "".
Proof.
  apply base64url_nonempty. intro E.
  pose proof (hmac_length (bytes_of_string SESSION_SECRET) (bytes_of_string body)) as H.
  rewrite E in H. discriminate.
Qed.

(** Verifying what [signState] signed, no later than its expiry. *)
Lemma verifyState_of_signState (p : StatePayload) (now : Z) :
  is_finite (exp p) = true -> canonical (exp p) ->
  Coerce.int_gt now (exp p) = false ->
  verifyState SESSION_SECRET now (Some (signState SESSION_SECRET p)) = Ok (payload_value p).
Proof.
  intros Hfin Hcan Hnow.
  set (body := Base64url.encode (bytes_of_string (stringify_object (payload_props p)))).
  assert (Hbody : body <> "") by apply signState_body_nonempty.
  assert (Hsig : hmac_base64url SESSION_SECRET body <> "") by apply hmac_base64url_nonempty.
  unfold verifyState.
  assert (Htok : (signState SESSION_SECRET p =? "")%string = false).
  { apply String.eqb_neq. unfold signState. fold body. destruct body; [congruence | discriminate]. }
  rewrite Htok, signState_parts. fold body. cbn [nth].
  apply String.eqb_neq in Hbody, Hsig. rewrite Hbody, Hsig. cbn [orb].
  rewrite timingSafeEqual_same.
  unfold body at 1. rewrite base64url_decode_encode, string_bytes_inv.
  rewrite parse_stringify_payload by assumption.
  rewrite get_payload_exp. cbn [Coerce.ToNumber]. now rewrite Hnow.
Qed.

(** C1, as the code has it: signing a payload whose expiry is a finite
    number and verifying the token no later than that expiry returns the
    payload. *)
Theorem verify_sign_roundtrip (p : StatePayload) (now : Z) :
  is_finite (exp p) = true -> canonical (exp p) ->
  Coerce.int_gt now (exp p) = false ->
  verifyState SESSION_SECRET now (Some (signState SESSION_SECRET p)) = Ok (payload_value p).
Proof. apply verifyState_of_signState. Qed.

End RoundTrip.

Lemma verify_sign_roundtrip_witness :
  let p := mkPayload "9f2c" (Some "http://127.0.0.1:4200") (Int 1700000600000) in
  is_finite (exp p) = true /\ canonical (exp p) /\ Coerce.int_gt 1700000000000 (exp p) = false
  /\ verifyState "s3cret" 1700000000000 (Some (signState "s3cret" p)) = Ok (payload_value p).
Proof.
  cbv zeta.
  split; [reflexivity | split; [exact I | split; [reflexivity |]]].
  apply verify_sign_roundtrip; [reflexivity | exact I | reflexivity].
Defined.

(** Against C1 as stated: an expiry of [Infinity] is never past, yet
    [JSON.stringify] writes it as [null], which reads back as 0. *)
Lemma roundtrip_fails_for_infinite_expiry :
  let p := mkPayload "9f2c" None PosInf in
  Coerce.int_gt 1700000000000 (exp p) = false
  /\ verifyState "s3cret" 1700000000000 (Some (signState "s3cret" p)) = Ok JNull
  /\ Ok JNull <> Ok (payload_value p).
Proof.
  cbv zeta. split; [reflexivity | split; [vm_compute; reflexivity | discriminate]].
Qed.

(** ** A scripted upstream, to run the handlers on *)

Example spotify_me_refreshes :
  spotify_me "id" "secret" demo_upstream demo_env
             (demo_req (JStr "stale") (JStr "r1")) fresh
  = (Ok tt,
     mkWorld
       [ bearer_request "/me" "stale";
         token_request [("grant_type", "refresh_token"); ("refresh_token", "r1");
                        ("client_id", "id"); ("client_secret", "secret")];
         bearer_request "/me" "fresh-token" ]
       (mkRes 200 None
              [cookie_for (demo_req (JStr "stale") (JStr "r1")) "spotify_access_token"
                          (JStr "fresh-token") ACCESS_MS]
              (Some (SendJson (JObj [("id", JStr "u1")]))))).
Proof. vm_compute. reflexivity. Qed.

Example spotify_me_without_refresh_cookie :
  spotify_me "id" "secret" demo_upstream demo_env (demo_req (JStr "stale") JUndefined) fresh
  = (Ok tt,
     mkWorld [bearer_request "/me" "stale"]
             (mkRes 500 None [] (Some (SendText "Unauthorized and refresh failed")))).
Proof. vm_compute. reflexivity. Qed.

(** A cookie [j:{"toString":1}] reaches the handler as an object that no
    template literal can print: nothing is fetched. *)
Example spotify_me_with_an_unprintable_cookie :
  spotify_me "id" "secret" demo_upstream demo_env
             (demo_req (JObj [("toString", JNum (Int 1))]) (JStr "r1")) fresh
  = (Ok tt,
     mkWorld [] (mkRes 500 None [] (Some (SendText "Cannot convert object to primitive value")))).
Proof. vm_compute. reflexivity. Qed.

Example spotify_me_with_an_unprintable_refresh_cookie :
  spotify_me "id" "secret" demo_upstream demo_env
             (demo_req (JStr "stale") (JObj [("toString", JNum (Int 1))])) fresh
  = (Ok tt,
     mkWorld [bearer_request "/me" "stale"]
             (mkRes 500 None [] (Some (SendText "Cannot convert object to primitive value")))).
Proof. vm_compute. reflexivity. Qed.

(** ** The monad's laws of motion *)

Lemma bind_ok {A B} (m : M A) (k : A -> M B) w a w' :
  m w = (Ok a, w') -> bind m k w = k a w'.
Proof. unfold bind. now intros ->. Qed.

Lemma bind_throw {A B} (m : M A) (k : A -> M B) w e w' :
  m w = (Throw e, w') -> bind m k w = (Throw e, w').
Proof. unfold bind. now intros ->. Qed.

Lemma try_catch_ok {A} (m : M A) h w a w' :
  m w = (Ok a, w') -> try_catch m h w = (Ok a, w').
Proof. unfold try_catch. now intros ->. Qed.

Lemma try_catch_throw {A} (m : M A) h w e w' :
  m w = (Throw e, w') -> try_catch m h w = h e w'.
Proof. unfold try_catch. now intros ->. Qed.

(** ** What [sfetch] sends *)

Lemma skipn_app_exact {A} (a b : list A) : skipn (length a) (a ++ b) = b.
Proof. induction a as [|x a IH]; [reflexivity | exact IH]. Qed.

Lemma api_is_not_token path : (SPOTIFY_TOKEN =? SPOTIFY_API +++ path)%string = false.
Proof. reflexivity. Qed.

Section ServerFacts.

Variable SPOTIFY_CLIENT_ID : string.
Variable SPOTIFY_CLIENT_SECRET : string.
Variable upstream : list Request -> Request -> result Response.

#[local] Abbreviation refreshAccessToken' := (refreshAccessToken SPOTIFY_CLIENT_ID SPOTIFY_CLIENT_SECRET upstream).
#[local] Abbreviation sfetch' := (sfetch SPOTIFY_CLIENT_ID SPOTIFY_CLIENT_SECRET upstream).
#[local] Abbreviation final_response' := (final_response SPOTIFY_CLIENT_ID SPOTIFY_CLIENT_SECRET upstream).

Lemma set_token_cookies_log req tokens w :
  log (snd (set_token_cookies req tokens w)) = log w.
Proof.
  unfold set_token_cookies, bind, lift, when, res_cookie, set_res, ret.
  destruct (get tokens "access_token") as [a|e]; [|reflexivity].
  destruct (truthy a); cbn [fst snd log];
    destruct (get tokens "refresh_token") as [r|e']; try reflexivity;
    destruct (truthy r); reflexivity.
Qed.


#[local] Abbreviation doFetch' := (doFetch upstream).
#[local] Abbreviation refresh_request' := (refresh_request SPOTIFY_CLIENT_ID SPOTIFY_CLIENT_SECRET).

(** [refreshAccessToken] sends at most one request, and to the token
    endpoint. *)
Lemma refresh_sends req w :
  exists l, log (snd (refreshAccessToken' req w)) = log w ++ l
            /\ (length l <= 1)%nat
            /\ Forall (fun rq => rq_url rq = SPOTIFY_TOKEN) l.
Proof.
  assert (Hnone : exists l, log w = log w ++ l /\ (length l <= 1)%nat
                            /\ Forall (fun rq => rq_url rq = SPOTIFY_TOKEN) l).
  { exists []. rewrite app_nil_r. repeat split; [cbn; lia | constructor]. }
  unfold refreshAccessToken.
  destruct (truthy (cookies req "spotify_refresh_token")); cbn [negb]; [|exact Hnone].
  unfold bind at 1. unfold lift at 1.
  destruct (ToString (cookies req "spotify_refresh_token")) as [token|e]; [|exact Hnone].
  unfold bind at 1. unfold fetch at 1.
  set (rq := refresh_request' token).
  exists [rq]. split; [|split; [cbn; lia | repeat constructor]].
  destruct (upstream (log w) rq) as [r|e]; [|reflexivity].
  destruct (ok r); cbn [negb]; [|reflexivity].
  unfold bind, lift. destruct (json r) as [j|e]; [|reflexivity].
  pose proof (set_token_cookies_log req j (mkWorld (log w ++ [rq]) (res w))) as H.
  destruct (set_token_cookies req j (mkWorld (log w ++ [rq]) (res w))) as [[u|e] w2];
    cbn [snd] in *; exact H.
Qed.

Lemma count_url_token path l :
  Forall (fun rq => rq_url rq = SPOTIFY_TOKEN) l -> count_url (SPOTIFY_API +++ path) l = 0%nat.
Proof.
  intro H. unfold count_url. induction H as [|rq l Hrq _ IH]; [reflexivity|].
  cbn [filter]. rewrite Hrq, api_is_not_token. exact IH.
Qed.

Lemma count_url_app url a b : count_url url (a ++ b) = (count_url url a + count_url url b)%nat.
Proof. unfold count_url. now rewrite filter_app, length_app. Qed.

Lemma count_url_resource path token :
  count_url (SPOTIFY_API +++ path) [bearer_request path token] = 1%nat.
Proof. unfold count_url. cbn [filter bearer_request rq_url]. now rewrite String.eqb_refl. Qed.

(** [doFetch] prints the token and then fetches, or throws and fetches
    nothing. *)
Lemma doFetch_cases (path : string) (access : JSValue) (w : World) :
  doFetch' path access w
  = match ToString access with
    | Throw e => (Throw e, w)
    | Ok token =>
        (upstream (log w) (bearer_request path token),
         mkWorld (log w ++ [bearer_request path token]) (res w))
    end.
Proof. unfold doFetch, bind, lift, fetch. destruct (ToString access); reflexivity. Qed.

Lemma sfetch_cases (req : Req) (path : string) (w : World) :
  sfetch' req path w
  = match doFetch' path (cookies req "spotify_access_token") w with
    | (Throw e, w1) => (Throw e, w1)
    | (Ok r1, w1) =>
        if status r1 =? 401 then
          match refreshAccessToken' req w1 with
          | (Throw e, w2) => (Throw e, w2)
          | (Ok tok, w2) =>
              if truthy tok then
                match doFetch' path tok w2 with
                | (Throw e, w3) => (Throw e, w3)
                | (Ok r2, w3) => (finish r2, w3)
                end
              else (Throw (Error "Unauthorized and refresh failed"), w2)
          end
        else (finish r1, w1)
    end.
Proof.
  unfold sfetch, finish. unfold bind at 1.
  destruct (doFetch' path _ w) as [[r1|e] w1]; [|reflexivity].
  destruct (status r1 =? 401).
  - unfold bind at 1. unfold bind at 1.
    destruct (refreshAccessToken' req w1) as [[tok|e] w2]; [|reflexivity].
    unfold js_or. destruct (truthy tok) eqn:Ht.
    + rewrite Ht. cbn [negb].
      destruct (doFetch' path tok w2) as [[r2|e2] w3]; [|reflexivity].
      destruct (ok r2); reflexivity.
    + reflexivity.
  - unfold bind, ret. destruct (ok r1); reflexivity.
Qed.

(** [sfetch] with the access token printed as [token], case by case. *)
Lemma sfetch_with_token (req : Req) (path token : string) (w : World) :
  ToString (cookies req "spotify_access_token") = Ok token ->
  sfetch' req path w
  = let first := bearer_request path token in
    let w1 := mkWorld (log w ++ [first]) (res w) in
    match upstream (log w) first with
    | Throw e => (Throw e, w1)
    | Ok r1 =>
        if status r1 =? 401 then
          match refreshAccessToken' req w1 with
          | (Throw e, w2) => (Throw e, w2)
          | (Ok tok, w2) =>
              if truthy tok then
                match ToString tok with
                | Throw e => (Throw e, w2)
                | Ok fresh_token =>
                    let second := bearer_request path fresh_token in
                    let w3 := mkWorld (log w2 ++ [second]) (res w2) in
                    match upstream (log w2) second with
                    | Throw e => (Throw e, w3)
                    | Ok r2 => (finish r2, w3)
                    end
                end
              else (Throw (Error "Unauthorized and refresh failed"), w2)
          end
        else (finish r1, w1)
    end.
Proof.
  intro Ht. rewrite sfetch_cases, doFetch_cases, Ht. cbv zeta.
  destruct (upstream (log w) _) as [r1|e]; [|reflexivity].
  destruct (status r1 =? 401); [|reflexivity].
  destruct (refreshAccessToken' req _) as [[tok|e] w2]; [|reflexivity].
  destruct (truthy tok); [|reflexivity].
  rewrite doFetch_cases. destruct (ToString tok); [|reflexivity].
  destruct (upstream (log w2) _); reflexivity.
Qed.

(** C2: a call of [sfetch] fetches the resource twice at most, and not at
    all when the access cookie cannot be printed.  When it can, the
    resource is fetched first with the cookie's token, and a second time
    only when the first answer was a 401 and [refreshAccessToken] then
    returned an access token (not null, and truthy) that can be printed,
    and then the second fetch carries that token.  Any other status sends
    nothing further.  A 401 followed by a refresh without a token throws
    [Unauthorized and refresh failed] with no second fetch; a 401
    followed by a refresh that throws makes [sfetch] throw what the
    refresh threw, again with no second fetch. *)
Theorem sfetch_fetches_at_most_twice (req : Req) (path : string) (w : World) :
  let access := cookies req "spotify_access_token" in
  let out := sfetch' req path w in
  let fetched := count_url (SPOTIFY_API +++ path) (sent (sfetch' req path) w) in
  log (snd out) = log w ++ sent (sfetch' req path) w
  /\ (fetched <= 2)%nat
  /\ (forall e, ToString access = Throw e -> out = (Throw e, w) /\ fetched = 0%nat)
  /\ (forall token, ToString access = Ok token ->
      let first := bearer_request path token in
      let w1 := mkWorld (log w ++ [first]) (res w) in
      (1 <= fetched)%nat
      /\ (exists rest, sent (sfetch' req path) w = first :: rest)
      /\ (fetched = 2%nat ->
          exists r1 tok w2 fresh_token,
            upstream (log w) first = Ok r1 /\ status r1 = 401
            /\ refreshAccessToken' req w1 = (Ok tok, w2)
            /\ tok <> JNull /\ truthy tok = true /\ ToString tok = Ok fresh_token
            /\ log (snd out) = log w2 ++ [bearer_request path fresh_token]
            /\ rq_headers (bearer_request path fresh_token)
               = [("Authorization", "Bearer " +++ fresh_token)])
      /\ (forall r1, upstream (log w) first = Ok r1 -> status r1 <> 401 ->
          sent (sfetch' req path) w = [first])
      /\ (forall e, upstream (log w) first = Throw e -> out = (Throw e, w1))
      /\ (forall r1 tok w2,
            upstream (log w) first = Ok r1 -> status r1 = 401 ->
            refreshAccessToken' req w1 = (Ok tok, w2) -> truthy tok = false ->
            out = (Throw (Error "Unauthorized and refresh failed"), w2) /\ fetched = 1%nat)
      /\ (forall r1 e w2,
            upstream (log w) first = Ok r1 -> status r1 = 401 ->
            refreshAccessToken' req w1 = (Throw e, w2) ->
            out = (Throw e, w2) /\ fetched = 1%nat)
      /\ (forall r1 tok w2 e,
            upstream (log w) first = Ok r1 -> status r1 = 401 ->
            refreshAccessToken' req w1 = (Ok tok, w2) -> truthy tok = true ->
            ToString tok = Throw e ->
            out = (Throw e, w2) /\ fetched = 1%nat)).
Proof.
  cbv zeta. unfold sent.
  set (url := SPOTIFY_API +++ path).
  destruct (ToString (cookies req "spotify_access_token")) as [token|e0] eqn:Hprint.
  2:{ rewrite sfetch_cases, doFetch_cases, Hprint. cbn [snd fst].
      rewrite skipn_all, app_nil_r.
      repeat split; try (cbn; lia); intros; congruence. }
  rewrite (sfetch_with_token req path w Hprint). cbv zeta.
  set (first := bearer_request path token).
  set (w1 := mkWorld (log w ++ [first]) (res w)).
  assert (Hfirst : count_url url [first] = 1%nat) by apply count_url_resource.
  assert (Hone : skipn (length (log w)) (log w1) = [first]) by apply skipn_app_exact.
  assert (Hskip : forall x, skipn (length (log w)) (log w1 ++ x) = [first] ++ x).
  { intro x. unfold w1. cbn [log]. rewrite <- app_assoc. apply skipn_app_exact. }
  assert (Hw1 : forall x, log w1 ++ x = log w ++ [first] ++ x).
  { intro x. unfold w1. cbn [log]. now rewrite <- app_assoc. }
  assert (Hsame : forall t, Ok t = Ok token -> bearer_request path t = first)
    by (intros t [= ->]; reflexivity).
  split; [|split; [|split; [intros; discriminate|]]].
  3: intros t Ht; injection Ht as <-; fold first; fold w1.
  all: destruct (upstream (log w) first) as [r1|e] eqn:Hup.
  all: try (cbn [snd fst]; rewrite ?Hone, ?Hfirst;
            repeat split; try lia; try (now exists []); intros; congruence).
  all: destruct (Z.eqb_spec (status r1) 401) as [H401|Hne].
  all: try (cbn [snd fst]; rewrite ?Hone, ?Hfirst;
            repeat split; try lia; try (now exists []); intros; try lia; congruence).
  all: destruct (refresh_sends req w1) as [l [Hl [Hlen Htok]]].
  all: assert (Hzero : count_url url l = 0%nat) by apply (count_url_token path Htok).
  all: destruct (refreshAccessToken' req w1) as [[tok|e] w2] eqn:Href; cbn [snd] in Hl.
  all: try (cbn [snd fst]; rewrite Hl, ?Hskip, ?Hw1, ?count_url_app, ?Hfirst, ?Hzero;
            repeat split; try lia; try (now exists l); intros; try lia; congruence).
  all: destruct (truthy tok) eqn:Htruthy.
  all: try (cbn [snd fst]; rewrite Hl, ?Hskip, ?Hw1, ?count_url_app, ?Hfirst, ?Hzero;
            repeat split; try lia; try (now exists l); intros; try lia; congruence).
  all: destruct (ToString tok) as [fresh_token|e] eqn:Hfresh.
  all: try (cbn [snd fst]; rewrite Hl, ?Hskip, ?Hw1, ?count_url_app, ?Hfirst, ?Hzero;
            repeat split; try lia; try (now exists l); intros; try lia; congruence).
  all: set (second := bearer_request path fresh_token).
  all: assert (Hlog : log (snd (match upstream (log w2) second with
                                | Ok r2 => (finish r2, mkWorld (log w2 ++ [second]) (res w2))
                                | Throw e => (Throw e, mkWorld (log w2 ++ [second]) (res w2))
                                end)) = log w2 ++ [second])
         by (destruct (upstream (log w2) second); reflexivity).
  all: assert (Hsecond : count_url url [second] = 1%nat) by apply count_url_resource.
  all: rewrite Hlog, Hl, <- ?app_assoc, ?Hskip, ?Hw1, ?count_url_app, ?Hfirst, ?Hzero, ?Hsecond.
  all: repeat split; try lia; try (now exists (l ++ [second])); intros; try congruence.
  all: exists r1, tok, w2, fresh_token; repeat split; try assumption; try reflexivity.
  all: try (intro E; rewrite E in Htruthy; discriminate).
  all: now rewrite Hl, <- app_assoc.
Qed.
(** ** Calls that run together *)

Lemma same_answer_refl w : same_answer w w.
Proof. repeat split. Qed.

Lemma same_answer_trans w1 w2 w3 :
  same_answer w1 w2 -> same_answer w2 w3 -> same_answer w1 w3.
Proof. unfold same_answer. intros [? [? ?]] [? [? ?]]. repeat split; congruence. Qed.

Lemma list_sum_put (ns : list nat) (i n m : nat) :
  nth_error ns i = Some n -> (list_sum (put i m ns) + n = list_sum ns + m)%nat.
Proof.
  revert i. induction ns as [|x ns IH]; intros [|i] H; try discriminate.
  - injection H as ->. cbn. lia.
  - specialize (IH i H). unfold list_sum in *. cbn [put fold_right]. lia.
Qed.

Lemma Forall2_put {A B} (R : A -> B -> Prop) l ns i y m :
  Forall2 R l ns -> R y m -> Forall2 R (put i y l) (put i m ns).
Proof.
  intros H Hy. revert i. induction H as [|a b l ns Hab Hrest IH]; intros [|i]; cbn [put].
  - constructor.
  - constructor.
  - constructor; assumption.
  - constructor; [assumption | apply IH].
Qed.

Lemma Forall2_nth_error {A B} (R : A -> B -> Prop) l ns i x :
  Forall2 R l ns -> nth_error l i = Some x -> exists n, nth_error ns i = Some n /\ R x n.
Proof.
  intro H. revert i. induction H as [|a b l ns Hab _ IH]; intros [|i] Hi; try discriminate.
  - injection Hi as <-. now exists b.
  - exact (IH i Hi).
Qed.

Lemma waiting_nth {A} (cs : list (Call A)) (j i : nat) :
  In i (waiting j cs) ->
  exists rq n k, nth_error cs (i - j) = Some (Waiting rq n k) /\ (j <= i)%nat.
Proof.
  revert j. induction cs as [|c cs IH]; intros j Hin; [contradiction|].
  assert (Hrest : In i (waiting (S j) cs) ->
                  exists rq n k, nth_error (c :: cs) (i - j) = Some (Waiting rq n k)
                                 /\ (j <= i)%nat).
  { intro H. destruct (IH _ H) as [rq [n [k [Hn Hle]]]].
    exists rq, n, k. split; [|lia].
    replace (i - j)%nat with (S (i - S j)) by lia. exact Hn. }
  destruct c as [rq n k|r]; cbn [waiting] in Hin; [|exact (Hrest Hin)].
  destruct Hin as [<-|Hin]; [|exact (Hrest Hin)].
  exists rq, n, k. rewrite Nat.sub_diag. split; [reflexivity | lia].
Qed.

Lemma hears_in (choice : nat) (ws : list nat) (i : nat) :
  hears choice ws = Some i -> In i ws.
Proof.
  destruct ws as [|j ws]; [discriminate|]. unfold hears.
  destruct (existsb (Nat.eqb choice) (j :: ws)) eqn:E; intros [= <-].
  - apply existsb_exists in E. destruct E as [x [Hx Heq]].
    apply Nat.eqb_eq in Heq. now subst.
  - now left.
Qed.

Lemma hears_waiting {A} (choice : nat) (cs : list (Call A)) (i : nat) :
  hears choice (waiting 0 cs) = Some i ->
  exists rq n k, nth_error cs i = Some (Waiting rq n k).
Proof.
  intro H. apply hears_in in H. destruct (@waiting_nth _ _ _ _ H) as [rq [n [k [Hn _]]]].
  rewrite Nat.sub_0_r in Hn. now exists rq, n, k.
Qed.

(** When no call has thrown and not all have returned, one is waiting. *)
Lemma one_is_waiting {A} (cs : list (Call A)) (j : nat) :
  rejection cs = None -> values cs = None -> waiting j cs <> [].
Proof.
  revert j. induction cs as [|c cs IH]; intros j Hr Hv; [discriminate|].
  destruct c as [rq n k|[v|e]]; cbn [waiting rejection values] in *; try discriminate.
  apply IH; [exact Hr|]. destruct (values cs); [discriminate | reflexivity].
Qed.

Section Together.

Variable A : Type.
Variable P : Request -> Prop.
Variable Q : Cookie -> Prop.

Lemma grows_refl w : grows P Q w w.
Proof.
  repeat split; try (exists []; rewrite app_nil_r; split; [reflexivity | constructor]).
Qed.

Lemma grows_trans w1 w2 w3 : grows P Q w1 w2 -> grows P Q w2 w3 -> grows P Q w1 w3.
Proof.
  intros [[l [Hl Pl]] [[cs [Hcs Qcs]] Hs]] [[l' [Hl' Pl']] [[cs' [Hcs' Qcs']] Hs']].
  split; [|split].
  - exists (l ++ l'). rewrite Hl', Hl, app_assoc. split; [reflexivity | now apply Forall_app].
  - exists (cs ++ cs'). rewrite Hcs', Hcs, app_assoc.
    split; [reflexivity | now apply Forall_app].
  - exact (@same_answer_trans _ _ _ Hs Hs').
Qed.

Lemma grows_request w rq : P rq -> grows P Q w (mkWorld (log w ++ [rq]) (res w)).
Proof.
  intro H. split; [|split].
  - exists [rq]. split; [reflexivity | now constructor].
  - exists []. cbn. rewrite app_nil_r. split; [reflexivity | constructor].
  - repeat split.
Qed.

Lemma grows_cookie w c : Q c -> grows P Q w (snd (res_cookie c w)).
Proof.
  intro H. split; [|split].
  - exists []. cbn. rewrite app_nil_r. split; [reflexivity | constructor].
  - exists [c]. split; [reflexivity | now constructor].
  - repeat split.
Qed.

Lemma advance_ok (answered : bool) (t : Task A) (n : nat) (w : World) :
  task_ok P Q t n ->
  call_ok P Q (fst (advance answered t w)) n /\ grows P Q w (snd (advance answered t w)).
Proof.
  revert w. induction t as [r|rq k _|c k IH]; intros w H; cbn [advance].
  - split; [exact I | apply grows_refl].
  - destruct H as [Hrq Hk]. split; [exact Hk | now apply grows_request].
  - destruct H as [Hc Hk]. destruct answered.
    + split; [exact I | apply grows_refl].
    + destruct (IH (snd (res_cookie c w)) Hk) as [Hcall Hg].
      split; [exact Hcall|]. exact (@grows_trans _ _ _ (@grows_cookie w c Hc) Hg).
Qed.

(** Once the answer is out, a call adds nothing to the response. *)
Lemma advance_answered (t : Task A) (w : World) : res (snd (advance true t w)) = res w.
Proof. destruct t; reflexivity. Qed.

Lemma start_ok (ts : list (Task A)) (ns : list nat) (w : World) :
  Forall2 (task_ok P Q) ts ns ->
  Forall2 (call_ok P Q) (fst (start ts w)) ns /\ grows P Q w (snd (start ts w)).
Proof.
  intro H. revert w. induction H as [|t n ts ns Ht _ IH]; intro w; cbn [start].
  - split; [constructor | apply grows_refl].
  - destruct (@advance_ok false t n w Ht) as [Hc Hg].
    destruct (advance false t w) as [c w1]. cbn [fst snd] in *.
    destruct (IH w1) as [Hcs Hg']. destruct (start ts w1) as [cs w2]. cbn [fst snd] in *.
    split; [now constructor | exact (@grows_trans _ _ _ Hg Hg')].
Qed.

Lemma deliver_ok (answered : bool) (i : nat) (cs : list (Call A)) (ns : list nat) (w : World)
      rq n k :
  Forall2 (call_ok P Q) cs ns -> nth_error cs i = Some (Waiting rq n k) ->
  exists ns', Forall2 (call_ok P Q) (fst (deliver upstream answered i cs w)) ns'
              /\ (S (list_sum ns') <= list_sum ns)%nat
              /\ grows P Q w (snd (deliver upstream answered i cs w)).
Proof.
  intros Hcs Hi. unfold deliver. rewrite Hi.
  destruct (@Forall2_nth_error _ _ _ _ _ _ _ Hcs Hi) as [m [Hm Hcall]]. cbn [call_ok] in Hcall.
  destruct m as [|m]; [contradiction|].
  destruct (@advance_ok answered _ _ w (Hcall (upstream (others n (log w)) rq))) as [Hc Hg].
  destruct (advance answered _ w) as [c w']. cbn [fst snd] in *.
  exists (put i m ns). split; [now apply Forall2_put|]. split; [|exact Hg].
  pose proof (@list_sum_put _ _ _ m Hm). lia.
Qed.

Lemma deliver_answered (i : nat) (cs : list (Call A)) (w : World) :
  res (snd (deliver upstream true i cs w)) = res w.
Proof.
  unfold deliver. destruct (nth_error cs i) as [[rq n k|r]|]; try reflexivity.
  pose proof (advance_answered (k (upstream (others n (log w)) rq)) w) as H.
  destruct (advance true _ w). exact H.
Qed.

(** [Promise.all] settles, whatever the order of the answers, when the
    fuel covers the awaits of its calls. *)
Lemma settle_ok (env : Env) (fuel step : nat) (cs : list (Call A)) (ns : list nat) (w : World) :
  Forall2 (call_ok P Q) cs ns -> (list_sum ns <= fuel)%nat ->
  exists o step' cs' w' ns',
    settle upstream env fuel step cs w = (Some o, (step', cs'), w')
    /\ Forall2 (call_ok P Q) cs' ns' /\ grows P Q w w'
    /\ match o with
       | Throw e => rejection cs' = Some e
       | Ok vs => rejection cs' = None /\ values cs' = Some vs
       end.
Proof.
  revert step cs ns w. induction fuel as [|fuel IH]; intros step cs ns w Hcs Hsum.
  - cbn [settle]. destruct (rejection cs) as [e|] eqn:Hr.
    + exists (Throw e), step, cs, w, ns. repeat split; try assumption; apply grows_refl.
    + destruct (values cs) as [vs|] eqn:Hv.
      * exists (Ok vs), step, cs, w, ns. repeat split; try assumption; apply grows_refl.
      * exfalso. pose proof (@one_is_waiting _ _ 0%nat Hr Hv) as Hw.
        destruct (waiting 0 cs) as [|i ws] eqn:E; [now apply Hw|].
        assert (Hin : In i (waiting 0 cs)) by (rewrite E; now left).
        destruct (@waiting_nth _ _ _ _ Hin) as [rq [n [k [Hn _]]]].
        destruct (@Forall2_nth_error _ _ _ _ _ _ _ Hcs Hn) as [m [Hm Hcall]]. cbn [call_ok] in Hcall.
        destruct m; [contradiction|].
        pose proof (@list_sum_put _ _ _ 0%nat Hm). lia.
  - cbn [settle]. destruct (rejection cs) as [e|] eqn:Hr.
    + exists (Throw e), step, cs, w, ns. repeat split; try assumption; apply grows_refl.
    + destruct (values cs) as [vs|] eqn:Hv.
      * exists (Ok vs), step, cs, w, ns. repeat split; try assumption; apply grows_refl.
      * pose proof (@one_is_waiting _ _ 0%nat Hr Hv) as Hw.
        destruct (hears (arrival env step) (waiting 0 cs)) as [i|] eqn:Hh.
        2:{ exfalso. destruct (waiting 0 cs); [now apply Hw | discriminate]. }
        destruct (@hears_waiting _ _ _ _ Hh) as [rq [n [k Hn]]].
        destruct (@deliver_ok false _ _ _ w _ _ _ Hcs Hn) as [ns' [Hcs' [Hlt Hg]]].
        destruct (deliver upstream false i cs w) as [cs' w']. cbn [fst snd] in *.
        destruct (IH (S step) cs' ns' w' Hcs' ltac:(lia))
          as [o [step' [cs2 [w2 [ns2 [Heq [Hcs2 [Hg2 Ho]]]]]]]].
        exists o, step', cs2, w2, ns2.
        split; [exact Heq | split; [exact Hcs2 | split; [|exact Ho]]].
        exact (@grows_trans _ _ _ Hg Hg2).
Qed.

(** What the calls still under way do after the answer: they may send
    more requests, and leave the response alone. *)
Lemma go_on_ok (env : Env) (fuel step : nat) (cs : list (Call A)) (ns : list nat) (w : World) :
  Forall2 (call_ok P Q) cs ns ->
  grows P Q w (go_on upstream env fuel step cs w)
  /\ res (go_on upstream env fuel step cs w) = res w.
Proof.
  revert step cs ns w. induction fuel as [|fuel IH]; intros step cs ns w Hcs; cbn [go_on].
  - split; [apply grows_refl | reflexivity].
  - destruct (hears (arrival env step) (waiting 0 cs)) as [i|] eqn:Hh.
    2:{ split; [apply grows_refl | reflexivity]. }
    destruct (@hears_waiting _ _ _ _ Hh) as [rq [n [k Hn]]].
    destruct (@deliver_ok true _ _ _ w _ _ _ Hcs Hn) as [ns' [Hcs' [_ Hg]]].
    pose proof (deliver_answered i cs w) as Hres.
    destruct (deliver upstream true i cs w) as [cs' w']. cbn [fst snd] in *.
    destruct (IH (S step) cs' ns' w' Hcs') as [Hg2 Hres2].
    split; [exact (@grows_trans _ _ _ Hg Hg2) | congruence].
Qed.

Lemma go_on_answered (env : Env) (fuel step : nat) (cs : list (Call A)) (w : World) :
  res (go_on upstream env fuel step cs w) = res w.
Proof.
  revert step cs w. induction fuel as [|fuel IH]; intros step cs w; cbn [go_on]; [reflexivity|].
  destruct (hears (arrival env step) (waiting 0 cs)) as [i|]; [|reflexivity].
  pose proof (deliver_answered i cs w) as Hres.
  destruct (deliver upstream true i cs w) as [cs' w']. cbn [snd] in Hres.
  rewrite IH. exact Hres.
Qed.

(** A task run on its own is the function it was written from. *)
Lemma run_and_then {B} (t : Task A) (f : A -> Task B) (w : World) :
  run upstream (and_then t f) w = bind (run upstream t) (fun a => run upstream (f a)) w.
Proof.
  revert w. induction t as [[a|e]|rq k IH|c k IH]; intro w; cbn [and_then run].
  - reflexivity.
  - reflexivity.
  - unfold bind. rewrite IH. reflexivity.
  - unfold bind. rewrite IH. reflexivity.
Qed.

Lemma settle_rejected (env : Env) (fuel step : nat) (cs : list (Call A)) (w : World) e :
  rejection cs = Some e ->
  settle upstream env fuel step cs w = (Some (Throw e), (step, cs), w).
Proof. intro H. destruct fuel; cbn [settle]; now rewrite H. Qed.

Lemma settle_resolved (env : Env) (fuel step : nat) (cs : list (Call A)) (w : World) vs :
  rejection cs = None -> values cs = Some vs ->
  settle upstream env fuel step cs w = (Some (Ok vs), (step, cs), w).
Proof. intros Hr Hv. destruct fuel; cbn [settle]; now rewrite Hr, Hv. Qed.

Lemma settle_hears (env : Env) (fuel step : nat) (cs : list (Call A)) (w : World) i :
  rejection cs = None -> values cs = None ->
  hears (arrival env step) (waiting 0 cs) = Some i ->
  settle upstream env (S fuel) step cs w
  = settle upstream env fuel (S step) (fst (deliver upstream false i cs w))
           (snd (deliver upstream false i cs w)).
Proof.
  intros Hr Hv Hh. cbn [settle]. rewrite Hr, Hv, Hh.
  now destruct (deliver upstream false i cs w).
Qed.

Lemma promise_all_ok (env : Env) (fuel : nat) (ts : list (Task A)) (ns : list nat) (w : World) :
  Forall2 (task_ok P Q) ts ns -> (list_sum ns <= fuel)%nat ->
  exists o step cs w' ns',
    promise_all upstream env fuel ts w = (Some o, (step, cs), w')
    /\ Forall2 (call_ok P Q) cs ns' /\ grows P Q w w'
    /\ match o with
       | Throw e => rejection cs = Some e
       | Ok vs => rejection cs = None /\ values cs = Some vs
       end.
Proof.
  intros Hts Hsum. unfold promise_all.
  destruct (@start_ok _ _ w Hts) as [Hcs Hg]. destruct (start ts w) as [cs w1]. cbn [fst snd] in *.
  destruct (@settle_ok env _ 0%nat _ _ w1 Hcs Hsum) as [o [step [cs' [w' [ns' [Heq [Hcs' [Hg' Ho]]]]]]]].
  exists o, step, cs', w', ns'.
  split; [exact Heq | split; [exact Hcs' | split; [|exact Ho]]].
  exact (@grows_trans _ _ _ Hg Hg').
Qed.

End Together.

#[local] Abbreviation sfetch_task' := (sfetch_task SPOTIFY_CLIENT_ID SPOTIFY_CLIENT_SECRET).
#[local] Abbreviation refreshAccessToken_task' :=
  (refreshAccessToken_task SPOTIFY_CLIENT_ID SPOTIFY_CLIENT_SECRET).

Lemma bind_ext {A B} (m : M A) (k k' : A -> M B) w :
  (forall a w', k a w' = k' a w') -> bind m k w = bind m k' w.
Proof. intro H. unfold bind. destruct (m w) as [[a|e] w']; [apply H | reflexivity]. Qed.

Lemma run_set_token_cookies (req : Req) (tokens : JSValue) (w : World) :
  run upstream (set_token_cookies_task req tokens) w = set_token_cookies req tokens w.
Proof.
  unfold set_token_cookies_task, set_token_cookies, bind, lift, when, task_when, set_cookie.
  destruct (get tokens "access_token") as [a|e]; cbn [and_then run]; [|reflexivity].
  destruct (truthy a); cbn [and_then run lift];
    destruct (get tokens "refresh_token") as [r|e]; cbn [and_then run lift]; try reflexivity;
    destruct (truthy r); reflexivity.
Qed.

Lemma run_refreshAccessToken (req : Req) (w : World) :
  run upstream (refreshAccessToken_task' req) w = refreshAccessToken' req w.
Proof.
  unfold refreshAccessToken_task, refreshAccessToken.
  destruct (truthy (cookies req "spotify_refresh_token")); cbn [negb]; [|reflexivity].
  unfold bind at 1. unfold lift at 1.
  destruct (ToString (cookies req "spotify_refresh_token")) as [token|e];
    cbn [and_then run await]; [|reflexivity].
  unfold bind at 1. unfold fetch at 1.
  destruct (upstream (log w) _) as [r|e]; cbn [and_then run]; [|reflexivity].
  destruct (ok r); cbn [negb]; [|reflexivity].
  unfold bind at 1. unfold lift at 1.
  destruct (json r) as [j|e]; cbn [and_then run]; [|reflexivity].
  rewrite run_and_then. unfold bind. rewrite run_set_token_cookies.
  destruct (set_token_cookies req j _) as [[u|e] w2]; reflexivity.
Qed.

Lemma run_doFetch (path : string) (access : JSValue) (w : World) :
  run upstream (doFetch_task path access) w = doFetch' path access w.
Proof.
  unfold doFetch_task, doFetch, bind, lift, fetch, await.
  destruct (ToString access); reflexivity.
Qed.

(** [sfetch] run on its own is [sfetch]. *)
Lemma run_sfetch_task (req : Req) (path : string) (w : World) :
  run upstream (sfetch_task' req path) w = sfetch' req path w.
Proof.
  rewrite sfetch_cases. unfold sfetch_task, finish.
  rewrite run_and_then. unfold bind at 1. rewrite run_doFetch.
  destruct (doFetch' path _ w) as [[r1|e] w1]; [|reflexivity].
  rewrite run_and_then. unfold bind at 1.
  destruct (status r1 =? 401).
  - rewrite run_and_then. unfold bind at 1. rewrite run_refreshAccessToken.
    destruct (refreshAccessToken' req w1) as [[tok|e] w2]; [|reflexivity].
    unfold js_or. destruct (truthy tok) eqn:Ht.
    + rewrite Ht. cbn [negb]. rewrite run_doFetch.
      destruct (doFetch' path tok w2) as [[r2|e] w3]; [|reflexivity].
      destruct (ok r2); reflexivity.
    + reflexivity.
  - cbn [run]. unfold lift. destruct (ok r1); reflexivity.
Qed.

(** ** Upstream failures become 500s *)

#[local] Abbreviation last_response' := (last_response SPOTIFY_CLIENT_ID SPOTIFY_CLIENT_SECRET upstream).
#[local] Abbreviation proxied' := (proxied SPOTIFY_CLIENT_ID SPOTIFY_CLIENT_SECRET upstream).
#[local] Abbreviation spotify_me' := (spotify_me SPOTIFY_CLIENT_ID SPOTIFY_CLIENT_SECRET upstream).
#[local] Abbreviation spotify_top_tracks' := (spotify_top_tracks SPOTIFY_CLIENT_ID SPOTIFY_CLIENT_SECRET upstream).
#[local] Abbreviation spotify_top_artists' := (spotify_top_artists SPOTIFY_CLIENT_ID SPOTIFY_CLIENT_SECRET upstream).
#[local] Abbreviation spotify_recent' := (spotify_recent SPOTIFY_CLIENT_ID SPOTIFY_CLIENT_SECRET upstream).
#[local] Abbreviation enriched_top_tracks' := (enriched_top_tracks SPOTIFY_CLIENT_ID SPOTIFY_CLIENT_SECRET upstream).
#[local] Abbreviation enriched_block' := (enriched_block SPOTIFY_CLIENT_ID SPOTIFY_CLIENT_SECRET upstream).
#[local] Abbreviation debug_topcounts' := (debug_topcounts SPOTIFY_CLIENT_ID SPOTIFY_CLIENT_SECRET upstream).
#[local] Abbreviation topcounts_calls' := (topcounts_calls SPOTIFY_CLIENT_ID SPOTIFY_CLIENT_SECRET).

Lemma sfetch_final_not_ok (req : Req) (path : string) (w : World) (r : Response) :
  final_response' req path w = Some r -> ok r = false ->
  fst (sfetch' req path w) = Throw (Error (text r)).
Proof.
  unfold final_response. rewrite sfetch_cases.
  destruct (doFetch' path _ w) as [[r1|e] w1]; [|discriminate].
  destruct (status r1 =? 401).
  - destruct (refreshAccessToken' req w1) as [[tok|e] w2]; [|discriminate].
    destruct (truthy tok); [|discriminate].
    destruct (doFetch' path tok w2) as [[r2|e2] w3]; [|discriminate].
    intros [= ->] Hok. unfold finish. now rewrite Hok.
  - intros [= ->] Hok. unfold finish. now rewrite Hok.
Qed.

(** After a 401 that the refresh did not cure. *)
Lemma sfetch_unauthorized (req : Req) (path : string) (w : World) r1 w1 :
  doFetch' path (cookies req "spotify_access_token") w = (Ok r1, w1) -> status r1 = 401 ->
  (forall tok w2, refreshAccessToken' req w1 = (Ok tok, w2) -> truthy tok = false ->
     sfetch' req path w = (Throw (Error "Unauthorized and refresh failed"), w2))
  /\ (forall e w2, refreshAccessToken' req w1 = (Throw e, w2) ->
        sfetch' req path w = (Throw e, w2)).
Proof.
  intros Hfirst H401. rewrite sfetch_cases, Hfirst. apply Z.eqb_eq in H401. rewrite H401.
  split.
  - intros tok w2 -> ->. reflexivity.
  - intros e w2 ->. reflexivity.
Qed.

(** Whenever the last response to the resource request is not ok,
    [sfetch] throws. *)
Lemma sfetch_throws_after_failure (req : Req) (path : string) (w : World) (r : Response) :
  last_response' req path w = Some r -> ok r = false ->
  exists e w', sfetch' req path w = (Throw e, w').
Proof.
  unfold last_response. rewrite sfetch_cases.
  destruct (doFetch' path _ w) as [[r1|e] w1]; [|discriminate].
  destruct (status r1 =? 401).
  - destruct (refreshAccessToken' req w1) as [[tok|e] w2]; [|intros; now eexists _, _].
    destruct (truthy tok); [|intros; now eexists _, _].
    destruct (doFetch' path tok w2) as [[r2|e2] w3]; [|intros; now eexists _, _].
    intros [= ->] Hok. unfold finish. rewrite Hok. now eexists _, _.
  - intros [= ->] Hok. unfold finish. rewrite Hok. now eexists _, _.
Qed.

Lemma caught_send {A} (blk : M A) (k : A -> M unit) w e w' :
  blk w = (Throw e, w') ->
  try_catch (x <- blk ;; k x) send_error w
  = (Ok tt, failed_with (SendText (message_or e "Error")) w').
Proof. intro H. unfold try_catch, bind. rewrite H. reflexivity. Qed.

Lemma caught_json (blk : M unit) w e w' :
  blk w = (Throw e, w') ->
  try_catch blk json_error w
  = (Ok tt, failed_with (SendJson (JObj [("error", JStr (message_or e "failed"))])) w').
Proof. intro H. unfold try_catch. rewrite H. reflexivity. Qed.

Lemma pair_eta {A B} (p : A * B) : p = (fst p, snd p).
Proof. now destruct p. Qed.

Lemma proxied_shape (req : Req) (path : string) (h : Handler) :
  In (path, h) (proxied' req) ->
  forall env w, h env req w = try_catch (v <- sfetch' req path ;; res_json v) send_error w.
Proof.
  unfold proxied. cbn [In].
  intros [[= <- <-]|[[= <- <-]|[[= <- <-]|[[= <- <-]|[]]]]]; reflexivity.
Qed.

Lemma proxy_failure (path : string) (req : Req) (w : World) (r : Response) :
  final_response' req path w = Some r -> ok r = false ->
  answers_500 (try_catch (v <- sfetch' req path ;; res_json v) send_error w)
              (SendText (text_or (text r) "Error")).
Proof.
  intros Hf Hok. pose proof (sfetch_final_not_ok req path w Hf Hok) as Hs.
  rewrite (pair_eta (sfetch' req path w)) in Hs. cbn [fst] in Hs.
  erewrite caught_send by (rewrite (pair_eta (sfetch' req path w)), Hs; reflexivity).
  repeat split.
Qed.

Lemma enriched_throws (env : Env) (req : Req) (w : World) e w' :
  sfetch' req (top_tracks_path req) w = (Throw e, w') ->
  enriched_top_tracks' env req w
  = (Ok tt, failed_with (SendJson (JObj [("error", JStr (message_or e "failed"))])) w').
Proof.
  intro Hs. unfold enriched_top_tracks. apply caught_json.
  unfold enriched_block. now apply bind_throw.
Qed.

Lemma enriched_failure (env : Env) (req : Req) (w : World) (r : Response) :
  final_response' req (top_tracks_path req) w = Some r -> ok r = false ->
  answers_500 (enriched_top_tracks' env req w)
              (SendJson (JObj [("error", JStr (text_or (text r) "failed"))])).
Proof.
  intros Hf Hok. pose proof (sfetch_final_not_ok req _ w Hf Hok) as Hs.
  rewrite (pair_eta (sfetch' req _ w)) in Hs. cbn [fst] in Hs.
  erewrite enriched_throws by (rewrite (pair_eta (sfetch' req _ w)), Hs; reflexivity).
  repeat split.
Qed.

(** *** The three calls of GET /debug/topcounts *)

Section TaskBounds.

Variable req : Req.
Variable P : Request -> Prop.
Variable Q : Cookie -> Prop.
Hypothesis P_bearer : forall path token, P (bearer_request path token).
Hypothesis P_refresh : forall token, P (refresh_request' token).
Hypothesis Q_access :
  forall v, truthy v = true -> Q (cookie_for req "spotify_access_token" v ACCESS_MS).
Hypothesis Q_refresh :
  forall v, truthy v = true -> Q (cookie_for req "spotify_refresh_token" v REFRESH_MS).

Ltac task_step :=
  cbn [and_then task_ok negb];
  first
    [ exact I
    | apply P_refresh
    | apply P_bearer
    | apply Q_access; assumption
    | apply Q_refresh; assumption
    | split
    | intro
    | match goal with
      | |- context [if ?c then _ else _] => destruct c eqn:?
      | |- context [match ?x with Ok _ => _ | Throw _ => _ end] => destruct x eqn:?
      end ].

(** A call of [sfetch] sends the two kinds of request and sets the two
    cookies only, and awaits three answers at most. *)
Lemma sfetch_task_ok (path : string) : task_ok P Q (sfetch_task' req path) 3.
Proof.
  unfold sfetch_task, doFetch_task, refreshAccessToken_task, set_token_cookies_task, js_or,
    task_when, set_cookie, await.
  cbv zeta. repeat task_step.
Qed.

Lemma topcounts_calls_ok : Forall2 (task_ok P Q) (topcounts_calls' req) [3; 3; 3]%nat.
Proof. unfold topcounts_calls. repeat constructor; apply sfetch_task_ok. Qed.

End TaskBounds.

(** [Promise.all] over the three calls settles, whatever the order of the
    answers: it rejects with what one of the calls threw, or resolves
    when all three have returned. *)
Lemma topcounts_settles (env : Env) (req : Req) (w : World) :
  exists o step calls w1,
    promise_all upstream env 9 (topcounts_calls' req) w = (Some o, (step, calls), w1)
    /\ match o with
       | Throw e => rejection calls = Some e
       | Ok vs => rejection calls = None /\ values calls = Some vs
       end.
Proof.
  destruct (@promise_all_ok JSValue (fun _ => True) (fun _ => True) env 9
              (topcounts_calls' req) [3; 3; 3]%nat w)
    as (o & step & cs & w1 & ns & Heq & _ & _ & Ho).
  - apply topcounts_calls_ok; intros; exact I.
  - cbn. lia.
  - now exists o, step, cs, w1.
Qed.

(** A call of [sfetch] up to its first await, and what it does with an
    answer that is no 401, or with none. *)
Lemma sfetch_task_starts (req : Req) (path token : string) :
  ToString (cookies req "spotify_access_token") = Ok token ->
  exists k, sfetch_task' req path = Await (bearer_request path token) k
            /\ (forall r, status r <> 401 -> k (Ok r) = Done (finish r))
            /\ (forall e, k (Throw e) = Done (Throw e)).
Proof.
  intro Hprint. unfold sfetch_task, doFetch_task. rewrite Hprint. cbn [and_then await].
  eexists. split; [reflexivity|]. split.
  - intros r Hne. apply Z.eqb_neq in Hne. cbn [and_then]. rewrite Hne. cbn [and_then].
    unfold finish. destruct (ok r); reflexivity.
  - intro e. reflexivity.
Qed.

Lemma others_app (l rqs : list Request) (i : nat) :
  others (length l + i) (l ++ rqs) = l ++ others i rqs.
Proof.
  unfold others. rewrite firstn_app, skipn_app, firstn_all2, skipn_all2 by lia.
  replace (length l + i - length l)%nat with i by lia.
  replace (S (length l + i) - length l)%nat with (S i) by lia.
  cbn [List.app]. now rewrite <- app_assoc.
Qed.

(** What [Promise.all] rejects with is answered by a 500 that carries
    its message. *)
Lemma topcounts_rejected (env : Env) (req : Req) (w : World) e step calls w1 :
  promise_all upstream env 9 (topcounts_calls' req) w = (Some (Throw e), (step, calls), w1) ->
  answers_500 (debug_topcounts' env req w)
              (SendJson (JObj [("error", JStr (message_or e "failed"))])).
Proof.
  intro H. unfold debug_topcounts. rewrite H.
  unfold try_catch, topcounts_block, json_error, res_status_set, res_json, set_res, bind, lift.
  unfold answers_500. cbn [fst snd]. rewrite go_on_answered. repeat split.
Qed.

Lemma others_app_0 (l rqs : list Request) : others (length l) (l ++ rqs) = l ++ others 0 rqs.
Proof. rewrite <- (Nat.add_0_r (length l)) at 1. apply others_app. Qed.

(** The three calls have sent their requests and wait. *)
Lemma topcounts_start (req : Req) (token : string) (w : World) :
  ToString (cookies req "spotify_access_token") = Ok token ->
  exists k1 k2 k3,
    start (topcounts_calls' req) w
    = ([ Waiting (bearer_request (nth 0 topcounts_paths "") token) (length (log w)) k1;
         Waiting (bearer_request (nth 1 topcounts_paths "") token) (length (log w) + 1) k2;
         Waiting (bearer_request (nth 2 topcounts_paths "") token) (length (log w) + 2) k3 ],
       mkWorld (log w ++ map (fun p => bearer_request p token) topcounts_paths) (res w))
    /\ (forall k, In k [k1; k2; k3] ->
          (forall r, status r <> 401 -> k (Ok r) = Done (finish r))
          /\ (forall e, k (Throw e) = Done (Throw e))).
Proof.
  intro Hprint. unfold topcounts_calls, topcounts_paths. cbn [nth map].
  destruct (sfetch_task_starts req "/me/top/tracks?time_range=short_term&limit=50" Hprint)
    as [k1 [E1 K1]].
  destruct (sfetch_task_starts req "/me/top/tracks?time_range=medium_term&limit=50" Hprint)
    as [k2 [E2 K2]].
  destruct (sfetch_task_starts req "/me/top/tracks?time_range=long_term&limit=50" Hprint)
    as [k3 [E3 K3]].
  exists k1, k2, k3. rewrite E1, E2, E3. cbn [start advance log res].
  rewrite !length_app. cbn [length]. rewrite <- !app_assoc. cbn [List.app].
  rewrite <- Nat.add_assoc. cbn [Nat.add]. split; [reflexivity|].
  intros k [<-|[<-|[<-|[]]]]; assumption.
Qed.

(** The first answer to arrive decides when it is a failure, whichever
    call it answers. *)
Lemma topcounts_first_failure (env : Env) (req : Req) (w : World) (token : string)
      (r : Response) :
  ToString (cookies req "spotify_access_token") = Ok token ->
  let rqs := map (fun p => bearer_request p token) topcounts_paths in
  upstream (log w ++ others (first_heard env) rqs)
           (nth (first_heard env) rqs (bearer_request "" token)) = Ok r ->
  status r <> 401 -> ok r = false ->
  answers_500 (debug_topcounts' env req w)
              (SendJson (JObj [("error", JStr (text_or (text r) "failed"))])).
Proof.
  intros Hprint rqs Hup Hne Hok.
  destruct (topcounts_start req w Hprint) as [k1 [k2 [k3 [Hstart Hk]]]].
  assert (H1 : k1 (Ok r) = Done (finish r)) by (apply Hk; [cbn; tauto | exact Hne]).
  assert (H2 : k2 (Ok r) = Done (finish r)) by (apply Hk; [cbn; tauto | exact Hne]).
  assert (H3 : k3 (Ok r) = Done (finish r)) by (apply Hk; [cbn; tauto | exact Hne]).
  assert (Hfin : finish r = Throw (Error (text r))) by (unfold finish; now rewrite Hok).
  change (JStr (text_or (text r) "failed")) with (JStr (message_or (Error (text r)) "failed")).
  subst rqs. unfold topcounts_paths in *. cbn [map nth] in *.
  unfold first_heard in Hup.
  destruct (arrival env 0) as [|[|[|m]]] eqn:Harr; cbn [Nat.ltb Nat.leb nth] in Hup.
  all: eapply topcounts_rejected; unfold promise_all; rewrite Hstart.
  all: erewrite settle_hears;
    [| reflexivity | reflexivity
     | rewrite Harr; cbn [waiting hears existsb Nat.eqb orb]; reflexivity ].
  all: unfold deliver; cbn [nth_error log].
  all: rewrite ?others_app_0, ?others_app, Hup, ?H1, ?H2, ?H3, Hfin.
  all: cbn [advance put fst snd]; apply settle_rejected; reflexivity.
Qed.


End ServerFacts.

(** Against C2 as stated: upstream answers 401 and the token endpoint
    answers 200 with the JSON [null].  [refreshAccessToken] returns no
    token, null or not: it throws on [json.access_token], and [sfetch]
    throws that TypeError, not [Unauthorized and refresh failed], after
    one fetch of the resource. *)
Lemma sfetch_throws_what_the_refresh_throws :
  let req := demo_req (JStr "stale") (JStr "r1") in
  let first := bearer_request "/me" "stale" in
  let out := sfetch "id" "secret" null_token_upstream req "/me" fresh in
  null_token_upstream [] first = Ok (mkResponse 401 "The access token expired")
  /\ fst (refreshAccessToken "id" "secret" null_token_upstream req (mkWorld [first] (res fresh)))
     = Throw (TypeError "Cannot read properties of null (reading 'access_token')")
  /\ fst out = Throw (TypeError "Cannot read properties of null (reading 'access_token')")
  /\ log (snd out) = [first; refresh_request "id" "secret" "r1"]
  /\ count_url (SPOTIFY_API +++ "/me") (log (snd out)) = 1%nat.
Proof. cbv zeta. repeat split. Qed.


(** ** GET /debug/tokens *)

(** C10: the answer of GET /debug/tokens is the two booleans and nothing
    else; two requests whose cookies agree on whether each token is there
    get the same answer, whatever the tokens are; no cookie is set and
    nothing is sent upstream. *)
Theorem debug_tokens_reveals_presence_only (env1 env2 : Env) (req1 req2 : Req) (w : World) :
  truthy (cookies req1 "spotify_access_token") = truthy (cookies req2 "spotify_access_token") ->
  truthy (cookies req1 "spotify_refresh_token") = truthy (cookies req2 "spotify_refresh_token") ->
  debug_tokens env1 req1 w = debug_tokens env2 req2 w
  /\ res_sent (res (snd (debug_tokens env1 req1 w)))
     = Some (SendJson (JObj [("hasAccess", JBool (truthy (cookies req1 "spotify_access_token")));
                             ("hasRefresh", JBool (truthy (cookies req1 "spotify_refresh_token")))]))
  /\ res_cookies (res (snd (debug_tokens env1 req1 w))) = res_cookies (res w)
  /\ res_status (res (snd (debug_tokens env1 req1 w))) = res_status (res w)
  /\ log (snd (debug_tokens env1 req1 w)) = log w.
Proof.
  intros Ha Hr. unfold debug_tokens, res_json, set_res. cbn [snd fst res log res_sent res_cookies res_status].
  rewrite Ha, Hr. repeat split.
Qed.

Lemma debug_tokens_reveals_presence_only_witness :
  let req1 := demo_req (JStr "BQDaccess-one") (JStr "AQBrefresh-one") in
  let req2 := demo_req (JStr "BQDaccess-two") (JStr "AQBrefresh-two") in
  cookies req1 "spotify_access_token" <> cookies req2 "spotify_access_token"
  /\ debug_tokens demo_env req1 fresh = debug_tokens demo_env req2 fresh.
Proof.
  cbv zeta. split; [discriminate|].
  apply (debug_tokens_reveals_presence_only demo_env demo_env
           (demo_req (JStr "BQDaccess-one") (JStr "AQBrefresh-one"))
           (demo_req (JStr "BQDaccess-two") (JStr "AQBrefresh-two")) fresh);
    reflexivity.
Defined.

(** ** The routes *)

(** C3, as the code has it: the server's app registers the eleven listed
    routes, each once, and no other; the repository's two other apps
    register four routes that the list does not have. *)
Theorem server_registers_the_listed_routes
        (SESSION_SECRET SPOTIFY_CLIENT_ID SPOTIFY_CLIENT_SECRET SPOTIFY_REDIRECT_URI URL_CHAT : string)
        (API_KEY : option string) (MODEL : string)
        (upstream : list Request -> Request -> result Response) :
  let routes := surface (app SESSION_SECRET SPOTIFY_CLIENT_ID SPOTIFY_CLIENT_SECRET
                             SPOTIFY_REDIRECT_URI URL_CHAT API_KEY MODEL upstream) in
  routes = [ (GET, "/auth/login"); (GET, "/auth/callback"); (GET, "/debug/tokens");
             (GET, "/spotify/me"); (GET, "/spotify/top-tracks"); (GET, "/spotify/top-artists");
             (GET, "/spotify/recent"); (GET, "/enriched/top-tracks"); (GET, "/debug/topcounts");
             (GET, "/chat/test"); (POST, "/chat") ]
  /\ (forall r, In r routes <-> In r listed_surface)
  /\ NoDup routes
  /\ (forall r, In r registered_elsewhere /\ ~ In r listed_surface
                <-> In r [ (GET, "/"); (GET, "/auth/refresh"); (GET, "/spotify/features");
                           (GET, "/hi") ]).
Proof.
  cbv zeta. split; [reflexivity|]. split; [|split].
  - intro r. change (surface _) with
      [ (GET, "/auth/login"); (GET, "/auth/callback"); (GET, "/debug/tokens");
        (GET, "/spotify/me"); (GET, "/spotify/top-tracks"); (GET, "/spotify/top-artists");
        (GET, "/spotify/recent"); (GET, "/enriched/top-tracks"); (GET, "/debug/topcounts");
        (GET, "/chat/test"); (POST, "/chat") ].
    unfold listed_surface. cbn [In]. tauto.
  - change (surface _) with
      [ (GET, "/auth/login"); (GET, "/auth/callback"); (GET, "/debug/tokens");
        (GET, "/spotify/me"); (GET, "/spotify/top-tracks"); (GET, "/spotify/top-artists");
        (GET, "/spotify/recent"); (GET, "/enriched/top-tracks"); (GET, "/debug/topcounts");
        (GET, "/chat/test"); (POST, "/chat") ].
    repeat (constructor; [cbn [In]; intuition discriminate|]). constructor.
  - intro r. unfold registered_elsewhere, src_index_surface, src_Server_surface, listed_surface.
    cbn [List.app In]. split.
    + intros [Hin Hout].
      repeat (destruct Hin as [<-|Hin]; [try tauto; exfalso; apply Hout; tauto|]).
      contradiction.
    + intro Hin.
      repeat (destruct Hin as [<-|Hin]; [split; [tauto | intuition discriminate]|]).
      contradiction.
Qed.

(** Against C3 as stated: GET /hi is registered, by src/Server.ts, and is
    not one of the eleven. *)
Lemma a_route_outside_the_list_is_registered :
  In (GET, "/hi") registered_elsewhere /\ ~ In (GET, "/hi") listed_surface.
Proof.
  split; [cbn; tauto|]. unfold listed_surface. cbn [In]. intuition discriminate.
Qed.

(** ** verifyState throws; so does GET /auth/callback *)

(** C8 fails at a state whose signature is not as long as a digest:
    [crypto.timingSafeEqual] throws a RangeError, which [verifyState] does
    not catch. *)
Theorem verifyState_throws_on_short_signature :
  verifyState "s3cret" 1700000000000 (Some "abc.def")
  = Throw (RangeError "Input buffers must have the same byte length").
Proof. vm_compute. reflexivity. Qed.

(** The same for every secret, clock and state: a state with a body and
    with a signature that is not 43 bytes long makes [verifyState] throw. *)
Lemma verifyState_throws_on_length_mismatch (secret : string) (now : Z) (body sig rest : string) :
  body <> "" -> sig <> "" ->
  ~ In "."%char (bytes_of_string body) -> ~ In "."%char (bytes_of_string sig) ->
  String.length sig <> 43%nat ->
  verifyState secret now (Some (body +++ "." +++ sig))
  = Throw (RangeError "Input buffers must have the same byte length").
Proof.
  intros Hb Hs Hbd Hsd Hlen. unfold verifyState.
  assert (Htok : (body +++ "." +++ sig =? "")%string = false).
  { apply String.eqb_neq. destruct body; [congruence | discriminate]. }
  rewrite Htok. unfold split. rewrite !bytes_of_string_app.
  cbn [bytes_of_string list_ascii_of_string List.app].
  fold (bytes_of_string sig). rewrite split_on_once by assumption.
  cbn [map nth]. rewrite !string_bytes_inv.
  apply String.eqb_neq in Hb, Hs. rewrite Hb, Hs. cbn [orb].
  unfold timingSafeEqual, hmac_base64url.
  rewrite base64url_length, hmac_length. change ((4 * 32 + 2) / 3)%nat with 43%nat.
  rewrite <- string_length_bytes.
  destruct (Nat.eqb_spec (String.length sig) 43); [contradiction | reflexivity].
Qed.

(** C7 fails at the same state: the handler calls [verifyState] first, the
    RangeError escapes, and no 400 (no answer at all) is sent, with or
    without a [code]. *)
Theorem callback_throws_on_short_signature :
  let q (name : string) := if (name =? "state")%string then Some "abc.def" else None in
  let req := mkReq (fun _ => JUndefined) q JUndefined "http" in
  auth_callback "s3cret" "id" "secret" "http://127.0.0.1:8080/auth/callback" demo_upstream
                demo_env req fresh
  = (Throw (RangeError "Input buffers must have the same byte length"), fresh).
Proof. vm_compute. reflexivity. Qed.

(** ** compactSnapshot *)

Lemma mapM_ok_map {A B} (f : A -> result B) (g : A -> B) (l : list A) :
  Forall (fun x => f x = Ok (g x)) l -> mapM f l = Ok (map g l).
Proof.
  intro H. induction H as [|x l Hx _ IH]; [reflexivity|].
  cbn [mapM map]. now rewrite Hx, IH.
Qed.

Lemma mapM_ok_inv {A B} (f : A -> result B) (l : list A) (ys : list B) :
  mapM f l = Ok ys -> Forall2 (fun x y => f x = Ok y) l ys.
Proof.
  revert ys. induction l as [|x l IH]; intros ys H; cbn [mapM] in H.
  - injection H as <-. constructor.
  - destruct (f x) as [y|e] eqn:Hx; [|discriminate].
    destruct (mapM f l) as [ys'|e]; [|discriminate].
    injection H as <-. constructor; [exact Hx | now apply IH].
Qed.

Lemma pick_defined (keys : list string) (v : JSValue) :
  defined v -> pick keys v = Ok (project keys v).
Proof.
  intro Hv. unfold pick, project.
  rewrite (mapM_ok_map _ (fun k => (k, get_opt v k))); [reflexivity|].
  apply Forall_forall. intros k _. now rewrite (get_nullish v k Hv).
Qed.

Lemma pick_throws (k : string) (keys : list string) (v : JSValue) :
  nullish v = true -> exists e, pick (k :: keys) v = Throw e.
Proof. destruct v; try discriminate; intros _; eexists; reflexivity. Qed.

Lemma pick_ok_inv (k : string) (keys : list string) (v x : JSValue) :
  pick (k :: keys) v = Ok x -> defined v /\ x = project (k :: keys) v.
Proof.
  intro H. destruct (nullish v) eqn:Hn.
  - destruct (pick_throws k keys v Hn) as [e He]. congruence.
  - split; [exact Hn|]. rewrite pick_defined in H by exact Hn. congruence.
Qed.

Lemma mapM_pick_inv (k : string) (keys : list string) (l ys : list JSValue) :
  mapM (pick (k :: keys)) l = Ok ys ->
  Forall defined l /\ ys = map (project (k :: keys)) l.
Proof.
  intro H. apply mapM_ok_inv in H. induction H as [|x y l ys Hxy _ [IH1 IH2]].
  - split; [constructor | reflexivity].
  - apply pick_ok_inv in Hxy. destruct Hxy as [Hd ->]. split.
    + now constructor.
    + cbn [map]. now rewrite IH2.
Qed.

Lemma mapM_pick_defined (keys : list string) (l : list JSValue) :
  Forall defined l -> mapM (pick keys) l = Ok (map (project keys) l).
Proof.
  intro H. apply mapM_ok_map. eapply Forall_impl; [|exact H].
  intros v Hv. now apply pick_defined.
Qed.

Lemma truthy_defined (v : JSValue) : truthy v = true -> defined v.
Proof. destruct v; cbn; congruence || reflexivity. Qed.

Lemma compact_profile_ok (s : JSValue) :
  (if truthy (get_opt s "profile") then pick profile_fields (get_opt s "profile")
   else Ok (get_opt s "profile")) = Ok (compact_profile s).
Proof.
  unfold compact_profile. destruct (truthy (get_opt s "profile")) eqn:Ht; [|reflexivity].
  apply pick_defined, truthy_defined, Ht.
Qed.

(** Whenever [compactSnapshot] returns, it returns [compacted s], and every
    entry it kept was defined. *)
Lemma compactSnapshot_returns (s r : JSValue) :
  compactSnapshot s = Ok r ->
  r = compacted s
  /\ Forall defined (kept s "topTracks" 25)
  /\ Forall defined (kept s "topArtists" 20)
  /\ Forall defined (kept s "recent" 20).
Proof.
  unfold compactSnapshot. rewrite compact_profile_ok. fold (kept s "topTracks" 25).
  fold (kept s "topArtists" 20). fold (kept s "recent" 20).
  destruct (mapM (pick track_fields) _) as [t|e] eqn:Ht; [|discriminate].
  destruct (mapM (pick artist_fields) _) as [a|e] eqn:Ha; [|discriminate].
  destruct (mapM (pick recent_fields) _) as [c|e] eqn:Hc; [|discriminate].
  apply mapM_pick_inv in Ht, Ha, Hc.
  destruct Ht as [Ht ->], Ha as [Ha ->], Hc as [Hc ->].
  intros [= <-]. repeat split; assumption.
Qed.

Lemma kept_length (s : JSValue) (key : string) (n : nat) : (length (kept s key n) <= n)%nat.
Proof.
  unfold kept, topN. destruct (js_or _ _); try (cbn; lia). apply firstn_le_length.
Qed.

(** A field that is not an array counts as the empty list. *)
Lemma kept_of_non_array (s : JSValue) (key : string) (n : nat) :
  (forall items, get_opt s key <> JArr items) -> kept s key n = [].
Proof.
  intro H. unfold kept, js_or.
  destruct (truthy (get_opt s key)); [|apply firstn_nil].
  destruct (get_opt s key); try reflexivity. now destruct (H items).
Qed.

Lemma kept_of_array (s : JSValue) (key : string) (n : nat) (items : list JSValue) :
  get_opt s key = JArr items -> kept s key n = firstn n items.
Proof. intro H. unfold kept, js_or. now rewrite H. Qed.

(** C9, as the code has it: [compactSnapshot] returns, without throwing,
    for every input whose kept entries are neither null nor undefined;
    that covers null, undefined and any value whose three fields are
    missing or are not arrays, each such field counting as the empty list,
    and a missing profile stays undefined. *)
Theorem compactSnapshot_total_on_defined_entries (s : JSValue) :
  Forall defined (kept s "topTracks" 25) ->
  Forall defined (kept s "topArtists" 20) ->
  Forall defined (kept s "recent" 20) ->
  compactSnapshot s = Ok (compacted s)
  /\ (forall key n, (forall items, get_opt s key <> JArr items) -> kept s key n = [])
  /\ (get_opt s "profile" = JUndefined -> compact_profile s = JUndefined).
Proof.
  intros Ht Ha Hr. split; [|split].
  - unfold compactSnapshot. rewrite compact_profile_ok.
    fold (kept s "topTracks" 25). fold (kept s "topArtists" 20). fold (kept s "recent" 20).
    now rewrite !mapM_pick_defined by assumption.
  - intros key n. apply kept_of_non_array.
  - intro H. unfold compact_profile. now rewrite H.
Qed.

Lemma compactSnapshot_total_on_defined_entries_witness :
  let s := JObj [("generatedAt", JStr "2025-01-01");
                 ("topTracks", JStr "not an array");
                 ("recent", JArr [JObj [("id", JStr "t1"); ("extra", JBool true)]; JNum (Int 7)])] in
  compactSnapshot s
  = Ok (JObj [("generatedAt", JStr "2025-01-01"); ("profile", JUndefined);
              ("topTracks", JArr []); ("topArtists", JArr []);
              ("recent", JArr [JObj [("played_at", JUndefined); ("id", JStr "t1");
                                     ("name", JUndefined); ("artists", JUndefined)];
                               JObj [("played_at", JUndefined); ("id", JUndefined);
                                     ("name", JUndefined); ("artists", JUndefined)]])])
  /\ compactSnapshot JNull = Ok (compacted JNull)
  /\ compactSnapshot JUndefined = Ok (compacted JUndefined).
Proof.
  cbv zeta. split; [|split].
  - apply (compactSnapshot_total_on_defined_entries
             (JObj [("generatedAt", JStr "2025-01-01");
                    ("topTracks", JStr "not an array");
                    ("recent", JArr [JObj [("id", JStr "t1"); ("extra", JBool true)]; JNum (Int 7)])]));
      repeat constructor.
  - apply (compactSnapshot_total_on_defined_entries JNull); constructor.
  - apply (compactSnapshot_total_on_defined_entries JUndefined); constructor.
Defined.

(** Against C9 as stated: an entry that is null makes [compactSnapshot]
    throw. *)
Lemma compactSnapshot_throws_on_null_entry :
  compactSnapshot (JObj [("topTracks", JArr [JNull])])
  = Throw (TypeError "Cannot read properties of null (reading 'id')").
Proof. reflexivity. Qed.

Lemma project_keys (keys : list string) (v : JSValue) : keys_of (project keys v) = keys.
Proof.
  unfold project, keys_of. rewrite map_map. cbn [fst]. apply map_id.
Qed.

Section ChatFacts.

Variable URL_CHAT : string.
Variable API_KEY : option string.
Variable MODEL : string.
Variable upstream : list Request -> Request -> result Response.

#[local] Abbreviation chat_post' := (chat_post URL_CHAT API_KEY MODEL upstream).
#[local] Abbreviation chat_block' := (chat_block URL_CHAT API_KEY MODEL upstream).

Lemma kept_entries (s : JSValue) (key : string) (n : nat) :
  kept s key n = firstn n (array_entries (get_opt s key)).
Proof.
  unfold kept, js_or, topN, array_entries.
  destruct (get_opt s key) as [| |[|]|x|x|items|props]; try reflexivity;
    try (cbn [truthy]; now rewrite firstn_nil);
    destruct (truthy _); rewrite ?firstn_nil; reflexivity.
Qed.

Lemma chat_block_sends (req : Req) (w : World) :
  let b := js_or (body req) (JObj []) in
  let question := get_opt b "question" in
  let snapshot := get_opt b "snapshot" in
  truthy question = true -> truthy snapshot = true -> option_truthy API_KEY = true ->
  log (snd (chat_block' req w))
  = log w ++ match compactSnapshot snapshot with
             | Ok slim =>
                 match user_content slim question with
                 | Ok content => [chat_request URL_CHAT API_KEY (chat_payload MODEL content)]
                 | Throw _ => []
                 end
             | Throw _ => []
             end.
Proof.
  cbv zeta. intros Hq Hs Hk. unfold chat_block.
  assert (Hb : nullish (js_or (body req) (JObj [])) = false).
  { unfold js_or. destruct (truthy (body req)) eqn:E; [|reflexivity].
    now apply truthy_defined. }
  unfold bind at 1. unfold lift at 1. rewrite (get_nullish _ "question" Hb).
  unfold bind at 1. unfold lift at 1. rewrite (get_nullish _ "snapshot" Hb).
  rewrite Hq, Hs, Hk. cbn [negb orb].
  unfold bind at 1. unfold lift at 1.
  destruct (compactSnapshot _) as [slim|e]; [|cbn [snd]; now rewrite app_nil_r].
  unfold bind at 1. unfold lift at 1.
  destruct (user_content slim _) as [content|e]; [|cbn [snd]; now rewrite app_nil_r].
  unfold bind at 1. unfold fetch at 1.
  destruct (upstream (log w) _) as [r|e]; [|reflexivity].
  destruct (ok r); cbn [negb]; [|reflexivity].
  unfold bind, lift. destruct (JSON.parse (text r)) as [j|e]; [|reflexivity].
  destruct (answer_of j); reflexivity.
Qed.

(** Before its three checks have passed POST /chat sends nothing. *)
Lemma chat_block_refuses (req : Req) (w : World) :
  let b := js_or (body req) (JObj []) in
  truthy (get_opt b "question") && truthy (get_opt b "snapshot") && option_truthy API_KEY = false ->
  log (snd (chat_block' req w)) = log w.
Proof.
  cbv zeta. intro H. unfold chat_block.
  assert (Hb : nullish (js_or (body req) (JObj [])) = false).
  { unfold js_or. destruct (truthy (body req)) eqn:E; [|reflexivity].
    now apply truthy_defined. }
  unfold bind at 1. unfold lift at 1. rewrite (get_nullish _ "question" Hb).
  unfold bind at 1. unfold lift at 1. rewrite (get_nullish _ "snapshot" Hb).
  destruct (truthy (get_opt _ "question")); [|reflexivity].
  destruct (truthy (get_opt _ "snapshot")); [|reflexivity].
  cbn [andb] in H. rewrite H. reflexivity.
Qed.

Lemma chat_post_log (env : Env) (req : Req) (w : World) :
  log (snd (chat_post' env req w)) = log (snd (chat_block' req w)).
Proof.
  unfold chat_post, try_catch. destruct (chat_block' req w) as [[u|e] w']; reflexivity.
Qed.


End ChatFacts.

Example chat_post_answers :
  let snapshot := JObj [("topTracks", JArr [JObj [("id", JStr "t1"); ("name", JStr "Song");
                                                  ("duration_ms", JNum (Int 200000))]])] in
  let req := mkReq (fun _ => JUndefined) (fun _ => None)
                   (JObj [("question", JStr "What do I like?"); ("snapshot", snapshot)]) "http" in
  let out := chat_post "https://inference.do-ai.run/v1/chat/completions" (Some "key")
                       "meta-llama/llama-3.1-70b-instruct" chat_upstream demo_env req fresh in
  res (snd out) = mkRes 200 None [] (Some (SendJson (JObj [("answer", JStr "Mostly indie.")])))
  /\ map rq_body (log (snd out))
     = [ Some (dq ("{'model':'meta-llama/llama-3.1-70b-instruct','temperature':0.2,'messages':["
                   +++ "{'role':'system','content':'You are a friendly music analyst. Use ONLY the JSON snapshot provided.'},"
                   +++ "{'role':'user','content':'SNAPSHOT:\n```json\n"
                   +++ "{\'topTracks\':[{\'id\':\'t1\',\'name\':\'Song\'}],\'topArtists\':[],\'recent\':[]}"
                   +++ "\n```\nQUESTION: What do I like?'}]}")) ].
Proof. cbv zeta. split; vm_compute; reflexivity. Qed.

(** A question that cannot be printed: the template literal throws inside
    the [try], nothing is sent, and the answer is a 500. *)
Example chat_post_with_an_unprintable_question :
  let req := mkReq (fun _ => JUndefined) (fun _ => None)
                   (JObj [("question", JObj [("toString", JNum (Int 1))]);
                          ("snapshot", JObj [])]) "http" in
  chat_post "https://inference.do-ai.run/v1/chat/completions" (Some "key")
            "meta-llama/llama-3.1-70b-instruct" chat_upstream demo_env req fresh
  = (Ok tt,
     mkWorld [] (mkRes 500 None []
                       (Some (SendJson (JObj [("error",
                                               JStr "Cannot convert object to primitive value")]))))).
Proof. vm_compute. reflexivity. Qed.

(** The decimals that are the print of a double, and some that are not. *)
Example doubles_examples :
  map Double.is_double
      [ Int 0; Int 1700000000000; Int (-42); Dec 1 1; Dec 2 1; Dec (-125) 2;
        Dec 30000000000000004 17; Int (10 ^ 21); Int (10 ^ 23); Int (2 ^ 53);
        Int (2 ^ 53 + 2); Int 1152921504606847000; Int 123456789012345680000;
        Dec 5 324; Dec 1 323; Int (17976931348623157 * 10 ^ 292); NaN; PosInf;
        Int (10 ^ 400); Int (2 ^ 53 + 1); Int (2 ^ 60); Int 123456789012345678901;
        Dec 49 324; Dec 1 324; Int (18 * 10 ^ 307); Dec 10 1; Dec 12345678901234567 1 ]
  = repeat true 18 ++ repeat false 9.
Proof. vm_compute. reflexivity. Qed.

Example doubles_of_a_body :
  doubles (JObj [("question", JStr "q"); ("snapshot", JObj [("generatedAt", JNum (Int (10 ^ 400)))])])
  = false
  /\ doubles (JObj [("question", JStr "q"); ("snapshot", JObj [("generatedAt", JNum PosInf)])])
     = true.
Proof. split; vm_compute; reflexivity. Qed.

(** ** GET /enriched/top-tracks: the identifiers, the batches, the genres *)

Lemma number_eqb_eq (x y : number) : number_eqb x y = true -> x = y.
Proof.
  destruct x, y; cbn; try discriminate; try reflexivity; intro H.
  - apply Z.eqb_eq in H. now subst.
  - apply andb_prop in H. destruct H as [H1 H2].
    apply Z.eqb_eq in H1. apply Pos.eqb_eq in H2. now subst.
Qed.

(** Two values that are the same to a [Set] are equal, and primitive. *)
Lemma same_value_zero_eq (x y : JSValue) : same_value_zero x y = true -> x = y.
Proof.
  destruct x, y; cbn; try discriminate; try reflexivity; intro H.
  - apply Bool.eqb_prop in H. now subst.
  - apply number_eqb_eq in H. now subst.
  - apply String.eqb_eq in H. now subst.
Qed.

Lemma same_value_zero_sym (x y : JSValue) : same_value_zero x y = same_value_zero y x.
Proof.
  destruct (same_value_zero x y) eqn:E.
  - pose proof (same_value_zero_eq _ _ E) as ->. now rewrite E.
  - destruct (same_value_zero y x) eqn:E'; [|reflexivity].
    pose proof (same_value_zero_eq _ _ E') as ->. congruence.
Qed.

Lemma set_from_spec (l seen : list JSValue) :
  (forall x, In x (set_from seen l) -> In x l /\ existsb (same_value_zero x) seen = false)
  /\ (forall x, In x l -> existsb (same_value_zero x) seen = true \/ In x (set_from seen l))
  /\ distinct_values (set_from seen l).
Proof.
  revert seen. induction l as [|y l IH]; intro seen.
  - split; [|split]; [intros x [] | intros x [] | constructor].
  - cbn [set_from]. destruct (existsb (same_value_zero y) seen) eqn:Hy.
    + destruct (IH seen) as (I1 & I2 & I3). split; [|split].
      * intros x Hx. destruct (I1 x Hx). split; [now right | assumption].
      * intros x [<-|Hx]; [now left | now apply I2].
      * exact I3.
    + destruct (IH (seen ++ [y])) as (I1 & I2 & I3). split; [|split].
      * intros x [<-|Hx]; [split; [now left | exact Hy]|].
        destruct (I1 x Hx) as [Hin H]. split; [now right|].
        rewrite existsb_app in H. now apply orb_false_elim in H.
      * intros x [<-|Hx]; [right; now left|].
        destruct (I2 x Hx) as [H|H]; [|right; now right].
        rewrite existsb_app in H. apply orb_prop in H. destruct H as [H|H]; [now left|].
        cbn in H. rewrite orb_false_r in H.
        apply same_value_zero_eq in H. subst. right. now left.
      * constructor; [|exact I3].
        apply Forall_forall. intros x Hx. destruct (I1 x Hx) as [_ H].
        rewrite existsb_app in H. apply orb_false_elim in H. destruct H as [_ H].
        cbn in H. now rewrite orb_false_r in H.
Qed.

(** [Array.from(new Set(l))] has the values of [l], each once. *)
Lemma array_from_set_spec (l : list JSValue) :
  (forall x, In x (array_from_set l) <-> In x l) /\ distinct_values (array_from_set l).
Proof.
  unfold array_from_set. destruct (set_from_spec l []) as (I1 & I2 & I3).
  split; [|exact I3]. intro x. split.
  - intro H. now apply I1.
  - intro H. destruct (I2 x H) as [H'|H']; [discriminate | exact H'].
Qed.

Lemma slice_50 (l : list JSValue) (i : nat) : slice l i (i + 50) = firstn 50 (skipn i l).
Proof. unfold slice. f_equal. lia. Qed.

Lemma batches_concat_from (l : list JSValue) (fuel i : nat) :
  (length l <= i + 50 * fuel)%nat ->
  concat (map (fun j => slice l j (j + 50)) (loop_starts fuel (length l) i)) = skipn i l.
Proof.
  revert i. induction fuel as [|fuel IH]; intros i H.
  - cbn. symmetry. apply skipn_all2. lia.
  - cbn [loop_starts]. destruct (Nat.ltb_spec i (length l)) as [Hlt|Hge].
    + cbn [map concat]. rewrite IH by lia. rewrite slice_50.
      replace (i + 50)%nat with (50 + i)%nat by lia.
      rewrite <- skipn_skipn. apply firstn_skipn.
    + cbn. symmetry. apply skipn_all2. lia.
Qed.

Lemma batches_sizes (l : list JSValue) (fuel i : nat) :
  Forall (fun b : list JSValue => (1 <= length b <= 50)%nat)
         (map (fun j => slice l j (j + 50)) (loop_starts fuel (length l) i)).
Proof.
  revert i. induction fuel as [|fuel IH]; intro i; [constructor|].
  cbn [loop_starts]. destruct (Nat.ltb_spec i (length l)) as [Hlt|Hge]; [|constructor].
  cbn [map]. constructor; [|apply IH].
  rewrite slice_50, length_firstn, length_skipn. lia.
Qed.

Lemma distinct_app (a b : list JSValue) :
  distinct_values (a ++ b) ->
  distinct_values a /\ distinct_values b
  /\ forall x y, In x a -> In y b -> same_value_zero y x = false.
Proof.
  induction a as [|z a IH]; intro H.
  - split; [constructor | split; [exact H | intros x y []]].
  - cbn [List.app] in H. inversion H as [|? ? Hz Hrest]; subst.
    destruct (IH Hrest) as (Ia & Ib & Iab).
    apply Forall_app in Hz. destruct Hz as [Hza Hzb].
    split; [|split].
    + now constructor.
    + exact Ib.
    + intros x y [<-|Hx] Hy.
      * exact (proj1 (Forall_forall _ _) Hzb y Hy).
      * now apply Iab.
Qed.

(** Two different batches share no identifier. *)
Lemma distinct_concat (bs : list (list JSValue)) :
  distinct_values (concat bs) ->
  forall k1 k2 b1 b2 x y,
    nth_error bs k1 = Some b1 -> nth_error bs k2 = Some b2 ->
    In x b1 -> In y b2 -> same_value_zero x y = true -> k1 = k2.
Proof.
  induction bs as [|b bs IH]; intros H k1 k2 b1 b2 x y H1 H2 Hx Hy Hxy.
  - destruct k1; discriminate.
  - cbn [concat] in H. destruct (distinct_app _ _ H) as (_ & Hbs & Hcross).
    assert (Hin : forall k c z, nth_error bs k = Some c -> In z c -> In z (concat bs)).
    { intros k c z Hk Hz. apply in_concat. exists c. split; [|exact Hz].
      eapply nth_error_In; eauto. }
    destruct k1 as [|k1], k2 as [|k2]; cbn [nth_error] in H1, H2.
    + reflexivity.
    + injection H1 as <-. pose proof (Hcross x y Hx (Hin _ _ _ H2 Hy)) as Hf.
      rewrite same_value_zero_sym in Hf. congruence.
    + injection H2 as <-. pose proof (Hcross y x Hy (Hin _ _ _ H1 Hx)) as Hf. congruence.
    + f_equal. eapply IH; eauto.
Qed.

(** The batches are the identifiers, cut every fifty. *)
Lemma batches_of_spec (ids : list JSValue) :
  concat (batches_of ids) = ids
  /\ Forall (fun b : list JSValue => (1 <= length b <= 50)%nat) (batches_of ids).
Proof.
  unfold batches_of. split.
  - rewrite batches_concat_from by lia. reflexivity.
  - apply batches_sizes.
Qed.

(** [new Map(entries).get(key)] is the value of the last entry under the
    key, or undefined when there is none. *)
Lemma map_get_spec (entries : list (JSValue * JSValue)) (key : JSValue) :
  (existsb (fun kv => same_value_zero (fst kv) key) entries = false /\ map_get entries key = JUndefined)
  \/ (exists before k v after,
        entries = before ++ (k, v) :: after
        /\ same_value_zero k key = true
        /\ existsb (fun kv => same_value_zero (fst kv) key) after = false
        /\ map_get entries key = v).
Proof.
  induction entries as [|[k v] rest IH]; [left; split; reflexivity|].
  cbn [map_get existsb fst].
  destruct (existsb (fun kv => same_value_zero (fst kv) key) rest) eqn:Hrest.
  - destruct IH as [[Hf _]|(before & k' & v' & after & -> & Hk & Hafter & Hv)]; [discriminate|].
    right. exists ((k, v) :: before), k', v', after. split; [reflexivity|]. now repeat split.
  - destruct (same_value_zero k key) eqn:Hk.
    + right. exists [], k, v, rest. split; [reflexivity|]. now repeat split.
    + left. split; reflexivity.
Qed.

Lemma get_ok_defined (v : JSValue) (key : string) (x : JSValue) :
  get v key = Ok x -> nullish v = false /\ x = get_opt v key.
Proof.
  intro H. destruct (nullish v) eqn:Hn.
  - destruct v; discriminate.
  - split; [reflexivity|]. symmetry. now apply get_opt_get.
Qed.

Lemma js_map_returns (v : JSValue) (f : JSValue -> result JSValue) (out : list JSValue) :
  js_map v f = Ok out ->
  exists items, v = JArr items /\ Forall2 (fun x y => f x = Ok y) items out.
Proof.
  destruct v; try discriminate. cbn [js_map]. intro H.
  exists items. split; [reflexivity | now apply mapM_ok_inv].
Qed.

Lemma Forall2_map_eq {A B} (g : A -> B) (l : list A) (out : list B) :
  Forall2 (fun x y => y = g x) l out -> out = map g l.
Proof. intro H. induction H as [|x y l out -> _ ->]; reflexivity. Qed.

(** [v ?? []] is an array exactly when [v] is one, or is null or
    undefined and then counts as the empty one. *)
Lemma coalesce_entries (v : JSValue) (l : list JSValue) :
  js_coalesce v (JArr []) = JArr l -> array_entries v = l.
Proof. unfold js_coalesce. destruct v; cbn; congruence. Qed.

(** [v || []] likewise, for every [v] that is not truthy. *)
Lemma or_entries (v : JSValue) (l : list JSValue) :
  js_or v (JArr []) = JArr l -> array_entries v = l.
Proof.
  unfold js_or. destruct v as [| |[|]|x|x|items|props]; cbn [array_entries];
    try (cbn [truthy]; congruence);
    match goal with |- context [truthy ?v] => destruct (truthy v) end; congruence.
Qed.

(** The identifiers gathered are those of the tracks' artists. *)
Lemma gather_artist_ids_spec (items : JSValue) (gathered : list JSValue) :
  gather_artist_ids items = Ok gathered ->
  exists tracks, items = JArr tracks /\ gathered = track_artist_ids tracks.
Proof.
  unfold gather_artist_ids, js_flatMap. destruct items as [| | | | |tracks|]; try discriminate.
  destruct (mapM _ tracks) as [ls|e] eqn:E; [|discriminate].
  intros [= <-]. exists tracks. split; [reflexivity|].
  apply mapM_ok_inv in E. unfold track_artist_ids.
  induction E as [|t l tracks ls Ht _ IH]; [reflexivity|].
  cbn [concat flat_map]. rewrite IH. f_equal.
  destruct (get t "artists") as [artists|e] eqn:Ha; [|discriminate].
  apply get_ok_defined in Ha. destruct Ha as [_ ->].
  apply js_map_returns in Ht. destruct Ht as [given [Hgiven Hids]].
  unfold listed_artists. rewrite (coalesce_entries _ Hgiven).
  apply Forall2_map_eq. eapply Forall2_impl; [|exact Hids].
  intros a id H. now apply get_ok_defined in H.
Qed.

(** What the map of genres is made from. *)
Lemma genre_entries_spec (batched : list JSValue) (entries : list (JSValue * JSValue)) :
  genre_entries batched = Ok entries ->
  entries = map (fun a => (get_opt a "id", js_or (get_opt a "genres") (JArr []))) batched.
Proof.
  unfold genre_entries. intro H. apply mapM_ok_inv in H.
  apply Forall2_map_eq. eapply Forall2_impl; [|exact H].
  intros a kv Ha. cbv beta in Ha.
  destruct (get a "id") as [id|e] eqn:Hid; [|discriminate].
  destruct (get a "genres") as [genres|e] eqn:Hg; [|discriminate].
  apply get_ok_defined in Hid, Hg. destruct Hid as [_ ->], Hg as [_ ->]. congruence.
Qed.

Lemma known_to_the_map (found : list JSValue) (id : JSValue) :
  existsb (fun kv => same_value_zero (fst kv) id)
          (map (fun a => (get_opt a "id", js_or (get_opt a "genres") (JArr []))) found)
  = match last_with_id id found with
    | Some _ => true
    | None => false
    end.
Proof.
  induction found as [|a rest IH]; [reflexivity|].
  cbn [map existsb fst last_with_id]. rewrite IH.
  destruct (last_with_id id rest); [now rewrite orb_true_r|].
  rewrite orb_false_r. now destruct (same_value_zero _ id).
Qed.

(** [genresByArtist.get(id) || []] is the genres found for [id]. *)
Lemma map_get_genres (found : list JSValue) (id : JSValue) :
  js_or (map_get (map (fun a => (get_opt a "id", js_or (get_opt a "genres") (JArr []))) found) id)
        (JArr [])
  = genres_for found id.
Proof.
  unfold genres_for. induction found as [|a rest IH]; [reflexivity|].
  cbn [map map_get last_with_id]. rewrite known_to_the_map.
  destruct (last_with_id id rest) as [b|]; [exact IH|].
  destruct (same_value_zero (get_opt a "id") id); [|reflexivity].
  unfold js_or. destruct (truthy (get_opt a "genres")) eqn:E; [now rewrite E | reflexivity].
Qed.

(** The genres found for an identifier are those of the last artist
    upstream gave under it, and [] when it gave none. *)
Lemma genres_for_spec (found : list JSValue) (id : JSValue) :
  (Forall (fun a => same_value_zero (get_opt a "id") id = false) found
   /\ genres_for found id = JArr [])
  \/ (exists before a after,
        found = before ++ a :: after
        /\ same_value_zero (get_opt a "id") id = true
        /\ Forall (fun b => same_value_zero (get_opt b "id") id = false) after
        /\ genres_for found id = js_or (get_opt a "genres") (JArr [])).
Proof.
  unfold genres_for. induction found as [|a rest IH]; [left; split; [constructor | reflexivity]|].
  cbn [last_with_id].
  destruct IH as [[Hnone Hg]|(before & b & after & -> & Hb & Hafter & Hg)].
  - destruct (last_with_id id rest) as [c|] eqn:E.
    + exfalso. clear Hg. induction rest as [|x rest IHr]; [discriminate|].
      inversion Hnone as [|? ? Hx Hrest]; subst. cbn [last_with_id] in E.
      destruct (last_with_id id rest); [now apply IHr|]. now rewrite Hx in E.
    + destruct (same_value_zero (get_opt a "id") id) eqn:Ha.
      * right. exists [], a, rest. now repeat split.
      * left. split; [now constructor | reflexivity].
  - right. exists (a :: before), b, after.
    destruct (last_with_id id (before ++ b :: after)) as [c|] eqn:E.
    + now repeat split.
    + exfalso. clear Hg. induction before as [|x before IHb]; cbn [List.app last_with_id] in E.
      * destruct (last_with_id id after); [discriminate|]. now rewrite Hb in E.
      * destruct (last_with_id id (before ++ b :: after)); [discriminate | now apply IHb].
Qed.

Lemma enriched_track_returns (genres : list (JSValue * JSValue)) (t o : JSValue) :
  enriched_track genres t = Ok o ->
  exists arts,
    js_map (js_or (get_opt t "artists") (JArr [])) (enriched_artist genres) = Ok arts
    /\ o = JObj [("id", get_opt t "id"); ("name", get_opt t "name"); ("uri", get_opt t "uri");
                 ("popularity", get_opt t "popularity");
                 ("duration_ms", get_opt t "duration_ms");
                 ("explicit", get_opt t "explicit");
                 ("album", project ["id"; "name"; "release_date"] (get_opt t "album"));
                 ("artists", JArr arts)].
Proof.
  intro H. destruct (nullish t) eqn:Hn.
  - destruct t; discriminate.
  - unfold enriched_track in H. rewrite !(get_nullish t _ Hn) in H.
    destruct (js_map _ _) as [arts|e]; [|discriminate].
    exists arts. split; [reflexivity|]. now injection H as <-.
Qed.

(** What the tracks become, given the artists upstream returned. *)
Lemma enriched_tracks_spec (batched : list JSValue) (entries : list (JSValue * JSValue))
      (tracks out : list JSValue) :
  genre_entries batched = Ok entries ->
  js_map (JArr tracks) (enriched_track entries) = Ok out ->
  out = map (enriched_item batched) tracks.
Proof.
  intros He H. apply genre_entries_spec in He. subst entries.
  apply js_map_returns in H. destruct H as [tracks' [[= <-] H]].
  apply Forall2_map_eq. eapply Forall2_impl; [|exact H].
  intros t o Hto. apply enriched_track_returns in Hto. destruct Hto as [arts [Harts ->]].
  apply js_map_returns in Harts. destruct Harts as [given [Hgiven Harts]].
  unfold enriched_item, project, listed_artists. rewrite (or_entries _ Hgiven). cbn [map].
  enough (E : arts = map (fun a => JObj [("id", get_opt a "id"); ("name", get_opt a "name");
                                         ("genres", genres_for batched (get_opt a "id"))]) given)
    by now rewrite E.
  apply Forall2_map_eq. eapply Forall2_impl; [|exact Harts].
  intros a b Hab. cbv beta. unfold enriched_artist in Hab.
  destruct (get a "id") as [id|e] eqn:Hid; [|discriminate].
  destruct (get a "name") as [name|e] eqn:Hname; [|discriminate].
  apply get_ok_defined in Hid, Hname. destruct Hid as [_ ->], Hname as [_ ->].
  rewrite map_get_genres in Hab. congruence.
Qed.

Section EnrichedFacts.

Variable SPOTIFY_CLIENT_ID : string.
Variable SPOTIFY_CLIENT_SECRET : string.
Variable upstream : list Request -> Request -> result Response.

#[local] Abbreviation sfetch' := (sfetch SPOTIFY_CLIENT_ID SPOTIFY_CLIENT_SECRET upstream).
#[local] Abbreviation batch_loop' := (batch_loop SPOTIFY_CLIENT_ID SPOTIFY_CLIENT_SECRET upstream).
#[local] Abbreviation batch_answers' := (batch_answers SPOTIFY_CLIENT_ID SPOTIFY_CLIENT_SECRET upstream).
#[local] Abbreviation enriched_block' := (enriched_block SPOTIFY_CLIENT_ID SPOTIFY_CLIENT_SECRET upstream).

(** A call of [sfetch] sends to the resource and to the token endpoint
    only, and when it returns it has fetched the resource. *)
Lemma sfetch_urls (req : Req) (path : string) (w : World) :
  exists l,
    log (snd (sfetch' req path w)) = log w ++ l
    /\ Forall (fun rq => rq_url rq = SPOTIFY_TOKEN \/ rq_url rq = SPOTIFY_API +++ path) l
    /\ (forall v, fst (sfetch' req path w) = Ok v ->
        exists rq, In rq l /\ rq_url rq = SPOTIFY_API +++ path).
Proof.
  destruct (sfetch_fetches_at_most_twice SPOTIFY_CLIENT_ID SPOTIFY_CLIENT_SECRET upstream req path w)
    as (Hlog & _ & Hnone & Hsome).
  exists (sent (sfetch' req path) w). split; [exact Hlog|].
  destruct (ToString (cookies req "spotify_access_token")) as [token|e] eqn:Hprint.
  2:{ destruct (Hnone e eq_refl) as [Hout _]. unfold sent. rewrite Hout. cbn [snd fst].
      rewrite skipn_all. split; [constructor | intros v H; discriminate H]. }
  specialize (Hsome token eq_refl). cbv zeta in Hsome.
  destruct Hsome as (_ & [rest Hsent] & _). split.
  2:{ intros v _. exists (bearer_request path token). rewrite Hsent. split; [now left | reflexivity]. }
  clear Hsent rest Hnone. unfold sent.
  rewrite (sfetch_with_token SPOTIFY_CLIENT_ID SPOTIFY_CLIENT_SECRET upstream req path w Hprint).
  cbv zeta. set (first := bearer_request path token).
  set (w1 := mkWorld (log w ++ [first]) (res w)).
  assert (Hskip : forall x, skipn (length (log w)) (log w1 ++ x) = [first] ++ x).
  { intro x. unfold w1. cbn [log]. rewrite <- app_assoc. apply skipn_app_exact. }
  assert (Hbase : forall x,
             Forall (fun rq => rq_url rq = SPOTIFY_TOKEN \/ rq_url rq = SPOTIFY_API +++ path) x ->
             Forall (fun rq => rq_url rq = SPOTIFY_TOKEN \/ rq_url rq = SPOTIFY_API +++ path)
                    (skipn (length (log w)) (log w1 ++ x))).
  { intros x F. rewrite Hskip. constructor; [now right | exact F]. }
  assert (Hw1 : log w1 = log w1 ++ []) by now rewrite app_nil_r.
  destruct (upstream (log w) first) as [r1|e]; cbn [snd].
  2:{ rewrite Hw1. apply Hbase. constructor. }
  destruct (status r1 =? 401); cbn [snd].
  2:{ rewrite Hw1. apply Hbase. constructor. }
  destruct (refresh_sends SPOTIFY_CLIENT_ID SPOTIFY_CLIENT_SECRET upstream req w1)
    as [l [Hl [_ Htok]]].
  assert (Htok' : Forall (fun rq => rq_url rq = SPOTIFY_TOKEN \/ rq_url rq = SPOTIFY_API +++ path) l).
  { eapply Forall_impl; [|exact Htok]. intros rq H. now left. }
  destruct (refreshAccessToken _ _ _ req w1) as [[tok|e] w2]; cbn [snd] in *.
  2:{ rewrite Hl. now apply Hbase. }
  destruct (truthy tok); cbn [snd]; [|rewrite Hl; now apply Hbase].
  destruct (ToString tok) as [fresh_token|e]; cbn [snd]; [|rewrite Hl; now apply Hbase].
  set (second := bearer_request path fresh_token).
  assert (Hlog2 : log (snd (match upstream (log w2) second with
                            | Ok r2 => (finish r2, mkWorld (log w2 ++ [second]) (res w2))
                            | Throw e => (Throw e, mkWorld (log w2 ++ [second]) (res w2))
                            end)) = log w1 ++ (l ++ [second])).
  { rewrite app_assoc, <- Hl. destruct (upstream (log w2) second); reflexivity. }
  rewrite Hlog2. apply Hbase. apply Forall_app. split; [exact Htok'|].
  constructor; [now right | constructor].
Qed.

(** The loop sends to the token endpoint and to the batches' URLs only,
    and when it returns it has fetched every batch. *)
Lemma batch_loop_sends (req : Req) (ids : list JSValue) (fuel i : nat)
      (batched : list JSValue) (w : World) :
  exists l,
    log (snd (batch_loop' fuel req ids i batched w)) = log w ++ l
    /\ Forall (fun rq => rq_url rq = SPOTIFY_TOKEN
                         \/ exists j joined,
                              In j (loop_starts fuel (length ids) i)
                              /\ array_join "," (slice ids j (j + 50)) = Ok joined
                              /\ rq_url rq = batch_url joined) l
    /\ (forall out, fst (batch_loop' fuel req ids i batched w) = Ok out ->
        forall j, In j (loop_starts fuel (length ids) i) ->
                  exists rq joined,
                    In rq l /\ array_join "," (slice ids j (j + 50)) = Ok joined
                    /\ rq_url rq = batch_url joined).
Proof.
  revert i batched w. induction fuel as [|fuel IH]; intros i batched w.
  - exists []. cbn. rewrite app_nil_r. split; [reflexivity|]. split; [constructor|].
    intros _ _ j [].
  - cbn [batch_loop loop_starts]. destruct (i <? length ids)%nat.
    2:{ exists []. cbn. rewrite app_nil_r. split; [reflexivity|]. split; [constructor|].
        intros _ _ j []. }
    unfold bind at 1. unfold lift at 1. unfold artists_path.
    destruct (array_join "," (slice ids i (i + 50))) as [joined|e] eqn:Hjoin.
    2:{ exists []. cbn [snd fst]. rewrite app_nil_r. split; [reflexivity|].
        split; [constructor | intros ? H; discriminate H]. }
    destruct (sfetch_urls req ("/artists?ids=" +++ joined) w) as (l1 & Hl1 & Hf1 & Hret1).
    assert (Hf1' : Forall (fun rq => rq_url rq = SPOTIFY_TOKEN
                             \/ exists j joined,
                                  In j (i :: loop_starts fuel (length ids) (i + 50))
                                  /\ array_join "," (slice ids j (j + 50)) = Ok joined
                                  /\ rq_url rq = batch_url joined) l1).
    { eapply Forall_impl; [|exact Hf1]. intros rq [H|H]; [now left | right].
      exists i, joined. split; [now left | split; [exact Hjoin | exact H]]. }
    unfold bind, lift.
    destruct (sfetch' req _ w) as [[resp|e] w1]; cbn [snd fst] in Hl1, Hret1.
    2:{ exists l1. cbn [snd fst]. split; [exact Hl1|]. split; [exact Hf1'|]. intros ? H; discriminate H. }
    destruct (Hret1 resp eq_refl) as [rq1 [Hin1 Hu1]].
    destruct (get resp "artists") as [artists|e].
    2:{ exists l1. cbn [snd fst]. split; [exact Hl1|]. split; [exact Hf1'|]. intros ? H; discriminate H. }
    destruct (spread _) as [more|e].
    2:{ exists l1. cbn [snd fst]. split; [exact Hl1|]. split; [exact Hf1'|]. intros ? H; discriminate H. }
    destruct (IH (i + 50)%nat (batched ++ more) w1) as (l2 & Hl2 & Hf2 & Hall2).
    exists (l1 ++ l2). split; [|split].
    + rewrite Hl2, Hl1. now rewrite app_assoc.
    + apply Forall_app. split; [exact Hf1'|].
      eapply Forall_impl; [|exact Hf2]. intros rq [H|[j [jn [Hj H]]]]; [now left | right].
      exists j, jn. split; [now right | exact H].
    + intros out Hout j [<-|Hj].
      * exists rq1, joined. split; [apply in_or_app; now left | split; [exact Hjoin | exact Hu1]].
      * destruct (Hall2 out Hout j Hj) as [rq [jn [Hin Hu]]].
        exists rq, jn. split; [apply in_or_app; now right | exact Hu].
Qed.

(** When the loop returns, [sfetch] has answered every batch in turn, and
    the loop has collected the artists of the answers, in order. *)
Lemma batch_loop_answers (req : Req) (ids : list JSValue) (fuel i : nat)
      (batched out : list JSValue) (w w2 : World) :
  batch_loop' fuel req ids i batched w = (Ok out, w2) ->
  exists answers,
    batch_answers' req (map (fun j => slice ids j (j + 50)) (loop_starts fuel (length ids) i)) w
    = Some (answers, w2)
    /\ out = batched ++ flat_map artists_in answers.
Proof.
  revert i batched w. induction fuel as [|fuel IH]; intros i batched w.
  - cbn. intros [= <- <-]. exists []. now rewrite app_nil_r.
  - cbn [batch_loop loop_starts]. destruct (i <? length ids)%nat.
    2:{ cbn. intros [= <- <-]. exists []. now rewrite app_nil_r. }
    cbn [map batch_answers]. unfold bind at 1. unfold lift at 1. unfold artists_path.
    destruct (array_join "," _) as [joined|e]; [|discriminate].
    unfold bind at 1. destruct (sfetch' req _ w) as [[resp|e] w1]; [|discriminate].
    unfold bind at 1. unfold lift at 1.
    destruct (get resp "artists") as [artists|e] eqn:Ha; [|discriminate].
    unfold bind at 1. unfold lift at 1.
    destruct (spread _) as [more|e] eqn:Hs; [|discriminate].
    intro H. destruct (IH _ _ _ H) as [answers [Hans ->]].
    exists (resp :: answers). rewrite Hans. split; [reflexivity|].
    assert (Hin : artists_in resp = more)
      by (unfold artists_in; apply get_opt_get in Ha; now rewrite Ha, Hs).
    cbn [flat_map]. now rewrite Hin, app_assoc.
Qed.

Lemma in_batches_of (ids : list JSValue) (b : list JSValue) :
  In b (batches_of ids)
  <-> exists j, In j (loop_starts (length ids) (length ids) 0) /\ b = slice ids j (j + 50).
Proof.
  unfold batches_of. rewrite in_map_iff. split; intros [j [H1 H2]]; exists j; auto.
Qed.

(** What a run of the [try] block that returns went through. *)
Lemma enriched_block_returns (req : Req) (w w' : World) :
  enriched_block' req w = (Ok tt, w') ->
  exists top w1 items gathered batched w2 genres out,
    sfetch' req (top_tracks_path req) w = (Ok top, w1)
    /\ get top "items" = Ok items
    /\ gather_artist_ids items = Ok gathered
    /\ batch_loop' (length (array_from_set gathered)) req (array_from_set gathered) 0 [] w1
       = (Ok batched, w2)
    /\ genre_entries batched = Ok genres
    /\ js_map items (enriched_track genres) = Ok out
    /\ res_sent (res w') = Some (SendJson (JObj [("items", JArr out)]))
    /\ log w' = log w2.
Proof.
  unfold enriched_block. unfold bind at 1.
  destruct (sfetch' req _ w) as [[top|e] w1] eqn:E1; [|discriminate].
  unfold bind at 1. unfold lift at 1.
  destruct (get top "items") as [items|e] eqn:E2; [|discriminate].
  unfold bind at 1. unfold lift at 1.
  destruct (gather_artist_ids items) as [gathered|e] eqn:E3; [|discriminate].
  unfold bind at 1.
  destruct (batch_loop' _ req _ 0%nat [] w1) as [[batched|e] w2] eqn:E4; [|discriminate].
  unfold bind at 1. unfold lift at 1.
  destruct (genre_entries batched) as [genres|e] eqn:E5; [|discriminate].
  unfold bind at 1. unfold lift at 1.
  destruct (js_map items _) as [out|e] eqn:E6; [|discriminate].
  unfold res_json, set_res. intros [= <-].
  exists top, w1, items, gathered, batched, w2, genres, out. repeat split; assumption.
Qed.


End EnrichedFacts.

Example enriched_top_tracks_run :
  let out := enriched_top_tracks "id" "secret" enriched_upstream demo_env
                                 (demo_req (JStr "tok") JUndefined) fresh in
  map rq_url (log (snd out))
  = [ SPOTIFY_API +++ "/me/top/tracks?time_range=medium_term&limit=50";
      SPOTIFY_API +++ "/artists?ids=a1,a2" ]
  /\ option_map (fun b => match b with SendJson v => JSON.stringify v | _ => None end)
                (res_sent (res (snd out)))
     = Some (Some (dq ("{'items':[{'id':'t1','name':'One','album':{},'artists':["
                       +++ "{'id':'a1','name':'Ann','genres':['folk']},{'id':'a2','name':'Bob','genres':[]}]},"
                       +++ "{'id':'t2','name':'Two','album':{'id':'al','name':'LP'},'artists':["
                       +++ "{'id':'a1','name':'Ann','genres':['folk']}]}]}"))).
Proof. cbv zeta. split; vm_compute; reflexivity. Qed.

(** One hundred and twenty identifiers go out in batches of 50, 50 and 20. *)
Example batches_of_120 :
  map (@length JSValue) (batches_of (map (fun i => JNum (Int (Z.of_nat i))) (seq 0 120)))
  = [50%nat; 50%nat; 20%nat].
Proof. vm_compute. reflexivity. Qed.

(** ** GET /auth/callback, when [verifyState] returns *)

Lemma set_token_cookies_keeps (req : Req) (tokens : JSValue) (w : World) :
  res_status (res (snd (set_token_cookies req tokens w))) = res_status (res w)
  /\ res_sent (res (snd (set_token_cookies req tokens w))) = res_sent (res w).
Proof.
  unfold set_token_cookies, bind, lift, when, res_cookie, set_res, ret.
  destruct (get tokens "access_token") as [a|e]; [|split; reflexivity].
  destruct (truthy a); cbn [fst snd];
    destruct (get tokens "refresh_token") as [r|e']; try (split; reflexivity);
    destruct (truthy r); split; reflexivity.
Qed.

Section CallbackFacts.

Variable SESSION_SECRET : string.
Variable SPOTIFY_CLIENT_ID : string.
Variable SPOTIFY_CLIENT_SECRET : string.
Variable SPOTIFY_REDIRECT_URI : string.
Variable upstream : list Request -> Request -> result Response.

#[local] Abbreviation auth_callback' :=
  (auth_callback SESSION_SECRET SPOTIFY_CLIENT_ID SPOTIFY_CLIENT_SECRET SPOTIFY_REDIRECT_URI upstream).

(** Where [verifyState] returns, the handler answers 400 exactly when the
    code is missing or the state was turned down, and then it has sent
    nothing upstream and set no cookie.  (Where [verifyState] throws, the
    handler throws with it.) *)
Lemma callback_400_when_verifyState_returns (env : Env) (req : Req) (w : World) (v : JSValue) :
  verifyState SESSION_SECRET (clock env) (query req "state") = Ok v ->
  res_sent (res w) = None ->
  (responds_400 (auth_callback' env req w)
   <-> option_truthy (query req "code") = false \/ truthy v = false)
  /\ (responds_400 (auth_callback' env req w) ->
      log (snd (auth_callback' env req w)) = log w
      /\ res_cookies (res (snd (auth_callback' env req w))) = res_cookies (res w)).
Proof.
  intros Hv Hw.
  set (rest :=
         (r <- fetch upstream
                 (token_request
                    [("grant_type", "authorization_code");
                     ("code", or_default (query req "code") "");
                     ("redirect_uri", SPOTIFY_REDIRECT_URI);
                     ("client_id", SPOTIFY_CLIENT_ID);
                     ("client_secret", SPOTIFY_CLIENT_SECRET)]) ;;
          (if negb (ok r)
           then res_status_set 500 ;; res_send ("Token exchange failed: " +++ text r)
           else
             tokens <- lift (json r) ;;
             _ <- lift (get tokens "scope") ;;
             set_token_cookies req tokens ;;
             rt_ <- lift (get v "rt") ;;
             res_redirect (js_or rt_ (JStr "/connected"))))).
  assert (Hout : auth_callback' env req w
                 = if negb (option_truthy (query req "code")) || negb (truthy v)
                   then (res_status_set 400 ;; res_send "State mismatch or missing code.") w
                   else rest w).
  { unfold auth_callback. unfold bind at 1. unfold lift at 1. rewrite Hv.
    destruct (negb (option_truthy (query req "code")) || negb (truthy v)); reflexivity. }
  rewrite Hout. clear Hout.
  assert (Hno : ~ responds_400 (rest w)).
  { unfold responds_400, rest, bind, fetch, lift.
    destruct (upstream (log w) _) as [r|e]; [|cbn; rewrite Hw; intros [_ H]; discriminate].
    destruct (ok r); cbn [negb]; [|cbn; intros [H _]; discriminate].
    destruct (json r) as [tokens|e]; [|cbn; rewrite Hw; intros [_ H]; discriminate].
    destruct (get tokens "scope") as [sc|e]; [|cbn; rewrite Hw; intros [_ H]; discriminate].
    match goal with
    | |- context [set_token_cookies req tokens ?w0] =>
        pose proof (set_token_cookies_keeps req tokens w0) as [_ Hk];
        destruct (set_token_cookies req tokens w0) as [[u|e] w2]; cbn [snd res] in Hk
    end.
    2:{ cbn [snd]. rewrite Hk. cbn [res res_sent]. rewrite Hw. intros [_ H]; discriminate. }
    destruct (get v "rt") as [rt_|e].
    - cbn. intros [H _]; discriminate.
    - cbn [snd]. rewrite Hk. cbn [res res_sent]. rewrite Hw. intros [_ H]; discriminate. }
  destruct (option_truthy (query req "code")) eqn:Hc; cbn [negb orb].
  - destruct (truthy v) eqn:Ht; cbn [negb].
    + split; [split|]; intro H; try contradiction. destruct H; discriminate.
    + split; [split; [now right|] | ]; intros _; repeat split.
  - split; [split; [now left|] | ]; intros _; repeat split.
Qed.

(** A state that GET /auth/login issued is accepted for ten minutes: the
    callback then goes on to the token exchange. *)
Lemma login_state_is_accepted (env later : Env) (req : Req) :
  clock later <= clock env + 10 * 60 * 1000 ->
  let payload := mkPayload (nonce_hex env)
                           (Some (or_default (query req "return_to") "http://127.0.0.1:4200"))
                           (Int (clock env + 10 * 60 * 1000)) in
  verifyState SESSION_SECRET (clock later) (Some (signState SESSION_SECRET payload))
  = Ok (payload_value payload)
  /\ truthy (payload_value payload) = true.
Proof.
  intros H payload. split; [|reflexivity].
  apply verifyState_of_signState; [reflexivity | exact I |].
  cbn. apply Z.ltb_ge. exact H.
Qed.

End CallbackFacts.

(** ** [verifyState] on states that [signState] did not make *)

Lemma split_on_first sep a r :
  ~ In sep a -> split_on sep (a ++ sep :: r) = a :: split_on sep r.
Proof.
  intro Ha. induction a as [|c a IH]; cbn [List.app split_on].
  - destruct (ascii_dec sep sep); [reflexivity | congruence].
  - destruct (ascii_dec c sep) as [->|_].
    + exfalso. apply Ha. now left.
    + rewrite IH; [reflexivity|]. intro Hin. apply Ha. now right.
Qed.

Lemma bytes_of_string_inj (a b : string) : bytes_of_string a = bytes_of_string b -> a = b.
Proof. intro H. rewrite <- (string_bytes_inv a), H. apply string_bytes_inv. Qed.

Lemma append_dot_nonempty (a b : string) : (a +++ String "."%char b =? "")%string = false.
Proof. apply String.eqb_neq. destruct a; discriminate. Qed.

(** [verifyState] reads the first two parts of the state and nothing
    else. *)
Lemma verifyState_reads_two_parts (secret : string) (now : Z) (st st' : string)
      (body sig : string) (more more' : list string) :
  st <> "" -> st' <> "" ->
  split st "." = body :: sig :: more -> split st' "." = body :: sig :: more' ->
  verifyState secret now (Some st) = verifyState secret now (Some st').
Proof.
  intros Hn Hn' Hs Hs'. unfold verifyState.
  apply String.eqb_neq in Hn, Hn'. rewrite Hn, Hn', Hs, Hs'. reflexivity.
Qed.

Lemma verifyState_signed_with_tail (secret : string) (now : Z) (p : StatePayload) (junk : string) :
  verifyState secret now (Some (signState secret p +++ "." +++ junk))
  = verifyState secret now (Some (signState secret p)).
Proof.
  set (body := Base64url.encode (bytes_of_string (stringify_object (payload_props p)))).
  set (sig := hmac_base64url secret body).
  apply (@verifyState_reads_two_parts secret now _ _ body sig
           (map string_of_bytes (split_on "." (bytes_of_string junk))) []).
  - apply String.eqb_neq. exact (append_dot_nonempty (signState secret p) junk).
  - apply String.eqb_neq. exact (append_dot_nonempty body sig).
  - unfold split, signState. fold body sig.
    rewrite !bytes_of_string_app. cbn [bytes_of_string list_ascii_of_string List.app].
    fold (bytes_of_string sig) (bytes_of_string junk).
    rewrite <- app_assoc. cbn [List.app].
    rewrite split_on_first by apply base64url_no_dot.
    rewrite split_on_first by apply base64url_no_dot.
    cbn [map]. now rewrite !string_bytes_inv.
  - apply signState_parts.
Qed.

(** X1: [verifyState] returns null, and raises nothing, for a state that
    is missing or that has no body or no signature: no state at all, a
    text with no dot, a text that starts with a dot, and a text whose
    first dot ends it or is followed by another dot. *)
Theorem verifyState_null_without_signature (secret : string) (now : Z) (st : string) :
  ~ In "."%char (bytes_of_string st) ->
  verifyState secret now None = Ok JNull
  /\ verifyState secret now (Some st) = Ok JNull
  /\ (forall rest, verifyState secret now (Some ("." +++ rest)) = Ok JNull)
  /\ verifyState secret now (Some (st +++ ".")) = Ok JNull
  /\ (forall rest, verifyState secret now (Some (st +++ ".." +++ rest)) = Ok JNull).
Proof.
  intro Hst. split; [reflexivity|]. split; [|split; [|split]].
  - unfold verifyState. destruct (st =? "")%string; [reflexivity|].
    unfold split. rewrite split_on_none by assumption. cbn [map nth].
    rewrite String.eqb_refl, orb_true_r. reflexivity.
  - intro rest. unfold verifyState. cbn [String.append String.eqb].
    unfold split. cbn [bytes_of_string list_ascii_of_string split_on].
    destruct (ascii_dec "." "."); [|congruence]. cbn [map nth string_of_bytes string_of_list_ascii].
    reflexivity.
  - unfold verifyState.
    rewrite (append_dot_nonempty st "" : (st +++ "." =? "")%string = false).
    unfold split. rewrite bytes_of_string_app.
    cbn [bytes_of_string list_ascii_of_string]. rewrite split_on_once by (assumption || tauto).
    cbn [map nth string_of_bytes string_of_list_ascii].
    rewrite String.eqb_refl, orb_true_r. reflexivity.
  - intro rest. unfold verifyState.
    rewrite (append_dot_nonempty st ("." +++ rest)
             : (st +++ ".." +++ rest =? "")%string = false).
    unfold split. rewrite bytes_of_string_app.
    cbn [String.append bytes_of_string list_ascii_of_string].
    rewrite split_on_first by assumption.
    cbn [split_on]. destruct (ascii_dec "." "."); [|congruence].
    cbn [map nth string_of_bytes string_of_list_ascii].
    rewrite String.eqb_refl, orb_true_r. reflexivity.
Qed.

Lemma verifyState_null_without_signature_witness :
  verifyState "s3cret" 1700000000000 (Some "eyJuIjoiMSJ9") = Ok JNull
  /\ verifyState "s3cret" 1700000000000 (Some "eyJuIjoiMSJ9.") = Ok JNull.
Proof.
  split.
  - apply (@verifyState_null_without_signature "s3cret" 1700000000000 "eyJuIjoiMSJ9").
    cbn. intuition discriminate.
  - apply (@verifyState_null_without_signature "s3cret" 1700000000000 "eyJuIjoiMSJ9").
    cbn. intuition discriminate.
Defined.

(** X2: a state with a body and with a signature that is not the HMAC of
    the body is never accepted, and its body is never parsed: when the
    signature has the 43 bytes of a digest [verifyState] returns null,
    and when it has any other length [crypto.timingSafeEqual] throws a
    RangeError that [verifyState] lets through. *)
Theorem verifyState_on_wrong_signature (secret : string) (now : Z) (body sig : string) :
  body <> "" -> sig <> "" ->
  ~ In "."%char (bytes_of_string body) -> ~ In "."%char (bytes_of_string sig) ->
  sig <> hmac_base64url secret body ->
  verifyState secret now (Some (body +++ "." +++ sig))
  = if (String.length sig =? 43)%nat then Ok JNull
    else Throw (RangeError "Input buffers must have the same byte length").
Proof.
  intros Hb Hs Hbd Hsd Hne. unfold verifyState.
  rewrite (append_dot_nonempty body sig : (body +++ "." +++ sig =? "")%string = false).
  unfold split. rewrite !bytes_of_string_app.
  cbn [bytes_of_string list_ascii_of_string List.app].
  fold (bytes_of_string sig). rewrite split_on_once by assumption.
  cbn [map nth]. rewrite !string_bytes_inv.
  apply String.eqb_neq in Hb, Hs. rewrite Hb, Hs. cbn [orb].
  unfold timingSafeEqual.
  assert (Hlen : length (bytes_of_string (hmac_base64url secret body)) = 43%nat).
  { unfold hmac_base64url. rewrite base64url_length, hmac_length. reflexivity. }
  rewrite Hlen, <- string_length_bytes.
  destruct (String.length sig =? 43)%nat; [|reflexivity].
  destruct (list_eq_dec ascii_dec _ _) as [E|_]; [|reflexivity].
  exfalso. apply Hne. now apply bytes_of_string_inj.
Qed.

Lemma verifyState_on_wrong_signature_witness :
  verifyState "s3cret" 1700000000000
              (Some ("eyJuIjoiMSJ9" +++ "." +++ "AAAAAAAAAAAAAAAAAAAAAAAAAAAAAAAAAAAAAAAAAAA"))
  = Ok JNull.
Proof.
  apply (@verifyState_on_wrong_signature "s3cret" 1700000000000 "eyJuIjoiMSJ9"
           "AAAAAAAAAAAAAAAAAAAAAAAAAAAAAAAAAAAAAAAAAAA").
  - discriminate.
  - discriminate.
  - cbn. intuition discriminate.
  - cbn. intuition discriminate.
  - intro E. vm_compute in E. discriminate E.
Defined.

(** Verifying what [signState] signed, after its expiry. *)
Lemma verifyState_of_expired (secret : string) (p : StatePayload) (now : Z) :
  is_finite (exp p) = true -> canonical (exp p) ->
  Coerce.int_gt now (exp p) = true ->
  verifyState secret now (Some (signState secret p)) = Ok JNull.
Proof.
  intros Hfin Hcan Hnow.
  set (body := Base64url.encode (bytes_of_string (stringify_object (payload_props p)))).
  assert (Hbody : body <> "") by apply signState_body_nonempty.
  assert (Hsig : hmac_base64url secret body <> "") by apply hmac_base64url_nonempty.
  unfold verifyState.
  assert (Htok : (signState secret p =? "")%string = false).
  { unfold signState. fold body. exact (append_dot_nonempty body _). }
  rewrite Htok, signState_parts. fold body. cbn [nth].
  apply String.eqb_neq in Hbody, Hsig. rewrite Hbody, Hsig. cbn [orb].
  rewrite timingSafeEqual_same.
  unfold body at 1. rewrite base64url_decode_encode, string_bytes_inv.
  rewrite parse_stringify_payload by assumption.
  rewrite get_payload_exp. cbn [Coerce.ToNumber]. now rewrite Hnow.
Qed.

(** X3: a state that [signState] made is turned down once its expiry is
    past: [verifyState] returns null. *)
Theorem verifyState_null_when_expired (secret : string) (p : StatePayload) (now : Z) :
  is_finite (exp p) = true -> canonical (exp p) ->
  Coerce.int_gt now (exp p) = true ->
  verifyState secret now (Some (signState secret p)) = Ok JNull.
Proof. apply verifyState_of_expired. Qed.

Lemma verifyState_null_when_expired_witness :
  verifyState "s3cret" 1700000600001
              (Some (signState "s3cret"
                               (mkPayload "9f2c" (Some "http://127.0.0.1:4200") (Int 1700000600000))))
  = Ok JNull.
Proof.
  apply verifyState_null_when_expired; [reflexivity | exact I | reflexivity].
Defined.

(** X4: [verifyState] reads the first two dot-separated parts of the state
    and nothing after them, so a state that [signState] made is still
    accepted, with the same payload, when a dot and any text are appended
    to it. *)
Theorem verifyState_accepts_signed_state_with_tail
        (secret : string) (p : StatePayload) (now : Z) (junk : string) :
  is_finite (exp p) = true -> canonical (exp p) ->
  Coerce.int_gt now (exp p) = false ->
  verifyState secret now (Some (signState secret p +++ "." +++ junk)) = Ok (payload_value p).
Proof.
  intros Hfin Hcan Hnow. rewrite verifyState_signed_with_tail.
  now apply verifyState_of_signState.
Qed.

Lemma verifyState_accepts_signed_state_with_tail_witness :
  let p := mkPayload "9f2c" (Some "http://127.0.0.1:4200") (Int 1700000600000) in
  signState "s3cret" p +++ "." +++ "x.y" <> signState "s3cret" p
  /\ verifyState "s3cret" 1700000000000 (Some (signState "s3cret" p +++ "." +++ "x.y"))
     = Ok (payload_value p).
Proof.
  cbv zeta. split.
  - intro E. vm_compute in E. discriminate E.
  - apply verifyState_accepts_signed_state_with_tail; [reflexivity | exact I | reflexivity].
Defined.

(** ** What [signState] writes *)

Lemma form_byte_sextet (s : Base64url.sextet) :
  form_byte (Base64url.encode_sextet s) = [Base64url.encode_sextet s].
Proof.
  destruct s as [[[[[b5 b4] b3] b2] b1] b0].
  destruct b5, b4, b3, b2, b1, b0; reflexivity.
Qed.

Lemma flat_map_identity (f : ascii -> list ascii) (l : list ascii) :
  Forall (fun c => f c = [c]) l -> flat_map f l = l.
Proof.
  induction 1 as [|c l Hc _ IH]; [reflexivity|].
  cbn [flat_map]. now rewrite Hc, IH.
Qed.

(** Form encoding leaves a text of unreserved characters as it is. *)
Lemma form_encode_unreserved (s : string) :
  Forall (fun c => form_byte c = [c]) (bytes_of_string s) -> form_encode s = s.
Proof.
  intro H. unfold form_encode. rewrite flat_map_identity by assumption.
  apply string_bytes_inv.
Qed.

Lemma base64url_unreserved (bs : list ascii) :
  Forall (fun c => form_byte c = [c]) (bytes_of_string (Base64url.encode bs)).
Proof.
  rewrite base64url_bytes. apply Forall_forall. intros c Hc.
  apply in_map_iff in Hc. destruct Hc as [s [<- _]]. apply form_byte_sextet.
Qed.

Lemma signState_unreserved (secret : string) (p : StatePayload) :
  form_encode (signState secret p) = signState secret p.
Proof.
  apply form_encode_unreserved. unfold signState.
  rewrite !bytes_of_string_app. apply Forall_app. split; [apply base64url_unreserved|].
  apply Forall_app. split; [repeat constructor | apply base64url_unreserved].
Qed.

Lemma append_empty_r (s : string) : s +++ "" = s.
Proof. induction s as [|c s IH]; cbn; [reflexivity | now rewrite IH]. Qed.

(** X5: the state [signState] makes is two words joined by its only dot;
    the first is not empty and decodes, without the secret, to the JSON
    text of the payload; the second has the 43 characters of a digest;
    and the whole is made of characters that form encoding leaves alone,
    so that it travels in a query string as it is. *)
Theorem signState_shape (secret : string) (p : StatePayload) :
  exists body sig,
    signState secret p = body +++ "." +++ sig
    /\ split (signState secret p) "." = [body; sig]
    /\ body <> ""
    /\ string_of_bytes (Base64url.decode body) = stringify_object (payload_props p)
    /\ String.length sig = 43%nat
    /\ form_encode (signState secret p) = signState secret p.
Proof.
  exists (Base64url.encode (bytes_of_string (stringify_object (payload_props p)))).
  exists (hmac_base64url secret
            (Base64url.encode (bytes_of_string (stringify_object (payload_props p))))).
  split; [reflexivity|]. split; [apply signState_parts|].
  split; [apply signState_body_nonempty|].
  split; [now rewrite base64url_decode_encode, string_bytes_inv|].
  split; [|apply signState_unreserved].
  rewrite string_length_bytes. unfold hmac_base64url.
  now rewrite base64url_length, hmac_length.
Qed.

(** ** GET /auth/login *)

(** X6: GET /auth/login answers with a redirect to the authorization
    endpoint and does nothing else (no upstream request, no cookie); the
    state in the redirect's query is the signed state as it is, and
    [verifyState] accepts it, with the [return_to] of the request or the
    default, up to ten minutes later and turns it down after that. *)
Theorem auth_login_issues_a_ten_minute_state
        (secret client_id redirect_uri : string) (env : Env) (req : Req) (w : World) (now : Z) :
  now <= clock env + 10 * 60 * 1000 ->
  let payload := mkPayload (nonce_hex env)
                           (Some (or_default (query req "return_to") "http://127.0.0.1:4200"))
                           (Int (clock env + 10 * 60 * 1000)) in
  let state := signState secret payload in
  auth_login secret client_id redirect_uri env req w
  = (Ok tt,
     mkWorld (log w)
             (mkRes 302 (res_type (res w)) (res_cookies (res w))
                    (Some (Redirect (JStr
                       ("https://accounts.spotify.com/authorize?response_type=code&client_id="
                          +++ form_encode client_id
                          +++ "&scope=user-read-email+user-top-read+user-read-recently-played+playlist-modify-private&redirect_uri="
                          +++ form_encode redirect_uri +++ "&state=" +++ state))))))
  /\ verifyState secret now (Some state) = Ok (payload_value payload)
  /\ (forall later, clock env + 10 * 60 * 1000 < later ->
        verifyState secret later (Some state) = Ok JNull).
Proof.
  intros Hnow payload state. split; [|split].
  - unfold auth_login, res_redirect, set_res. fold payload. fold state.
    cbn [URLSearchParams]. rewrite (signState_unreserved secret payload : form_encode state = state).
    rewrite append_empty_r. reflexivity.
  - apply verifyState_of_signState; [reflexivity | exact I |].
    cbn. apply Z.ltb_ge. exact Hnow.
  - intros later Hlater. apply verifyState_of_expired; [reflexivity | exact I |].
    cbn. apply Z.ltb_lt. exact Hlater.
Qed.

Lemma auth_login_issues_a_ten_minute_state_witness :
  let payload := mkPayload (nonce_hex demo_env) (Some "http://127.0.0.1:4200")
                           (Int 1700000600000) in
  verifyState "s3cret" 1700000600000 (Some (signState "s3cret" payload))
  = Ok (payload_value payload)
  /\ verifyState "s3cret" 1700000600001 (Some (signState "s3cret" payload)) = Ok JNull.
Proof.
  cbv zeta.
  pose proof (@auth_login_issues_a_ten_minute_state "s3cret" "id" "http://127.0.0.1:8080/auth/callback"
                demo_env (demo_req JUndefined JUndefined) fresh 1700000600000) as H.
  cbv zeta in H. destruct H as (_ & Hin & Hout); [cbn; lia|].
  split; [exact Hin | apply Hout; cbn; lia].
Defined.

(** ** compactSnapshot, applied twice *)

Lemma compactSnapshot_of_defined (s : JSValue) :
  Forall defined (kept s "topTracks" 25) ->
  Forall defined (kept s "topArtists" 20) ->
  Forall defined (kept s "recent" 20) ->
  compactSnapshot s = Ok (compacted s).
Proof.
  intros Ht Ha Hr. unfold compactSnapshot. rewrite compact_profile_ok.
  fold (kept s "topTracks" 25). fold (kept s "topArtists" 20). fold (kept s "recent" 20).
  now rewrite !mapM_pick_defined by assumption.
Qed.

Lemma projected_defined (keys : list string) (l : list JSValue) :
  Forall defined (map (project keys) l).
Proof. apply Forall_forall. intros x Hx. apply in_map_iff in Hx. now destruct Hx as [y [<- _]]. Qed.

Lemma kept_of_compacted (s : JSValue) (key : string) (n : nat) (l : list JSValue) :
  get_opt (compacted s) key = JArr l -> (length l <= n)%nat ->
  kept (compacted s) key n = l.
Proof.
  intros H Hlen. rewrite (kept_of_array _ _ n H). now apply firstn_all2.
Qed.

Lemma map_project_twice (keys : list string) (l : list JSValue) :
  (forall v, project keys (project keys v) = project keys v) ->
  map (project keys) (map (project keys) l) = map (project keys) l.
Proof. intro H. rewrite map_map. apply map_ext. intro v. apply H. Qed.

Lemma compact_profile_twice (s : JSValue) : compact_profile (compacted s) = compact_profile s.
Proof.
  unfold compact_profile at 1.
  change (get_opt (compacted s) "profile") with (compact_profile s).
  unfold compact_profile. destruct (truthy (get_opt s "profile")) eqn:Ht.
  - reflexivity.
  - now rewrite Ht.
Qed.

Lemma compacted_twice (s : JSValue) : compacted (compacted s) = compacted s.
Proof.
  assert (Ht : kept (compacted s) "topTracks" 25 = map (project track_fields) (kept s "topTracks" 25)).
  { apply kept_of_compacted; [reflexivity|]. rewrite length_map. apply kept_length. }
  assert (Ha : kept (compacted s) "topArtists" 20 = map (project artist_fields) (kept s "topArtists" 20)).
  { apply kept_of_compacted; [reflexivity|]. rewrite length_map. apply kept_length. }
  assert (Hr : kept (compacted s) "recent" 20 = map (project recent_fields) (kept s "recent" 20)).
  { apply kept_of_compacted; [reflexivity|]. rewrite length_map. apply kept_length. }
  unfold compacted at 1. rewrite compact_profile_twice, Ht, Ha, Hr.
  rewrite !map_project_twice by reflexivity. reflexivity.
Qed.

(** X7: [compactSnapshot] is idempotent: applied to a snapshot it has
    returned, it returns that snapshot again. *)
Theorem compactSnapshot_idempotent (s r : JSValue) :
  compactSnapshot s = Ok r -> compactSnapshot r = Ok r.
Proof.
  intro H. apply compactSnapshot_returns in H. destruct H as (-> & _).
  rewrite <- (compacted_twice s) at 2.
  assert (Ht : kept (compacted s) "topTracks" 25 = map (project track_fields) (kept s "topTracks" 25)).
  { apply kept_of_compacted; [reflexivity|]. rewrite length_map. apply kept_length. }
  assert (Ha : kept (compacted s) "topArtists" 20 = map (project artist_fields) (kept s "topArtists" 20)).
  { apply kept_of_compacted; [reflexivity|]. rewrite length_map. apply kept_length. }
  assert (Hr : kept (compacted s) "recent" 20 = map (project recent_fields) (kept s "recent" 20)).
  { apply kept_of_compacted; [reflexivity|]. rewrite length_map. apply kept_length. }
  apply compactSnapshot_of_defined.
  - rewrite Ht. apply projected_defined.
  - rewrite Ha. apply projected_defined.
  - rewrite Hr. apply projected_defined.
Qed.

Lemma compactSnapshot_idempotent_witness :
  let s := JObj [("generatedAt", JStr "2024-05-01T10:00:00Z");
                 ("profile", JObj [("id", JStr "u1"); ("email", JStr "u1@example.org")]);
                 ("topTracks", JArr [JObj [("id", JStr "t1"); ("name", JStr "Song");
                                           ("duration_ms", JNum (Int 200000))]]);
                 ("recent", JStr "none")] in
  let r := JObj [("generatedAt", JStr "2024-05-01T10:00:00Z");
                 ("profile", JObj [("id", JStr "u1"); ("displayName", JUndefined);
                                   ("country", JUndefined)]);
                 ("topTracks", JArr [JObj [("id", JStr "t1"); ("name", JStr "Song");
                                           ("uri", JUndefined); ("artists", JUndefined)]]);
                 ("topArtists", JArr []);
                 ("recent", JArr [])] in
  compactSnapshot s = Ok r /\ compactSnapshot r = Ok r.
Proof.
  cbv zeta. split; [reflexivity|].
  apply (@compactSnapshot_idempotent
           (JObj [("generatedAt", JStr "2024-05-01T10:00:00Z");
                  ("profile", JObj [("id", JStr "u1"); ("email", JStr "u1@example.org")]);
                  ("topTracks", JArr [JObj [("id", JStr "t1"); ("name", JStr "Song");
                                            ("duration_ms", JNum (Int 200000))]]);
                  ("recent", JStr "none")])).
  reflexivity.
Defined.

(** ** POST /chat *)

Section ChatOutcomes.

Variable URL_CHAT : string.
Variable API_KEY : option string.
Variable MODEL : string.
Variable upstream : list Request -> Request -> result Response.

#[local] Abbreviation chat_post' := (chat_post URL_CHAT API_KEY MODEL upstream).
#[local] Abbreviation chat_block' := (chat_block URL_CHAT API_KEY MODEL upstream).
#[local] Abbreviation chat_test' := (chat_test URL_CHAT API_KEY upstream).

Lemma body_or_empty_defined (req : Req) : nullish (js_or (body req) (JObj [])) = false.
Proof.
  unfold js_or. destruct (truthy (body req)) eqn:E; [|reflexivity].
  now apply truthy_defined.
Qed.

(** The handler, once the body has been read. *)
Lemma chat_block_cases (req : Req) (w : World) :
  let b := js_or (body req) (JObj []) in
  let question := get_opt b "question" in
  let snapshot := get_opt b "snapshot" in
  chat_block' req w
  = if negb (truthy question) || negb (truthy snapshot) then
      (res_status_set 400 ;; res_json (JObj [("error", JStr "Missing question or snapshot")]))%monad w
    else if negb (option_truthy API_KEY) then
      (res_status_set 500 ;;
       res_json (JObj [("error", JStr "Missing DIGITALOCEAN_AGENT_KEY (or INFERENCE_KEY)")]))%monad w
    else
      match compactSnapshot snapshot with
      | Throw e => (Throw e, w)
      | Ok slim =>
          match user_content slim question with
          | Throw e => (Throw e, w)
          | Ok content =>
              let rq := chat_request URL_CHAT API_KEY (chat_payload MODEL content) in
              let w1 := mkWorld (log w ++ [rq]) (res w) in
              match upstream (log w) rq with
              | Throw e => (Throw e, w1)
              | Ok r =>
                  if negb (ok r) then
                    (res_status_set (status r) ;; res_json (JObj [("error", JStr (text r))]))%monad w1
                  else
                    match JSON.parse (text r) with
                    | Throw e => (Throw e, w1)
                    | Ok json_ =>
                        match answer_of json_ with
                        | Throw e => (Throw e, w1)
                        | Ok answer => res_json (JObj [("answer", answer)]) w1
                        end
                    end
              end
          end
      end.
Proof.
  cbv zeta. unfold chat_block.
  unfold bind at 1. unfold lift at 1. rewrite (get_nullish _ "question" (body_or_empty_defined req)).
  unfold bind at 1. unfold lift at 1. rewrite (get_nullish _ "snapshot" (body_or_empty_defined req)).
  destruct (negb (truthy _) || negb (truthy _)); [reflexivity|].
  destruct (negb (option_truthy API_KEY)); [reflexivity|].
  unfold bind at 1. unfold lift at 1.
  destruct (compactSnapshot _) as [slim|e]; [|reflexivity].
  unfold bind at 1. unfold lift at 1.
  destruct (user_content slim _) as [content|e]; [|reflexivity].
  unfold bind at 1. unfold fetch at 1.
  destruct (upstream (log w) _) as [r|e]; [|reflexivity].
  destruct (negb (ok r)); [reflexivity|].
  unfold bind at 1. unfold lift at 1.
  destruct (JSON.parse (text r)) as [j|e]; [|reflexivity].
  unfold bind at 1. unfold lift at 1.
  destruct (answer_of j); reflexivity.
Qed.

(** X8: POST /chat checks its input before it calls anyone: without a
    question or without a snapshot (a missing body included) it answers
    400, and with both but without an API key it answers 500; either way
    nothing has been sent upstream. *)
Theorem chat_post_refuses_before_calling_upstream (env : Env) (req : Req) (w : World) :
  let b := js_or (body req) (JObj []) in
  let incomplete := negb (truthy (get_opt b "question")) || negb (truthy (get_opt b "snapshot")) in
  incomplete = true \/ option_truthy API_KEY = false ->
  chat_post' env req w
  = (Ok tt,
     mkWorld (log w)
             (mkRes (if incomplete then 400 else 500) (res_type (res w)) (res_cookies (res w))
                    (Some (SendJson
                       (JObj [("error",
                               JStr (if incomplete then "Missing question or snapshot"
                                     else "Missing DIGITALOCEAN_AGENT_KEY (or INFERENCE_KEY)"))]))))).
Proof.
  cbv zeta. intro H. unfold chat_post, try_catch. rewrite chat_block_cases. cbv zeta.
  destruct (negb (truthy _) || negb (truthy _)); [reflexivity|].
  destruct H as [H|H]; [discriminate|]. rewrite H. reflexivity.
Qed.

(** X9: when the chat endpoint answers a complete request, one whose
    question can be printed and whose body JavaScript can hold, with a
    status that is not ok, POST /chat answers with that same status,
    whatever it is, and with the upstream text under [error], empty or
    not; when the call itself fails, it answers 500 with the error's
    message or [chat failed]. *)
Theorem chat_post_forwards_upstream_status
        (env : Env) (req : Req) (w : World) (slim : JSValue) (asked : string) :
  let b := js_or (body req) (JObj []) in
  let question := get_opt b "question" in
  let content := "SNAPSHOT:" +++ newline +++ "```json" +++ newline +++ json_text slim
                   +++ newline +++ "```" +++ newline +++ "QUESTION: " +++ asked in
  let rq := chat_request URL_CHAT API_KEY (chat_payload MODEL content) in
  doubles (body req) = true ->
  truthy question = true -> truthy (get_opt b "snapshot") = true ->
  option_truthy API_KEY = true ->
  compactSnapshot (get_opt b "snapshot") = Ok slim ->
  ToString question = Ok asked ->
  match upstream (log w) rq with
  | Ok r =>
      ok r = false ->
      chat_post' env req w
      = (Ok tt, mkWorld (log w ++ [rq])
                        (mkRes (status r) (res_type (res w)) (res_cookies (res w))
                               (Some (SendJson (JObj [("error", JStr (text r))])))))
  | Throw e =>
      chat_post' env req w
      = (Ok tt, mkWorld (log w ++ [rq])
                        (mkRes 500 (res_type (res w)) (res_cookies (res w))
                               (Some (SendJson (JObj [("error", JStr (message_or e "chat failed"))])))))
  end.
Proof.
  cbv zeta. intros _ Hq Hs Hk Hslim Hasked.
  unfold chat_post, try_catch. rewrite chat_block_cases. cbv zeta.
  rewrite Hq, Hs, Hk, Hslim. cbn [negb orb]. unfold user_content. rewrite Hasked.
  destruct (upstream (log w) _) as [r|e]; [|reflexivity].
  intro Hok. rewrite Hok. reflexivity.
Qed.

(** X10: POST /chat never rejects and always answers with a JSON object
    of one property: [answer], with the status left as it was, or
    [error] with a text; it sets no cookie and sends at most one request
    upstream. *)
Theorem chat_post_answers_answer_or_error (env : Env) (req : Req) (w : World) :
  let out := chat_post' env req w in
  fst out = Ok tt
  /\ (exists key v,
        res_sent (res (snd out)) = Some (SendJson (JObj [(key, v)]))
        /\ ((key = "answer" /\ res_status (res (snd out)) = res_status (res w))
            \/ (key = "error" /\ exists t, v = JStr t)))
  /\ res_cookies (res (snd out)) = res_cookies (res w)
  /\ (exists l, log (snd out) = log w ++ l /\ (length l <= 1)%nat).
Proof.
  cbv zeta. unfold chat_post, try_catch. rewrite chat_block_cases. cbv zeta.
  assert (Hnil : exists l, log w = log w ++ l /\ (length l <= 1)%nat).
  { exists []. rewrite app_nil_r. split; [reflexivity | cbn; lia]. }
  assert (Hone : forall rq, exists l, log w ++ [rq] = log w ++ l /\ (length l <= 1)%nat).
  { intro rq. exists [rq]. split; [reflexivity | cbn; lia]. }
  destruct (negb (truthy _) || negb (truthy _)).
  { cbn. split; [reflexivity|]. split; [|split; [reflexivity | exact Hnil]].
    eexists _, _. split; [reflexivity|]. right. split; [reflexivity|]. eexists; reflexivity. }
  destruct (negb (option_truthy API_KEY)).
  { cbn. split; [reflexivity|]. split; [|split; [reflexivity | exact Hnil]].
    eexists _, _. split; [reflexivity|]. right. split; [reflexivity|]. eexists; reflexivity. }
  destruct (compactSnapshot _) as [slim|e].
  2:{ cbn. split; [reflexivity|]. split; [|split; [reflexivity | exact Hnil]].
      eexists _, _. split; [reflexivity|]. right. split; [reflexivity|]. eexists; reflexivity. }
  destruct (user_content slim _) as [content|e].
  2:{ cbn. split; [reflexivity|]. split; [|split; [reflexivity | exact Hnil]].
      eexists _, _. split; [reflexivity|]. right. split; [reflexivity|]. eexists; reflexivity. }
  destruct (upstream (log w) _) as [r|e].
  2:{ cbn. split; [reflexivity|]. split; [|split; [reflexivity | apply Hone]].
      eexists _, _. split; [reflexivity|]. right. split; [reflexivity|]. eexists; reflexivity. }
  destruct (negb (ok r)).
  { cbn. split; [reflexivity|]. split; [|split; [reflexivity | apply Hone]].
    eexists _, _. split; [reflexivity|]. right. split; [reflexivity|]. eexists; reflexivity. }
  destruct (JSON.parse (text r)) as [j|e].
  2:{ cbn. split; [reflexivity|]. split; [|split; [reflexivity | apply Hone]].
      eexists _, _. split; [reflexivity|]. right. split; [reflexivity|]. eexists; reflexivity. }
  destruct (answer_of j) as [a|e].
  2:{ cbn. split; [reflexivity|]. split; [|split; [reflexivity | apply Hone]].
      eexists _, _. split; [reflexivity|]. right. split; [reflexivity|]. eexists; reflexivity. }
  cbn. split; [reflexivity|]. split; [|split; [reflexivity | apply Hone]].
  eexists _, _. split; [reflexivity|]. left. split; reflexivity.
Qed.

End ChatOutcomes.

Lemma chat_post_refuses_before_calling_upstream_witness :
  let req := mkReq (fun _ => JUndefined) (fun _ => None) JUndefined "http" in
  chat_post "https://inference.do-ai.run/v1/chat/completions" (Some "key")
            "meta-llama/llama-3.1-70b-instruct" chat_upstream demo_env req fresh
  = (Ok tt, mkWorld [] (mkRes 400 None []
                              (Some (SendJson (JObj [("error", JStr "Missing question or snapshot")]))))).
Proof.
  cbv zeta.
  apply (@chat_post_refuses_before_calling_upstream
           "https://inference.do-ai.run/v1/chat/completions" (Some "key")
           "meta-llama/llama-3.1-70b-instruct" chat_upstream demo_env
           (mkReq (fun _ => JUndefined) (fun _ => None) JUndefined "http") fresh).
  left. reflexivity.
Defined.

Lemma chat_post_forwards_upstream_status_witness :
  let snapshot := JObj [("topTracks", JArr [])] in
  let req := mkReq (fun _ => JUndefined) (fun _ => None)
                   (JObj [("question", JStr "What do I like?"); ("snapshot", snapshot)]) "http" in
  let out := chat_post "https://inference.do-ai.run/v1/chat/completions" (Some "key")
                       "meta-llama/llama-3.1-70b-instruct" down_upstream demo_env req fresh in
  res_status (res (snd out)) = 503
  /\ res_sent (res (snd out)) = Some (SendJson (JObj [("error", JStr "")])).
Proof.
  cbv zeta.
  pose proof (@chat_post_forwards_upstream_status
                "https://inference.do-ai.run/v1/chat/completions" (Some "key")
                "meta-llama/llama-3.1-70b-instruct" down_upstream demo_env
                (mkReq (fun _ => JUndefined) (fun _ => None)
                       (JObj [("question", JStr "What do I like?");
                              ("snapshot", JObj [("topTracks", JArr [])])]) "http")
                fresh
                (JObj [("generatedAt", JUndefined); ("profile", JUndefined);
                       ("topTracks", JArr []); ("topArtists", JArr []); ("recent", JArr [])])
                "What do I like?"
                eq_refl eq_refl eq_refl eq_refl eq_refl eq_refl) as H.
  cbv zeta in H. cbn [down_upstream] in H. rewrite (H eq_refl). split; reflexivity.
Defined.

(** ** GET /auth/callback, step by step *)

Lemma set_token_cookies_cases (req : Req) (tokens : JSValue) (w : World) :
  nullish tokens = false ->
  set_token_cookies req tokens w
  = (Ok tt,
     mkWorld (log w)
             (mkRes (res_status (res w)) (res_type (res w))
                    (res_cookies (res w)
                       ++ (if truthy (get_opt tokens "access_token")
                           then [cookie_for req "spotify_access_token"
                                            (get_opt tokens "access_token") ACCESS_MS]
                           else [])
                       ++ (if truthy (get_opt tokens "refresh_token")
                           then [cookie_for req "spotify_refresh_token"
                                            (get_opt tokens "refresh_token") REFRESH_MS]
                           else []))
                    (res_sent (res w)))).
Proof.
  intro Hn. unfold set_token_cookies, bind, lift, when, res_cookie, set_res, ret.
  rewrite (get_nullish tokens "access_token" Hn), (get_nullish tokens "refresh_token" Hn).
  destruct w as [l [st ty cs sn]]. cbn [log res res_status res_type res_cookies res_sent].
  destruct (truthy (get_opt tokens "access_token")), (truthy (get_opt tokens "refresh_token"));
    cbn [log res res_status res_type res_cookies res_sent List.app];
    rewrite <- ?app_assoc, ?app_nil_r; reflexivity.
Qed.

Section CallbackSteps.

Variable SESSION_SECRET : string.
Variable SPOTIFY_CLIENT_ID : string.
Variable SPOTIFY_CLIENT_SECRET : string.
Variable SPOTIFY_REDIRECT_URI : string.
Variable upstream : list Request -> Request -> result Response.

#[local] Abbreviation auth_callback' :=
  (auth_callback SESSION_SECRET SPOTIFY_CLIENT_ID SPOTIFY_CLIENT_SECRET SPOTIFY_REDIRECT_URI upstream).

(** The handler once [verifyState] has accepted the state and a code is
    there. *)
Lemma auth_callback_exchange (env : Env) (req : Req) (w : World) (code : string) (v : JSValue) :
  query req "code" = Some code -> code <> "" ->
  verifyState SESSION_SECRET (clock env) (query req "state") = Ok v -> truthy v = true ->
  let rq := exchange_request SPOTIFY_CLIENT_ID SPOTIFY_CLIENT_SECRET SPOTIFY_REDIRECT_URI code in
  let w1 := mkWorld (log w ++ [rq]) (res w) in
  auth_callback' env req w
  = match upstream (log w) rq with
    | Throw e => (Throw e, w1)
    | Ok r =>
        if ok r then
          match json r with
          | Throw e => (Throw e, w1)
          | Ok tokens =>
              match get tokens "scope" with
              | Throw e => (Throw e, w1)
              | Ok _ =>
                  (set_token_cookies req tokens ;;
                   rt_ <- lift (get v "rt") ;;
                   res_redirect (js_or rt_ (JStr "/connected")))%monad w1
              end
          end
        else
          (Ok tt, mkWorld (log w1)
                          (mkRes 500 (res_type (res w)) (res_cookies (res w))
                                 (Some (SendText ("Token exchange failed: " +++ text r)))))
    end.
Proof.
  intros Hc Hne Hv Ht. cbv zeta. unfold auth_callback.
  unfold bind at 1. unfold lift at 1. rewrite Hv, Hc, Ht.
  apply String.eqb_neq in Hne. cbn [option_truthy or_default]. rewrite Hne. cbn [negb orb].
  unfold exchange_request.
  unfold bind at 1. unfold fetch at 1.
  destruct (upstream (log w) _) as [r|e]; [|reflexivity].
  destruct (ok r); cbn [negb]; [|reflexivity].
  unfold bind at 1. unfold lift at 1. destruct (json r) as [tokens|e]; [|reflexivity].
  unfold bind at 1. unfold lift at 1. destruct (get tokens "scope"); reflexivity.
Qed.

(** X11: where [verifyState] returns, GET /auth/callback answers 400 with
    [State mismatch or missing code.] exactly when the code is missing or
    empty or the state was turned down (missing, unsigned, wrongly signed
    or expired); and when it answers 400 it has sent nothing upstream and
    set no cookie. *)
Theorem callback_answers_400_exactly_when_refused
        (env : Env) (req : Req) (w : World) (v : JSValue) :
  verifyState SESSION_SECRET (clock env) (query req "state") = Ok v ->
  res_sent (res w) = None ->
  (responds_400 (auth_callback' env req w)
   <-> option_truthy (query req "code") = false \/ truthy v = false)
  /\ (responds_400 (auth_callback' env req w) ->
      log (snd (auth_callback' env req w)) = log w
      /\ res_cookies (res (snd (auth_callback' env req w))) = res_cookies (res w)).
Proof. apply callback_400_when_verifyState_returns. Qed.

(** X12: when the token endpoint turns the exchange down, GET
    /auth/callback answers 500 with [Token exchange failed: ] and the
    upstream text, after the one request that carried the code, and sets
    no cookie. *)
Theorem callback_exchange_failure_is_500
        (env : Env) (req : Req) (w : World) (code : string) (v : JSValue) (r : Response) :
  query req "code" = Some code -> code <> "" ->
  verifyState SESSION_SECRET (clock env) (query req "state") = Ok v -> truthy v = true ->
  let rq := exchange_request SPOTIFY_CLIENT_ID SPOTIFY_CLIENT_SECRET SPOTIFY_REDIRECT_URI code in
  upstream (log w) rq = Ok r -> ok r = false ->
  auth_callback' env req w
  = (Ok tt, mkWorld (log w ++ [rq])
                    (mkRes 500 (res_type (res w)) (res_cookies (res w))
                           (Some (SendText ("Token exchange failed: " +++ text r))))).
Proof.
  intros Hc Hne Hv Ht rq Hup Hok.
  rewrite (auth_callback_exchange env req w Hc Hne Hv Ht). cbv zeta.
  fold rq. rewrite Hup, Hok. reflexivity.
Qed.

(** X13: login and callback, end to end.  With a code, and with the state
    that GET /auth/login issued no more than ten minutes before, a token
    endpoint that answers ok with a JSON object makes GET /auth/callback
    send that one request, set a cookie for each token that is there (and
    none for one that is missing or empty), and redirect to the
    [return_to] of the login request, or to the default when it had
    none: the fallback [/connected] is never the target. *)
Theorem callback_completes_the_login
        (env0 : Env) (req0 : Req) (env : Env) (req : Req) (w : World)
        (code : string) (r : Response) (tokens : JSValue) :
  let return_to := or_default (query req0 "return_to") "http://127.0.0.1:4200" in
  let payload := mkPayload (nonce_hex env0) (Some return_to) (Int (clock env0 + 10 * 60 * 1000)) in
  let rq := exchange_request SPOTIFY_CLIENT_ID SPOTIFY_CLIENT_SECRET SPOTIFY_REDIRECT_URI code in
  query req "state" = Some (signState SESSION_SECRET payload) ->
  clock env <= clock env0 + 10 * 60 * 1000 ->
  query req "code" = Some code -> code <> "" ->
  upstream (log w) rq = Ok r -> ok r = true -> json r = Ok tokens -> nullish tokens = false ->
  auth_callback' env req w
  = (Ok tt,
     mkWorld (log w ++ [rq])
             (mkRes 302 (res_type (res w))
                    (res_cookies (res w)
                       ++ (if truthy (get_opt tokens "access_token")
                           then [cookie_for req "spotify_access_token"
                                            (get_opt tokens "access_token") ACCESS_MS]
                           else [])
                       ++ (if truthy (get_opt tokens "refresh_token")
                           then [cookie_for req "spotify_refresh_token"
                                            (get_opt tokens "refresh_token") REFRESH_MS]
                           else []))
                    (Some (Redirect (JStr return_to)))))
  /\ return_to <> "".
Proof.
  intros return_to payload rq Hstate Hclock Hc Hne Hup Hok Hjson Hn.
  assert (Hv : verifyState SESSION_SECRET (clock env) (query req "state")
               = Ok (payload_value payload)).
  { rewrite Hstate. apply verifyState_of_signState; [reflexivity | exact I |].
    cbn. apply Z.ltb_ge. exact Hclock. }
  assert (Hrt : return_to <> "").
  { unfold return_to, or_default. destruct (query req0 "return_to") as [s|]; [|discriminate].
    destruct (String.eqb_spec s ""); [discriminate | assumption]. }
  split; [|exact Hrt].
  rewrite (auth_callback_exchange env req w Hc Hne Hv eq_refl). cbv zeta.
  fold rq. rewrite Hup, Hok, Hjson, (get_nullish tokens "scope" Hn).
  unfold bind at 1. rewrite set_token_cookies_cases by exact Hn.
  unfold bind, lift. rewrite get_payload_rt. cbn [rt payload].
  unfold js_or. cbn [truthy]. apply String.eqb_neq in Hrt. rewrite Hrt. reflexivity.
Qed.

End CallbackSteps.

Lemma callback_answers_400_exactly_when_refused_witness :
  let q (name : string) := if (name =? "code")%string then Some "AQD-code" else None in
  let req := mkReq (fun _ => JUndefined) q JUndefined "http" in
  responds_400 (auth_callback "s3cret" "id" "secret" "http://127.0.0.1:8080/auth/callback"
                              demo_upstream demo_env req fresh).
Proof.
  cbv zeta.
  apply (@callback_answers_400_exactly_when_refused
           "s3cret" "id" "secret" "http://127.0.0.1:8080/auth/callback" demo_upstream demo_env
           (mkReq (fun _ => JUndefined)
                  (fun name => if (name =? "code")%string then Some "AQD-code" else None)
                  JUndefined "http")
           fresh JNull eq_refl eq_refl).
  right. reflexivity.
Defined.

Lemma callback_exchange_failure_is_500_witness :
  let state := signState "s3cret" (mkPayload "9f2c" (Some "http://127.0.0.1:4200")
                                             (Int 1700000600000)) in
  let q (name : string) := if (name =? "code")%string then Some "AQD-code"
                           else if (name =? "state")%string then Some state else None in
  let req := mkReq (fun _ => JUndefined) q JUndefined "http" in
  let out := auth_callback "s3cret" "id" "secret" "http://127.0.0.1:8080/auth/callback"
                           down_upstream demo_env req fresh in
  res_status (res (snd out)) = 500
  /\ res_sent (res (snd out)) = Some (SendText "Token exchange failed: ")
  /\ res_cookies (res (snd out)) = [].
Proof.
  cbv zeta.
  rewrite (@callback_exchange_failure_is_500
             "s3cret" "id" "secret" "http://127.0.0.1:8080/auth/callback" down_upstream demo_env
             (mkReq (fun _ => JUndefined)
                    (fun name =>
                       if (name =? "code")%string then Some "AQD-code"
                       else if (name =? "state")%string
                            then Some (signState "s3cret"
                                         (mkPayload "9f2c" (Some "http://127.0.0.1:4200")
                                                    (Int 1700000600000)))
                            else None)
                    JUndefined "http")
             fresh "AQD-code"
             (payload_value (mkPayload "9f2c" (Some "http://127.0.0.1:4200") (Int 1700000600000)))
             (mkResponse 503 "")).
  - repeat split.
  - reflexivity.
  - discriminate.
  - vm_compute. reflexivity.
  - reflexivity.
  - reflexivity.
  - reflexivity.
Defined.

Lemma callback_completes_the_login_witness :
  let q0 (name : string) := if (name =? "return_to")%string then Some "http://localhost:4200/home"
                            else None in
  let req0 := mkReq (fun _ => JUndefined) q0 JUndefined "http" in
  let state := signState "s3cret" (mkPayload (nonce_hex demo_env) (Some "http://localhost:4200/home")
                                             (Int (clock demo_env + 10 * 60 * 1000))) in
  let q (name : string) := if (name =? "code")%string then Some "AQD-code"
                           else if (name =? "state")%string then Some state else None in
  let req := mkReq (fun _ => JUndefined) q JUndefined "http" in
  let out := auth_callback "s3cret" "id" "secret" "http://127.0.0.1:8080/auth/callback"
                           demo_upstream demo_env req fresh in
  res_sent (res (snd out)) = Some (Redirect (JStr "http://localhost:4200/home"))
  /\ map c_name (res_cookies (res (snd out))) = ["spotify_access_token"].
Proof.
  cbv zeta.
  destruct (@callback_completes_the_login
              "s3cret" "id" "secret" "http://127.0.0.1:8080/auth/callback" demo_upstream
              demo_env
              (mkReq (fun _ => JUndefined)
                     (fun name => if (name =? "return_to")%string
                                  then Some "http://localhost:4200/home" else None)
                     JUndefined "http")
              demo_env
              (mkReq (fun _ => JUndefined)
                     (fun name =>
                        if (name =? "code")%string then Some "AQD-code"
                        else if (name =? "state")%string
                             then Some (signState "s3cret"
                                          (mkPayload (nonce_hex demo_env)
                                                     (Some "http://localhost:4200/home")
                                                     (Int (clock demo_env + 10 * 60 * 1000))))
                             else None)
                     JUndefined "http")
              fresh "AQD-code"
              (mkResponse 200 (dq "{'access_token':'fresh-token','scope':'user-top-read'}"))
              (JObj [("access_token", JStr "fresh-token"); ("scope", JStr "user-top-read")]))
    as [H _].
  - reflexivity.
  - cbn. lia.
  - reflexivity.
  - discriminate.
  - reflexivity.
  - reflexivity.
  - vm_compute. reflexivity.
  - reflexivity.
  - rewrite H. split; reflexivity.
Defined.

(** ** What every route keeps: the requests it may send, the cookies it
    may set *)

Section Preserved.

Variable R : World -> World -> Prop.
Hypothesis R_refl : forall w, R w w.
Hypothesis R_trans : forall a b c, R a b -> R b c -> R a c.

Lemma preserves_ret {A} (a : A) : preserves R (ret a).
Proof. intro w. apply R_refl. Qed.

Lemma preserves_throw {A} (e : exn) : preserves R (@throw A e).
Proof. intro w. apply R_refl. Qed.

Lemma preserves_lift {A} (r : result A) : preserves R (lift r).
Proof. intro w. apply R_refl. Qed.

Lemma preserves_bind {A B} (m : M A) (k : A -> M B) :
  preserves R m -> (forall a, preserves R (k a)) -> preserves R (bind m k).
Proof.
  intros Hm Hk w. unfold bind. specialize (Hm w).
  destruct (m w) as [[a|e] w1]; cbn [snd] in *; [|exact Hm].
  eapply R_trans; [exact Hm | apply Hk].
Qed.

Lemma preserves_try_catch {A} (m : M A) (h : exn -> M A) :
  preserves R m -> (forall e, preserves R (h e)) -> preserves R (try_catch m h).
Proof.
  intros Hm Hh w. unfold try_catch. specialize (Hm w).
  destruct (m w) as [[a|e] w1]; cbn [snd] in *; [exact Hm|].
  eapply R_trans; [exact Hm | apply Hh].
Qed.

Lemma preserves_when (c : bool) (m : M unit) :
  (c = true -> preserves R m) -> preserves R (when c m).
Proof. intro H. unfold when. destruct c; [now apply H | apply preserves_ret]. Qed.

End Preserved.

Section Keeps.

Variable SESSION_SECRET : string.
Variable SPOTIFY_CLIENT_ID : string.
Variable SPOTIFY_CLIENT_SECRET : string.
Variable SPOTIFY_REDIRECT_URI : string.
Variable URL_CHAT : string.
Variable API_KEY : option string.
Variable MODEL : string.
Variable upstream : list Request -> Request -> result Response.
Variable req : Req.

#[local] Abbreviation keeps := (preserves (extends URL_CHAT req)).

Lemma extends_refl (w : World) : extends URL_CHAT req w w.
Proof. split; exists []; rewrite app_nil_r; split; (reflexivity || constructor). Qed.

Lemma extends_trans (a b c : World) :
  extends URL_CHAT req a b -> extends URL_CHAT req b c -> extends URL_CHAT req a c.
Proof.
  intros [(l1 & E1 & F1) (c1 & G1 & H1)] [(l2 & E2 & F2) (c2 & G2 & H2)]. split.
  - exists (l1 ++ l2). rewrite E2, E1, app_assoc. split; [reflexivity | now apply Forall_app].
  - exists (c1 ++ c2). rewrite G2, G1, app_assoc. split; [reflexivity | now apply Forall_app].
Qed.

Lemma keeps_ret {A} (a : A) : keeps (ret a).
Proof. apply preserves_ret, extends_refl. Qed.

Lemma keeps_throw {A} (e : exn) : keeps (@throw A e).
Proof. apply preserves_throw, extends_refl. Qed.

Lemma keeps_lift {A} (r : result A) : keeps (lift r).
Proof. apply preserves_lift, extends_refl. Qed.

Lemma keeps_bind {A B} (m : M A) (k : A -> M B) :
  keeps m -> (forall a, keeps (k a)) -> keeps (bind m k).
Proof. apply preserves_bind, extends_trans. Qed.

Lemma keeps_try_catch {A} (m : M A) (h : exn -> M A) :
  keeps m -> (forall e, keeps (h e)) -> keeps (try_catch m h).
Proof. apply preserves_try_catch, extends_trans. Qed.

Lemma keeps_when (c : bool) (m : M unit) : (c = true -> keeps m) -> keeps (when c m).
Proof. apply preserves_when, extends_refl. Qed.

Lemma keeps_set_res (f : Res -> Res) :
  (forall r, res_cookies (f r) = res_cookies r) -> keeps (set_res f).
Proof.
  intros Hf w. split.
  - exists []. cbn. rewrite app_nil_r. split; [reflexivity | constructor].
  - exists []. cbn. rewrite Hf, app_nil_r. split; [reflexivity | constructor].
Qed.

Lemma keeps_res_cookie (c : Cookie) : token_cookie req c -> keeps (res_cookie c).
Proof.
  intros Hc w. split.
  - exists []. cbn. rewrite app_nil_r. split; [reflexivity | constructor].
  - exists [c]. cbn. split; [reflexivity | now constructor].
Qed.

Lemma keeps_fetch (rq : Request) : known_request URL_CHAT rq -> keeps (fetch upstream rq).
Proof.
  intros Hrq w. split.
  - exists [rq]. cbn. split; [reflexivity | now constructor].
  - exists []. cbn. rewrite app_nil_r. split; [reflexivity | constructor].
Qed.

Lemma token_request_known (params : list (string * string)) :
  known_request URL_CHAT (token_request params).
Proof. left. split; reflexivity. Qed.

Lemma refresh_request_known (token : string) :
  known_request URL_CHAT (refresh_request SPOTIFY_CLIENT_ID SPOTIFY_CLIENT_SECRET token).
Proof. left. split; reflexivity. Qed.

Lemma bearer_request_known (path token : string) :
  known_request URL_CHAT (bearer_request path token).
Proof. right. left. repeat split. now exists path. Qed.

Lemma chat_request_known (payload : JSValue) :
  known_request URL_CHAT (chat_request URL_CHAT API_KEY payload).
Proof. right. right. split; reflexivity. Qed.

Ltac keeps_step :=
  first
    [ apply keeps_ret | apply keeps_throw | apply keeps_lift
    | apply keeps_fetch;
      first [apply token_request_known | apply refresh_request_known
            | apply bearer_request_known | apply chat_request_known]
    | apply keeps_set_res; intros; reflexivity
    | apply keeps_bind; [|intro]
    | apply keeps_try_catch; [|intro]
    | match goal with
      | |- preserves _ (if ?c then _ else _) => destruct c
      | |- preserves _ (match ?x with (_, _) => _ end) => destruct x
      end ].

Lemma keeps_set_token_cookies (tokens : JSValue) : keeps (set_token_cookies req tokens).
Proof.
  unfold set_token_cookies.
  apply keeps_bind; [apply keeps_lift | intro at_].
  apply keeps_bind.
  - apply keeps_when. intro Ht. apply keeps_res_cookie. unfold token_cookie, cookie_for. cbn.
    repeat split; try assumption. now left.
  - intros _. apply keeps_bind; [apply keeps_lift | intro rt_].
    apply keeps_when. intro Ht. apply keeps_res_cookie. unfold token_cookie, cookie_for. cbn.
    repeat split; try assumption. now right.
Qed.

Lemma keeps_refreshAccessToken :
  keeps (refreshAccessToken SPOTIFY_CLIENT_ID SPOTIFY_CLIENT_SECRET upstream req).
Proof.
  unfold refreshAccessToken. cbv zeta.
  repeat first [apply keeps_set_token_cookies | keeps_step].
Qed.

Lemma keeps_sfetch (path : string) :
  keeps (sfetch SPOTIFY_CLIENT_ID SPOTIFY_CLIENT_SECRET upstream req path).
Proof.
  unfold sfetch, doFetch. cbv zeta.
  repeat first [apply keeps_refreshAccessToken | keeps_step].
Qed.

(** *** The three calls of GET /debug/topcounts *)

Lemma token_cookie_access (v : JSValue) :
  truthy v = true -> token_cookie req (cookie_for req "spotify_access_token" v ACCESS_MS).
Proof. intro H. unfold token_cookie, cookie_for. cbn. repeat split; try assumption. now left. Qed.

Lemma token_cookie_refresh (v : JSValue) :
  truthy v = true -> token_cookie req (cookie_for req "spotify_refresh_token" v REFRESH_MS).
Proof. intro H. unfold token_cookie, cookie_for. cbn. repeat split; try assumption. now right. Qed.

Lemma topcounts_calls_known :
  Forall2 (task_ok (known_request URL_CHAT) (token_cookie req))
          (topcounts_calls SPOTIFY_CLIENT_ID SPOTIFY_CLIENT_SECRET req) [3; 3; 3]%nat.
Proof.
  apply topcounts_calls_ok.
  - apply bearer_request_known.
  - apply refresh_request_known.
  - apply token_cookie_access.
  - apply token_cookie_refresh.
Qed.

Lemma grows_extends (w w' : World) :
  grows (known_request URL_CHAT) (token_cookie req) w w' -> extends URL_CHAT req w w'.
Proof. intros [Hl [Hc _]]. now split. Qed.

Lemma keeps_topcounts_block (settled : result (list JSValue)) : keeps (topcounts_block settled).
Proof.
  unfold topcounts_block, res_json. cbv zeta.
  repeat keeps_step.
Qed.

Lemma keeps_debug_topcounts (env : Env) :
  keeps (debug_topcounts SPOTIFY_CLIENT_ID SPOTIFY_CLIENT_SECRET upstream env req).
Proof.
  intro w. unfold debug_topcounts.
  destruct (@promise_all_ok upstream JSValue _ _ env 9 _ _ w topcounts_calls_known)
    as (o & step & cs & w1 & ns & Heq & Hcs & Hg & _); [cbn; lia|].
  rewrite Heq.
  assert (Hcatch : keeps (try_catch (topcounts_block o) json_error)).
  { apply keeps_try_catch; [apply keeps_topcounts_block | intro e].
    unfold json_error, res_json, res_status_set. repeat keeps_step. }
  specialize (Hcatch w1).
  destruct (try_catch (topcounts_block o) json_error w1) as [r w2]. cbn [snd] in *.
  destruct (@go_on_ok upstream JSValue _ _ env 9 step cs ns w2 Hcs) as [Hg2 _].
  eapply extends_trans; [exact (grows_extends Hg)|].
  eapply extends_trans; [exact Hcatch | exact (grows_extends Hg2)].
Qed.

Lemma keeps_batch_loop (fuel : nat) (ids : list JSValue) (i : nat) (batched : list JSValue) :
  keeps (batch_loop SPOTIFY_CLIENT_ID SPOTIFY_CLIENT_SECRET upstream fuel req ids i batched).
Proof.
  revert i batched. induction fuel as [|fuel IH]; intros i batched; cbn [batch_loop].
  - apply keeps_ret.
  - destruct (i <? length ids)%nat; [|apply keeps_ret].
    apply keeps_bind; [apply keeps_lift | intro path].
    apply keeps_bind; [apply keeps_sfetch | intro resp].
    apply keeps_bind; [apply keeps_lift | intro artists].
    apply keeps_bind; [apply keeps_lift | intro more]. apply IH.
Qed.

Ltac keeps_all :=
  cbv zeta;
  repeat first [ apply keeps_sfetch | apply keeps_batch_loop | apply keeps_set_token_cookies
               | keeps_step ].

(** Every handler of the app, on the answer to [req]. *)
Lemma keeps_app (r : Route) (env : Env) :
  In r (app SESSION_SECRET SPOTIFY_CLIENT_ID SPOTIFY_CLIENT_SECRET SPOTIFY_REDIRECT_URI
            URL_CHAT API_KEY MODEL upstream) ->
  keeps (r_handler r env req).
Proof.
  unfold app, mount, chatRouter. cbn [List.app map In r_handler r_method r_path String.eqb].
  intros [<-|[<-|[<-|[<-|[<-|[<-|[<-|[<-|[<-|[<-|[<-|[]]]]]]]]]]]]; cbn [r_handler].
  - unfold auth_login. keeps_all.
  - unfold auth_callback. keeps_all.
  - unfold debug_tokens, res_json. keeps_all.
  - unfold spotify_me, send_error, res_json, res_status_set, res_send. keeps_all.
  - unfold spotify_top_tracks, send_error, res_json, res_status_set, res_send. keeps_all.
  - unfold spotify_top_artists, send_error, res_json, res_status_set, res_send. keeps_all.
  - unfold spotify_recent, send_error, res_json, res_status_set, res_send. keeps_all.
  - unfold enriched_top_tracks, enriched_block, json_error, res_json, res_status_set. keeps_all.
  - apply keeps_debug_topcounts.
  - unfold chat_test, res_json, res_status_set, res_send, res_type_set. keeps_all.
  - unfold chat_post, chat_block, res_json, res_status_set. keeps_all.
Qed.

(** X14: whatever the request and whatever the upstream answers, every
    request that a route of the app sends is a POST to the token
    endpoint, a GET below the API root with an [Authorization] header and
    no body, or a POST to the chat endpoint; and the log only grows. *)
Theorem every_route_sends_known_requests (r : Route) (env : Env) (w : World) :
  In r (app SESSION_SECRET SPOTIFY_CLIENT_ID SPOTIFY_CLIENT_SECRET SPOTIFY_REDIRECT_URI
            URL_CHAT API_KEY MODEL upstream) ->
  exists l, log (snd (r_handler r env req w)) = log w ++ l
            /\ Forall (known_request URL_CHAT) l.
Proof. intro H. exact (proj1 (keeps_app env H w)). Qed.

(** X15: whatever the request and whatever the upstream answers, every
    cookie that a route of the app sets is one of the two token cookies,
    with a value that is not empty, [httpOnly], [sameSite=lax], path [/],
    the age that goes with its name (one hour, thirty days), and [secure]
    exactly when the request came over https; and no cookie set before is
    dropped. *)
Theorem every_route_sets_token_cookies_only (r : Route) (env : Env) (w : World) :
  In r (app SESSION_SECRET SPOTIFY_CLIENT_ID SPOTIFY_CLIENT_SECRET SPOTIFY_REDIRECT_URI
            URL_CHAT API_KEY MODEL upstream) ->
  exists cs, res_cookies (res (snd (r_handler r env req w))) = res_cookies (res w) ++ cs
             /\ Forall (token_cookie req) cs.
Proof. intro H. exact (proj2 (keeps_app env H w)). Qed.

End Keeps.

Lemma every_route_sends_known_requests_witness :
  let req := demo_req (JStr "stale") (JStr "r1") in
  exists l,
    log (snd (spotify_me "id" "secret" demo_upstream demo_env req fresh)) = [] ++ l
    /\ Forall (known_request "https://inference.do-ai.run/v1/chat/completions") l.
Proof.
  cbv zeta.
  apply (@every_route_sends_known_requests
           "s3cret" "id" "secret" "http://127.0.0.1:8080/auth/callback"
           "https://inference.do-ai.run/v1/chat/completions" (Some "key")
           "meta-llama/llama-3.1-70b-instruct" demo_upstream
           (demo_req (JStr "stale") (JStr "r1"))
           (mkRoute GET "/spotify/me" (spotify_me "id" "secret" demo_upstream))
           demo_env fresh).
  right. right. right. left. reflexivity.
Defined.

Lemma every_route_sets_token_cookies_only_witness :
  let req := demo_req (JStr "stale") (JStr "r1") in
  exists cs,
    res_cookies (res (snd (spotify_me "id" "secret" demo_upstream demo_env req fresh))) = [] ++ cs
    /\ Forall (token_cookie req) cs.
Proof.
  cbv zeta.
  apply (@every_route_sets_token_cookies_only
           "s3cret" "id" "secret" "http://127.0.0.1:8080/auth/callback"
           "https://inference.do-ai.run/v1/chat/completions" (Some "key")
           "meta-llama/llama-3.1-70b-instruct" demo_upstream
           (demo_req (JStr "stale") (JStr "r1"))
           (mkRoute GET "/spotify/me" (spotify_me "id" "secret" demo_upstream))
           demo_env fresh).
  right. right. right. left. reflexivity.
Defined.

(** ** Every route answers *)

Lemma sends_bind {A} (m : M A) (k : A -> M unit) :
  (forall a, sends_on_return (k a)) -> sends_on_return (bind m k).
Proof.
  intros H w w' E. unfold bind in E.
  destruct (m w) as [[a|e] w1]; [exact (H a w1 w' E) | discriminate].
Qed.

Lemma sends_res_json (v : JSValue) : sends_on_return (res_json v).
Proof. intros w w' [= <-]. discriminate. Qed.

Lemma sends_res_send (s : string) : sends_on_return (res_send s).
Proof. intros w w' [= <-]. discriminate. Qed.

Lemma sends_res_redirect (v : JSValue) : sends_on_return (res_redirect v).
Proof. intros w w' [= <-]. discriminate. Qed.

(** A [try] block that sends when it returns, under a [catch] that
    sets the status and sends. *)
Lemma answers_try_catch (m : M unit) (h : exn -> M unit) (w : World) :
  sends_on_return m -> (forall e w1, answers (h e w1)) -> answers (try_catch m h w).
Proof.
  intros Hm Hh. unfold try_catch. destruct (m w) as [[[]|e] w1] eqn:E.
  - split; [reflexivity | exact (Hm w w1 E)].
  - apply Hh.
Qed.

Ltac sends :=
  cbv zeta;
  repeat first
    [ apply sends_res_json | apply sends_res_send | apply sends_res_redirect
    | apply sends_bind; intro
    | match goal with
      | |- sends_on_return (if ?c then _ else _) => destruct c
      | |- sends_on_return (match ?x with (_, _) => _ end) => destruct x
      end ].

Section Answers.

Variable SESSION_SECRET : string.
Variable SPOTIFY_CLIENT_ID : string.
Variable SPOTIFY_CLIENT_SECRET : string.
Variable SPOTIFY_REDIRECT_URI : string.
Variable URL_CHAT : string.
Variable API_KEY : option string.
Variable MODEL : string.
Variable upstream : list Request -> Request -> result Response.

(** [Promise.all] settles and the handler answers; what the calls still
    under way do afterwards leaves the answer alone. *)
Lemma answers_debug_topcounts (env : Env) (req : Req) (w : World) :
  answers (debug_topcounts SPOTIFY_CLIENT_ID SPOTIFY_CLIENT_SECRET upstream env req w).
Proof.
  unfold debug_topcounts.
  destruct (@promise_all_ok upstream JSValue _ _ env 9 _ _ w
              (topcounts_calls_known SPOTIFY_CLIENT_ID SPOTIFY_CLIENT_SECRET URL_CHAT req))
    as (o & step & cs & w1 & ns & Heq & _); [cbn; lia|].
  rewrite Heq.
  assert (H : answers (try_catch (topcounts_block o) json_error w1)).
  { apply answers_try_catch;
      [unfold topcounts_block; sends | intros; split; [reflexivity | discriminate]]. }
  destruct (try_catch (topcounts_block o) json_error w1) as [r w2].
  destruct H as [Hr Hs]. split; [exact Hr|]. cbn [snd] in *.
  now rewrite go_on_answered.
Qed.

(** X16: every route of the app but GET /auth/callback returns and has
    sent an answer, whatever the request and whatever the upstream does:
    no error escapes from them. *)
Theorem every_route_but_the_callback_answers (r : Route) (env : Env) (req : Req) (w : World) :
  In r (app SESSION_SECRET SPOTIFY_CLIENT_ID SPOTIFY_CLIENT_SECRET SPOTIFY_REDIRECT_URI
            URL_CHAT API_KEY MODEL upstream) ->
  r_path r <> "/auth/callback" ->
  res_sent (res w) = None ->
  answers (r_handler r env req w).
Proof.
  unfold app, mount, chatRouter. cbn [List.app map In r_handler r_method r_path String.eqb].
  intros [<-|[<-|[<-|[<-|[<-|[<-|[<-|[<-|[<-|[<-|[<-|[]]]]]]]]]]]] Hpath _;
    cbn [r_handler r_path] in *; try congruence.
  - split; [reflexivity | discriminate].
  - split; [reflexivity | discriminate].
  - apply answers_try_catch; [sends | intros; split; [reflexivity | discriminate]].
  - apply answers_try_catch; [sends | intros; split; [reflexivity | discriminate]].
  - apply answers_try_catch; [sends | intros; split; [reflexivity | discriminate]].
  - apply answers_try_catch; [sends | intros; split; [reflexivity | discriminate]].
  - apply answers_try_catch;
      [unfold enriched_block; sends | intros; split; [reflexivity | discriminate]].
  - apply answers_debug_topcounts.
  - apply answers_try_catch; [sends | intros; split; [reflexivity | discriminate]].
  - apply answers_try_catch;
      [unfold chat_block; sends | intros; split; [reflexivity | discriminate]].
Qed.

End Answers.

Lemma every_route_but_the_callback_answers_witness :
  answers (enriched_top_tracks "id" "secret" down_upstream demo_env
                               (demo_req (JStr "tok") JUndefined) fresh).
Proof.
  apply (@every_route_but_the_callback_answers
           "s3cret" "id" "secret" "http://127.0.0.1:8080/auth/callback"
           "https://inference.do-ai.run/v1/chat/completions" (Some "key")
           "meta-llama/llama-3.1-70b-instruct" down_upstream
           (mkRoute GET "/enriched/top-tracks" (enriched_top_tracks "id" "secret" down_upstream))
           demo_env (demo_req (JStr "tok") JUndefined) fresh).
  - do 7 right. left. reflexivity.
  - discriminate.
  - reflexivity.
Defined.

(** ** The proxy routes, outcome by outcome *)

Section ProxyOutcomes.

Variable SPOTIFY_CLIENT_ID : string.
Variable SPOTIFY_CLIENT_SECRET : string.
Variable upstream : list Request -> Request -> result Response.

#[local] Abbreviation refreshAccessToken' := (refreshAccessToken SPOTIFY_CLIENT_ID SPOTIFY_CLIENT_SECRET upstream).
#[local] Abbreviation sfetch' := (sfetch SPOTIFY_CLIENT_ID SPOTIFY_CLIENT_SECRET upstream).
#[local] Abbreviation final_response' := (final_response SPOTIFY_CLIENT_ID SPOTIFY_CLIENT_SECRET upstream).
#[local] Abbreviation refresh_request' := (refresh_request SPOTIFY_CLIENT_ID SPOTIFY_CLIENT_SECRET).
#[local] Abbreviation proxied' := (proxied SPOTIFY_CLIENT_ID SPOTIFY_CLIENT_SECRET upstream).

Lemma refreshAccessToken_cases (req : Req) (w : World) :
  refreshAccessToken' req w
  = if truthy (cookies req "spotify_refresh_token") then
      match ToString (cookies req "spotify_refresh_token") with
      | Throw e => (Throw e, w)
      | Ok token =>
          let rq := refresh_request' token in
          let w1 := mkWorld (log w ++ [rq]) (res w) in
          match upstream (log w) rq with
          | Throw e => (Throw e, w1)
          | Ok r =>
              if ok r then
                match json r with
                | Throw e => (Throw e, w1)
                | Ok j => (set_token_cookies req j ;; lift (get j "access_token"))%monad w1
                end
              else (Ok JNull, w1)
          end
      end
    else (Ok JNull, w).
Proof.
  unfold refreshAccessToken.
  destruct (truthy (cookies req "spotify_refresh_token")); cbn [negb]; [|reflexivity].
  unfold bind at 1. unfold lift at 1.
  destruct (ToString (cookies req "spotify_refresh_token")) as [token|e]; [|reflexivity].
  cbv zeta. unfold bind at 1. unfold fetch at 1.
  destruct (upstream (log w) _) as [r|e]; [|reflexivity].
  destruct (ok r); cbn [negb]; [|reflexivity].
  unfold bind at 1. unfold lift at 1. destruct (json r); reflexivity.
Qed.

Lemma set_token_cookies_same_answer (req : Req) (tokens : JSValue) :
  preserves same_answer (set_token_cookies req tokens).
Proof.
  intro w. destruct (set_token_cookies_keeps req tokens w) as [H1 H2].
  repeat split; try assumption.
  unfold set_token_cookies, bind, lift, when, res_cookie, set_res, ret.
  destruct (get tokens "access_token") as [a|e]; [|reflexivity].
  destruct (truthy a); cbn [fst snd];
    destruct (get tokens "refresh_token") as [r|e']; try reflexivity;
    destruct (truthy r); reflexivity.
Qed.

Lemma fetch_same_answer (rq : Request) : preserves same_answer (fetch upstream rq).
Proof. intro w. repeat split. Qed.

(** [refreshAccessToken] leaves the answer alone. *)
Lemma refreshAccessToken_same_answer (req : Req) : preserves same_answer (refreshAccessToken' req).
Proof.
  unfold refreshAccessToken.
  destruct (negb (truthy _)); [apply preserves_ret, same_answer_refl|].
  apply (preserves_bind same_answer_trans); [apply preserves_lift, same_answer_refl | intro token].
  apply (preserves_bind same_answer_trans); [apply fetch_same_answer | intro r].
  destruct (negb (ok r)); [apply preserves_ret, same_answer_refl|].
  apply (preserves_bind same_answer_trans); [apply preserves_lift, same_answer_refl | intro j].
  apply (preserves_bind same_answer_trans); [apply set_token_cookies_same_answer | intros _].
  apply preserves_lift, same_answer_refl.
Qed.

(** [sfetch] leaves the answer alone: it writes cookies and nothing
    else. *)
Lemma doFetch_same_answer (path : string) (access : JSValue) :
  preserves same_answer (doFetch upstream path access).
Proof.
  unfold doFetch.
  apply (preserves_bind same_answer_trans); [apply preserves_lift, same_answer_refl | intro token].
  apply fetch_same_answer.
Qed.

Lemma sfetch_same_answer (req : Req) (path : string) : preserves same_answer (sfetch' req path).
Proof.
  unfold sfetch. cbv zeta.
  apply (preserves_bind same_answer_trans); [apply doFetch_same_answer | intro r1].
  apply (preserves_bind same_answer_trans).
  - destruct (status r1 =? 401); [|apply preserves_ret, same_answer_refl].
    apply (preserves_bind same_answer_trans); [apply refreshAccessToken_same_answer | intro t].
    destruct (negb (truthy _)); [apply preserves_throw, same_answer_refl | apply doFetch_same_answer].
  - intro r. destruct (negb (ok r));
      [apply preserves_throw, same_answer_refl | apply preserves_lift, same_answer_refl].
Qed.

Lemma sfetch_final (req : Req) (path : string) (w : World) (r : Response) :
  final_response' req path w = Some r -> fst (sfetch' req path w) = finish r.
Proof.
  unfold final_response. rewrite sfetch_cases.
  destruct (doFetch upstream path _ w) as [[r1|e] w1]; [|discriminate].
  destruct (status r1 =? 401).
  - destruct (refreshAccessToken _ _ _ req _) as [[tok|e] w2]; [|discriminate].
    destruct (truthy tok); [|discriminate].
    destruct (doFetch upstream path tok w2) as [[r2|e2] w3]; [|discriminate].
    now intros [= ->].
  - now intros [= ->].
Qed.

(** X17: a proxy route hands on what upstream gave: when the response
    [sfetch] ends with is ok and is JSON, the route answers with that JSON
    value and leaves the status as it was. *)
Theorem proxy_forwards_upstream_json
        (env : Env) (req : Req) (w : World) (path : string) (h : Handler)
        (r : Response) (v : JSValue) :
  In (path, h) (proxied' req) ->
  final_response' req path w = Some r -> ok r = true -> json r = Ok v ->
  fst (h env req w) = Ok tt
  /\ res_sent (res (snd (h env req w))) = Some (SendJson v)
  /\ res_status (res (snd (h env req w))) = res_status (res w).
Proof.
  intros Hin Hf Hok Hjson. rewrite (proxied_shape Hin).
  pose proof (sfetch_final req path w Hf) as Hs.
  unfold finish in Hs. rewrite Hok, Hjson in Hs.
  destruct (sfetch_same_answer req path w) as (Hst & _ & _).
  unfold try_catch, bind. destruct (sfetch' req path w) as [[x|e] w1]; cbn [fst snd] in *;
    [|discriminate].
  injection Hs as ->. repeat split. exact Hst.
Qed.

(** X18: an expired session surfaces as a 500.  When the access cookie
    can be printed, upstream answers 401 and the token cannot be
    refreshed, because the request has no refresh cookie or because the
    token endpoint turns down the refresh asked with the cookie's text, a
    proxy route answers 500 with [Unauthorized and refresh failed]; it
    has not asked for the resource again and has set no cookie. *)
Theorem expired_session_is_a_500
        (env : Env) (req : Req) (w : World) (path : string) (h : Handler) (r1 : Response)
        (token : string) :
  let first := bearer_request path token in
  let cookie := cookies req "spotify_refresh_token" in
  In (path, h) (proxied' req) ->
  ToString (cookies req "spotify_access_token") = Ok token ->
  upstream (log w) first = Ok r1 -> status r1 = 401 ->
  (truthy cookie = false
   \/ exists refresh_token r,
        ToString cookie = Ok refresh_token
        /\ upstream (log w ++ [first]) (refresh_request' refresh_token) = Ok r /\ ok r = false) ->
  h env req w
  = (Ok tt,
     mkWorld (log w ++ first :: (if truthy cookie
                                 then match ToString cookie with
                                      | Ok refresh_token => [refresh_request' refresh_token]
                                      | Throw _ => []
                                      end
                                 else []))
             (mkRes 500 (res_type (res w)) (res_cookies (res w))
                    (Some (SendText "Unauthorized and refresh failed")))).
Proof.
  intros first cookie Hin Hprint Hup H401 Hno. rewrite (proxied_shape Hin).
  unfold try_catch, bind. rewrite (sfetch_with_token _ _ _ _ _ _ Hprint). cbv zeta. fold first.
  rewrite Hup. apply Z.eqb_eq in H401. rewrite H401.
  rewrite refreshAccessToken_cases. cbv zeta. fold cookie. cbn [log].
  destruct (truthy cookie).
  - destruct Hno as [Hno|[refresh_token [r [Ht [Hr Hok]]]]]; [discriminate|].
    rewrite Ht, Hr, Hok. cbn. now rewrite <- app_assoc.
  - reflexivity.
Qed.

(** X19: refresh and retry, end to end.  When the access cookie and the
    refresh cookie can be printed, upstream answers 401, the token
    endpoint answers ok with a JSON object that has an access token
    that can be printed, and upstream then answers the retry with ok and
    JSON, a proxy route has sent three requests (the resource, the
    refresh, the resource again with the new token), has set the access
    cookie to the new token (and the refresh cookie when a new refresh
    token came), and answers with the retry's JSON. *)
Theorem refresh_and_retry_succeeds
        (env : Env) (req : Req) (w : World) (path : string) (h : Handler)
        (r1 rt r2 : Response) (tokens v : JSValue) (token refresh_token fresh_token : string) :
  let first := bearer_request path token in
  let refresh := refresh_request' refresh_token in
  let second := bearer_request path fresh_token in
  In (path, h) (proxied' req) ->
  ToString (cookies req "spotify_access_token") = Ok token ->
  upstream (log w) first = Ok r1 -> status r1 = 401 ->
  truthy (cookies req "spotify_refresh_token") = true ->
  ToString (cookies req "spotify_refresh_token") = Ok refresh_token ->
  upstream (log w ++ [first]) refresh = Ok rt -> ok rt = true ->
  json rt = Ok tokens -> nullish tokens = false ->
  truthy (get_opt tokens "access_token") = true ->
  ToString (get_opt tokens "access_token") = Ok fresh_token ->
  upstream (log w ++ [first; refresh]) second = Ok r2 -> ok r2 = true -> json r2 = Ok v ->
  h env req w
  = (Ok tt,
     mkWorld (log w ++ [first; refresh; second])
             (mkRes (res_status (res w)) (res_type (res w))
                    (res_cookies (res w)
                       ++ [cookie_for req "spotify_access_token"
                                      (get_opt tokens "access_token") ACCESS_MS]
                       ++ (if truthy (get_opt tokens "refresh_token")
                           then [cookie_for req "spotify_refresh_token"
                                            (get_opt tokens "refresh_token") REFRESH_MS]
                           else []))
                    (Some (SendJson v)))).
Proof.
  intros first refresh second Hin Hprint Hup H401 Hcookie Hprint2 Hrt Hokrt Hjson Hn Hat
         Hprint3 Hup2 Hok2 Hv.
  rewrite (proxied_shape Hin).
  unfold try_catch. unfold bind at 1. rewrite (sfetch_with_token _ _ _ _ _ _ Hprint).
  cbv zeta. fold first.
  rewrite Hup. apply Z.eqb_eq in H401. rewrite H401.
  rewrite refreshAccessToken_cases. cbv zeta. rewrite Hcookie, Hprint2. fold refresh. cbn [log].
  rewrite Hrt, Hokrt, Hjson.
  unfold bind at 1. rewrite set_token_cookies_cases by exact Hn.
  unfold lift. rewrite (get_nullish tokens "access_token" Hn), Hat, Hprint3. cbn [log res].
  fold second. rewrite <- app_assoc. cbn [List.app]. rewrite Hup2.
  unfold finish. rewrite Hok2, Hv.
  unfold res_json, set_res. cbn. rewrite <- !app_assoc. reflexivity.
Qed.

End ProxyOutcomes.

Lemma proxy_forwards_upstream_json_witness :
  let req := demo_req (JStr "fresh-token") JUndefined in
  res_sent (res (snd (spotify_me "id" "secret" demo_upstream demo_env req fresh)))
  = Some (SendJson (JObj [("id", JStr "u1")])).
Proof.
  cbv zeta.
  apply (@proxy_forwards_upstream_json
           "id" "secret" demo_upstream demo_env (demo_req (JStr "fresh-token") JUndefined) fresh
           me_path (spotify_me "id" "secret" demo_upstream)
           (mkResponse 200 (dq "{'id':'u1'}")) (JObj [("id", JStr "u1")])).
  - left. reflexivity.
  - reflexivity.
  - reflexivity.
  - vm_compute. reflexivity.
Defined.

Lemma expired_session_is_a_500_witness :
  let req := demo_req (JStr "stale") JUndefined in
  spotify_recent "id" "secret" demo_upstream demo_env req fresh
  = (Ok tt,
     mkWorld [bearer_request "/me/player/recently-played?limit=50" "stale"]
             (mkRes 500 None [] (Some (SendText "Unauthorized and refresh failed")))).
Proof.
  cbv zeta.
  apply (@expired_session_is_a_500
           "id" "secret" demo_upstream demo_env (demo_req (JStr "stale") JUndefined) fresh
           (recent_path (demo_req (JStr "stale") JUndefined))
           (spotify_recent "id" "secret" demo_upstream)
           (mkResponse 401 "The access token expired") "stale").
  - right. right. right. left. reflexivity.
  - reflexivity.
  - reflexivity.
  - reflexivity.
  - left. reflexivity.
Defined.

Lemma refresh_and_retry_succeeds_witness :
  let req := demo_req (JStr "stale") (JStr "r1") in
  spotify_me "id" "secret" demo_upstream demo_env req fresh
  = (Ok tt,
     mkWorld
       [ bearer_request "/me" "stale";
         refresh_request "id" "secret" "r1";
         bearer_request "/me" "fresh-token" ]
       (mkRes 200 None
              [cookie_for req "spotify_access_token" (JStr "fresh-token") ACCESS_MS]
              (Some (SendJson (JObj [("id", JStr "u1")]))))).
Proof.
  cbv zeta.
  apply (@refresh_and_retry_succeeds
           "id" "secret" demo_upstream demo_env (demo_req (JStr "stale") (JStr "r1")) fresh
           me_path (spotify_me "id" "secret" demo_upstream)
           (mkResponse 401 "The access token expired")
           (mkResponse 200 (dq "{'access_token':'fresh-token','scope':'user-top-read'}"))
           (mkResponse 200 (dq "{'id':'u1'}"))
           (JObj [("access_token", JStr "fresh-token"); ("scope", JStr "user-top-read")])
           (JObj [("id", JStr "u1")]) "stale" "r1" "fresh-token").
  - left. reflexivity.
  - reflexivity.
  - reflexivity.
  - reflexivity.
  - reflexivity.
  - reflexivity.
  - reflexivity.
  - reflexivity.
  - vm_compute. reflexivity.
  - reflexivity.
  - reflexivity.
  - reflexivity.
  - reflexivity.
  - reflexivity.
  - vm_compute. reflexivity.
Defined.

(** ** Form encoding keeps parameters apart *)

Lemma form_byte_no_separator (c b : ascii) :
  In b (form_byte c) -> b <> "&"%char /\ b <> "="%char.
Proof.
  destruct c as [[] [] [] [] [] [] [] []]; cbn; intuition (subst; discriminate).
Qed.

Lemma form_encode_no_separator (s : string) (sep : ascii) :
  sep = "&"%char \/ sep = "="%char -> ~ In sep (bytes_of_string (form_encode s)).
Proof.
  intros Hsep Hin. unfold form_encode in Hin. rewrite string_of_bytes_of_string in Hin.
  apply in_flat_map in Hin. destruct Hin as [c [_ Hb]].
  apply form_byte_no_separator in Hb. destruct Hb, Hsep; congruence.
Qed.

(** One parameter as it is written. *)
Lemma pair_has_no_ampersand (k v : string) :
  ~ In "&"%char (bytes_of_string (form_encode k +++ "=" +++ form_encode v)).
Proof.
  rewrite !bytes_of_string_app. intro H. apply in_app_or in H. destruct H as [H|H].
  - revert H. apply form_encode_no_separator. now left.
  - cbn [bytes_of_string list_ascii_of_string List.app In] in H.
    destruct H as [H|H]; [discriminate|].
    revert H. apply form_encode_no_separator. now left.
Qed.

Lemma pair_splits_in_two (k v : string) :
  split (form_encode k +++ "=" +++ form_encode v) "=" = [form_encode k; form_encode v].
Proof.
  unfold split. rewrite !bytes_of_string_app.
  cbn [bytes_of_string list_ascii_of_string List.app].
  fold (bytes_of_string (form_encode v)).
  rewrite split_on_once by (apply form_encode_no_separator; now right).
  cbn [map]. now rewrite !string_bytes_inv.
Qed.

Lemma URLSearchParams_parts (params : list (string * string)) :
  params <> [] ->
  split (URLSearchParams params) "&"
  = map (fun kv => form_encode (fst kv) +++ "=" +++ form_encode (snd kv)) params.
Proof.
  induction params as [|[k v] rest IH]; [congruence|]. intros _.
  destruct rest as [|kv rest].
  - cbn [URLSearchParams map fst snd]. rewrite append_empty_r.
    unfold split. rewrite split_on_none by apply pair_has_no_ampersand.
    cbn [map]. now rewrite string_bytes_inv.
  - assert (IH' := IH ltac:(discriminate)). clear IH.
    change (URLSearchParams ((k, v) :: kv :: rest))
      with (form_encode k +++ "=" +++ form_encode v +++ "&" +++ URLSearchParams (kv :: rest)).
    unfold split in *.
    assert (E : bytes_of_string (form_encode k +++ "=" +++ form_encode v +++ "&"
                                   +++ URLSearchParams (kv :: rest))
                = bytes_of_string (form_encode k +++ "=" +++ form_encode v)
                    ++ "&"%char :: bytes_of_string (URLSearchParams (kv :: rest))).
    { rewrite !bytes_of_string_app, <- !app_assoc. reflexivity. }
    rewrite E, split_on_first by apply pair_has_no_ampersand.
    cbn [map fst snd]. rewrite string_bytes_inv. f_equal. exact IH'.
Qed.

(** X20: the body of a request to the token endpoint holds the
    parameters the server put there and no other, whatever their values:
    cut at each [&] and then at each [=], it gives back one name and one
    value per parameter, in order, each form encoded.  A code or a
    refresh token with an [&] or an [=] in it cannot add or replace a
    parameter. *)
Theorem token_request_keeps_parameters_apart (params : list (string * string)) (b : string) :
  params <> [] ->
  rq_body (token_request params) = Some b ->
  map (fun part => split part "=") (split b "&")
  = map (fun kv => [form_encode (fst kv); form_encode (snd kv)]) params.
Proof.
  intros Hne [= <-]. rewrite URLSearchParams_parts by assumption.
  rewrite map_map. apply map_ext. intros [k v]. apply pair_splits_in_two.
Qed.

Lemma token_request_keeps_parameters_apart_witness :
  let code := "x&client_secret=guess" in
  exists b,
    rq_body (exchange_request "id" "secret" "http://127.0.0.1:8080/auth/callback" code) = Some b
    /\ map (fun part => split part "=") (split b "&")
       = [ ["grant_type"; "authorization_code"];
           ["code"; "x%26client_secret%3Dguess"];
           ["redirect_uri"; "http%3A%2F%2F127.0.0.1%3A8080%2Fauth%2Fcallback"];
           ["client_id"; "id"];
           ["client_secret"; "secret"] ].
Proof.
  cbv zeta. eexists. split; [reflexivity|].
  apply (@token_request_keeps_parameters_apart
           [("grant_type", "authorization_code");
            ("code", "x&client_secret=guess");
            ("redirect_uri", "http://127.0.0.1:8080/auth/callback");
            ("client_id", "id");
            ("client_secret", "secret")]).
  - discriminate.
  - reflexivity.
Defined.

(** ** GET /enriched/top-tracks: what a track becomes *)

Lemma enriched_artist_returns (genres : list (JSValue * JSValue)) (a o : JSValue) :
  enriched_artist genres a = Ok o ->
  get_opt o "id" = get_opt a "id" /\ get_opt o "name" = get_opt a "name".
Proof.
  intro H. destruct (nullish a) eqn:Hn.
  - destruct a; discriminate.
  - unfold enriched_artist in H. rewrite !(get_nullish a _ Hn) in H.
    injection H as <-. split; reflexivity.
Qed.

(** X21: the items GET /enriched/top-tracks answers with mirror the top
    tracks it was given: as many, in the same order; each carries its
    track's id, name, uri, popularity, duration and explicit flag as they
    were, an album cut down to id, name and release date (all undefined
    when the track has no album), and one artist, with the same id and
    name, for each artist of the track. *)
Theorem enriched_items_mirror_the_top_tracks
        (genres : list (JSValue * JSValue)) (items : JSValue) (out : list JSValue) :
  js_map items (enriched_track genres) = Ok out ->
  exists tracks,
    items = JArr tracks
    /\ Forall2
         (fun t o =>
            keys_of o = ["id"; "name"; "uri"; "popularity"; "duration_ms"; "explicit";
                         "album"; "artists"]
            /\ Forall (fun k => get_opt o k = get_opt t k)
                      ["id"; "name"; "uri"; "popularity"; "duration_ms"; "explicit"]
            /\ get_opt o "album"
               = JObj [("id", get_opt (get_opt t "album") "id");
                       ("name", get_opt (get_opt t "album") "name");
                       ("release_date", get_opt (get_opt t "album") "release_date")]
            /\ exists given made,
                 js_or (get_opt t "artists") (JArr []) = JArr given
                 /\ get_opt o "artists" = JArr made
                 /\ Forall2 (fun a b => get_opt b "id" = get_opt a "id"
                                        /\ get_opt b "name" = get_opt a "name") given made)
         tracks out.
Proof.
  intro H. apply js_map_returns in H. destruct H as [tracks [-> H]].
  exists tracks. split; [reflexivity|].
  induction H as [|t o tracks out Hto _ IH]; constructor; [|exact IH].
  apply enriched_track_returns in Hto. destruct Hto as [arts [Harts ->]].
  split; [reflexivity|]. split; [repeat constructor|]. split; [reflexivity|].
  apply js_map_returns in Harts. destruct Harts as [given [Hgiven Harts]].
  exists given, arts. split; [exact Hgiven|]. split; [reflexivity|].
  clear Hgiven. induction Harts as [|a b given arts Hab _ IHa]; constructor; [|exact IHa].
  exact (enriched_artist_returns genres a Hab).
Qed.

Lemma enriched_items_mirror_the_top_tracks_witness :
  let items := JArr [JObj [("id", JStr "t1"); ("name", JStr "One");
                           ("artists", JArr [JObj [("id", JStr "a1"); ("name", JStr "Ann")]])]] in
  exists out tracks,
    js_map items (enriched_track [(JStr "a1", JArr [JStr "folk"])]) = Ok out
    /\ items = JArr tracks /\ length out = length tracks.
Proof.
  cbv zeta. eexists.
  destruct (@enriched_items_mirror_the_top_tracks
              [(JStr "a1", JArr [JStr "folk"])]
              (JArr [JObj [("id", JStr "t1"); ("name", JStr "One");
                           ("artists", JArr [JObj [("id", JStr "a1"); ("name", JStr "Ann")]])]])
              _ eq_refl) as [tracks [E F]].
  exists tracks. split; [reflexivity|]. split; [exact E|].
  symmetry. exact (Forall2_length F).
Defined.

(** ** GET /spotify/recent: the query it sends *)

(** X30: the query GET /spotify/recent sends upstream has the limit (50
    when the request gives none), then [before] and [after] when the
    request gives them and they are not empty, and nothing else; each
    value is form encoded, so that no value can add a parameter. *)
Theorem recent_query_has_the_limit_and_the_filters_given (req : Req) :
  let limit := or_default (query req "limit") "50" in
  let before := or_default (query req "before") "" in
  let after := or_default (query req "after") "" in
  exists q,
    recent_path req = "/me/player/recently-played?" +++ q
    /\ map (fun part => split part "=") (split q "&")
       = [["limit"; form_encode limit]]
           ++ (if (before =? "")%string then [] else [["before"; form_encode before]])
           ++ (if (after =? "")%string then [] else [["after"; form_encode after]]).
Proof.
  cbv zeta. unfold recent_path. cbv zeta. eexists. split; [reflexivity|].
  rewrite URLSearchParams_parts by discriminate.
  rewrite map_map.
  destruct (or_default (query req "before") "" =? "")%string,
           (or_default (query req "after") "" =? "")%string;
    cbn [List.app map fst snd]; rewrite ?pair_splits_in_two; reflexivity.
Qed.

(** ** chat.ts: what the endpoint is built on *)

Lemma drop_while_slashes (k : nat) (l : list ascii) :
  Coerce.drop_while ChatConfig.is_slash (repeat "/"%char k ++ l)
  = Coerce.drop_while ChatConfig.is_slash l.
Proof. induction k as [|k IH]; [reflexivity | exact IH]. Qed.

Lemma rev_slashes (k : nat) : rev (repeat "/"%char k) = repeat "/"%char k.
Proof.
  induction k as [|k IH]; [reflexivity|].
  cbn [repeat rev]. rewrite IH. clear IH.
  induction k as [|k IH]; [reflexivity|]. cbn [repeat List.app]. now rewrite IH.
Qed.

Lemma bytes_of_slashes (k : nat) : bytes_of_string (slashes k) = repeat "/"%char k.
Proof. apply string_of_bytes_of_string. Qed.

(** Slashes at the end change nothing. *)
Lemma strip_trailing_slashes_app (s : string) (k : nat) :
  ChatConfig.strip_trailing_slashes (s +++ slashes k) = ChatConfig.strip_trailing_slashes s.
Proof.
  unfold ChatConfig.strip_trailing_slashes.
  now rewrite bytes_of_string_app, bytes_of_slashes, rev_app_distr, rev_slashes, drop_while_slashes.
Qed.

(** A text that does not end with a slash is left as it is. *)
Lemma strip_trailing_slashes_fixed (b : string) (c : ascii) :
  ChatConfig.is_slash c = false ->
  ChatConfig.strip_trailing_slashes (b +++ String c "") = b +++ String c "".
Proof.
  intro Hc. unfold ChatConfig.strip_trailing_slashes.
  rewrite bytes_of_string_app, rev_app_distr.
  cbn [bytes_of_string list_ascii_of_string rev List.app Coerce.drop_while]. rewrite Hc.
  change (c :: rev (bytes_of_string b)) with (rev [c] ++ rev (bytes_of_string b)).
  rewrite <- rev_app_distr, rev_involutive, string_of_bytes_app, string_bytes_inv.
  reflexivity.
Qed.

Lemma starts_with_app (w l : list ascii) : JSON.starts_with w (w ++ l) = Some l.
Proof.
  induction w as [|a w IH]; [reflexivity|].
  cbn [List.app JSON.starts_with]. now rewrite Z.eqb_refl.
Qed.

Lemma without_suffix_app (b suffix : string) :
  ChatConfig.without_suffix suffix (b +++ suffix) = Some b.
Proof.
  unfold ChatConfig.without_suffix.
  rewrite bytes_of_string_app, rev_app_distr, starts_with_app, rev_involutive.
  now rewrite string_bytes_inv.
Qed.

Lemma without_suffix_api_of_v1 (b : string) : ChatConfig.without_suffix "/api" (b +++ "/v1") = None.
Proof.
  unfold ChatConfig.without_suffix. rewrite bytes_of_string_app, rev_app_distr. reflexivity.
Qed.

Lemma BASE_of (raw : string) :
  raw <> "" ->
  ChatConfig.BASE (Some raw) = ChatConfig.drop_segment (ChatConfig.strip_trailing_slashes raw).
Proof.
  intro H. unfold ChatConfig.BASE, ChatConfig.RAW_BASE, or_default.
  apply String.eqb_neq in H. now rewrite H.
Qed.

Lemma append_nonempty_r (a b : string) : b <> "" -> a +++ b <> "".
Proof. intros Hb E. destruct a; [now apply Hb | discriminate]. Qed.

Lemma append_assoc (a b c : string) : (a +++ b) +++ c = a +++ b +++ c.
Proof. induction a as [|x a IH]; cbn; [reflexivity | now rewrite IH]. Qed.

Section ChatConfigFacts.

Variable url_host : string -> result string.

(** X22: the base of the chat endpoint is [GRADIENT_API_URL] without the
    slashes that end it and then without one last segment [/api] or
    [/v1]; one segment only, so that a URL given with [/api/v1] keeps its
    [/api]; the endpoint is the base followed by
    [/api/v1/chat/completions] when the host of the base ends with
    [.agents.do-ai.run] and by [/v1/chat/completions] when it does not. *)
Theorem URL_CHAT_drops_slashes_and_one_segment (b host : string) (k : nat) :
  url_host b = Ok host ->
  ChatConfig.BASE (Some (b +++ "/v1" +++ slashes k)) = b
  /\ ChatConfig.BASE (Some (b +++ "/api" +++ slashes k)) = b
  /\ ChatConfig.BASE (Some (b +++ "/api/v1" +++ slashes k)) = b +++ "/api"
  /\ ChatConfig.URL_CHAT (Some (b +++ "/v1" +++ slashes k)) url_host
     = Ok (b +++ (if ChatConfig.is_agent_host host
                  then "/api/v1/chat/completions" else "/v1/chat/completions"))
  /\ ChatConfig.URL_CHAT (Some (b +++ "/api" +++ slashes k)) url_host
     = ChatConfig.URL_CHAT (Some (b +++ "/v1" +++ slashes k)) url_host.
Proof.
  intro Hhost.
  assert (Hv1 : ChatConfig.BASE (Some (b +++ "/v1" +++ slashes k)) = b).
  { rewrite BASE_of by (apply append_nonempty_r; discriminate).
    rewrite <- append_assoc, strip_trailing_slashes_app.
    change (b +++ "/v1") with (b +++ "/v" +++ String "1" "").
    rewrite <- append_assoc, strip_trailing_slashes_fixed by reflexivity.
    rewrite append_assoc. change ("/v" +++ "1") with "/v1".
    unfold ChatConfig.drop_segment.
    now rewrite without_suffix_api_of_v1, without_suffix_app. }
  assert (Hapi : ChatConfig.BASE (Some (b +++ "/api" +++ slashes k)) = b).
  { rewrite BASE_of by (apply append_nonempty_r; discriminate).
    rewrite <- append_assoc, strip_trailing_slashes_app.
    change (b +++ "/api") with (b +++ "/ap" +++ String "i" "").
    rewrite <- append_assoc, strip_trailing_slashes_fixed by reflexivity.
    rewrite append_assoc. change ("/ap" +++ "i") with "/api".
    unfold ChatConfig.drop_segment. now rewrite without_suffix_app. }
  split; [exact Hv1|]. split; [exact Hapi|]. split; [|split].
  - rewrite BASE_of by (apply append_nonempty_r; discriminate).
    rewrite <- append_assoc, strip_trailing_slashes_app.
    change (b +++ "/api/v1") with (b +++ "/api/v" +++ String "1" "").
    rewrite <- append_assoc, strip_trailing_slashes_fixed by reflexivity.
    rewrite append_assoc. change ("/api/v" +++ "1") with ("/api" +++ "/v1").
    rewrite <- append_assoc.
    unfold ChatConfig.drop_segment.
    now rewrite without_suffix_api_of_v1, without_suffix_app.
  - unfold ChatConfig.URL_CHAT, ChatConfig.IS_AGENT. rewrite Hv1, Hhost. reflexivity.
  - unfold ChatConfig.URL_CHAT, ChatConfig.IS_AGENT. now rewrite Hv1, Hapi.
Qed.

End ChatConfigFacts.

Lemma URL_CHAT_drops_slashes_and_one_segment_witness :
  let host_of (s : string) := Ok "music.agents.do-ai.run" in
  ChatConfig.URL_CHAT (Some "https://music.agents.do-ai.run/v1//") host_of
  = Ok "https://music.agents.do-ai.run/api/v1/chat/completions"
  /\ ChatConfig.BASE (Some "https://music.agents.do-ai.run/api/v1")
     = "https://music.agents.do-ai.run/api".
Proof.
  cbv zeta.
  destruct (@URL_CHAT_drops_slashes_and_one_segment
              (fun _ => Ok "music.agents.do-ai.run")
              "https://music.agents.do-ai.run" "music.agents.do-ai.run" 2 eq_refl)
    as (_ & _ & _ & H & _).
  split; [exact H|].
  destruct (@URL_CHAT_drops_slashes_and_one_segment
              (fun _ => Ok "music.agents.do-ai.run")
              "https://music.agents.do-ai.run" "music.agents.do-ai.run" 0 eq_refl)
    as (_ & _ & H3 & _).
  exact H3.
Defined.

(** ** src/index.ts: the earlier server *)

Section EarlierServer.

Variable SPOTIFY_CLIENT_ID : string.
Variable SPOTIFY_CLIENT_SECRET : string.
Variable SPOTIFY_REDIRECT_URI : string.
Variable upstream : list Request -> Request -> result Response.

#[local] Abbreviation earlier_sfetch := (SrcIndex.sfetch upstream).
#[local] Abbreviation earlier_callback :=
  (SrcIndex.auth_callback SPOTIFY_CLIENT_ID SPOTIFY_CLIENT_SECRET SPOTIFY_REDIRECT_URI upstream).
#[local] Abbreviation earlier_refresh :=
  (SrcIndex.auth_refresh SPOTIFY_CLIENT_ID SPOTIFY_CLIENT_SECRET upstream).

(** The routes it registers are those the surface lists for it. *)
Lemma earlier_app_surface :
  map fst (SrcIndex.app SPOTIFY_CLIENT_ID SPOTIFY_CLIENT_SECRET SPOTIFY_REDIRECT_URI upstream)
  = src_index_surface.
Proof. reflexivity. Qed.

Lemma earlier_sfetch_cases (req : SrcIndex.Req) (path : string) (w : SrcIndex.World) :
  earlier_sfetch req path w
  = match ToString (SrcIndex.cookies req "spotify_access_token") with
    | Throw e => (Throw e, w)
    | Ok token =>
        let first := bearer_request path token in
        let own := SrcIndex.own_refresh_request req in
        let w1 := SrcIndex.mkWorld (SrcIndex.log w ++ [first]) (SrcIndex.res w) in
        match upstream (SrcIndex.log w) first with
        | Throw e => (Throw e, w1)
        | Ok r1 =>
            if status r1 =? 401 then
              let w2 := SrcIndex.mkWorld (SrcIndex.log w ++ [first; own]) (SrcIndex.res w) in
              match upstream (SrcIndex.log w ++ [first]) own with
              | Throw e => (Throw e, w2)
              | Ok _ =>
                  let w3 := SrcIndex.mkWorld (SrcIndex.log w ++ [first; own; first])
                                             (SrcIndex.res w) in
                  match upstream (SrcIndex.log w ++ [first; own]) first with
                  | Throw e => (Throw e, w3)
                  | Ok r2 => (finish r2, w3)
                  end
              end
            else (finish r1, w1)
        end
    end.
Proof.
  cbv zeta. unfold SrcIndex.sfetch, SrcIndex.doFetch, finish.
  unfold SrcIndex.bind at 1. unfold SrcIndex.bind at 1. unfold SrcIndex.lift at 1.
  destruct (ToString _) as [token|e0]; [|reflexivity].
  unfold SrcIndex.fetch at 1.
  destruct (upstream (SrcIndex.log w) _) as [r1|e]; [|reflexivity].
  destruct (status r1 =? 401).
  - unfold SrcIndex.bind at 1. unfold SrcIndex.bind at 1. unfold SrcIndex.fetch at 1.
    cbn [SrcIndex.log SrcIndex.res].
    destruct (upstream (SrcIndex.log w ++ [_]) _) as [rr|e];
      [|now rewrite <- app_assoc].
    unfold SrcIndex.bind at 1. unfold SrcIndex.lift at 1.
    unfold SrcIndex.fetch. cbn [SrcIndex.log SrcIndex.res]. rewrite <- !app_assoc. cbn [List.app].
    destruct (upstream _ _) as [r2|e2]; [|reflexivity].
    unfold SrcIndex.throw, SrcIndex.lift. destruct (ok r2); reflexivity.
  - unfold SrcIndex.bind, SrcIndex.ret, SrcIndex.throw, SrcIndex.lift.
    destruct (ok r1); reflexivity.
Qed.

(** X23: the earlier [sfetch] never refreshes the token it uses.  With an
    access cookie that can be printed, after a 401 it calls the server's
    own GET /auth/refresh, without any cookie and without reading the
    answer, and then sends the first request again as it was, with the
    same [Authorization]; the answer to that third request decides the
    outcome, and the response under construction is untouched. *)
Theorem earlier_sfetch_retries_with_the_same_token
        (req : SrcIndex.Req) (path : string) (w : SrcIndex.World) (r1 rr : Response)
        (token : string) :
  let first := bearer_request path token in
  let own := SrcIndex.own_refresh_request req in
  ToString (SrcIndex.cookies req "spotify_access_token") = Ok token ->
  upstream (SrcIndex.log w) first = Ok r1 -> status r1 = 401 ->
  upstream (SrcIndex.log w ++ [first]) own = Ok rr ->
  earlier_sfetch req path w
  = (match upstream (SrcIndex.log w ++ [first; own]) first with
     | Ok r2 => if ok r2 then json r2 else Throw (Error (text r2))
     | Throw e => Throw e
     end,
     SrcIndex.mkWorld (SrcIndex.log w ++ [first; own; first]) (SrcIndex.res w))
  /\ rq_headers own = [] /\ rq_body own = None
  /\ rq_headers first = [("Authorization", "Bearer " +++ token)].
Proof.
  intros first own Hprint Hup H401 Hown. split; [|repeat split; reflexivity].
  rewrite earlier_sfetch_cases, Hprint. cbv zeta. fold first own.
  rewrite Hup. apply Z.eqb_eq in H401. rewrite H401, Hown.
  destruct (upstream (SrcIndex.log w ++ [first; own]) first); reflexivity.
Qed.

(** X24: the earlier data routes have no [try]: when [sfetch] throws (as
    it does for every final answer that is not ok) the route throws the
    same error, and the response is left as it was, unsent. *)
Theorem earlier_data_routes_do_not_catch
        (env : Env) (req : SrcIndex.Req) (w w' : SrcIndex.World)
        (path : string) (h : SrcIndex.Handler) (e : exn) :
  In (path, h) (SrcIndex.data_routes upstream req) ->
  earlier_sfetch req path w = (Throw e, w') ->
  h env req w = (Throw e, w') /\ SrcIndex.res w' = SrcIndex.res w.
Proof.
  intros Hin Hs.
  assert (Hh : h env req w = SrcIndex.bind (earlier_sfetch req path) (fun v => SrcIndex.res_json v) w).
  { unfold SrcIndex.data_routes in Hin. cbn [In] in Hin.
    destruct Hin as [[= <- <-]|[[= <- <-]|[[= <- <-]|[[= <- <-]|[[= <- <-]|[]]]]]]; reflexivity. }
  rewrite Hh. unfold SrcIndex.bind. rewrite Hs. split; [reflexivity|].
  rewrite earlier_sfetch_cases in Hs. cbv zeta in Hs.
  destruct (ToString _) as [token|e0]; [|now injection Hs as _ <-].
  destruct (upstream (SrcIndex.log w) _) as [r1|e1]; [|now injection Hs as _ <-].
  destruct (status r1 =? 401).
  - destruct (upstream (SrcIndex.log w ++ [_]) _) as [rr|e2]; [|now injection Hs as _ <-].
    destruct (upstream _ _) as [r2|e3]; now injection Hs as _ <-.
  - now injection Hs as _ <-.
Qed.

Lemma earlier_callback_cases (env : Env) (req : SrcIndex.Req) (w : SrcIndex.World) :
  earlier_callback env req w
  = if negb (option_truthy (SrcIndex.query req "state"))
       || negb (SrcIndex.is_string (SrcIndex.text_of (SrcIndex.query req "state"))
                                   (SrcIndex.cookies req "spotify_auth_state"))
    then (Ok tt, SrcIndex.mkWorld (SrcIndex.log w)
                   (SrcIndex.mkRes 400 (SrcIndex.res_cookies (SrcIndex.res w))
                                   (Some (SendText "State mismatch"))))
    else
      let rq := exchange_request SPOTIFY_CLIENT_ID SPOTIFY_CLIENT_SECRET SPOTIFY_REDIRECT_URI
                                 (SrcIndex.text_of (SrcIndex.query req "code")) in
      let w1 := SrcIndex.mkWorld (SrcIndex.log w ++ [rq]) (SrcIndex.res w) in
      match upstream (SrcIndex.log w) rq with
      | Throw e => (Throw e, w1)
      | Ok r =>
          match json r with
          | Throw e => (Throw e, w1)
          | Ok tokens =>
              match get tokens "access_token" with
              | Throw e => (Throw e, w1)
              | Ok _ =>
                  (Ok tt,
                   SrcIndex.mkWorld (SrcIndex.log w ++ [rq])
                     (SrcIndex.mkRes 302
                        (SrcIndex.res_cookies (SrcIndex.res w)
                           ++ [SrcIndex.cookie_of "spotify_access_token"
                                                  (get_opt tokens "access_token");
                               SrcIndex.cookie_of "spotify_refresh_token"
                                                  (get_opt tokens "refresh_token")])
                        (Some (Redirect (JStr "/app")))))
              end
          end
      end.
Proof.
  unfold SrcIndex.auth_callback. cbv zeta.
  destruct (negb _ || negb _); [reflexivity|].
  unfold exchange_request.
  unfold SrcIndex.bind at 1. unfold SrcIndex.fetch at 1.
  destruct (upstream (SrcIndex.log w) _) as [r|e]; [|reflexivity].
  unfold SrcIndex.bind at 1. unfold SrcIndex.lift at 1.
  destruct (json r) as [tokens|e]; [|reflexivity].
  unfold SrcIndex.bind at 1. unfold SrcIndex.lift at 1.
  destruct (nullish tokens) eqn:Hn.
  - destruct tokens; try discriminate; reflexivity.
  - rewrite (get_nullish tokens "access_token" Hn).
    unfold SrcIndex.bind, SrcIndex.lift, SrcIndex.res_cookie, SrcIndex.res_redirect, SrcIndex.set_res.
    rewrite (get_nullish tokens "refresh_token" Hn). cbn. now rewrite <- app_assoc.
Qed.

(** X25: the earlier GET /auth/callback looks at the state and at
    nothing else.  It answers 400 with [State mismatch] when the state is
    missing or empty or is not the text in the [spotify_auth_state]
    cookie, and then sends nothing and sets no cookie; otherwise it sends
    the exchange (with the code [undefined] when there is none) and,
    whatever the status of the answer, sets both token cookies to what
    the answer's JSON has under [access_token] and [refresh_token], be it
    undefined, and redirects to [/app]. *)
Theorem earlier_callback_checks_the_state_only
        (env : Env) (req : SrcIndex.Req) (w : SrcIndex.World) :
  let state := SrcIndex.query req "state" in
  let matches := option_truthy state
                 && SrcIndex.is_string (SrcIndex.text_of state)
                                       (SrcIndex.cookies req "spotify_auth_state") in
  let rq := exchange_request SPOTIFY_CLIENT_ID SPOTIFY_CLIENT_SECRET SPOTIFY_REDIRECT_URI
                             (SrcIndex.text_of (SrcIndex.query req "code")) in
  (matches = false ->
   earlier_callback env req w
   = (Ok tt, SrcIndex.mkWorld (SrcIndex.log w)
               (SrcIndex.mkRes 400 (SrcIndex.res_cookies (SrcIndex.res w))
                               (Some (SendText "State mismatch")))))
  /\ (matches = true ->
      forall r tokens,
        upstream (SrcIndex.log w) rq = Ok r -> json r = Ok tokens -> nullish tokens = false ->
        earlier_callback env req w
        = (Ok tt,
           SrcIndex.mkWorld (SrcIndex.log w ++ [rq])
             (SrcIndex.mkRes 302
                (SrcIndex.res_cookies (SrcIndex.res w)
                   ++ [SrcIndex.cookie_of "spotify_access_token" (get_opt tokens "access_token");
                       SrcIndex.cookie_of "spotify_refresh_token" (get_opt tokens "refresh_token")])
                (Some (Redirect (JStr "/app")))))).
Proof.
  cbv zeta. rewrite earlier_callback_cases. cbv zeta.
  destruct (option_truthy _); cbn [negb orb andb];
    [destruct (SrcIndex.is_string _ _); cbn [negb]|].
  - split; [discriminate|]. intros _ r tokens Hup Hjson Hn.
    rewrite Hup, Hjson, (get_nullish tokens "access_token" Hn). reflexivity.
  - split; [reflexivity | discriminate].
  - split; [reflexivity | discriminate].
Qed.

(** X26: the earlier GET /auth/refresh answers 401 with [No refresh token],
    and sends nothing, when the request has no refresh cookie; with one
    that can be printed, it asks the token endpoint with the cookie's
    text and, whatever the status of the answer, sets the access cookie
    to what the answer's JSON has under [access_token], be it undefined,
    and answers [{ ok: true }]; with one that cannot be printed it throws
    and sends nothing. *)
Theorem earlier_refresh_answers_ok_whatever_the_status
        (env : Env) (req : SrcIndex.Req) (w : SrcIndex.World) :
  let cookie := SrcIndex.cookies req "spotify_refresh_token" in
  (truthy cookie = false ->
   earlier_refresh env req w
   = (Ok tt, SrcIndex.mkWorld (SrcIndex.log w)
               (SrcIndex.mkRes 401 (SrcIndex.res_cookies (SrcIndex.res w))
                               (Some (SendText "No refresh token")))))
  /\ (truthy cookie = true ->
      forall token r j,
        ToString cookie = Ok token ->
        let rq := refresh_request SPOTIFY_CLIENT_ID SPOTIFY_CLIENT_SECRET token in
        upstream (SrcIndex.log w) rq = Ok r -> json r = Ok j -> nullish j = false ->
        earlier_refresh env req w
        = (Ok tt,
           SrcIndex.mkWorld (SrcIndex.log w ++ [rq])
             (SrcIndex.mkRes (SrcIndex.res_status (SrcIndex.res w))
                (SrcIndex.res_cookies (SrcIndex.res w)
                   ++ [SrcIndex.cookie_of "spotify_access_token" (get_opt j "access_token")])
                (Some (SendJson (JObj [("ok", JBool true)]))))))
  /\ (truthy cookie = true ->
      forall e, ToString cookie = Throw e -> earlier_refresh env req w = (Throw e, w)).
Proof.
  cbv zeta. unfold SrcIndex.auth_refresh.
  destruct (truthy _); cbn [negb].
  - split; [discriminate|]. split.
    + intros _ token r j Hprint Hup Hjson Hn.
      unfold SrcIndex.bind at 1. unfold SrcIndex.lift at 1. rewrite Hprint.
      unfold SrcIndex.bind at 1. unfold SrcIndex.fetch at 1. rewrite Hup.
      unfold SrcIndex.bind at 1. unfold SrcIndex.lift at 1. rewrite Hjson.
      unfold SrcIndex.bind at 1. unfold SrcIndex.lift at 1.
      rewrite (get_nullish j "access_token" Hn). reflexivity.
    + intros _ e Hprint. unfold SrcIndex.bind at 1. unfold SrcIndex.lift at 1.
      now rewrite Hprint.
  - split; [reflexivity | split; discriminate].
Qed.

End EarlierServer.

Lemma earlier_sfetch_retries_with_the_same_token_witness :
  let req := SrcIndex.mkReq (fun _ => JStr "stale") (fun _ => None) "http" (Some "127.0.0.1:8080") in
  let first := bearer_request "/me" "stale" in
  SrcIndex.sfetch closed_upstream req "/me" SrcIndex.fresh
  = (Throw (Error (dq "{'error':'invalid_grant'}")),
     SrcIndex.mkWorld
       [ first; mkRequest GET "http://127.0.0.1:8080/auth/refresh" [] None; first ]
       (SrcIndex.mkRes 200 [] None)).
Proof.
  cbv zeta.
  destruct (@earlier_sfetch_retries_with_the_same_token
              closed_upstream
              (SrcIndex.mkReq (fun _ => JStr "stale") (fun _ => None) "http" (Some "127.0.0.1:8080"))
              "/me" SrcIndex.fresh
              (mkResponse 401 (dq "{'error':'invalid_grant'}"))
              (mkResponse 401 (dq "{'error':'invalid_grant'}"))
              "stale" eq_refl eq_refl eq_refl eq_refl) as [H _].
  exact H.
Defined.

Lemma earlier_data_routes_do_not_catch_witness :
  let req := SrcIndex.mkReq (fun _ => JStr "stale") (fun _ => None) "http" (Some "127.0.0.1:8080") in
  fst (SrcIndex.spotify_me closed_upstream demo_env req SrcIndex.fresh)
  = Throw (Error (dq "{'error':'invalid_grant'}"))
  /\ SrcIndex.res (snd (SrcIndex.spotify_me closed_upstream demo_env req SrcIndex.fresh))
     = SrcIndex.mkRes 200 [] None.
Proof.
  cbv zeta.
  destruct (@earlier_data_routes_do_not_catch
              closed_upstream demo_env
              (SrcIndex.mkReq (fun _ => JStr "stale") (fun _ => None) "http" (Some "127.0.0.1:8080"))
              SrcIndex.fresh
              (SrcIndex.mkWorld
                 [ bearer_request "/me" "stale";
                   mkRequest GET "http://127.0.0.1:8080/auth/refresh" [] None;
                   bearer_request "/me" "stale" ]
                 (SrcIndex.mkRes 200 [] None))
              "/me" (SrcIndex.spotify_me closed_upstream)
              (Error (dq "{'error':'invalid_grant'}"))) as [H1 H2].
  - left. reflexivity.
  - reflexivity.
  - rewrite H1. split; reflexivity.
Defined.

Lemma earlier_callback_checks_the_state_only_witness :
  let q (name : string) := if (name =? "state")%string then Some "9f2c" else None in
  let c (name : string) := if (name =? "spotify_auth_state")%string then JStr "9f2c"
                           else JUndefined in
  let req := SrcIndex.mkReq c q "http" (Some "127.0.0.1:8080") in
  let out := SrcIndex.auth_callback "id" "secret" "http://127.0.0.1:8080/auth/callback"
                                    closed_upstream demo_env req SrcIndex.fresh in
  SrcIndex.res (snd out)
  = SrcIndex.mkRes 302 [ SrcIndex.cookie_of "spotify_access_token" JUndefined;
                         SrcIndex.cookie_of "spotify_refresh_token" JUndefined ]
                   (Some (Redirect (JStr "/app"))).
Proof.
  cbv zeta.
  destruct (@earlier_callback_checks_the_state_only
              "id" "secret" "http://127.0.0.1:8080/auth/callback" closed_upstream demo_env
              (SrcIndex.mkReq
                 (fun name => if (name =? "spotify_auth_state")%string then JStr "9f2c"
                              else JUndefined)
                 (fun name => if (name =? "state")%string then Some "9f2c" else None)
                 "http" (Some "127.0.0.1:8080"))
              SrcIndex.fresh) as [_ H].
  rewrite (H eq_refl (mkResponse 401 (dq "{'error':'invalid_grant'}"))
             (JObj [("error", JStr "invalid_grant")])).
  - reflexivity.
  - reflexivity.
  - vm_compute. reflexivity.
  - reflexivity.
Defined.

Lemma earlier_refresh_answers_ok_whatever_the_status_witness :
  let req := SrcIndex.mkReq (fun _ => JStr "r1") (fun _ => None) "http" (Some "127.0.0.1:8080") in
  let out := SrcIndex.auth_refresh "id" "secret" closed_upstream demo_env req SrcIndex.fresh in
  SrcIndex.res (snd out)
  = SrcIndex.mkRes 200 [SrcIndex.cookie_of "spotify_access_token" JUndefined]
                   (Some (SendJson (JObj [("ok", JBool true)]))).
Proof.
  cbv zeta.
  destruct (@earlier_refresh_answers_ok_whatever_the_status
              "id" "secret" closed_upstream demo_env
              (SrcIndex.mkReq (fun _ => JStr "r1") (fun _ => None) "http" (Some "127.0.0.1:8080"))
              SrcIndex.fresh) as [_ [H _]].
  rewrite (H eq_refl "r1" (mkResponse 401 (dq "{'error':'invalid_grant'}"))
             (JObj [("error", JStr "invalid_grant")])).
  - reflexivity.
  - reflexivity.
  - reflexivity.
  - vm_compute. reflexivity.
  - reflexivity.
Defined.

(** ** The state determines the payload *)

Lemma payload_value_inj (p q : StatePayload) : payload_value p = payload_value q -> p = q.
Proof.
  destruct p as [pn [pr|] pe], q as [qn [qr|] qe]; unfold payload_value, payload_props;
    cbn [n rt exp List.app]; intro H; injection H; intros; subst; reflexivity || discriminate.
Qed.

(** X27: the state determines the payload: two payloads with finite
    expiries that [signState] gives the same state, under the same secret
    or under two, are the same payload. *)
Theorem signState_determines_the_payload (secret1 secret2 : string) (p q : StatePayload) :
  is_finite (exp p) = true -> canonical (exp p) ->
  is_finite (exp q) = true -> canonical (exp q) ->
  signState secret1 p = signState secret2 q -> p = q.
Proof.
  intros Hfp Hcp Hfq Hcq H.
  assert (Hparts : split (signState secret1 p) "." = split (signState secret2 q) ".")
    by now rewrite H.
  rewrite !signState_parts in Hparts.
  apply (f_equal (fun l => Base64url.decode (nth 0 l ""))) in Hparts. cbn [nth] in Hparts.
  rewrite !base64url_decode_encode in Hparts.
  assert (Htext : stringify_object (payload_props p) = stringify_object (payload_props q))
    by now apply bytes_of_string_inj.
  apply payload_value_inj.
  assert (Hparse : JSON.parse (stringify_object (payload_props p)) = Ok (payload_value q)).
  { rewrite Htext. now apply parse_stringify_payload. }
  rewrite parse_stringify_payload in Hparse by assumption. congruence.
Qed.

Lemma signState_determines_the_payload_witness :
  let p := mkPayload "9f2c" (Some "http://127.0.0.1:4200") (Int 1700000600000) in
  signState "s3cret" p = signState "s3cret" p /\ p = p.
Proof.
  cbv zeta. split; [reflexivity|].
  apply (@signState_determines_the_payload "s3cret" "s3cret"
           (mkPayload "9f2c" (Some "http://127.0.0.1:4200") (Int 1700000600000))
           (mkPayload "9f2c" (Some "http://127.0.0.1:4200") (Int 1700000600000)));
    (reflexivity || exact I).
Defined.

(** ** GET /chat/test and the API key *)

(** X28: a missing API key stops POST /chat and does not stop GET
    /chat/test.  When neither [DIGITALOCEAN_AGENT_KEY] nor
    [DIGITALOCEAN_INFERENCE_KEY] holds a key, POST /chat with a question
    and a snapshot answers 500 and calls nobody, while GET /chat/test
    still calls the chat endpoint, with [Bearer undefined] (or [Bearer ]
    and nothing, when the inference key is set and empty) for
    authorization, and hands on the status and the text of the answer as
    they are, under the content type [application/json]. *)
Theorem missing_key_stops_chat_but_not_the_test
        (agent inference : option string) (URL_CHAT MODEL : string)
        (upstream : list Request -> Request -> result Response)
        (env : Env) (req : Req) (w : World) (r : Response) :
  let key := ChatConfig.API_KEY agent inference in
  let b := js_or (body req) (JObj []) in
  let rq := chat_test_request URL_CHAT key in
  option_truthy agent = false -> option_truthy inference = false ->
  truthy (get_opt b "question") = true -> truthy (get_opt b "snapshot") = true ->
  upstream (log w) rq = Ok r ->
  chat_post URL_CHAT key MODEL upstream env req w
  = (Ok tt,
     mkWorld (log w)
             (mkRes 500 (res_type (res w)) (res_cookies (res w))
                    (Some (SendJson
                       (JObj [("error", JStr "Missing DIGITALOCEAN_AGENT_KEY (or INFERENCE_KEY)")])))))
  /\ chat_test URL_CHAT key upstream env req w
     = (Ok tt,
        mkWorld (log w ++ [rq])
                (mkRes (status r) (Some "application/json") (res_cookies (res w))
                       (Some (SendText (text r)))))
  /\ header "Authorization" rq
     = "Bearer " +++ match inference with Some k => k | None => "undefined" end.
Proof.
  intros key b rq Ha Hi Hq Hs Hup.
  assert (Hkey : key = inference) by (unfold key, ChatConfig.API_KEY; now rewrite Ha).
  split; [|split].
  - unfold chat_post, try_catch. rewrite chat_block_cases. cbv zeta.
    fold b. rewrite Hq, Hs, Hkey, Hi. reflexivity.
  - unfold chat_test, try_catch. unfold bind at 1. unfold fetch at 1.
    fold (chat_test_request URL_CHAT key). fold rq. rewrite Hup. reflexivity.
  - unfold rq, chat_test_request, chat_request, header. cbn [rq_headers assoc String.eqb Ascii.eqb Bool.eqb].
    rewrite Hkey. unfold api_key_text. reflexivity.
Qed.

Lemma missing_key_stops_chat_but_not_the_test_witness :
  let req := mkReq (fun _ => JUndefined) (fun _ => None)
                   (JObj [("question", JStr "What do I like?");
                          ("snapshot", JObj [("topTracks", JArr [])])]) "http" in
  let key := ChatConfig.API_KEY (Some "") None in
  res_status (res (snd (chat_post "https://inference.do-ai.run/v1/chat/completions" key
                                  "meta-llama/llama-3.1-70b-instruct" down_upstream
                                  demo_env req fresh))) = 500
  /\ map (header "Authorization")
         (log (snd (chat_test "https://inference.do-ai.run/v1/chat/completions" key
                              down_upstream demo_env req fresh)))
     = ["Bearer undefined"].
Proof.
  cbv zeta.
  destruct (@missing_key_stops_chat_but_not_the_test
              (Some "") None "https://inference.do-ai.run/v1/chat/completions"
              "meta-llama/llama-3.1-70b-instruct" down_upstream demo_env
              (mkReq (fun _ => JUndefined) (fun _ => None)
                     (JObj [("question", JStr "What do I like?");
                            ("snapshot", JObj [("topTracks", JArr [])])]) "http")
              fresh (mkResponse 503 "") eq_refl eq_refl eq_refl eq_refl eq_refl)
    as (H1 & H2 & H3).
  rewrite H1, H2. split; reflexivity.
Defined.

(** ** GET /debug/topcounts, when the three calls return *)

Lemma ok_not_401 (r : Response) : ok r = true -> status r <> 401.
Proof. unfold ok. intros H E. rewrite E in H. discriminate. Qed.

Section TopCounts.

Variable SPOTIFY_CLIENT_ID : string.
Variable SPOTIFY_CLIENT_SECRET : string.
Variable upstream : list Request -> Request -> result Response.

Lemma items_count_of_array (v : JSValue) (l : list JSValue) :
  get_opt v "items" = JArr l -> items_count v = Ok (JNum (Int (Z.of_nat (length l)))).
Proof.
  intro H. unfold items_count.
  destruct v; cbn in H; try discriminate.
  cbn [get]. rewrite H. cbn [get_opt get String.eqb Ascii.eqb Bool.eqb].
  unfold js_or. cbn [truthy]. destruct l; reflexivity.
Qed.

(** X29: GET /debug/topcounts counts.  When the access cookie can be
    printed and upstream answers each of the three requests, whenever it
    is asked, with a list whose [items] is an array, the route answers
    with the three lengths under [short], [medium] and [long], in the
    order of the three time ranges and whatever the order in which the
    three answers arrive; it has sent the three requests and no other,
    and leaves status and cookies as they were; an empty array counts
    0. *)
Theorem debug_topcounts_counts_the_items
        (env : Env) (req : Req) (w : World) (token : string)
        (a1 a2 a3 : Response) (t1 t2 t3 : JSValue) (l1 l2 l3 : list JSValue) :
  let short := bearer_request "/me/top/tracks?time_range=short_term&limit=50" token in
  let medium := bearer_request "/me/top/tracks?time_range=medium_term&limit=50" token in
  let long := bearer_request "/me/top/tracks?time_range=long_term&limit=50" token in
  ToString (cookies req "spotify_access_token") = Ok token ->
  (forall history, upstream history short = Ok a1) ->
  (forall history, upstream history medium = Ok a2) ->
  (forall history, upstream history long = Ok a3) ->
  ok a1 = true -> ok a2 = true -> ok a3 = true ->
  json a1 = Ok t1 -> json a2 = Ok t2 -> json a3 = Ok t3 ->
  get_opt t1 "items" = JArr l1 -> get_opt t2 "items" = JArr l2 -> get_opt t3 "items" = JArr l3 ->
  debug_topcounts SPOTIFY_CLIENT_ID SPOTIFY_CLIENT_SECRET upstream env req w
  = (Ok tt,
     mkWorld (log w ++ [short; medium; long])
             (mkRes (res_status (res w)) (res_type (res w)) (res_cookies (res w))
                    (Some (SendJson (JObj [("short", JNum (Int (Z.of_nat (length l1))));
                                           ("medium", JNum (Int (Z.of_nat (length l2))));
                                           ("long", JNum (Int (Z.of_nat (length l3))))]))))).
Proof.
  intros short medium long Hprint U1 U2 U3 O1 O2 O3 J1 J2 J3 E1 E2 E3.
  destruct (topcounts_start SPOTIFY_CLIENT_ID SPOTIFY_CLIENT_SECRET req w Hprint)
    as [k1 [k2 [k3 [Hstart Hk]]]].
  unfold topcounts_paths in Hstart. cbn [nth map] in Hstart. fold short medium long in Hstart.
  assert (K1 : k1 (Ok a1) = Done (Ok t1)).
  { destruct (Hk k1) as [H _]; [cbn; tauto|]. rewrite (H a1 (@ok_not_401 a1 O1)).
    unfold finish. now rewrite O1, J1. }
  assert (K2 : k2 (Ok a2) = Done (Ok t2)).
  { destruct (Hk k2) as [H _]; [cbn; tauto|]. rewrite (H a2 (@ok_not_401 a2 O2)).
    unfold finish. now rewrite O2, J2. }
  assert (K3 : k3 (Ok a3) = Done (Ok t3)).
  { destruct (Hk k3) as [H _]; [cbn; tauto|]. rewrite (H a3 (@ok_not_401 a3 O3)).
    unfold finish. now rewrite O3, J3. }
  clear Hk.
  assert (Hend : forall step cs w',
             rejection cs = None -> values cs = Some [t1; t2; t3] -> waiting 0 cs = [] ->
             w' = mkWorld (log w ++ [short; medium; long]) (res w) ->
             forall fuel,
             (let '(settled, (step', calls), w1) := settle upstream env fuel step cs w' in
              match settled with
              | None => (Ok tt, w1)
              | Some tops =>
                  let (r, w2) := try_catch (topcounts_block tops) json_error w1 in
                  (r, go_on upstream env 9 step' calls w2)
              end)
             = (Ok tt,
                mkWorld (log w ++ [short; medium; long])
                        (mkRes (res_status (res w)) (res_type (res w)) (res_cookies (res w))
                               (Some (SendJson
                                  (JObj [("short", JNum (Int (Z.of_nat (length l1))));
                                         ("medium", JNum (Int (Z.of_nat (length l2))));
                                         ("long", JNum (Int (Z.of_nat (length l3))))])))))).
  { intros step cs w' Hr Hv Hw -> fuel. rewrite (@settle_resolved upstream _ env fuel step cs _ _ Hr Hv).
    unfold try_catch, topcounts_block, bind, lift. cbn [nth].
    rewrite (items_count_of_array t1 E1), (items_count_of_array t2 E2),
      (items_count_of_array t3 E3).
    unfold res_json, set_res. cbn [go_on]. rewrite Hw. reflexivity. }
  unfold debug_topcounts, promise_all. rewrite Hstart.
  destruct (arrival env 0) as [|[|[|?]]] eqn:A0.
  all: erewrite settle_hears;
    [| reflexivity | reflexivity
     | rewrite A0; cbn [waiting hears existsb Nat.eqb orb]; reflexivity ].
  all: unfold deliver; cbn [nth_error log]; rewrite ?U1, ?U2, ?U3, ?K1, ?K2, ?K3;
    cbn [advance put fst snd].
  all: destruct (arrival env 1) as [|[|[|?]]] eqn:A1.
  all: erewrite settle_hears;
    [| reflexivity | reflexivity
     | rewrite A1; cbn [waiting hears existsb Nat.eqb orb]; reflexivity ].
  all: unfold deliver; cbn [nth_error log]; rewrite ?U1, ?U2, ?U3, ?K1, ?K2, ?K3;
    cbn [advance put fst snd].
  all: destruct (arrival env 2) as [|[|[|?]]] eqn:A2.
  all: erewrite settle_hears;
    [| reflexivity | reflexivity
     | rewrite A2; cbn [waiting hears existsb Nat.eqb orb]; reflexivity ].
  all: unfold deliver; cbn [nth_error log]; rewrite ?U1, ?U2, ?U3, ?K1, ?K2, ?K3;
    cbn [advance put fst snd].
  all: apply Hend; reflexivity.
Qed.

End TopCounts.

Lemma debug_topcounts_counts_the_items_witness :
  res_sent (res (snd (debug_topcounts "id" "secret" two_items_upstream demo_env
                                      (demo_req (JStr "tok") JUndefined) fresh)))
  = Some (SendJson (JObj [("short", JNum (Int 2)); ("medium", JNum (Int 2));
                          ("long", JNum (Int 2))])).
Proof.
  pose (items := JObj [("items", JArr [JObj [("id", JStr "t1")]; JObj [("id", JStr "t2")]])]).
  pose (answer := mkResponse 200 (dq "{'items':[{'id':'t1'},{'id':'t2'}]}")).
  rewrite (@debug_topcounts_counts_the_items
             "id" "secret" two_items_upstream demo_env (demo_req (JStr "tok") JUndefined) fresh
             "tok" answer answer answer items items items
             [JObj [("id", JStr "t1")]; JObj [("id", JStr "t2")]]
             [JObj [("id", JStr "t1")]; JObj [("id", JStr "t2")]]
             [JObj [("id", JStr "t1")]; JObj [("id", JStr "t2")]]).
  - reflexivity.
  - reflexivity.
  - intro history. reflexivity.
  - intro history. reflexivity.
  - intro history. reflexivity.
  - reflexivity.
  - reflexivity.
  - reflexivity.
  - vm_compute. reflexivity.
  - vm_compute. reflexivity.
  - vm_compute. reflexivity.
  - reflexivity.
  - reflexivity.
  - reflexivity.
Defined.

(** ** The corrected claims, run *)

Lemma sfetch_fetches_at_most_twice_witness :
  let req := demo_req (JStr "stale") (JStr "r1") in
  exists rest,
    sent (sfetch "id" "secret" demo_upstream req "/me") fresh
    = bearer_request "/me" "stale" :: rest
    /\ (count_url (SPOTIFY_API +++ "/me") (bearer_request "/me" "stale" :: rest) <= 2)%nat.
Proof.
  cbv zeta.
  destruct (@sfetch_fetches_at_most_twice
              "id" "secret" demo_upstream (demo_req (JStr "stale") (JStr "r1")) "/me" fresh)
    as (_ & Hle & _ & H).
  destruct (H "stale" eq_refl) as (_ & [rest Hrest] & _).
  exists rest. split; [exact Hrest|]. rewrite <- Hrest. exact Hle.
Defined.




